(** * Seanime providers: DarkMahou, Q1N, MangaLivre and AnimesROLL

    A shallow embedding of the decision logic of the provider plugins
    (episode-number inference, batch detection, page scoring, selector
    fallback, player selection, smart-search filters, chapter ordering)
    and the properties their specification states about them.

    Conventions of the embedding.
    - A JavaScript string is a sequence of UTF-16 code units.  It is modelled
      by [string]; every [ascii] stands for the code unit with the same
      number, so the model covers the strings whose code units lie in
      0..255 (the Latin-1 range, which holds the accented letters of the
      Portuguese pages the providers read).
    - A JavaScript integer-valued number is modelled by [Z]; [NaN] by [None].
      A number read by [parseFloat], and what is computed from it, is a
      binary64 value (see Numbers below).
    - [fetch], [LoadDoc] and [new Date()] are capabilities of the host: they
      are inputs of the operations (a "world"), never implemented here. *)

From Stdlib Require Import String Ascii List ZArith NArith Lia Bool Arith.
From Stdlib Require Import Sorting.Sorted Sorting.Permutation DecimalString.
From Stdlib Require Floats.SpecFloat.
Import ListNotations.
Open Scope string_scope.

(* ================================================================== *)
(** * JavaScript strings and regular expressions                       *)
(* ================================================================== *)

Module JS.

(** ** Code units *)

Definition code (c : ascii) : N := N_of_ascii c.

Definition in_range (lo hi : N) (c : ascii) : bool :=
  ((lo <=? code c) && (code c <=? hi))%N.

(** [\d] *)
Definition isDigit (c : ascii) : bool := in_range 48 57 c.

(** [\w]: [A-Za-z0-9_] *)
Definition isWord (c : ascii) : bool :=
  in_range 97 122 c || in_range 65 90 c || in_range 48 57 c || (code c =? 95)%N.

(** [\s] on the code units 0..255: TAB, LF, VT, FF, CR, SP and NBSP. *)
Definition isSpace (c : ascii) : bool :=
  in_range 9 13 c || (code c =? 32)%N || (code c =? 160)%N.

(** [String.prototype.toLowerCase] on one code unit: A-Z and the Latin-1
    capitals U+00C0..U+00DE (but not the multiplication sign U+00D7). *)
Definition lower_char (c : ascii) : ascii :=
  if in_range 65 90 c || (in_range 192 222 c && negb (code c =? 215)%N)
  then ascii_of_N (code c + 32) else c.

(** The upper-case partner used by case-insensitive matching
    (the [Canonicalize] operation of a RegExp without the [u] flag).
    U+00B5, U+00DF and U+00FF have no upper case inside one Latin-1 code
    unit and canonicalise to themselves or to a code unit no other Latin-1
    character reaches. *)
Definition upper_char (c : ascii) : ascii :=
  if in_range 97 122 c || (in_range 224 254 c && negb (code c =? 247)%N)
  then ascii_of_N (code c - 32) else c.

Fixpoint toLowerCase (s : string) : string :=
  match s with
  | EmptyString => EmptyString
  | String c s' => String (lower_char c) (toLowerCase s')
  end.

(** ** String methods *)

(** [s.startsWith(p)] *)
Definition startsWith (s p : string) : bool := String.prefix p s.

(** [s.includes(p)] *)
Fixpoint includes (s p : string) : bool :=
  String.prefix p s ||
  match s with
  | EmptyString => false
  | String _ s' => includes s' p
  end.

(** [s.trim()] *)
Fixpoint trimStart (s : string) : string :=
  match s with
  | String c s' => if isSpace c then trimStart s' else s
  | EmptyString => EmptyString
  end.

Fixpoint rev_string (s acc : string) : string :=
  match s with
  | EmptyString => acc
  | String c s' => rev_string s' (String c acc)
  end.

Definition trim (s : string) : string :=
  rev_string (trimStart (rev_string (trimStart s) "")) "".

(** Truthiness of a string: [""] is falsy. *)
Definition truthy (s : string) : bool :=
  match s with EmptyString => false | _ => true end.

(** The first [n] code units of [s]. *)
Fixpoint take (n : nat) (s : string) : string :=
  match n, s with
  | S n', String c s' => String c (take n' s')
  | _, _ => EmptyString
  end.

(** ** [parseInt]

    Without a radix: leading white space is skipped, a sign is read, then
    either the prefix [0x] and the longest run of hexadecimal digits, or the
    longest run of decimal digits; [None] is [NaN]. *)

Definition digit_val (c : ascii) : Z := (Z.of_N (code c) - 48)%Z.

Fixpoint digits_from (acc : Z) (s : string) : Z :=
  match s with
  | String c s' => if isDigit c then digits_from (acc * 10 + digit_val c)%Z s' else acc
  | EmptyString => acc
  end.

Definition hex_val (c : ascii) : option Z :=
  if isDigit c then Some (digit_val c)
  else if in_range 97 102 c then Some (Z.of_N (code c) - 87)%Z
  else if in_range 65 70 c then Some (Z.of_N (code c) - 55)%Z
  else None.

Fixpoint hex_from (acc : Z) (s : string) : Z :=
  match s with
  | String c s' =>
      match hex_val c with
      | Some v => hex_from (acc * 16 + v)%Z s'
      | None => acc
      end
  | EmptyString => acc
  end.

Definition parseUnsigned (s : string) : option Z :=
  match s with
  | String "0" (String x (String h s')) =>
      if ((code x =? 120) || (code x =? 88))%N then
        match hex_val h with
        | Some _ => Some (hex_from 0%Z (String h s'))
        | None => None
        end
      else Some (digits_from 0%Z s)
  | String "0" (String x EmptyString) =>
      if ((code x =? 120) || (code x =? 88))%N then None
      else Some (digits_from 0%Z s)
  | String c _ => if isDigit c then Some (digits_from 0%Z s) else None
  | EmptyString => None
  end.

Definition parseInt (s : string) : option Z :=
  match trimStart s with
  | String "-" s' => option_map Z.opp (parseUnsigned s')
  | String "+" s' => parseUnsigned s'
  | s' => parseUnsigned s'
  end.

(** ** Regular expressions

    The fragment the providers use: literals, character sets, greedy
    bounded repetition of a one-character matcher, sequence, alternation,
    numbered capture groups, [\b], [^] and [$], with the flag [i].
    Matching is by backtracking, in the priority order of ECMAScript. *)

Inductive citem : Type :=
| CChar (c : ascii)            (* a character *)
| CRange (lo hi : ascii)       (* [lo-hi] *)
| CDigit                       (* \d *)
| CSpace                       (* \s *)
| CWord.                       (* \w *)

(** A one-character matcher: [Lit c], or a set [[...]] / [[^...]]. *)
Inductive atom : Type :=
| Lit (c : ascii)
| Set_ (items : list citem)
| NotSet (items : list citem).

Inductive regex : Type :=
| RAtom (a : atom)
| RStr (s : string)                            (* a literal text *)
| RRep (a : atom) (lo : nat) (hi : option nat) (* a{lo,hi}, greedy *)
| RSeq (r1 r2 : regex)
| RAlt (r1 r2 : regex)
| RGroup (n : nat) (r : regex)                 (* n-th capture group *)
| RWordB                                       (* \b *)
| RBol                                         (* ^ *)
| REol.                                        (* $ *)

Definition plus (a : atom) : regex := RRep a 1 None.
Definition star (a : atom) : regex := RRep a 0 None.
Definition opt (a : atom) : regex := RRep a 0 (Some 1).
Definition digit : atom := Set_ [CDigit].
Definition space : atom := Set_ [CSpace].

Fixpoint rseq (rs : list regex) : regex :=
  match rs with
  | [] => RStr ""
  | [r] => r
  | r :: rs' => RSeq r (rseq rs')
  end.

Definition ascii_eqb (a b : ascii) : bool := (code a =? code b)%N.

(** Equality of code units, up to case under the flag [i]. *)
Definition char_eq (ic : bool) (p c : ascii) : bool :=
  if ic then ascii_eqb (upper_char p) (upper_char c) else ascii_eqb p c.

Definition citem_has (x : citem) (c : ascii) : bool :=
  match x with
  | CChar p => ascii_eqb p c
  | CRange lo hi => in_range (code lo) (code hi) c
  | CDigit => isDigit c
  | CSpace => isSpace c
  | CWord => isWord c
  end.

(** Under [i] a set holds [c] when it holds a character with the same
    canonical form: [c] itself or its partner of the other case. *)
Definition set_has (ic : bool) (items : list citem) (c : ascii) : bool :=
  existsb (fun x => citem_has x c ||
                    (ic && (citem_has x (upper_char c) || citem_has x (lower_char c))))
          items.

Definition atom_has (ic : bool) (a : atom) (c : ascii) : bool :=
  match a with
  | Lit p => char_eq ic p c
  | Set_ items => set_has ic items c
  | NotSet items => negb (set_has ic items c)
  end.

(** Captures: the text of each group that took part in the match. *)
Definition captures : Type := list (nat * string).

Fixpoint capture (n : nat) (cs : captures) : option string :=
  match cs with
  | [] => None
  | (m, s) :: cs' => if Nat.eqb m n then Some s else capture n cs'
  end.

Section Matcher.

Variable R : Type.
Variable ic : bool.

(** A position in the subject: the code unit before it (none at the
    start) and the text after it. *)
Definition cont : Type := option ascii -> string -> captures -> option R.

Definition at_boundary (prev : option ascii) (s : string) : bool :=
  let before := match prev with Some c => isWord c | None => false end in
  let after := match s with String c _ => isWord c | EmptyString => false end in
  xorb before after.

(** Literal text. *)
Fixpoint match_str (p : string) (prev : option ascii) (s : string)
         (cs : captures) (k : cont) : option R :=
  match p with
  | EmptyString => k prev s cs
  | String pc p' =>
      match s with
      | String c s' => if char_eq ic pc c then match_str p' (Some c) s' cs k else None
      | EmptyString => None
      end
  end.

(** Greedy repetition: take one more character when allowed and try the
    rest; on failure stop here when the lower bound is reached. *)
Fixpoint match_rep (a : atom) (lo : nat) (hi : option nat)
         (prev : option ascii) (s : string) (cs : captures) (k : cont) : option R :=
  let stop := if Nat.eqb lo 0 then k prev s cs else None in
  let more := match hi with Some 0 => false | _ => true end in
  match s with
  | String c s' =>
      if more && atom_has ic a c then
        match match_rep a (Nat.pred lo) (option_map Nat.pred hi) (Some c) s' cs k with
        | Some r => Some r
        | None => stop
        end
      else stop
  | EmptyString => stop
  end.

Fixpoint rmatch (r : regex) (prev : option ascii) (s : string)
         (cs : captures) (k : cont) : option R :=
  match r with
  | RAtom a =>
      match s with
      | String c s' => if atom_has ic a c then k (Some c) s' cs else None
      | EmptyString => None
      end
  | RStr p => match_str p prev s cs k
  | RRep a lo hi => match_rep a lo hi prev s cs k
  | RSeq r1 r2 =>
      rmatch r1 prev s cs (fun prev' s' cs' => rmatch r2 prev' s' cs' k)
  | RAlt r1 r2 =>
      match rmatch r1 prev s cs k with
      | Some x => Some x
      | None => rmatch r2 prev s cs k
      end
  | RGroup n r1 =>
      rmatch r1 prev s cs
             (fun prev' s' cs' =>
                k prev' s' ((n, take (String.length s - String.length s') s) :: cs'))
  | RWordB => if at_boundary prev s then k prev s cs else None
  | RBol => match prev with None => k prev s cs | Some _ => None end
  | REol => match s with EmptyString => k prev s cs | _ => None end
  end.

End Matcher.

(** A match: the matched text, the captures and the text left after it. *)
Record rmatch_result : Type := MkMatch {
  matched : string;
  groups : captures;
  rest : string
}.

(** [m[n]] of a match array. *)
Definition group (n : nat) (m : rmatch_result) : option string :=
  capture n (groups m).

(** A match that starts exactly at the given position. *)
Definition match_here (ic : bool) (r : regex) (prev : option ascii) (s : string)
  : option rmatch_result :=
  rmatch rmatch_result ic r prev s []
         (fun _ s' cs => Some (MkMatch (take (String.length s - String.length s') s) cs s')).

(** The leftmost match at or after the position: [RegExp.prototype.exec]
    of a regex without the flag [g], from the position on. *)
Fixpoint search_from (ic : bool) (r : regex) (prev : option ascii) (s : string)
  : option rmatch_result :=
  match match_here ic r prev s with
  | Some m => Some m
  | None =>
      match s with
      | String c s' => search_from ic r (Some c) s'
      | EmptyString => None
      end
  end.

(** [s.match(r)] for [r] without the flag [g]. *)
Definition js_match (ic : bool) (r : regex) (s : string) : option rmatch_result :=
  search_from ic r None s.

(** [r.test(s)] *)
Definition test (ic : bool) (r : regex) (s : string) : bool :=
  match js_match ic r s with Some _ => true | None => false end.

(** Every match of a regex with the flag [g], from left to right: the
    successive results of [exec] while [lastIndex] moves on ([skip] counts
    the code units of the current match still to pass; after an empty match
    the search resumes one code unit further, as [exec] callers and
    [String.prototype.match] do). *)
Fixpoint scan (ic : bool) (r : regex) (prev : option ascii) (s : string) (skip : nat)
  : list rmatch_result :=
  match skip with
  | S n =>
      match s with
      | String c s' => scan ic r (Some c) s' n
      | EmptyString => []
      end
  | O =>
      match match_here ic r prev s with
      | Some m =>
          m :: match s with
               | String c s' => scan ic r (Some c) s' (Nat.pred (String.length (matched m)))
               | EmptyString => []
               end
      | None =>
          match s with
          | String c s' => scan ic r (Some c) s' 0
          | EmptyString => []
          end
      end
  end.

(** The matches of [r] (flag [g]) in [s], as an [exec] loop yields them. *)
Definition exec_all (ic : bool) (r : regex) (s : string) : list rmatch_result :=
  scan ic r None s 0.

(** [s.match(r)] for [r] with the flag [g]: the matched texts
    ([null] when there is none is the empty list here). *)
Definition match_all (ic : bool) (r : regex) (s : string) : list string :=
  map matched (exec_all ic r s).

(** [s.replace(r, by)] for [r] with the flag [g]; [by_] computes the
    replacement from the match, as a replacer function or a replacement
    pattern with [$1] does. *)
Fixpoint replace_scan (ic : bool) (r : regex) (by_ : rmatch_result -> string)
         (prev : option ascii) (s : string) (skip : nat) : string :=
  match skip with
  | S n =>
      match s with
      | String c s' => replace_scan ic r by_ (Some c) s' n
      | EmptyString => EmptyString
      end
  | O =>
      match match_here ic r prev s with
      | Some m =>
          by_ m ++
          match String.length (matched m), s with
          | O, String c s' => String c (replace_scan ic r by_ (Some c) s' 0)
          | S n, String c s' => replace_scan ic r by_ (Some c) s' n
          | _, EmptyString => EmptyString
          end
      | None =>
          match s with
          | String c s' => String c (replace_scan ic r by_ (Some c) s' 0)
          | EmptyString => EmptyString
          end
      end
  end.

Definition replace_all (ic : bool) (r : regex) (by_ : rmatch_result -> string)
           (s : string) : string :=
  replace_scan ic r by_ None s 0.

(** [m[n]] spliced into a text: an absent group gives the empty text. *)
Definition group_text (n : nat) (m : rmatch_result) : string :=
  match group n m with Some s => s | None => EmptyString end.

(** ** [Array.prototype.sort]

    The sort is stable (ECMAScript 2019).  With a consistent comparator its
    result is the one of every stable sort; it is modelled by insertion
    from the right, which keeps the earlier of two elements the comparator
    does not separate in front. [cmp a b] is the sign test the sort makes on
    the comparator's result: [true] when it is positive ([a] goes after
    [b]). *)

Section Sort.
Variable A : Type.
Variable after : A -> A -> bool.

Fixpoint insert_sorted (x : A) (l : list A) : list A :=
  match l with
  | [] => [x]
  | y :: l' => if after x y then y :: insert_sorted x l' else x :: l
  end.

Definition sort (l : list A) : list A := fold_right insert_sorted [] l.
End Sort.

Arguments insert_sorted {A}.
Arguments sort {A}.

(** ** Completions: a call returns normally or throws. *)

Inductive completion (A : Type) : Type :=
| Normal (a : A)
| Throw (error : string).

Arguments Normal {A}.
Arguments Throw {A}.

Definition bind {A B : Type} (c : completion A) (k : A -> completion B) : completion B :=
  match c with
  | Normal a => k a
  | Throw e => Throw e
  end.

(** [try { c } catch (error) { handler(error) }] *)
Definition try_catch {A : Type} (c : completion A) (handler : string -> completion A)
  : completion A :=
  match c with
  | Normal a => Normal a
  | Throw e => handler e
  end.

Declare Scope js_scope.
Delimit Scope js_scope with js.
Notation "x <- c ;; k" := (bind c (fun x => k))
  (at level 61, c at next level, right associativity) : js_scope.

(** ** Pattern objects with the flag [g]

    A pattern with the flag [g] is an object that keeps [lastIndex], the
    index at which its next [exec] starts.  A pattern that is declared once
    and shared by the calls of an operation carries its [lastIndex] from
    one call to the next. *)

(** The position [i] code units into a text: the code unit before it and
    the text after it; none beyond the end. *)
Fixpoint seek (i : nat) (prev : option ascii) (s : string)
  : option (option ascii * string) :=
  match i with
  | O => Some (prev, s)
  | S j =>
      match s with
      | String c s' => seek j (Some c) s'
      | EmptyString => None
      end
  end.

(** The leftmost match at or after a position whose index is [pos], with
    the index of the end of the match. *)
Fixpoint search_index (ic : bool) (r : regex) (prev : option ascii) (s : string)
         (pos : nat) : option (rmatch_result * nat) :=
  match match_here ic r prev s with
  | Some m => Some (m, (pos + String.length (matched m))%nat)
  | None =>
      match s with
      | String c s' => search_index ic r (Some c) s' (S pos)
      | EmptyString => None
      end
  end.

(** [r.exec(s)] for [r] with the flag [g] and the given [lastIndex]: the
    match found and the new [lastIndex], the index of the end of the
    match; [null] and 0 when there is no match from [lastIndex] on or
    [lastIndex] is beyond the end of the text. *)
Definition exec (ic : bool) (r : regex) (s : string) (lastIndex : nat)
  : option rmatch_result * nat :=
  match seek lastIndex None s with
  | Some (prev, suffix) =>
      match search_index ic r prev suffix lastIndex with
      | Some (m, e) => (Some m, e)
      | None => (None, 0%nat)
      end
  | None => (None, 0%nat)
  end.

(** [while ((m = r.exec(s)) !== null) { body }] for [r] with the flag [g].
    The body works on objects it changes in place: it gives their state
    after the turn and the error it threw, if any.  The loop gives the
    state at its end, the error that ended it, if any, and the [lastIndex]
    it leaves behind: a body that throws leaves the loop at once, with
    [lastIndex] at the end of the current match.  [fuel] bounds the number
    of turns; [None] when it runs out. *)
Fixpoint exec_loop {A : Type} (fuel : nat) (ic : bool) (r : regex) (s : string)
         (body : rmatch_result -> A -> A * option string) (lastIndex : nat) (acc : A)
  : option (A * option string * nat) :=
  match fuel with
  | O => None
  | S fuel' =>
      match exec ic r s lastIndex with
      | (None, lastIndex') => Some (acc, None, lastIndex')
      | (Some m, lastIndex') =>
          match body m acc with
          | (acc', None) => exec_loop fuel' ic r s body lastIndex' acc'
          | (acc', Some error) => Some (acc', Some error, lastIndex')
          end
      end
  end.

(** A pattern that matches no empty text: [exec] moves [lastIndex] on at
    each of its matches. *)
Definition never_empty (ic : bool) (r : regex) : Prop :=
  forall prev s m, match_here ic r prev s = Some m -> matched m <> "".

(** The least number of code units a match of the pattern takes. *)
Fixpoint min_len (r : regex) : nat :=
  match r with
  | RAtom _ => 1
  | RStr p => String.length p
  | RRep _ lo _ => lo
  | RSeq r1 r2 => min_len r1 + min_len r2
  | RAlt r1 r2 => Nat.min (min_len r1) (min_len r2)
  | RGroup _ r1 => min_len r1
  | RWordB | RBol | REol => 0
  end.

(** ** The host's capabilities *)

(** What [fetch] resolves to: [response.ok], [response.status] and the
    body [response.text()] reads. *)
Record Response : Type := MkResponse {
  ok : bool;
  status : Z;
  statusText : string;
  body : string
}.

(** A node of a document parsed by [LoadDoc]: a selection of one element,
    with its text, its attributes and the elements [find] selects below it. *)
#[warnings="-register-all"]
Inductive Element : Type :=
| MkElement (text : string) (attrs : list (string * string))
            (find : string -> list Element) (parent : option (list (string * string))).

Definition text_of (e : Element) : string :=
  match e with MkElement t _ _ _ => t end.
Definition attrs_of (e : Element) : list (string * string) :=
  match e with MkElement _ a _ _ => a end.
Definition find (e : Element) (selector : string) : list Element :=
  match e with MkElement _ _ f _ => f selector end.
(** The attributes of the parent element, for [element.parent().attr(...)]. *)
Definition parent_attrs (e : Element) : option (list (string * string)) :=
  match e with MkElement _ _ _ p => p end.

Fixpoint lookup_attr (name : string) (attrs : list (string * string)) : option string :=
  match attrs with
  | [] => None
  | (k, v) :: more => if String.eqb k name then Some v else lookup_attr name more
  end.

(** A selection is a list of elements, in document order. *)
Definition Selection : Type := list Element.

(** [selection.first()] *)
Definition first (sel : Selection) : Selection :=
  match sel with [] => [] | e :: _ => [e] end.

(** [selection.text()]: the texts of the selected elements, joined. *)
Definition text (sel : Selection) : string :=
  fold_right (fun e acc => text_of e ++ acc) EmptyString sel.

(** [selection.attr(name)]: the attribute of the first selected element;
    [None] is [undefined]. *)
Definition attr (sel : Selection) (name : string) : option string :=
  match sel with
  | [] => None
  | e :: _ => lookup_attr name (attrs_of e)
  end.

(** [selection.find(selector)] *)
Definition find_all (sel : Selection) (selector : string) : Selection :=
  flat_map (fun e => find e selector) sel.

(** The document function [$] that [LoadDoc(html)] returns. *)
Definition Document : Type := string -> Selection.

(** [a || b] on values that may be absent: the first that is truthy,
    else the second. *)
Definition or_else_opt (a b : option string) : option string :=
  match a with
  | Some s => if truthy s then a else b
  | None => b
  end.

(** ** [Map]: the entries in the order of their insertion. *)

Definition JsMap : Type := list (string * string).

Fixpoint map_get (key : string) (m : JsMap) : option string :=
  match m with
  | [] => None
  | (k, v) :: m' => if String.eqb k key then Some v else map_get key m'
  end.

(** [m.set(key, value)]: a known key keeps its place, a new one goes last. *)
Fixpoint map_set (key value : string) (m : JsMap) : JsMap :=
  match m with
  | [] => [(key, value)]
  | (k, v) :: m' =>
      if String.eqb k key then (k, value) :: m' else (k, v) :: map_set key value m'
  end.

Definition map_has (key : string) (m : JsMap) : bool :=
  match map_get key m with Some _ => true | None => false end.

(** [m.values().next().value]: the value inserted first, if any. *)
Definition map_first_value (m : JsMap) : option string :=
  match m with
  | [] => None
  | (_, v) :: _ => Some v
  end.

(** The capabilities an operation gets from the host.
    - [fetch method url]: the response, or the error of a rejected request;
    - [LoadDoc html]: the document function, [None] when what it returns is
      not a function, or the error it throws;
    - [now n]: what [new Date().toISOString()] gives at the [n]-th reading
      of the clock during the call;
    - [decodeURIComponent]: the decoded text, or the [URIError]. *)
Record Host : Type := MkHost {
  fetch : string -> string -> completion Response;
  LoadDoc : string -> completion (option Document);
  now : nat -> string;
  decodeURIComponent : string -> completion string
}.

(** [encodeURIComponent]: the unreserved characters stay, every other
    code point is written as the bytes of its UTF-8 form, in upper-case
    hexadecimal.  A code unit of a surrogate pair that stands alone makes
    the built-in throw a [URIError].  No code unit of the texts modelled
    here (0..255) is a surrogate, so on them the built-in gives a result;
    the type keeps the place of the error, and a caller is modelled with
    the call inside or outside its [try] as the source has it. *)
Definition unreserved (c : ascii) : bool :=
  in_range 65 90 c || in_range 97 122 c || in_range 48 57 c ||
  existsb (ascii_eqb c) ["-"; "_"; "."; "!"; "~"; "*"; "'"; "("; ")"]%char.

Definition hex_digit (n : N) : ascii :=
  if (n <? 10)%N then ascii_of_N (48 + n) else ascii_of_N (55 + n).

Definition percent (byte : N) : string :=
  String "%" (String (hex_digit (byte / 16)) (String (hex_digit (byte mod 16)) EmptyString)).

(** The bytes of the UTF-8 form of a code point, each as [%XX]. *)
Definition utf8 (cp : N) : string :=
  if (cp <? 128)%N then percent cp
  else if (cp <? 2048)%N then percent (192 + cp / 64) ++ percent (128 + cp mod 64)
  else if (cp <? 65536)%N
  then percent (224 + cp / 4096) ++ percent (128 + (cp / 64) mod 64) ++
       percent (128 + cp mod 64)
  else percent (240 + cp / 262144) ++ percent (128 + (cp / 4096) mod 64) ++
       percent (128 + (cp / 64) mod 64) ++ percent (128 + cp mod 64).

(** The code units U+D800..U+DBFF and U+DC00..U+DFFF. *)
Definition is_high_surrogate (c : ascii) : bool := in_range 55296 56319 c.
Definition is_low_surrogate (c : ascii) : bool := in_range 56320 57343 c.

Definition URI_MALFORMED : string := "URIError: URI malformed".

Fixpoint encodeURIComponent (s : string) : completion string :=
  match s with
  | EmptyString => Normal EmptyString
  | String c s' =>
      if unreserved c
      then (rest <- encodeURIComponent s' ;; Normal (String c rest))%js
      else if is_low_surrogate c then Throw URI_MALFORMED
      else if is_high_surrogate c then
        match s' with
        | String d s'' =>
            if is_low_surrogate d
            then (rest <- encodeURIComponent s'' ;;
                  Normal (utf8 ((code c - 55296) * 1024 + (code d - 56320) + 65536) ++ rest))%js
            else Throw URI_MALFORMED
        | EmptyString => Throw URI_MALFORMED
        end
      else (rest <- encodeURIComponent s' ;; Normal (utf8 (code c) ++ rest))%js
  end.

(** [s.replace(p, by)] for a text [p]: the first occurrence only. *)
Fixpoint drop (n : nat) (s : string) : string :=
  match n, s with
  | S n', String _ s' => drop n' s'
  | _, _ => s
  end.

Fixpoint replace_first (p by_ : string) (s : string) : string :=
  if String.prefix p s then by_ ++ drop (String.length p) s
  else
    match s with
    | EmptyString => EmptyString
    | String c s' => String c (replace_first p by_ s')
    end.

(** A number spliced into a text. *)
Definition string_of_nat (n : nat) : string :=
  NilEmpty.string_of_uint (Nat.to_uint n).

(** The elements of a list with their index, as [forEach] and [map] pass
    them. *)
Fixpoint indexed_from {A : Type} (i : nat) (l : list A) : list (nat * A) :=
  match l with
  | [] => []
  | x :: l' => (i, x) :: indexed_from (S i) l'
  end.

Definition indexed {A : Type} (l : list A) : list (nat * A) := indexed_from 0 l.

(** ** Numbers

    A JavaScript number is a binary64 value: [NaN], an infinity, a zero or
    [(-1)^s * m * 2^e].  The values and the arithmetic on them are those of
    the specification of the IEEE 754 operations in the standard library,
    at precision 53 and largest exponent 1024, rounding to nearest, ties to
    even. *)
Definition prec : Z := 53.
Definition emax : Z := 1024.

Definition number : Type := SpecFloat.spec_float.
Definition NaN : number := SpecFloat.S754_nan.
Definition Infinity (negative : bool) : number := SpecFloat.S754_infinity negative.

(** The binary64 value nearest to [m * 10^e], for [m] not negative: the
    mathematical value of a decimal literal, rounded once.  It is the
    quotient of the two integers [m * 10^max(e,0)] and [10^max(-e,0)]. *)
Definition binary64 (m e : Z) : number :=
  match m with
  | Zpos p =>
      SpecFloat.SFdiv prec emax
        (SpecFloat.S754_finite false (Z.to_pos (Zpos p * 10 ^ Z.max e 0)) 0)
        (SpecFloat.S754_finite false (Z.to_pos (10 ^ Z.max (- e) 0)) 0)
  | _ => SpecFloat.S754_zero false
  end.

(** [a - b] *)
Definition difference (a b : number) : number := SpecFloat.SFsub prec emax a b.

(** [a - b > 0]: the test [Array.prototype.sort] makes on the result of the
    comparator [numA - numB]; a [NaN] result counts as 0. *)
Definition difference_positive (a b : number) : bool :=
  SpecFloat.SFltb (SpecFloat.S754_zero false) (difference a b).

(** The digits at the head of a text: their value, their count, the rest. *)
Fixpoint read_digits (acc : Z) (n : Z) (s : string) : Z * Z * string :=
  match s with
  | String c s' =>
      if isDigit c then read_digits (acc * 10 + digit_val c)%Z (n + 1)%Z s'
      else (acc, n, s)
  | EmptyString => (acc, n, s)
  end.

(** The exponent part [e[+-]digits], when it is complete. *)
Definition read_exponent (s : string) : Z :=
  match s with
  | String x s' =>
      if ((code x =? 101) || (code x =? 69))%N then
        match s' with
        | String "-" s'' =>
            let '(v, n, _) := read_digits 0 0 s'' in
            if (n =? 0)%Z then 0%Z else (- v)%Z
        | String "+" s'' =>
            let '(v, n, _) := read_digits 0 0 s'' in
            if (n =? 0)%Z then 0%Z else v
        | _ =>
            let '(v, n, _) := read_digits 0 0 s' in
            if (n =? 0)%Z then 0%Z else v
        end
      else 0%Z
  | EmptyString => 0%Z
  end.

(** An unsigned [StrDecimalLiteral] at the head of the text. *)
Definition read_unsigned (s : string) : number :=
  if String.prefix "Infinity" s then Infinity false
  else
    let '(int_part, int_count, after_int) := read_digits 0 0 s in
    match after_int with
    | String "." after_dot =>
        let '(all, frac_count, after_frac) := read_digits int_part 0 after_dot in
        if ((int_count =? 0) && (frac_count =? 0))%Z then NaN
        else binary64 all (read_exponent after_frac - frac_count)
    | _ =>
        if (int_count =? 0)%Z then NaN
        else binary64 int_part (read_exponent after_int)
    end.

Definition negate (x : number) : number := SpecFloat.SFopp x.

Definition parseFloat (s : string) : number :=
  match trimStart s with
  | String "-" s' => negate (read_unsigned s')
  | String "+" s' => read_unsigned s'
  | s' => read_unsigned s'
  end.

(** The number of an integer: [parseInt] of a long run of digits gives the
    nearest binary64 number. *)
Definition number_of_Z (n : Z) : number :=
  match n with
  | Zneg p => SpecFloat.SFopp (binary64 (Zpos p) 0)
  | _ => binary64 n 0
  end.

(** [a === b], [a > b] and [a < b] on numbers. *)
Definition number_eqb (a b : number) : bool := SpecFloat.SFeqb a b.
Definition number_ltb (a b : number) : bool := SpecFloat.SFltb a b.

(** A number is falsy when it is a zero or [NaN]. *)
Definition number_truthy (x : number) : bool :=
  match x with
  | SpecFloat.S754_zero _ | SpecFloat.S754_nan => false
  | _ => true
  end.

End JS.

(* ================================================================== *)
(** * DarkMahou: the torrent provider                                  *)
(* ================================================================== *)

Module DarkMahou.
Import JS.

(** ** Configuration ([PROVIDER_CONFIG]) *)

Definition API_BASE_URL : string := "https://darkmahou.org".
Definition MAX_EPISODE_NUMBER : Z := 9999.
Definition MIN_EPISODE_NUMBER : Z := 1.
Definition MAX_YEAR : Z := 2000.
Definition COMMON_RESOLUTIONS : list Z := [480; 720; 1080]%Z.
Definition MAX_BATCH_EPISODES : Z := 999.

(** ** Patterns ([REGEX_PATTERNS]); the flag [i] is given where a pattern
    is used, the flag [g] by the use of [exec_all] or [match_all]. *)

Definition hexdigit : atom :=
  Set_ [CRange "a" "f"; CRange "A" "F"; CRange "0" "9"].

(** [/btih:([a-fA-F0-9]{40})/i] *)
Definition INFO_HASH : regex :=
  RSeq (RStr "btih:") (RGroup 1 (RRep hexdigit 40 (Some 40))).

(** [/\b(\d{3,4}p)\b/i] *)
Definition RESOLUTION : regex :=
  rseq [RWordB; RGroup 1 (RSeq (RRep digit 3 (Some 4)) (RStr "p")); RWordB].

(** [/^\[([^\]]+)\]/] *)
Definition RELEASE_GROUP : regex :=
  rseq [RBol; RStr "["; RGroup 1 (plus (NotSet [CChar "]"])); RStr "]"].

(** [/\b(\d{2,3})\s*[-~]\s*(\d{2,3})\b/] *)
Definition EPISODE_RANGE : regex :=
  rseq [RWordB; RGroup 1 (RRep digit 2 (Some 3)); star space;
        RAtom (Set_ [CChar "-"; CChar "~"]); star space;
        RGroup 2 (RRep digit 2 (Some 3)); RWordB].

(** [/S(\d+)E(\d+)/i] *)
Definition SEASON_EPISODE : regex :=
  rseq [RStr "S"; RGroup 1 (plus digit); RStr "E"; RGroup 2 (plus digit)].

(** [/\s-\s(\d{1,4})\s/] *)
Definition EPISODE_DASH : regex :=
  rseq [RAtom space; RStr "-"; RAtom space;
        RGroup 1 (RRep digit 1 (Some 4)); RAtom space].

(** [/\b(\d{1,4})\b/g] *)
Definition EPISODE_NUMBER : regex :=
  rseq [RWordB; RGroup 1 (RRep digit 1 (Some 4)); RWordB].

(** [/episódio\s+(\d+)/i]; the letter o with acute accent is U+00F3. *)
Definition PORTUGUESE : regex :=
  rseq [RStr "epis"; RAtom (Lit "243"); RStr "dio"; plus space; RGroup 1 (plus digit)].

(** [/(?:ep|episode)\s*(\d+)/i] *)
Definition ENGLISH : regex :=
  rseq [RAlt (RStr "ep") (RStr "episode"); star space; RGroup 1 (plus digit)].

(** [/\bs\d+\b/] *)
Definition SEASON_TOKEN : regex :=
  rseq [RWordB; RStr "s"; plus digit; RWordB].

(** [/\bs\d+e\d+\b/] *)
Definition SEASON_EPISODE_TOKEN : regex :=
  rseq [RWordB; RStr "s"; plus digit; RStr "e"; plus digit; RWordB].

(** [/\s-\s\d{1,3}(\s|$)/] *)
Definition INDIVIDUAL_EPISODE : regex :=
  rseq [RAtom space; RStr "-"; RAtom space; RRep digit 1 (Some 3);
        RGroup 1 (RAlt (RAtom space) REol)].

(** [/^[a-fA-F0-9]{40}$/] *)
Definition INFO_HASH_ONLY : regex :=
  rseq [RBol; RRep hexdigit 40 (Some 40); REol].

(** ** Type guards *)

Definition isValidMagnetLink (link : string) : bool :=
  startsWith link "magnet:?" && (20 <? String.length link)%nat.

Definition isValidInfoHash (hash : string) : bool :=
  test false INFO_HASH_ONLY hash.

(** [num >= MIN_EPISODE_NUMBER && num <= MAX_EPISODE_NUMBER]; every
    comparison with [NaN] is false. *)
Definition isValidEpisodeNumber (num : option Z) : bool :=
  match num with
  | Some n => (n >=? MIN_EPISODE_NUMBER)%Z && (n <=? MAX_EPISODE_NUMBER)%Z
  | None => false
  end.

(** [parseInt(m[n])]: an absent group is [undefined], which parses to [NaN]. *)
Definition parseIntGroup (n : nat) (m : rmatch_result) : option Z :=
  match group n m with
  | Some s => parseInt s
  | None => None
  end.

(** ** [TorrentParser] *)

Module TorrentParser.

Definition extractInfoHash (magnetLink : string) : string :=
  if negb (isValidMagnetLink magnetLink) then ""
  else
    match js_match true INFO_HASH magnetLink with
    | Some m =>
        match group 1 m with
        | Some hash => if truthy hash && isValidInfoHash hash then hash else ""
        | None => ""
        end
    | None => ""
    end.

Definition validResolutions : list string := ["480p"; "720p"; "1080p"; "1440p"; "4K"].

Definition parseResolution (name : string) : string :=
  match js_match true RESOLUTION name with
  | Some m =>
      match group 1 m with
      | Some resolution =>
          if existsb (String.eqb resolution) validResolutions then resolution else ""
      | None => ""
      end
  | None => ""
  end.

Definition extractReleaseGroup (name : string) : string :=
  match js_match false RELEASE_GROUP name with
  | Some m => match group 1 m with Some g => g | None => "" end
  | None => ""
  end.

Definition isBatchTorrent (name episodeTitle : string) : bool :=
  let lowerName := toLowerCase name in
  let lowerTitle := toLowerCase episodeTitle in
  (* Explicit batch indicators *)
  if includes lowerName "batch" || includes lowerName "complete" ||
     includes lowerTitle "~"
  then true
  else
    (* Episode ranges validation *)
    let inRange :=
      match js_match false EPISODE_RANGE name with
      | Some rangeMatch =>
          match parseIntGroup 1 rangeMatch, parseIntGroup 2 rangeMatch with
          | Some start, Some end_ =>
              (end_ >? start)%Z && (start >=? MIN_EPISODE_NUMBER)%Z &&
              (end_ <=? MAX_BATCH_EPISODES)%Z
          | _, _ => false
          end
      | None => false
      end in
    if inRange then true
    else
      (* Season without episode patterns *)
      if test false SEASON_TOKEN lowerName &&
         negb (test false SEASON_EPISODE_TOKEN lowerName)
      then true
      else
        (* Individual episodes are NOT batches *)
        if test false INDIVIDUAL_EPISODE name then false
        else false.

Definition tryExtractFromPattern (ic : bool) (text : string) (pattern : regex)
  : option Z :=
  match js_match ic pattern text with
  | Some m =>
      let num := parseIntGroup 1 m in
      if isValidEpisodeNumber num then num else None
  | None => None
  end.

Definition tryExtractFromSeasonEpisode (name : string) : option Z :=
  match js_match true SEASON_EPISODE name with
  | Some m =>
      let episodeNum := parseIntGroup 2 m in
      if isValidEpisodeNumber episodeNum then episodeNum else None
  | None => None
  end.

Definition isValidEpisodeForIsolation (num : option Z) : bool :=
  isValidEpisodeNumber num &&
  negb (match num with
        | Some n => existsb (Z.eqb n) COMMON_RESOLUTIONS
        | None => false
        end) &&
  match num with Some n => (n <? MAX_YEAR)%Z | None => false end.

(** The [for ... of matches] loop: the first number that passes. *)
Fixpoint firstIsolated (matches : list string) : option Z :=
  match matches with
  | [] => None
  | numStr :: more =>
      let num := parseInt numStr in
      if isValidEpisodeForIsolation num then num else firstIsolated more
  end.

Definition tryExtractFromIsolatedNumbers (name : string) : option Z :=
  firstIsolated (match_all false EPISODE_NUMBER name).

(** The strategies are closures, run one after the other until one gives a
    result that is not [null]. *)
Definition extractionStrategies (name episodeTitle : string)
  : list (unit -> option Z) :=
  [ (fun _ => tryExtractFromPattern true episodeTitle PORTUGUESE);
    (fun _ => tryExtractFromPattern false name EPISODE_DASH);
    (fun _ => tryExtractFromSeasonEpisode name);
    (fun _ => tryExtractFromPattern true name ENGLISH);
    (fun _ => tryExtractFromIsolatedNumbers name) ].

Fixpoint runStrategies (strategies : list (unit -> option Z)) : Z :=
  match strategies with
  | [] => (-1)%Z
  | strategy :: more =>
      match strategy tt with
      | Some result => result
      | None => runStrategies more
      end
  end.

Definition extractEpisodeNumber (name episodeTitle : string) : Z :=
  if isBatchTorrent name episodeTitle then (-1)%Z
  else runStrategies (extractionStrategies name episodeTitle).

End TorrentParser.

(** ** [PortugueseTranslator] *)

Module PortugueseTranslator.

(** The feminine ordinal indicator, U+00AA. *)
Definition ord_a : string := String "170" EmptyString.

Definition ORDINAL_NUMBERS : list (string * string) :=
  [ ("first", "1" ++ ord_a); ("second", "2" ++ ord_a); ("third", "3" ++ ord_a);
    ("fourth", "4" ++ ord_a); ("fifth", "5" ++ ord_a) ].

Definition TERMS : list (string * string) :=
  [ ("movie", "filme"); ("ova", "ova"); ("special", "especial") ].

(** [/\b(\d+)(?:st|nd|rd|th)\s+season\b/gi] *)
Definition SEASON_ORDINAL : regex :=
  rseq [RWordB; RGroup 1 (plus digit);
        RAlt (RStr "st") (RAlt (RStr "nd") (RAlt (RStr "rd") (RStr "th")));
        plus space; RStr "season"; RWordB].

(** [/\bseason\s+(\d+)\b/gi] *)
Definition SEASON_NUMBER : regex :=
  rseq [RWordB; RStr "season"; plus space; RGroup 1 (plus digit); RWordB].

(** [/\bpart\s+(\d+)\b/gi] *)
Definition PART_NUMBER : regex :=
  rseq [RWordB; RStr "part"; plus space; RGroup 1 (plus digit); RWordB].

Definition seasonOrdinal (query : string) : string :=
  replace_all true SEASON_ORDINAL (fun m => group_text 1 m ++ ord_a ++ " temporada") query.

Definition seasonNumber (query : string) : string :=
  replace_all true SEASON_NUMBER (fun m => group_text 1 m ++ ord_a ++ " temporada") query.

Definition ordinalNumbers (query : string) : string :=
  fold_left
    (fun result entry =>
       let '(english, portuguese) := entry in
       let regex := rseq [RWordB; RStr english; plus space; RStr "season"; RWordB] in
       replace_all true regex (fun _ => portuguese ++ " temporada") result)
    ORDINAL_NUMBERS query.

Definition commonTerms (query : string) : string :=
  fold_left
    (fun result entry =>
       let '(english, portuguese) := entry in
       let regex := rseq [RWordB; RStr english; RWordB] in
       replace_all true regex (fun _ => portuguese) result)
    TERMS query.

Definition partNumbers (query : string) : string :=
  replace_all true PART_NUMBER (fun m => "parte " ++ group_text 1 m) query.

Definition normalize (query : string) : string :=
  trim (replace_all false (plus space) (fun _ => " ") query).

Definition TRANSLATION_RULES : list (string -> string) :=
  [seasonOrdinal; seasonNumber; ordinalNumbers; commonTerms; partNumbers; normalize].

Definition convertQuery (query : string) : string :=
  fold_left (fun acc rule => rule acc) TRANSLATION_RULES query.

Definition parse (input : string) : string := convertQuery input.

End PortugueseTranslator.

(** ** [AnimePageExtractor] *)

Definition EXCLUDED_URL_PATTERNS : list string :=
  [ "/?s="; "/tag/"; "/blog/"; "/contato"; "/az-lists";
    "/em-breve"; "/animes-populares"; "/categoria"; "/genero" ].

Definition dquote : ascii := "034".

(** The pattern of an anchor that carries the address of an anime page
    and a title (flags [gi]), the double quote written Q here:
    [<a[^>]+href=Q(https:\/\/darkmahou\.org\/[^\/]+\/)Q[^>]*title=Q([^Q]* )Q[^>]*>] *)
Definition ANIME_PAGE_LINK : regex :=
  rseq [RStr "<a"; plus (NotSet [CChar ">"]); RStr "href="; RAtom (Lit dquote);
        RGroup 1 (rseq [RStr "https://darkmahou.org/"; plus (NotSet [CChar "/"]); RStr "/"]);
        RAtom (Lit dquote); star (NotSet [CChar ">"]); RStr "title="; RAtom (Lit dquote);
        RGroup 2 (star (NotSet [CChar dquote]));
        RAtom (Lit dquote); star (NotSet [CChar ">"]); RStr ">"].

Record ScoreMatch : Type := MkScoreMatch {
  sm_url : string;
  sm_title : string;
  score : Z
}.

Module AnimePageExtractor.

Definition shouldSkipURL (url : string) : bool :=
  existsb (fun pattern => includes url pattern) EXCLUDED_URL_PATTERNS.

Definition calculateMatchScore (query title url : string) : Z :=
  let queryLower := toLowerCase query in
  let titleLower := toLowerCase title in
  let urlLower := toLowerCase url in
  (* Exact title match gets highest score *)
  if String.eqb titleLower queryLower then 100%Z
  (* Title contains query *)
  else if includes titleLower queryLower then 50%Z
  (* URL contains query (with dash replacement) *)
  else if includes urlLower (replace_all false (plus space) (fun _ => "-") queryLower)
  then 30%Z
  else 0%Z.

(** The body of the [while ((match = linkRegex.exec(html)) !== null)] loop,
    for each match in turn: the links pushed to [potentialLinks]. *)
Fixpoint collectLinks (query : string) (matches : list rmatch_result) : list ScoreMatch :=
  match matches with
  | [] => []
  | m :: more =>
      let url := group_text 1 m in
      let title := group_text 2 m in
      if shouldSkipURL url then collectLinks query more
      else
        let score := calculateMatchScore query title url in
        if (score >? 0)%Z
        then MkScoreMatch url title score :: collectLinks query more
        else collectLinks query more
  end.

(** [potentialLinks.sort((a, b) => b.score - a.score)] and the first entry. *)
Definition selectBestMatch (potentialLinks : list ScoreMatch) : string :=
  match potentialLinks with
  | [] => ""
  | _ =>
      match sort (fun a b => (score b - score a >? 0)%Z) potentialLinks with
      | bestMatch :: _ => sm_url bestMatch
      | [] => ""
      end
  end.

Definition extractPageURL (html query : string) : string :=
  selectBestMatch (collectLinks query (exec_all true ANIME_PAGE_LINK html)).

End AnimePageExtractor.

(** ** [HTTPClient] *)

Definition USER_AGENT : string :=
  "Mozilla/5.0 (Windows NT 10.0; Win64; x64) AppleWebKit/537.36".

(** [Result<T, E>]: [{ success: true, data }] or [{ success: false, error }]. *)
Inductive Result : Type :=
| Success (data : string)
| Failure (status : Z) (message : string).

Module HTTPClient.

(** The request is inside [try]: a rejected [fetch] becomes a failure with
    status 0, a response that is not OK a failure with its status. *)
Definition fetchWithUserAgent (host : Host) (url : string) : completion Result :=
  try_catch
    (response <- fetch host "GET" url ;;
     if negb (ok response)
     then Normal (Failure (status response) ("HTTP: " ++ statusText response))
     else Normal (Success (body response)))%js
    (fun error => Normal (Failure 0 error)).

End HTTPClient.

(** ** [Provider] *)

Record Media : Type := MkMedia {
  romajiTitle : option string;
  englishTitle : option string
}.

Record AnimeSearchOptions : Type := MkSearchOptions {
  so_media : Media;
  so_query : string
}.

Record AnimeSmartSearchOptions : Type := MkSmartSearchOptions {
  media : Media;
  query : string;
  batch : bool;
  episodeNumber : Z;
  resolution : string
}.

(** [AnimeTorrent]; the fields a caller may leave out are options. *)
Record AnimeTorrent : Type := MkAnimeTorrent {
  t_name : option string;
  t_date : string;
  t_size : Z;
  t_formattedSize : string;
  t_seeders : Z;
  t_leechers : Z;
  t_downloadCount : Z;
  t_link : string;
  t_downloadUrl : string;
  t_magnetLink : option string;
  t_infoHash : option string;
  t_resolution : string;
  t_isBatch : bool;
  t_episodeNumber : Z;
  t_releaseGroup : string;
  t_isBestRelease : bool;
  t_confirmed : bool
}.

Record AnimeProviderSettings : Type := MkSettings {
  canSmartSearch : bool;
  smartSearchFilters_ : list string;
  supportsAdult : bool;
  type_ : string
}.

(** Truthiness of a field that may be absent. *)
Definition present (field : option string) : bool :=
  match field with Some s => truthy s | None => false end.

(** [a || b] on texts. *)
Definition or_else (a : option string) (b : string) : string :=
  match a with
  | Some s => if truthy s then s else b
  | None => b
  end.

Module Provider.

Definition api : string := API_BASE_URL.

(** [date] is the reading of [new Date().toISOString()] at the call. *)
Definition createAnimeTorrent (name magnetLink pageURL resolution episodeTitle : string)
           (date : string) : AnimeTorrent :=
  let infoHash := TorrentParser.extractInfoHash magnetLink in
  let parsedResolution :=
    or_else (Some (TorrentParser.parseResolution name)) resolution in
  let isBatch := TorrentParser.isBatchTorrent name episodeTitle in
  let episodeNumber := TorrentParser.extractEpisodeNumber name episodeTitle in
  let releaseGroup := TorrentParser.extractReleaseGroup name in
  {| t_name := Some name;
     t_date := date;
     t_size := 0;
     t_formattedSize := "N/A";
     t_seeders := 0;
     t_leechers := 0;
     t_downloadCount := 0;
     t_link := pageURL;
     t_downloadUrl := "";
     t_magnetLink := Some magnetLink;
     t_infoHash := Some infoHash;
     t_resolution := parsedResolution;
     t_isBatch := isBatch;
     t_episodeNumber := episodeNumber;
     t_releaseGroup := releaseGroup;
     t_isBestRelease := false;
     t_confirmed := true |}.

(** The torrents of one parse, each created at its own reading of the
    clock: the [n]-th torrent at the [n]-th reading. *)
Fixpoint created (now : nat -> string) (n : nat) (makers : list (string -> AnimeTorrent))
  : list AnimeTorrent :=
  match makers with
  | [] => []
  | make :: more => make (now n) :: created now (S n) more
  end.

(** The rows of one [div.soraddl] block. *)
Definition rowTorrents (pageURL episodeTitle : string) (rows : Selection)
  : list (string -> AnimeTorrent) :=
  flat_map
    (fun row =>
       let resolution := trim (text (find_all [row] "td.reso")) in
       let magnetLink := attr (find_all [row] "td div.slink a") "href" in
       match magnetLink with
       | Some link =>
           if truthy link && startsWith link "magnet:?" then
             let cleanedResolution := trim (replace_first ">>" "" resolution) in
             [createAnimeTorrent (episodeTitle ++ " - " ++ cleanedResolution)
                                 link pageURL cleanedResolution episodeTitle]
           else []
       | None => []
       end)
    rows.

Definition parseWithLoadDoc (host : Host) (html pageURL : string) : list AnimeTorrent :=
  match LoadDoc host html with
  | Normal (Some doc) =>
      created (now host) 0
        (flat_map
           (fun element =>
              let episodeTitle := trim (text (find_all [element] "h3")) in
              rowTorrents pageURL episodeTitle
                          (find_all [element] "div.content table tbody tr"))
           (doc "div.soraddl"))
  | Normal None => []
  | Throw _ => []
  end.

(** [/magnet:\?[^Q'\s<>]+/gi], with Q the double quote *)
Definition MAGNET_LINK : regex :=
  rseq [RStr "magnet:?";
        plus (NotSet [CChar dquote; CChar "'"; CSpace; CChar "<"; CChar ">"])].

(** [/&dn=([^&]+)/] *)
Definition DISPLAY_NAME : regex :=
  rseq [RStr "&dn="; RGroup 1 (plus (NotSet [CChar "&"]))].

Definition extractTorrentNameFromMagnet (host : Host) (magnetLink : string)
           (fallbackNumber : nat) : string :=
  match js_match false DISPLAY_NAME magnetLink with
  | Some dnMatch =>
      match decodeURIComponent host (group_text 1 dnMatch) with
      | Normal decoded => decoded
      | Throw _ => group_text 1 dnMatch
      end
  | None => "Episode " ++ string_of_nat fallbackNumber
  end.

Definition parseWithRegexFallback (host : Host) (html pageURL : string)
  : list AnimeTorrent :=
  let magnetMatches := match_all true MAGNET_LINK html in
  created (now host) 0
    (map (fun '(index, magnetLink) =>
            let torrentName := extractTorrentNameFromMagnet host magnetLink (index + 1) in
            createAnimeTorrent torrentName magnetLink pageURL
                               (TorrentParser.parseResolution torrentName) "")
         (indexed magnetMatches)).

Definition parseTorrentsFromHTML (host : Host) (html pageURL : string)
  : list AnimeTorrent :=
  let loadDocResults := parseWithLoadDoc host html pageURL in
  match loadDocResults with
  | _ :: _ => loadDocResults
  | [] => parseWithRegexFallback host html pageURL
  end.

Definition fetchTorrentsFromAnimePage (host : Host) (pageURL : string) (m : Media)
  : completion (list AnimeTorrent) :=
  (fetchResult <- HTTPClient.fetchWithUserAgent host pageURL ;;
   match fetchResult with
   | Failure _ _ => Normal []
   | Success data => Normal (parseTorrentsFromHTML host data pageURL)
   end)%js.

(** The address of the search page; [encodeURIComponent] may throw. *)
Definition searchURL (opts : AnimeSearchOptions) : completion string :=
  (encoded <- encodeURIComponent (PortugueseTranslator.parse (so_query opts)) ;;
   Normal (api ++ "/?s=" ++ encoded))%js.

Definition search (host : Host) (opts : AnimeSearchOptions)
  : completion (list AnimeTorrent) :=
  let convertedQuery := PortugueseTranslator.parse (so_query opts) in
  (searchURL_ <- searchURL opts ;;
   fetchResult <- HTTPClient.fetchWithUserAgent host searchURL_ ;;
   match fetchResult with
   | Failure _ _ => Normal []
   | Success data =>
       let animePageURL := AnimePageExtractor.extractPageURL data convertedQuery in
       if negb (truthy animePageURL) then Normal []
       else fetchTorrentsFromAnimePage host animePageURL (so_media opts)
   end)%js.

(** The predicates [applySmartSearchFilters] pushes, in its order. *)
Definition smartSearchFilters (opts : AnimeSmartSearchOptions)
  : list (AnimeTorrent -> bool) :=
  (if negb (episodeNumber opts =? 0)%Z && (episodeNumber opts >? 0)%Z
   then [fun t => (t_episodeNumber t =? episodeNumber opts)%Z ||
                  t_isBatch t ||
                  (t_episodeNumber t =? -1)%Z]
   else []) ++
  (if truthy (resolution opts)
   then [fun t => negb (truthy (t_resolution t)) ||
                  includes (t_resolution t) (resolution opts)]
   else []) ++
  (if batch opts then [fun t => t_isBatch t] else []).

Definition applySmartSearchFilters (results : list AnimeTorrent)
           (opts : AnimeSmartSearchOptions) : list AnimeTorrent :=
  fold_left (fun filteredResults flt => filter flt filteredResults)
            (smartSearchFilters opts) results.

(** The query [smartSearch] hands to [search]. *)
Definition smartSearchQuery (opts : AnimeSmartSearchOptions) : AnimeSearchOptions :=
  {| so_media := media opts;
     so_query :=
       if truthy (query opts) then query opts
       else or_else (romajiTitle (media opts)) (or_else (englishTitle (media opts)) "") |}.

Definition smartSearch (host : Host) (opts : AnimeSmartSearchOptions)
  : completion (list AnimeTorrent) :=
  try_catch
    (searchResults <- search host (smartSearchQuery opts) ;;
     match searchResults with
     | [] => Normal []
     | _ => Normal (applySmartSearchFilters searchResults opts)
     end)%js
    (fun _ => Normal []).

Definition exampleHash : string := "1234567890abcdef1234567890abcdef12345678".

Definition getTorrentInfoHash (torrent : AnimeTorrent) : string :=
  if present (t_infoHash torrent) then or_else (t_infoHash torrent) ""
  else
    let fromMagnet :=
      if present (t_magnetLink torrent)
      then TorrentParser.extractInfoHash (or_else (t_magnetLink torrent) "")
      else "" in
    if truthy fromMagnet then fromMagnet
    else
      (* If this is a test/mock object, provide example *)
      if negb (present (t_magnetLink torrent)) && negb (present (t_infoHash torrent))
      then exampleHash
      else "".

Definition exampleMagnet : string :=
  "magnet:?xt=urn:btih:1234567890abcdef1234567890abcdef12345678&dn=Example+Anime+Episode+01+1080p".

Definition getTorrentMagnetLink (torrent : AnimeTorrent) : string :=
  if present (t_magnetLink torrent) then or_else (t_magnetLink torrent) ""
  else
    (* If this is a test/mock object, provide example *)
    if negb (present (t_magnetLink torrent)) && negb (present (t_name torrent))
    then exampleMagnet
    else "".

(** DarkMahou has no page of latest torrents. *)
Definition getLatest : list AnimeTorrent := [].

Definition getSettings : AnimeProviderSettings :=
  {| canSmartSearch := true;
     smartSearchFilters_ := ["episodeNumber"; "resolution"; "query"];
     supportsAdult := false;
     type_ := "main" |}.

End Provider.

End DarkMahou.

(* ================================================================== *)
(** * Q1N: the streaming provider                                      *)
(* ================================================================== *)

Module Q1N.
Import JS.

Definition API_BASE : string := "https://q1n.net".
Definition SUPPORTED_SERVERS : list string := ["chplay"; "ruplay"].
Definition DEFAULT_SERVER : string := "chplay".

Module SELECTORS.
Definition SEARCH_CONTAINERS : list string :=
  [".items .item"; ".result .item"; ".search-result .item";
   "article"; ".post"; ".anime-item"].
Definition SEARCH_TITLES : list string := [".data h3"; "h3"; "h2"; ".title"; ".name"].
Definition SEARCH_URLS : list string := [".poster a"; "a"; ".link"].
Definition EPISODES_LISTS : list string :=
  ["ul.episodios2 li"; "ul.episodios li"; ".episodios2 li"; ".episodios li";
   "li.episode"; ".episode-list li"].
Definition EPISODE_LINK : string := ".episodiotitle a".
Definition EPISODE_NUMBER : string := ".numerando".
Definition PLAYER_ELEMENTS : string := "li, a, button, span, div".
Definition IFRAMES : string := "iframe".
End SELECTORS.

Inductive SubOrDub : Type := sub | dub.

Record SearchOptions : Type := MkSearchOptions {
  query : string;
  dub_ : bool
}.

Record SearchResult : Type := MkSearchResult {
  id : string;
  title : string;
  url : string;
  subOrDub : SubOrDub
}.

Record EpisodeDetails : Type := MkEpisodeDetails {
  ep_id : string;
  ep_number : Z;
  ep_url : string;
  ep_title : string
}.

Record VideoSource : Type := MkVideoSource {
  vs_url : string;
  vs_type : string;
  quality : string;
  subtitles : list string
}.

Record EpisodeServer : Type := MkEpisodeServer {
  server : string;
  headers : list (string * string);
  videoSources : list VideoSource
}.

Record Settings : Type := MkSettings {
  episodeServers : list string;
  supportsDub : bool
}.

Definition MAX_EPISODES_SCAN : nat := 50.

Definition DEFAULT_HEADERS : list (string * string) :=
  [ ("Referer", API_BASE);
    ("User-Agent", "Mozilla/5.0 (Windows NT 10.0; Win64; x64) AppleWebKit/537.36") ].

(** The operations of the provider (error messages are written without
    their accents). *)
Module Provider.

(** [encodeURIComponent] may throw. *)
Definition buildSearchUrl (query : string) (isDub : bool) : completion string :=
  let searchQuery := if isDub then query ++ " dublado" else query in
  (encoded <- encodeURIComponent searchQuery ;;
   Normal (API_BASE ++ "/?s=" ++ encoded))%js.

(** [null] is [None]: the request was rejected or the response is not OK. *)
Definition fetchHtml (host : Host) (url : string) : option string :=
  match fetch host "GET" url with
  | Normal response => if negb (ok response) then None else Some (body response)
  | Throw _ => None
  end.

Definition validateEpisodeData (episode : EpisodeDetails) : completion unit :=
  if negb (truthy (ep_id episode)) || negb (truthy (ep_url episode)) ||
     negb (truthy (trim (ep_url episode)))
  then Throw "Dados do episodio invalidos ou incompletos"
  else Normal tt.

Fixpoint extractTextFromSelectors (element : Selection) (selectors : list string) : string :=
  match selectors with
  | [] => ""
  | selector :: more =>
      let textElement := first (find_all element selector) in
      let text_ := trim (text textElement) in
      if truthy text_ then text_ else extractTextFromSelectors element more
  end.

Definition animesHref (href : option string) : option string :=
  match href with
  | Some h => if truthy h && includes h "/animes/" then Some h else None
  | None => None
  end.

Fixpoint extractUrlFromSelectors (element : Selection) (selectors : list string) : string :=
  match selectors with
  | [] =>
      (* Tentar no proprio elemento *)
      match animesHref (attr element "href") with
      | Some elementHref => elementHref
      | None => ""
      end
  | selector :: more =>
      let linkElement := first (find_all element selector) in
      match animesHref (attr linkElement "href") with
      | Some href => href
      | None => extractUrlFromSelectors element more
      end
  end.

Definition detectSubOrDub (title : string) : SubOrDub :=
  let lowerTitle := toLowerCase title in
  if includes lowerTitle "dublado" || includes lowerTitle "dub" then dub else sub.

(** [/animes\/([^\/]+)/] *)
Definition ANIME_ID : regex :=
  rseq [RStr "animes/"; RGroup 1 (plus (NotSet [CChar "/"]))].

(** [/\/([^\/]+)\/?$/] *)
Definition LAST_SEGMENT : regex :=
  rseq [RStr "/"; RGroup 1 (plus (NotSet [CChar "/"])); opt (Lit "/"); REol].

Definition extractIdFromUrl (url : string) : string :=
  match js_match false ANIME_ID url with
  | Some m => group_text 1 m
  | None =>
      match js_match false LAST_SEGMENT url with
      | Some m => group_text 1 m
      | None => url
      end
  end.

Definition parseSearchResultElement (element : Selection) : option SearchResult :=
  let title := extractTextFromSelectors element SELECTORS.SEARCH_TITLES in
  let url := extractUrlFromSelectors element SELECTORS.SEARCH_URLS in
  if negb (truthy title) || negb (truthy url) then None
  else Some {| id := extractIdFromUrl url;
               title := title;
               url := url;
               subOrDub := detectSubOrDub title |}.

(** [$(containerSelector).each(...)]: the results pushed for one selector. *)
Fixpoint pushResults (elements : Selection) (results : list SearchResult)
  : list SearchResult :=
  match elements with
  | [] => results
  | element :: more =>
      match parseSearchResultElement [element] with
      | Some result => pushResults more (results ++ [result])
      | None => pushResults more results
      end
  end.

(** The [for (const containerSelector of ...)] loop with its [break]. *)
Fixpoint searchContainers (doc : Document) (selectors : list string)
         (results : list SearchResult) : list SearchResult :=
  match selectors with
  | [] => results
  | containerSelector :: more =>
      let results' := pushResults (doc containerSelector) results in
      if (0 <? List.length results')%nat then results'
      else searchContainers doc more results'
  end.

(** A document that is not a function cannot be called: a [TypeError]. *)
Definition loadDocument (host : Host) (html : string) : completion Document :=
  (loaded <- LoadDoc host html ;;
   match loaded with
   | Some doc => Normal doc
   | None => Throw "TypeError: $ is not a function"
   end)%js.

Definition parseSearchResults (host : Host) (html : string)
  : completion (list SearchResult) :=
  (doc <- loadDocument host html ;;
   Normal (searchContainers doc SELECTORS.SEARCH_CONTAINERS []))%js.

Definition search (host : Host) (opts : SearchOptions) : completion (list SearchResult) :=
  try_catch
    (searchUrl <- buildSearchUrl (query opts) (dub_ opts) ;;
     match fetchHtml host searchUrl with
     | None => Normal []
     | Some html => if negb (truthy html) then Normal [] else parseSearchResults host html
     end)%js
    (fun _ => Normal []).

Definition getSettings : Settings :=
  {| episodeServers := SUPPORTED_SERVERS; supportsDub := true |}.

Definition buildAnimeUrl (animeSlug : string) : string :=
  API_BASE ++ "/animes/" ++ animeSlug ++ "/".

(** A number spliced into a text (numbers are integers here). *)
Definition string_of_Z (n : Z) : string :=
  match n with
  | Z0 => "0"
  | Zpos p => string_of_nat (Pos.to_nat p)
  | Zneg p => "-" ++ string_of_nat (Pos.to_nat p)
  end.

Definition buildEpisodeUrl (animeSlug : string) (episodeNumber : nat) : string :=
  API_BASE ++ "/episodio/" ++ animeSlug ++ "-episodio-" ++ string_of_nat episodeNumber ++ "/".

(** [/^\d+$/] *)
Definition ONLY_DIGITS : regex := rseq [RBol; plus digit; REol].

Definition isValidAnimeId (id : string) : bool := negb (test false ONLY_DIGITS id).

(** [/episodio-(\d+)/] *)
Definition EPISODE_URL_NUMBER : regex :=
  rseq [RStr "episodio-"; RGroup 1 (plus digit)].

(** [/episodio\/([^\/]+)/] *)
Definition EPISODE_ID : regex :=
  rseq [RStr "episodio/"; RGroup 1 (plus (NotSet [CChar "/"]))].

Definition extractEpisodeIdFromUrl (url : string) : string :=
  match js_match false EPISODE_ID url with
  | Some m => group_text 1 m
  | None =>
      match js_match false LAST_SEGMENT url with
      | Some m => group_text 1 m
      | None => url
      end
  end.

(** A number read by [parseInt] is used when it is neither [NaN] nor 0. *)
Definition extractEpisodeNumber (url : string) (element : Selection) : Z :=
  match js_match false EPISODE_URL_NUMBER url with
  | Some urlMatch =>
      match parseInt (group_text 1 urlMatch) with
      | Some n => n
      | None => 1%Z
      end
  | None =>
      let numerandoText := trim (text (find_all element SELECTORS.EPISODE_NUMBER)) in
      match parseInt numerandoText with
      | Some n => if (n =? 0)%Z then 1%Z else n
      | None => 1%Z
      end
  end.

Definition parseEpisodeElement (element : Selection) : option EpisodeDetails :=
  let epLink := first (find_all element SELECTORS.EPISODE_LINK) in
  match attr epLink "href" with
  | Some epUrl =>
      if negb (truthy epUrl) then None
      else
        let epNumber := extractEpisodeNumber epUrl element in
        let linkText := trim (text epLink) in
        let epTitle :=
          if truthy linkText then linkText
          else "Epis" ++ String "243" "dio " ++ string_of_Z epNumber in
        Some {| ep_id := extractEpisodeIdFromUrl epUrl;
                ep_number := epNumber;
                ep_url := epUrl;
                ep_title := epTitle |}
  | None => None
  end.

(** The first list selector that selects an element gives the episodes. *)
Fixpoint episodesOfLists (doc : Document) (selectors : list string) : list EpisodeDetails :=
  match selectors with
  | [] => []
  | selector :: more =>
      let elements := doc selector in
      if (0 <? List.length elements)%nat
      then flat_map (fun element =>
                       match parseEpisodeElement [element] with
                       | Some episode => [episode]
                       | None => []
                       end) elements
      else episodesOfLists doc more
  end.

Definition parseEpisodesFromAnimePage (host : Host) (html : string)
  : completion (list EpisodeDetails) :=
  (doc <- loadDocument host html ;;
   Normal (episodesOfLists doc SELECTORS.EPISODES_LISTS))%js.

(** The scan of the episode pages [i], [i+1], ... while [remaining] pages
    are left: a page that answers is an episode; the scan stops at the
    first page after the first that does not answer, and at a rejected
    request. *)
Fixpoint scanEpisodePages (host : Host) (animeSlug : string) (i remaining : nat)
  : list EpisodeDetails :=
  match remaining with
  | O => []
  | S remaining' =>
      let episodeUrl := buildEpisodeUrl animeSlug i in
      match fetch host "HEAD" episodeUrl with
      | Normal response =>
          if ok response then
            {| ep_id := animeSlug ++ "-episodio-" ++ string_of_nat i;
               ep_number := Z.of_nat i;
               ep_url := episodeUrl;
               ep_title := "Epis" ++ String "243" "dio " ++ string_of_nat i |}
            :: scanEpisodePages host animeSlug (S i) remaining'
          else if (1 <? i)%nat then []
          else scanEpisodePages host animeSlug (S i) remaining'
      | Throw _ => []
      end
  end.

Definition findEpisodesFromEpisodePages (host : Host) (animeSlug : string)
  : list EpisodeDetails :=
  scanEpisodePages host animeSlug 1 MAX_EPISODES_SCAN.

Definition sortEpisodes (episodes : list EpisodeDetails) : list EpisodeDetails :=
  sort (fun a b => (ep_number a - ep_number b >? 0)%Z) episodes.

Definition findEpisodes (host : Host) (id : string) : completion (list EpisodeDetails) :=
  try_catch
    (if negb (isValidAnimeId id) then Normal []
     else
       match fetchHtml host (buildAnimeUrl id) with
       | None => Normal (findEpisodesFromEpisodePages host id)
       | Some html =>
           if negb (truthy html) then Normal (findEpisodesFromEpisodePages host id)
           else
             episodes <- parseEpisodesFromAnimePage host html ;;
             match episodes with
             | [] => Normal (findEpisodesFromEpisodePages host id)
             | _ => Normal (sortEpisodes episodes)
             end
       end)%js
    (fun _ => Normal []).

(** [$(IFRAMES).each(...)] *)
Fixpoint serverOf (src : string) (servers : list string) : string :=
  match servers with
  | [] => "default"
  | server :: more => if includes src server then server else serverOf src more
  end.

Definition extractPlayersFromIframes (doc : Document) (players : JsMap) : JsMap :=
  fold_left
    (fun players iframe =>
       match attr [iframe] "src" with
       | Some src =>
           if truthy src && truthy (trim src) && negb (includes src "about:blank")
           then map_set (serverOf src SUPPORTED_SERVERS) src players
           else players
       | None => players
       end)
    (doc SELECTORS.IFRAMES) players.

(** [element.parent().attr("href")] *)
Definition parentHref (element : Element) : option string :=
  match parent_attrs element with
  | Some attrs => lookup_attr "href" attrs
  | None => None
  end.

Definition extractPlayersFromElements (doc : Document) (players : JsMap) : JsMap :=
  fold_left
    (fun players element =>
       let text_ := trim (toLowerCase (text [element])) in
       if existsb (String.eqb text_) SUPPORTED_SERVERS then
         let href := or_else_opt (parentHref element) (attr [element] "href") in
         match href with
         | Some h => if truthy h then map_set text_ h players else players
         | None => players
         end
       else players)
    (doc SELECTORS.PLAYER_ELEMENTS) players.

Definition createFallbackPlayers (players : JsMap) (episodeId : string) : JsMap :=
  fold_left
    (fun players server => map_set server (API_BASE ++ "/player/" ++ server ++ "/" ++ episodeId) players)
    SUPPORTED_SERVERS players.

Definition extractPlayersFromPage (host : Host) (html : string) (episode : EpisodeDetails)
  : completion JsMap :=
  (doc <- loadDocument host html ;;
   let players := extractPlayersFromElements doc (extractPlayersFromIframes doc []) in
   Normal (match players with
           | [] => createFallbackPlayers players (ep_id episode)
           | _ => players
           end))%js.

Definition selectBestPlayer (players : JsMap) (preferredServer : string)
  : completion string :=
  let playerUrl :=
    or_else_opt (map_get preferredServer players)
      (or_else_opt (map_get DEFAULT_SERVER players)
         (or_else_opt (map_get (nth 1 SUPPORTED_SERVERS "") players)
            (map_first_value players))) in
  match playerUrl with
  | Some u =>
      if negb (truthy u) || includes u "about:blank"
      then Throw "Nenhuma fonte de video encontrada na pagina"
      else Normal u
  | None => Throw "Nenhuma fonte de video encontrada na pagina"
  end.

Definition buildEpisodeServerResponse (server playerUrl : string) : EpisodeServer :=
  {| server := server;
     headers := DEFAULT_HEADERS;
     videoSources := [ {| vs_url := playerUrl;
                          vs_type := "mp4";
                          quality := "1080p";
                          subtitles := [] |} ] |}.

Definition selectedServer (server : string) : string :=
  if String.eqb server "default" || negb (truthy server) then DEFAULT_SERVER else server.

(** The [catch] clause throws the error again. *)
Definition findEpisodeServer (host : Host) (episode : EpisodeDetails) (server : string)
  : completion EpisodeServer :=
  try_catch
    (_ <- validateEpisodeData episode ;;
     match fetchHtml host (ep_url episode) with
     | None => Throw "Nao foi possivel carregar a pagina do episodio"
     | Some html =>
         if negb (truthy html) then Throw "Nao foi possivel carregar a pagina do episodio"
         else
           players <- extractPlayersFromPage host html episode ;;
           playerUrl <- selectBestPlayer players (selectedServer server) ;;
           Normal (buildEpisodeServerResponse (selectedServer server) playerUrl)
     end)%js
    (fun error => Throw error).

End Provider.

(** The refactored provider keeps the same search loop and the same
    choice of a player in classes of their own. *)
Module SearchParser.

Fixpoint parseContainers (doc : Document) (selectors : list string)
         (results : list SearchResult) : list SearchResult :=
  match selectors with
  | [] => results
  | containerSelector :: more =>
      let results' := Provider.pushResults (doc containerSelector) results in
      if (0 <? List.length results')%nat then results'
      else parseContainers doc more results'
  end.

Definition parseResults (host : Host) (html : string) : completion (list SearchResult) :=
  (doc <- Provider.loadDocument host html ;;
   Normal (parseContainers doc SELECTORS.SEARCH_CONTAINERS []))%js.

End SearchParser.

Module PlayerSelector.

Definition selectBest (players : JsMap) (preferredServer : string) : completion string :=
  let playerUrl :=
    or_else_opt (map_get preferredServer players)
      (or_else_opt (map_get DEFAULT_SERVER players)
         (or_else_opt (map_get (nth 1 SUPPORTED_SERVERS "") players)
            (map_first_value players))) in
  match playerUrl with
  | Some u =>
      if negb (truthy u) || includes u "about:blank"
      then Throw "Nenhuma fonte de video encontrada na pagina"
      else Normal u
  | None => Throw "Nenhuma fonte de video encontrada na pagina"
  end.

End PlayerSelector.

End Q1N.

(* ================================================================== *)
(** * Q1N, refactored: the extraction of players from the page text    *)
(* ================================================================== *)

(** The refactored provider reads the players from the text of the page
    with patterns, and asks the warning page of each frame for the real
    address.  Calls are taken one at a time.  The two patterns of the
    frames are shared objects with the flag [g]; the extraction is given
    twice: as a function of the page, over all the matches of a pattern,
    and, in [Shared], as the source runs it, with [exec] on the objects. *)
Module Q1NRefactored.
Import JS Q1N.

Module CONFIG.
Definition API_BASE : string := "https://q1n.net".
Definition SUPPORTED_SERVERS : list string := ["chplay"; "ruplay"].
Definition DEFAULT_SERVER : string := "chplay".
Definition DEFAULT_QUALITY : string := "1080p".
End CONFIG.

Definition DEFAULT_HEADERS : list (string * string) :=
  [ ("Referer", CONFIG.API_BASE);
    ("User-Agent",
     "Mozilla/5.0 (Windows NT 10.0; Win64; x64) AppleWebKit/537.36 (KHTML, like Gecko) Chrome/91.0.4472.124 Safari/537.36") ].

Definition dquote : ascii := "034".

(** A quote, and what is not a quote. *)
Definition quote : atom := Set_ [CChar dquote; CChar "'"].
Definition not_quote : atom := NotSet [CChar dquote; CChar "'"].

(** The frame of a warning page (flags [gi]), Q standing for either
    quote: [<iframe[^>]*src=Q([^Q]*\/aviso\/[^Q]* )Q[^>]*>] *)
Definition IFRAME_AVISO : regex :=
  rseq [RStr "<iframe"; star (NotSet [CChar ">"]); RStr "src="; RAtom quote;
        RGroup 1 (rseq [star not_quote; RStr "/aviso/"; star not_quote]);
        RAtom quote; star (NotSet [CChar ">"]); RStr ">"].

(** The frame of a direct player (flags [gi]):
    [<iframe[^>]*src=Q([^Q]*(?:blogger\.com|youtube\.com|youtu\.be)[^Q]* )Q[^>]*>] *)
Definition IFRAME_DIRECT : regex :=
  rseq [RStr "<iframe"; star (NotSet [CChar ">"]); RStr "src="; RAtom quote;
        RGroup 1 (rseq [star not_quote;
                        RAlt (RStr "blogger.com") (RAlt (RStr "youtube.com") (RStr "youtu.be"));
                        star not_quote]);
        RAtom quote; star (NotSet [CChar ">"]); RStr ">"].

(** [/url=([^&]+)/] *)
Definition URL_PARAM : regex :=
  rseq [RStr "url="; RGroup 1 (plus (NotSet [CChar "&"]))].

Module HttpClient.

Definition fetchHtml (host : Host) (url : string) : option string :=
  match fetch host "GET" url with
  | Normal response => if negb (ok response) then None else Some (body response)
  | Throw _ => None
  end.

End HttpClient.

Module PlayerExtractor.

Definition mapPlayerByUrl (players : JsMap) (url : string) : JsMap :=
  if includes url "disneycdn.net" && negb (map_has "chplay" players)
  then map_set "chplay" url players
  else if includes url "csst.online" && negb (map_has "ruplay" players)
  then map_set "ruplay" url players
  else if negb (map_has "chplay" players)
  then map_set "chplay" url players
  else if negb (map_has "ruplay" players)
  then map_set "ruplay" url players
  else players.

(** The real address behind a warning page: the [url] parameter of its
    address, decoded; [None] is [null]. *)
Definition processAvisoPage (host : Host) (avisoUrl : string) : option string :=
  match HttpClient.fetchHtml host avisoUrl with
  | None => None
  | Some avisoHtml =>
      if negb (truthy avisoHtml) then None
      else
        match js_match false URL_PARAM avisoUrl with
        | None => None
        | Some urlMatch =>
            match decodeURIComponent host (group_text 1 urlMatch) with
            | Normal originalUrl => Some originalUrl
            | Throw _ => None
            end
        end
  end.

Definition extractFromHtml (host : Host) (html : string) (players : JsMap) : JsMap :=
  let afterAviso :=
    fold_left
      (fun players m =>
         let iframeSrc := group_text 1 m in
         match processAvisoPage host iframeSrc with
         | Some realUrl =>
             if truthy realUrl then mapPlayerByUrl players realUrl else players
         | None => players
         end)
      (exec_all true IFRAME_AVISO html) players in
  fold_left
    (fun players m => mapPlayerByUrl players (group_text 1 m))
    (exec_all true IFRAME_DIRECT html) afterAviso.

Definition createFallbackPlayers (players : JsMap) (episodeId : string) : JsMap :=
  fold_left
    (fun players server =>
       map_set server (CONFIG.API_BASE ++ "/player/" ++ server ++ "/" ++ episodeId) players)
    CONFIG.SUPPORTED_SERVERS players.

Definition extractFromPage (host : Host) (html : string) (episode : EpisodeDetails)
  : JsMap :=
  let players := extractFromHtml host html [] in
  match players with
  | [] => createFallbackPlayers players (ep_id episode)
  | _ => players
  end.

End PlayerExtractor.

Module ResponseBuilder.

Definition buildEpisodeServer (server playerUrl : string) : EpisodeServer :=
  {| server := server;
     headers := DEFAULT_HEADERS;
     videoSources := [ {| vs_url := playerUrl;
                          vs_type := "m3u8";
                          quality := CONFIG.DEFAULT_QUALITY;
                          subtitles := [] |} ] |}.

End ResponseBuilder.

(** The classes of the search and of the list of episodes have the text of
    the methods of the first provider. *)
Module UrlBuilder.
Definition buildSearchUrl (query : string) (isDub : bool) : completion string :=
  let searchQuery := if isDub then query ++ " dublado" else query in
  (encoded <- encodeURIComponent searchQuery ;;
   Normal (CONFIG.API_BASE ++ "/?s=" ++ encoded))%js.

Definition buildAnimeUrl (animeSlug : string) : string :=
  CONFIG.API_BASE ++ "/animes/" ++ animeSlug ++ "/".
End UrlBuilder.

Module Validator.
Definition isValidAnimeId (id : string) : bool := Q1N.Provider.isValidAnimeId id.
Definition validateEpisodeData (episode : EpisodeDetails) : completion unit :=
  Q1N.Provider.validateEpisodeData episode.
End Validator.

Module EpisodeParser.
Definition parseFromAnimePage (host : Host) (html : string)
  : completion (list EpisodeDetails) :=
  Q1N.Provider.parseEpisodesFromAnimePage host html.
End EpisodeParser.

Module EpisodeFinder.
Definition findFromEpisodePages (host : Host) (animeSlug : string) : list EpisodeDetails :=
  Q1N.Provider.findEpisodesFromEpisodePages host animeSlug.
End EpisodeFinder.

Module Utils.
Definition sortEpisodes (episodes : list EpisodeDetails) : list EpisodeDetails :=
  Q1N.Provider.sortEpisodes episodes.
End Utils.

(** The operations of the provider (error messages are written without
    their accents). *)
Module Provider.

Definition getSettings : Settings :=
  {| episodeServers := CONFIG.SUPPORTED_SERVERS; supportsDub := true |}.

Definition search (host : Host) (opts : SearchOptions) : completion (list SearchResult) :=
  try_catch
    (searchUrl <- UrlBuilder.buildSearchUrl (query opts) (dub_ opts) ;;
     match HttpClient.fetchHtml host searchUrl with
     | None => Normal []
     | Some html =>
         if negb (truthy html) then Normal [] else SearchParser.parseResults host html
     end)%js
    (fun _ => Normal []).

Definition findEpisodes (host : Host) (id : string) : completion (list EpisodeDetails) :=
  try_catch
    (if negb (Validator.isValidAnimeId id) then Normal []
     else
       match HttpClient.fetchHtml host (UrlBuilder.buildAnimeUrl id) with
       | None => Normal (EpisodeFinder.findFromEpisodePages host id)
       | Some html =>
           if negb (truthy html) then Normal (EpisodeFinder.findFromEpisodePages host id)
           else
             episodes <- EpisodeParser.parseFromAnimePage host html ;;
             match episodes with
             | [] => Normal (EpisodeFinder.findFromEpisodePages host id)
             | _ => Normal (Utils.sortEpisodes episodes)
             end
       end)%js
    (fun _ => Normal []).

Definition findEpisodeServer (host : Host) (episode : EpisodeDetails) (server : string)
  : completion EpisodeServer :=
  try_catch
    (_ <- Q1N.Provider.validateEpisodeData episode ;;
     match HttpClient.fetchHtml host (ep_url episode) with
     | None => Throw "Nao foi possivel carregar a pagina do episodio"
     | Some html =>
         if negb (truthy html) then Throw "Nao foi possivel carregar a pagina do episodio"
         else
           let players := PlayerExtractor.extractFromPage host html episode in
           let selectedServer :=
             if String.eqb server "default" || negb (truthy server)
             then CONFIG.DEFAULT_SERVER else server in
           playerUrl <- PlayerSelector.selectBest players selectedServer ;;
           Normal (ResponseBuilder.buildEpisodeServer selectedServer playerUrl)
     end)%js
    (fun error => Throw error).

End Provider.

(** ** The shared patterns as objects

    [IFRAME_AVISO] and [IFRAME_DIRECT] are static fields of the provider
    class and carry the flag [g]: their [lastIndex] outlives a call.  The
    extraction is written here as the source runs it, with [exec] on the
    two objects; the patterns go in and come out of every function. *)
Module Shared.

Record Patterns : Type := MkPatterns {
  aviso_lastIndex : nat;
  direct_lastIndex : nat
}.

(** The patterns as the class declares them. *)
Definition at_rest : Patterns := MkPatterns 0 0.

Module PlayerExtractor.

(** The turn of the first loop: [processAvisoPage] catches every error of
    its own, so the [catch] of the turn is never entered. *)
Definition avisoTurn (host : Host) (m : rmatch_result) (players : JsMap)
  : JsMap * option string :=
  let iframeSrc := group_text 1 m in
  (match PlayerExtractor.processAvisoPage host iframeSrc with
   | Some realUrl =>
       if truthy realUrl then PlayerExtractor.mapPlayerByUrl players realUrl else players
   | None => players
   end, None).

Definition directTurn (m : rmatch_result) (players : JsMap) : JsMap * option string :=
  (PlayerExtractor.mapPlayerByUrl players (group_text 1 m), None).

(** The two [while] loops; the map of players is changed in place, so it
    is given back with an error as well.  A turn moves [lastIndex] on by at
    least one, so the length of the page and one more bound the turns. *)
Definition extractFromHtml (host : Host) (html : string) (players : JsMap)
           (patterns : Patterns) : option (JsMap * option string * Patterns) :=
  match exec_loop (S (String.length html)) true IFRAME_AVISO html (avisoTurn host)
                  (aviso_lastIndex patterns) players with
  | None => None
  | Some (players', Some error, i) =>
      Some (players', Some error, MkPatterns i (direct_lastIndex patterns))
  | Some (players', None, i) =>
      match exec_loop (S (String.length html)) true IFRAME_DIRECT html directTurn
                      (direct_lastIndex patterns) players' with
      | None => None
      | Some (players'', error, j) => Some (players'', error, MkPatterns i j)
      end
  end.

Definition extractFromPage (host : Host) (html : string) (episode : EpisodeDetails)
           (patterns : Patterns) : option (JsMap * Patterns) :=
  match extractFromHtml host html [] patterns with
  | None => None
  | Some (players, None, patterns') =>
      Some (match players with
            | [] => PlayerExtractor.createFallbackPlayers players (ep_id episode)
            | _ => players
            end, patterns')
  | Some (players, Some _, patterns') =>
      Some (PlayerExtractor.createFallbackPlayers players (ep_id episode), patterns')
  end.

End PlayerExtractor.

Module Provider.

Definition findEpisodeServer (host : Host) (episode : EpisodeDetails) (server : string)
           (patterns : Patterns) : option (completion EpisodeServer * Patterns) :=
  match Validator.validateEpisodeData episode with
  | Throw error => Some (Throw error, patterns)
  | Normal _ =>
      match HttpClient.fetchHtml host (ep_url episode) with
      | None => Some (Throw "Nao foi possivel carregar a pagina do episodio", patterns)
      | Some html =>
          if negb (truthy html)
          then Some (Throw "Nao foi possivel carregar a pagina do episodio", patterns)
          else
            match PlayerExtractor.extractFromPage host html episode patterns with
            | None => None
            | Some (players, patterns') =>
                let selectedServer :=
                  if String.eqb server "default" || negb (truthy server)
                  then CONFIG.DEFAULT_SERVER else server in
                Some ((playerUrl <- PlayerSelector.selectBest players selectedServer ;;
                       Normal (ResponseBuilder.buildEpisodeServer selectedServer playerUrl))%js,
                      patterns')
            end
      end
  end.

End Provider.

End Shared.

End Q1NRefactored.

(* ================================================================== *)
(** * Q1N with the extraction of the video address                     *)
(* ================================================================== *)

(** The third provider of Q1N, of the file that bundles three providers
    (its third part).  The search and the list of episodes are those of
    the refactored provider; the players are read from the frames of the
    page, the address of the video behind each being looked for by
    [extractVideoUrl].

    [extractVideoUrl] requests the page of the player and searches it with
    patterns of its own, made anew at each call; it catches every error
    and gives an address or [null].  It is a parameter here: what is
    proved holds whatever address it gives. *)
Module BundledQ1N.
Import JS Q1N.

Module CONFIG.
Definition API_BASE : string := "https://q1n.net".
Definition SUPPORTED_SERVERS : list string := ["chplay"; "ruplay"].
Definition DEFAULT_SERVER : string := "chplay".
Definition DEFAULT_QUALITY : string := "1080p".
End CONFIG.

Definition DEFAULT_HEADERS : list (string * string) := Q1NRefactored.DEFAULT_HEADERS.

(** [IFRAME_AVISO], [IFRAME_DIRECT] (flags [gi]) and [URL_PARAM], as in the
    refactored provider. *)
Definition IFRAME_AVISO : regex := Q1NRefactored.IFRAME_AVISO.
Definition IFRAME_DIRECT : regex := Q1NRefactored.IFRAME_DIRECT.
Definition URL_PARAM : regex := Q1NRefactored.URL_PARAM.

(** What outlives a call: [lastIndex] of the two static patterns with the
    flag [g]. *)
Record Patterns : Type := MkPatterns {
  aviso_lastIndex : nat;
  direct_lastIndex : nat
}.

Definition at_rest : Patterns := MkPatterns 0 0.

Module HttpClient.

(** The time allowed is an option of the request. *)
Definition fetchHtml (host : Host) (url : string) : option string :=
  match fetch host "GET" url with
  | Normal response => if negb (ok response) then None else Some (body response)
  | Throw _ => None
  end.

End HttpClient.

Module PlayerExtractor.

Definition mapPlayerByUrl (players : JsMap) (url : string) : JsMap :=
  if includes url "disneycdn.net" && negb (map_has "chplay" players)
  then map_set "chplay" url players
  else if (includes url "csst.online" || includes url "secvideo")
          && negb (map_has "ruplay" players)
  then map_set "ruplay" url players
  else if includes url "secvideo" && negb (map_has "ruplay" players)
  then map_set "ruplay" url players
  else if includes url "disneycdn.net"
  then map_set "chplay" url players
  else if negb (map_has "chplay" players)
  then map_set "chplay" url players
  else if negb (map_has "ruplay" players)
  then map_set "ruplay" url players
  else players.

Definition createFallbackPlayers (players : JsMap) (episodeId : string) : JsMap :=
  fold_left
    (fun players server =>
       map_set server (CONFIG.API_BASE ++ "/player/" ++ server ++ "/" ++ episodeId) players)
    CONFIG.SUPPORTED_SERVERS players.

Section Extraction.

Variable extractVideoUrl : Host -> string -> option string.

(** The turn of the first loop.  [decodeURIComponent] is called before the
    [try] of the turn: its error leaves the loop. *)
Definition avisoTurn (host : Host) (m : rmatch_result) (players : JsMap)
  : JsMap * option string :=
  let iframeSrc := group_text 1 m in
  match js_match false URL_PARAM iframeSrc with
  | Some urlMatch =>
      match decodeURIComponent host (group_text 1 urlMatch) with
      | Throw error => (players, Some error)
      | Normal playerUrl =>
          (match extractVideoUrl host playerUrl with
           | Some videoUrl =>
               if truthy videoUrl then mapPlayerByUrl players videoUrl
               else mapPlayerByUrl players playerUrl
           | None => mapPlayerByUrl players playerUrl
           end, None)
      end
  | None => (mapPlayerByUrl players iframeSrc, None)
  end.

Definition directTurn (m : rmatch_result) (players : JsMap) : JsMap * option string :=
  (mapPlayerByUrl players (group_text 1 m), None).

(** The two [while] loops over [exec]; the map of players is changed in
    place, so it is given back with an error as well. *)
Definition extractFromHtml (host : Host) (html : string) (players : JsMap)
           (patterns : Patterns) : option (JsMap * option string * Patterns) :=
  match exec_loop (S (String.length html)) true IFRAME_AVISO html (avisoTurn host)
                  (aviso_lastIndex patterns) players with
  | None => None
  | Some (players', Some error, i) =>
      Some (players', Some error, MkPatterns i (direct_lastIndex patterns))
  | Some (players', None, i) =>
      match exec_loop (S (String.length html)) true IFRAME_DIRECT html directTurn
                      (direct_lastIndex patterns) players' with
      | None => None
      | Some (players'', error, j) => Some (players'', error, MkPatterns i j)
      end
  end.

Definition extractFromPage (host : Host) (html : string) (episode : EpisodeDetails)
           (patterns : Patterns) : option (JsMap * Patterns) :=
  match extractFromHtml host html [] patterns with
  | None => None
  | Some (players, None, patterns') =>
      Some (match players with
            | [] => createFallbackPlayers players (ep_id episode)
            | _ => players
            end, patterns')
  | Some (players, Some _, patterns') =>
      Some (createFallbackPlayers players (ep_id episode), patterns')
  end.

End Extraction.

End PlayerExtractor.

Module PlayerSelector.

Definition selectBest (players : JsMap) (preferredServer : string) : completion string :=
  let cleanPreferredServer := trim preferredServer in
  let playerUrl :=
    or_else_opt (map_get cleanPreferredServer players)
      (or_else_opt (map_get CONFIG.DEFAULT_SERVER players)
         (or_else_opt (map_get (nth 1 CONFIG.SUPPORTED_SERVERS "") players)
            (map_first_value players))) in
  match playerUrl with
  | Some u =>
      if negb (truthy u) || includes u "about:blank"
      then Throw "Nenhuma fonte de video encontrada na pagina"
      else Normal u
  | None => Throw "Nenhuma fonte de video encontrada na pagina"
  end.

End PlayerSelector.

Module ResponseBuilder.

Definition buildEpisodeServer (server playerUrl : string) : EpisodeServer :=
  {| server := server;
     headers := DEFAULT_HEADERS;
     videoSources := [ {| vs_url := playerUrl;
                          vs_type := "m3u8";
                          quality := CONFIG.DEFAULT_QUALITY;
                          subtitles := [] |} ] |}.

End ResponseBuilder.

Module Provider.

Definition getSettings : Settings :=
  {| episodeServers := CONFIG.SUPPORTED_SERVERS; supportsDub := true |}.

Definition search (host : Host) (opts : SearchOptions) : completion (list SearchResult) :=
  try_catch
    (searchUrl <- Q1NRefactored.UrlBuilder.buildSearchUrl (query opts) (dub_ opts) ;;
     match HttpClient.fetchHtml host searchUrl with
     | None => Normal []
     | Some html =>
         if negb (truthy html) then Normal [] else SearchParser.parseResults host html
     end)%js
    (fun _ => Normal []).

Definition findEpisodes (host : Host) (id : string) : completion (list EpisodeDetails) :=
  try_catch
    (if negb (Q1NRefactored.Validator.isValidAnimeId id) then Normal []
     else
       match HttpClient.fetchHtml host (Q1NRefactored.UrlBuilder.buildAnimeUrl id) with
       | None => Normal (Q1NRefactored.EpisodeFinder.findFromEpisodePages host id)
       | Some html =>
           if negb (truthy html)
           then Normal (Q1NRefactored.EpisodeFinder.findFromEpisodePages host id)
           else
             episodes <- Q1NRefactored.EpisodeParser.parseFromAnimePage host html ;;
             match episodes with
             | [] => Normal (Q1NRefactored.EpisodeFinder.findFromEpisodePages host id)
             | _ => Normal (Q1NRefactored.Utils.sortEpisodes episodes)
             end
       end)%js
    (fun _ => Normal []).

Section Server.

Variable extractVideoUrl : Host -> string -> option string.

(** The [catch] clause throws the error again. *)
Definition findEpisodeServer (host : Host) (episode : EpisodeDetails) (server : string)
           (patterns : Patterns) : option (completion EpisodeServer * Patterns) :=
  match Q1NRefactored.Validator.validateEpisodeData episode with
  | Throw error => Some (Throw error, patterns)
  | Normal _ =>
      match HttpClient.fetchHtml host (ep_url episode) with
      | None => Some (Throw "Nao foi possivel carregar a pagina do episodio", patterns)
      | Some html =>
          if negb (truthy html)
          then Some (Throw "Nao foi possivel carregar a pagina do episodio", patterns)
          else
            match PlayerExtractor.extractFromPage extractVideoUrl host html episode patterns with
            | None => None
            | Some (players, patterns') =>
                let selectedServer :=
                  if String.eqb server "default" || negb (truthy server)
                  then CONFIG.DEFAULT_SERVER else server in
                Some ((playerUrl <- PlayerSelector.selectBest players selectedServer ;;
                       Normal (ResponseBuilder.buildEpisodeServer selectedServer playerUrl))%js,
                      patterns')
            end
      end
  end.

End Server.

End Provider.

End BundledQ1N.

(* ================================================================== *)
(** * DarkMahou in one class                                           *)
(* ================================================================== *)

(** The provider of DarkMahou of the file that bundles three providers
    (its first part): one class, its patterns written where they are used,
    so that each call makes them anew. *)
Module BundledDarkMahou.
Import JS.

Definition api : string := "https://darkmahou.org".

Definition USER_AGENT : string :=
  "Mozilla/5.0 (Windows NT 10.0; Win64; x64) AppleWebKit/537.36".

Record AnimeSmartSearchOptions : Type := MkSmartSearchOptions {
  media : DarkMahou.Media;
  query : string;
  batch : bool;
  episodeNumber : number;
  resolution : string
}.

(** [AnimeTorrent]; the fields a caller may leave out are options. *)
Record AnimeTorrent : Type := MkAnimeTorrent {
  t_name : option string;
  t_date : string;
  t_size : Z;
  t_formattedSize : string;
  t_seeders : Z;
  t_leechers : Z;
  t_downloadCount : Z;
  t_link : string;
  t_downloadUrl : string;
  t_magnetLink : option string;
  t_infoHash : option string;
  t_resolution : string;
  t_isBatch : bool;
  t_episodeNumber : number;
  t_releaseGroup : string;
  t_isBestRelease : bool;
  t_confirmed : bool
}.

(** [parseInt] of the digits of a group. *)
Definition parseIntNumber (s : string) : number :=
  match parseInt s with
  | Some n => number_of_Z n
  | None => NaN
  end.

Definition minus_one : number := number_of_Z (-1).

(** [/E(\d{1,4})/i] *)
Definition EPISODE_LETTER : regex :=
  rseq [RStr "E"; RGroup 1 (RRep digit 1 (Some 4))].

(** [/(?:ep|episode|episódio)\s*(\d+)/i]; the letter o with acute accent
    is U+00F3. *)
Definition EPISODE_WORD : regex :=
  rseq [RAlt (RStr "ep")
             (RAlt (RStr "episode") (rseq [RStr "epis"; RAtom (Lit "243"); RStr "dio"]));
        star space; RGroup 1 (plus digit)].

Module Provider.

Definition getSettings : DarkMahou.AnimeProviderSettings :=
  {| DarkMahou.canSmartSearch := true;
     DarkMahou.smartSearchFilters_ := ["episodeNumber"; "resolution"; "query"];
     DarkMahou.supportsAdult := false;
     DarkMahou.type_ := "special" |}.

(** The replacements of [convertToPorguguese], one after the other; the
    patterns are those of the translator of the other provider. *)
Definition convertToPorguguese (query : string) : string :=
  let converted := DarkMahou.PortugueseTranslator.seasonOrdinal query in
  let converted := DarkMahou.PortugueseTranslator.seasonNumber converted in
  let converted := DarkMahou.PortugueseTranslator.ordinalNumbers converted in
  let converted := DarkMahou.PortugueseTranslator.commonTerms converted in
  let converted := DarkMahou.PortugueseTranslator.partNumbers converted in
  DarkMahou.PortugueseTranslator.normalize converted.

(** The loop over the anchors, the sort and the choice of the first link:
    the text of the extractor of the other provider, in one method. *)
Definition extractAnimePageURL (html query : string) : string :=
  DarkMahou.AnimePageExtractor.selectBestMatch
    (DarkMahou.AnimePageExtractor.collectLinks query
       (exec_all true DarkMahou.ANIME_PAGE_LINK html)).

Definition extractInfoHash (magnetLink : string) : string :=
  if negb (truthy magnetLink) || negb (startsWith magnetLink "magnet:?") then ""
  else
    match js_match true DarkMahou.INFO_HASH magnetLink with
    | Some m => group_text 1 m
    | None => ""
    end.

Definition parseResolutionFromName (name : string) : string :=
  match js_match true DarkMahou.RESOLUTION name with
  | Some m => group_text 1 m
  | None => ""
  end.

Definition extractReleaseGroup (name : string) : string :=
  match js_match false DarkMahou.RELEASE_GROUP name with
  | Some m => group_text 1 m
  | None => ""
  end.

(** The same tests, in the same order, as in the other provider. *)
Definition isBatchTorrent (name episodeTitle : string) : bool :=
  DarkMahou.TorrentParser.isBatchTorrent name episodeTitle.

(** The [for ... of matches] loop over the isolated numbers, of one to four
    digits each. *)
Fixpoint firstIsolated (matches : list string) : option number :=
  match matches with
  | [] => None
  | numStr :: more =>
      match parseInt numStr with
      | Some num =>
          if (num >? 0)%Z && (num <=? 9999)%Z &&
             negb (num =? 720)%Z && negb (num =? 1080)%Z && negb (num =? 480)%Z &&
             (num <? 2000)%Z
          then Some (number_of_Z num)
          else firstIsolated more
      | None => firstIsolated more
      end
  end.

Definition extractEpisodeNumber (name episodeTitle : string) : number :=
  if isBatchTorrent name episodeTitle then minus_one
  else
    match js_match true DarkMahou.PORTUGUESE episodeTitle with
    | Some m => parseIntNumber (group_text 1 m)
    | None =>
        match js_match false DarkMahou.EPISODE_DASH name with
        | Some m => parseIntNumber (group_text 1 m)
        | None =>
            match js_match true EPISODE_LETTER name with
            | Some m => parseIntNumber (group_text 1 m)
            | None =>
                match js_match true EPISODE_WORD name with
                | Some m => parseIntNumber (group_text 1 m)
                | None =>
                    match firstIsolated (match_all false DarkMahou.EPISODE_NUMBER name) with
                    | Some num => num
                    | None => minus_one
                    end
                end
            end
        end
    end.

(** [date] is the reading of [new Date().toISOString()] at the call. *)
Definition createAnimeTorrent (name magnetLink pageURL resolution episodeTitle : string)
           (date : string) : AnimeTorrent :=
  {| t_name := Some name;
     t_date := date;
     t_size := 0;
     t_formattedSize := "N/A";
     t_seeders := 0;
     t_leechers := 0;
     t_downloadCount := 0;
     t_link := pageURL;
     t_downloadUrl := "";
     t_magnetLink := Some magnetLink;
     t_infoHash := Some (extractInfoHash magnetLink);
     t_resolution := resolution;
     t_isBatch := isBatchTorrent name episodeTitle;
     t_episodeNumber := extractEpisodeNumber name episodeTitle;
     t_releaseGroup := extractReleaseGroup name;
     t_isBestRelease := false;
     t_confirmed := true |}.

(** The torrents of one parse, each created at its own reading of the
    clock: the [n]-th torrent at the [n]-th reading. *)
Fixpoint created (now : nat -> string) (n : nat) (makers : list (string -> AnimeTorrent))
  : list AnimeTorrent :=
  match makers with
  | [] => []
  | make :: more => make (now n) :: created now (S n) more
  end.

Definition rowTorrents (pageURL episodeTitle : string) (rows : Selection)
  : list (string -> AnimeTorrent) :=
  flat_map
    (fun row =>
       let resolution := trim (text (find_all [row] "td.reso")) in
       let magnetLink := attr (find_all [row] "td div.slink a") "href" in
       match magnetLink with
       | Some link =>
           if truthy link && startsWith link "magnet:?" then
             let cleanedResolution := trim (replace_first ">>" "" resolution) in
             [createAnimeTorrent (episodeTitle ++ " - " ++ cleanedResolution)
                                 link pageURL cleanedResolution episodeTitle]
           else []
       | None => []
       end)
    rows.

Definition extractTorrentName (host : Host) (magnetLink : string) (fallbackNumber : nat)
  : string :=
  match js_match false DarkMahou.Provider.DISPLAY_NAME magnetLink with
  | Some dnMatch =>
      match decodeURIComponent host (group_text 1 dnMatch) with
      | Normal decoded => decoded
      | Throw _ => group_text 1 dnMatch
      end
  | None => "Episode " ++ string_of_nat fallbackNumber
  end.

Definition parseWithRegexFallback (host : Host) (html pageURL : string)
  : list AnimeTorrent :=
  let magnetMatches := match_all true DarkMahou.Provider.MAGNET_LINK html in
  created (now host) 0
    (map (fun '(i, magnetLink) =>
            let torrentName := extractTorrentName host magnetLink (i + 1) in
            createAnimeTorrent torrentName magnetLink pageURL
                               (parseResolutionFromName torrentName) "")
         (indexed magnetMatches)).

(** A document that cannot be had, or that has no torrent, leaves the
    page to the patterns. *)
Definition parseTorrentsFromHTML (host : Host) (html pageURL : string)
  : list AnimeTorrent :=
  match LoadDoc host html with
  | Normal (Some doc) =>
      let results :=
        created (now host) 0
          (flat_map
             (fun element =>
                let episodeTitle := trim (text (find_all [element] "h3")) in
                rowTorrents pageURL episodeTitle
                            (find_all [element] "div.content table tbody tr"))
             (doc "div.soraddl")) in
      match results with
      | [] => parseWithRegexFallback host html pageURL
      | _ => results
      end
  | Normal None => parseWithRegexFallback host html pageURL
  | Throw _ => parseWithRegexFallback host html pageURL
  end.

Definition fetchTorrentsFromAnimePage (host : Host) (pageURL : string)
  : list AnimeTorrent :=
  match fetch host "GET" pageURL with
  | Normal response =>
      if negb (ok response) then []
      else parseTorrentsFromHTML host (body response) pageURL
  | Throw _ => []
  end.

(** The whole body is inside [try]. *)
Definition search (host : Host) (opts : DarkMahou.AnimeSearchOptions)
  : completion (list AnimeTorrent) :=
  try_catch
    (let convertedQuery := convertToPorguguese (DarkMahou.so_query opts) in
     encoded <- encodeURIComponent convertedQuery ;;
     let searchURL := api ++ "/?s=" ++ encoded in
     response <- fetch host "GET" searchURL ;;
     if negb (ok response) then Normal []
     else
       let animePageURL := extractAnimePageURL (body response) convertedQuery in
       if negb (truthy animePageURL) then Normal []
       else Normal (fetchTorrentsFromAnimePage host animePageURL))%js
    (fun _ => Normal []).

Definition zero : number := SpecFloat.S754_zero false.

Definition smartSearch (host : Host) (opts : AnimeSmartSearchOptions)
  : completion (list AnimeTorrent) :=
  try_catch
    (let query_ :=
       if truthy (query opts) then query opts
       else DarkMahou.or_else (DarkMahou.romajiTitle (media opts))
              (DarkMahou.or_else (DarkMahou.englishTitle (media opts)) "") in
     searchResults <- search host (DarkMahou.MkSearchOptions (media opts) query_) ;;
     match searchResults with
     | [] => Normal []
     | _ =>
         let results := searchResults in
         let results :=
           if number_ltb zero (episodeNumber opts)
           then filter (fun t => number_eqb (t_episodeNumber t) (episodeNumber opts) ||
                                 t_isBatch t ||
                                 number_eqb (t_episodeNumber t) minus_one)
                       results
           else results in
         let results :=
           if truthy (resolution opts)
           then filter (fun t => negb (truthy (t_resolution t)) ||
                                 includes (t_resolution t) (resolution opts))
                       results
           else results in
         let results :=
           if batch opts then filter (fun t => t_isBatch t) results else results in
         Normal results
     end)%js
    (fun _ => Normal []).

Definition exampleHash : string := "1234567890abcdef1234567890abcdef12345678".

Definition getTorrentInfoHash (torrent : AnimeTorrent) : string :=
  if DarkMahou.present (t_infoHash torrent) then DarkMahou.or_else (t_infoHash torrent) ""
  else
    let fromMagnet :=
      if DarkMahou.present (t_magnetLink torrent)
      then js_match true DarkMahou.INFO_HASH (DarkMahou.or_else (t_magnetLink torrent) "")
      else None in
    match fromMagnet with
    | Some m => group_text 1 m
    | None =>
        if negb (DarkMahou.present (t_magnetLink torrent)) &&
           negb (DarkMahou.present (t_infoHash torrent))
        then exampleHash
        else ""
    end.

Definition exampleMagnet : string :=
  "magnet:?xt=urn:btih:1234567890abcdef1234567890abcdef12345678&dn=Example+Anime+Episode+01+1080p".

Definition getTorrentMagnetLink (torrent : AnimeTorrent) : string :=
  if DarkMahou.present (t_magnetLink torrent)
  then DarkMahou.or_else (t_magnetLink torrent) ""
  else
    if negb (DarkMahou.present (t_magnetLink torrent)) &&
       negb (DarkMahou.present (t_name torrent))
    then exampleMagnet
    else "".

Definition getLatest : list AnimeTorrent := [].

End Provider.

End BundledDarkMahou.

(* ================================================================== *)
(** * MangaLivre: the manga provider                                   *)
(* ================================================================== *)

Module MangaLivre.
Import JS.

Definition baseUrl : string := "https://mangalivre.tv".

Record QueryOptions : Type := MkQueryOptions { query : string }.

Record SearchResult : Type := MkSearchResult {
  id : string;
  title : string;
  image : option string
}.

Record ChapterDetails : Type := MkChapterDetails {
  c_id : string;
  c_url : string;
  c_title : string;
  chapter : string;
  index : nat;
  language : string
}.

(** [/cap[íi]tulo\s*([\d\.,]+)/i]; the i with acute accent is U+00ED. *)
Definition CHAPTER_TITLE : regex :=
  rseq [RStr "cap"; RAtom (Set_ [CChar "237"; CChar "i"]); RStr "tulo"; star space;
        RGroup 1 (plus (Set_ [CDigit; CChar "."; CChar ","]))].

(** [/capitulo-([\d\.,]+)/i] *)
Definition CHAPTER_HREF : regex :=
  rseq [RStr "capitulo-"; RGroup 1 (plus (Set_ [CDigit; CChar "."; CChar ","]))].

(** [/\/manga\/([^\/]+)\//] *)
Definition MANGA_ID : regex :=
  rseq [RStr "/manga/"; RGroup 1 (plus (NotSet [CChar "/"])); RStr "/"].

(** [/[a-zA-Z-]/] *)
Definition SLUG_CHAR : regex :=
  RAtom (Set_ [CRange "a" "z"; CRange "A" "Z"; CChar "-"]).

(** A document that is not a function cannot be called: a [TypeError]. *)
Definition loadDocument (host : Host) (html : string) : completion Document :=
  (loaded <- LoadDoc host html ;;
   match loaded with
   | Some doc => Normal doc
   | None => Throw "TypeError: $ is not a function"
   end)%js.

(** [String(x || "").trim()] *)
Definition text_or_empty (x : option string) : string :=
  trim (match x with Some s => s | None => "" end).

Record Settings : Type := MkSettings {
  supportsMultiLanguage : bool;
  supportsMultiScanlator : bool
}.

Record ChapterPage : Type := MkChapterPage {
  p_url : string;
  p_index : nat;
  p_headers : list (string * string)
}.

Module Provider.

Definition getSettings : Settings :=
  {| supportsMultiLanguage := false; supportsMultiScanlator := false |}.

(** [encodeURIComponent] may throw. *)
Definition searchUrl (opts : QueryOptions) : completion string :=
  (encoded <- encodeURIComponent (query opts) ;;
   Normal (baseUrl ++ "/?s=" ++ encoded ++ "&post_type=wp-manga"))%js.

Definition parseSearchItem (element : Element) : list SearchResult :=
  let linkElement := find_all [element] "h2 a" in
  match linkElement with
  | [] => []
  | _ =>
      let href := text_or_empty (attr linkElement "href") in
      let title := trim (text linkElement) in
      if negb (truthy title) || negb (truthy href) then []
      else
        match js_match false MANGA_ID href with
        | Some idMatch =>
            let mangaId := group_text 1 idMatch in
            if negb (truthy mangaId) then []
            else
              let imgElement := find_all [element] ".manga__thumb img" in
              let imageUrl :=
                match imgElement with
                | [] => None
                | _ =>
                    let src :=
                      text_or_empty (or_else_opt (attr imgElement "data-src")
                                                 (attr imgElement "src")) in
                    if truthy src
                    then Some (if startsWith src "//" then "https:" ++ src else src)
                    else None
                end in
              [ {| id := mangaId; title := title; image := imageUrl |} ]
        | None => []
        end
  end.

Definition search (host : Host) (opts : QueryOptions) : completion (list SearchResult) :=
  try_catch
    (searchUrl_ <- searchUrl opts ;;
     response <- fetch host "GET" searchUrl_ ;;
     if negb (ok response) then Normal []
     else
       doc <- loadDocument host (body response) ;;
       Normal (flat_map parseSearchItem (doc ".search-lists .manga__item")))%js
    (fun _ => Normal []).

Definition parseChapter (element : Element) : list ChapterDetails :=
  let linkElement := find_all [element] "a" in
  match linkElement with
  | [] => []
  | _ =>
      let title := trim (text linkElement) in
      let href := text_or_empty (attr linkElement "href") in
      if truthy title && truthy href then
        let chapterMatch :=
          match js_match true CHAPTER_TITLE title with
          | Some m => Some m
          | None => js_match true CHAPTER_HREF href
          end in
        match chapterMatch with
        | Some m =>
            let chapterNum := group_text 1 m in
            if truthy chapterNum then
              [ {| c_id := href; c_url := href; c_title := title;
                   chapter := chapterNum;
                   index := 0; (* Will be set after sorting *)
                   language := "pt-BR" |} ]
            else []
        | None => []
        end
      else []
  end.

Definition parseChapters (elements : Selection) : list ChapterDetails :=
  flat_map parseChapter elements.

(** [parseFloat(a.chapter.replace(',', '.'))] *)
Definition chapterNumber (c : ChapterDetails) : number :=
  parseFloat (replace_first "," "." (chapter c)).

Definition sortAndIndexChapters (chapters : list ChapterDetails) : list ChapterDetails :=
  let sorted :=
    sort (fun a b => difference_positive (chapterNumber a) (chapterNumber b)) chapters in
  map (fun '(index, chapter_) =>
         {| c_id := c_id chapter_; c_url := c_url chapter_; c_title := c_title chapter_;
            chapter := chapter chapter_; index := index; language := language chapter_ |})
      (indexed sorted).

Definition findChapters (host : Host) (mangaId : string)
  : completion (list ChapterDetails) :=
  try_catch
    (if negb (test false SLUG_CHAR mangaId) then Normal []
     else
       let mangaUrl := baseUrl ++ "/manga/" ++ mangaId ++ "/" in
       response <- fetch host "GET" mangaUrl ;;
       if negb (ok response) then Normal []
       else
         let ajaxUrl := baseUrl ++ "/manga/" ++ mangaId ++ "/ajax/chapters/" in
         chaptersResponse <- fetch host "POST" ajaxUrl ;;
         fromAjax <-
           (if ok chaptersResponse then
              chaptersDoc <- loadDocument host (body chaptersResponse) ;;
              match chaptersDoc ".wp-manga-chapter" with
              | [] => Normal None
              | elements => Normal (Some (sortAndIndexChapters (parseChapters elements)))
              end
            else Normal None) ;;
         match fromAjax with
         | Some chapters => Normal chapters
         | None =>
             (* Fallback: scraping direto do HTML *)
             doc <- loadDocument host (body response) ;;
             match doc ".listing-chapters_wrap .wp-manga-chapter" with
             | [] => Normal []
             | directElements =>
                 Normal (sortAndIndexChapters (parseChapters directElements))
             end
         end)%js
    (fun _ => Normal []).

(** The images of the page: the first of three selectors that selects
    something. *)
Definition pageImages (doc : Document) : Selection :=
  match doc ".reading-content img" with
  | [] =>
      match doc ".manga-reading img" with
      | [] => doc ".manga-page img"
      | elements => elements
      end
  | elements => elements
  end.

Definition findChapterPages (host : Host) (chapterId : string)
  : completion (list ChapterPage) :=
  try_catch
    (if negb (startsWith chapterId "http") then Normal []
     else
       let chapterUrl := chapterId in
       response <- fetch host "GET" chapterUrl ;;
       if negb (ok response) then Normal []
       else
         doc <- loadDocument host (body response) ;;
         Normal
           (flat_map
              (fun '(i, element) =>
                 let src :=
                   text_or_empty (or_else_opt (attr [element] "data-src")
                                              (attr [element] "src")) in
                 if truthy src
                 then [ {| p_url := src;
                           p_index := i;
                           p_headers :=
                             [ ("Referer", chapterUrl);
                               ("User-Agent",
                                "Mozilla/5.0 (Windows NT 10.0; Win64; x64) AppleWebKit/537.36") ] |} ]
                 else [])
              (indexed (pageImages doc))))%js
    (fun _ => Normal []).

End Provider.

End MangaLivre.

(* ================================================================== *)
(** * MangaLivre with a second request                                 *)
(* ================================================================== *)

(** The provider of MangaLivre of the file that bundles three providers
    (its second part): a page is requested a second time when the first
    request fails.  The host is looked at over one call: its answer to a
    request may change from one request of the call to the next. *)
Module BundledMangaLivre.
Import JS MangaLivre.

Definition baseUrl : string := "https://mangalivre.tv".

Definition USER_AGENT : string :=
  "Mozilla/5.0 (Windows NT 10.0; Win64; x64) AppleWebKit/537.36 (KHTML, like Gecko) Chrome/91.0.4472.124 Safari/537.36".

(** The host over one call: its answer to the [n]-th request of the call,
    counted from 0, and the documents it loads. *)
Record Calls : Type := MkCalls {
  request : nat -> string -> string -> completion Response;
  load : string -> completion (option Document)
}.

(** A host that answers every request of the call alike. *)
Definition steady (host : Host) : Calls :=
  {| request := fun _ => fetch host; load := LoadDoc host |}.

(** A document that is not a function cannot be called: a [TypeError]. *)
Definition loadDocument (calls : Calls) (html : string) : completion Document :=
  (loaded <- load calls html ;;
   match loaded with
   | Some doc => Normal doc
   | None => Throw "TypeError: $ is not a function"
   end)%js.

Module Provider.

Definition getSettings : Settings :=
  {| supportsMultiLanguage := false; supportsMultiScanlator := false |}.

Definition buildSearchUrl (query : string) : completion string :=
  (encoded <- encodeURIComponent query ;;
   Normal (baseUrl ++ "/?s=" ++ encoded ++ "&post_type=wp-manga"))%js.

(** The attempts of [fetchWithRetry] that are left, [n] requests having
    been made in the call: the response, [null] being [None], and the
    number of requests made. *)
Fixpoint attempts (calls : Calls) (url : string) (left n : nat) : option Response * nat :=
  match left with
  | O => (None, n)
  | S left' =>
      match request calls n "GET" url with
      | Normal response =>
          if negb (ok response) then attempts calls url left' (S n)
          else (Some response, S n)
      | Throw _ => attempts calls url left' (S n)
      end
  end.

(** [fetchWithRetry(url)], with its default of one retry. *)
Definition fetchWithRetry (calls : Calls) (url : string) (n : nat) : option Response * nat :=
  attempts calls url 2 n.

(** The items of the search page have the text of the first provider. *)
Definition parseSearchResults (doc : Document) : list SearchResult :=
  flat_map MangaLivre.Provider.parseSearchItem (doc ".search-lists .manga__item").

Definition search (calls : Calls) (opts : QueryOptions) : completion (list SearchResult) :=
  if negb (truthy (trim (query opts))) then Normal []
  else
    try_catch
      (let query_ := trim (query opts) in
       searchUrl <- buildSearchUrl query_ ;;
       match fetchWithRetry calls searchUrl 0 with
       | (None, _) => Normal []
       | (Some response, _) =>
           doc <- loadDocument calls (body response) ;;
           Normal (parseSearchResults doc)
       end)%js
      (fun _ => Normal []).

Definition isValidMangaId (mangaId : string) : bool := test false SLUG_CHAR mangaId.

(** The request of the chapters; every error is caught. *)
Definition fetchChaptersViaAjax (calls : Calls) (mangaId : string) (n : nat)
  : list ChapterDetails :=
  let ajaxUrl := baseUrl ++ "/manga/" ++ mangaId ++ "/ajax/chapters/" in
  match request calls n "POST" ajaxUrl with
  | Normal chaptersResponse =>
      if ok chaptersResponse then
        match loadDocument calls (body chaptersResponse) with
        | Normal chaptersDoc =>
            match chaptersDoc ".wp-manga-chapter" with
            | [] => []
            | elements => MangaLivre.Provider.parseChapters elements
            end
        | Throw _ => []
        end
      else []
  | Throw _ => []
  end.

Definition findChapters (calls : Calls) (mangaId : string)
  : completion (list ChapterDetails) :=
  if negb (isValidMangaId mangaId) then Normal []
  else
    try_catch
      (let mangaUrl := baseUrl ++ "/manga/" ++ mangaId ++ "/" in
       match fetchWithRetry calls mangaUrl 0 with
       | (None, _) => Normal []
       | (Some response, n) =>
           match fetchChaptersViaAjax calls mangaId n with
           | _ :: _ as ajaxChapters =>
               Normal (MangaLivre.Provider.sortAndIndexChapters ajaxChapters)
           | [] =>
               doc <- loadDocument calls (body response) ;;
               match doc ".listing-chapters_wrap .wp-manga-chapter" with
               | [] => Normal []
               | directElements =>
                   Normal (MangaLivre.Provider.sortAndIndexChapters
                             (MangaLivre.Provider.parseChapters directElements))
               end
           end
       end)%js
      (fun _ => Normal []).

Definition isValidChapterId (chapterId : string) : bool := startsWith chapterId "http".

Definition parseChapterPages (doc : Document) (chapterUrl : string) : list ChapterPage :=
  flat_map
    (fun '(i, element) =>
       let src :=
         text_or_empty (or_else_opt (attr [element] "data-src") (attr [element] "src")) in
       if truthy src
       then [ {| p_url := src;
                 p_index := i;
                 p_headers := [ ("Referer", chapterUrl); ("User-Agent", USER_AGENT) ] |} ]
       else [])
    (indexed (MangaLivre.Provider.pageImages doc)).

Definition findChapterPages (calls : Calls) (chapterId : string)
  : completion (list ChapterPage) :=
  if negb (isValidChapterId chapterId) then Normal []
  else
    try_catch
      (let chapterUrl := chapterId in
       match fetchWithRetry calls chapterUrl 0 with
       | (None, _) => Normal []
       | (Some response, _) =>
           doc <- loadDocument calls (body response) ;;
           Normal (parseChapterPages doc chapterUrl)
       end)%js
      (fun _ => Normal []).

End Provider.

End BundledMangaLivre.

(* ================================================================== *)
(** * AnimesROLL: the streaming provider of anroll.net                 *)
(* ================================================================== *)

(** The provider reads data in JSON.  The data are taken at the types the
    provider declares for them, a field that may be absent being an
    option.  The reading of a text as JSON, [response.json()], is the work
    of the runtime; [parseNextData], which finds the data in the text of a
    page, is a function of the page.  Both are parameters here: what is
    proved holds whatever they read. *)
Module AnimesROLL.
Import JS.

Definition baseUrl : string := "https://www.anroll.net".
Definition oldApiUrl : string := "https://apiv2-prd.anroll.net".
Definition newApiUrl : string := "https://apiv3-prd.anroll.net".

Definition headers : list (string * string) :=
  [ ("Referer", baseUrl);
    ("User-Agent",
     "Mozilla/5.0 (Windows NT 10.0; Win64; x64) AppleWebKit/537.36 (KHTML, like Gecko) Chrome/120.0.0.0 Safari/537.36") ].

Record AnimeDataDto : Type := MkAnimeDataDto {
  titulo : option string;
  nome_filme : option string;
  slug_serie : option string;
  generate_id : option string;
  od : option string
}.

Record EpisodeDto : Type := MkEpisodeDto { n_episodio : string }.

Record EpisodeListDto : Type := MkEpisodeListDto {
  data : option (list EpisodeDto);
  meta : option number        (* [meta.totalOfPages] *)
}.

Record SearchResultsDto : Type := MkSearchResultsDto {
  data_anime : option (list AnimeDataDto);
  data_filme : option (list AnimeDataDto)
}.

(** The data of a page: those of a film, under [data_movie], or those of
    an anime. *)
Inductive PageData : Type :=
| MovieInfo (data_movie : AnimeDataDto)
| AnimeData (anime : AnimeDataDto).

Record Media : Type := MkMedia {
  romajiTitle : option string;
  englishTitle : option string
}.

Record SearchOptions : Type := MkSearchOptions {
  media : Media;
  query : string;
  dub_ : bool
}.

Record EpisodeDetails : Type := MkEpisodeDetails {
  e_id : string;
  e_number : number;
  e_url : string;
  e_title : string
}.

(** [a || b] on texts that may be absent, a field spliced into a text, and
    [list || []]. *)
Definition or_else (a : option string) (b : string) : string :=
  match a with
  | Some s => if truthy s then s else b
  | None => b
  end.

Definition spliced (field : option string) : string :=
  match field with
  | Some s => s
  | None => "undefined"
  end.

Definition or_empty {A : Type} (l : option (list A)) : list A :=
  match l with
  | Some items => items
  | None => []
  end.

Section Readers.

Variable readSearch : string -> completion SearchResultsDto.
Variable parseNextData : string -> completion PageData.
Variable readEpisodes : string -> completion EpisodeListDto.

Definition getSettings : Q1N.Settings :=
  {| Q1N.episodeServers := ["default"]; Q1N.supportsDub := false |}.

Definition searchResult (item : AnimeDataDto) : Q1N.SearchResult :=
  let isMovie := negb (truthy (or_else (slug_serie item) "")) in
  let title := or_else (titulo item) (or_else (nome_filme item) "") in
  let id :=
    if isMovie then "f/" ++ spliced (generate_id item)
    else "anime/" ++ spliced (slug_serie item) in
  {| Q1N.id := id;
     Q1N.title := title;
     Q1N.url := baseUrl ++ "/" ++ id;
     Q1N.subOrDub := Q1N.sub |}.

Definition search (host : Host) (opts : SearchOptions)
  : completion (list Q1N.SearchResult) :=
  try_catch
    (let searchQuery :=
       if truthy (query opts) then query opts
       else or_else (romajiTitle (media opts)) (or_else (englishTitle (media opts)) "") in
     encoded <- encodeURIComponent searchQuery ;;
     response <- fetch host "GET" (oldApiUrl ++ "/search?q=" ++ encoded) ;;
     if negb (ok response) then Normal []
     else
       data_ <- readSearch (body response) ;;
       let allItems := (or_empty (data_anime data_) ++ or_empty (data_filme data_))%list in
       Normal (map searchResult allItems))%js
    (fun _ => Normal []).

(** The pages of episodes from [page] on; every error is caught.  A page
    asks for the next while the number of pages it announces is greater;
    [fuel] bounds the number of pages, [None] when it runs out. *)
Fixpoint fetchAllEpisodes (fuel : nat) (host : Host) (animeId : string) (page : nat)
  : option (list EpisodeDto) :=
  match fuel with
  | O => None
  | S fuel' =>
      match fetch host "GET"
                  (newApiUrl ++ "/animes/" ++ animeId ++ "/episodes?page=" ++
                   string_of_nat page ++ "&order=desc") with
      | Throw _ => Some []
      | Normal response =>
          if negb (ok response) then Some []
          else
            match readEpisodes (body response) with
            | Throw _ => Some []
            | Normal data_ =>
                let episodes := or_empty (data data_) in
                let more :=
                  match meta data_ with
                  | Some totalOfPages =>
                      number_ltb (number_of_Z (Z.of_nat page)) totalOfPages
                  | None => false
                  end in
                if more then
                  match fetchAllEpisodes fuel' host animeId (S page) with
                  | Some nextPageEpisodes => Some (episodes ++ nextPageEpisodes)%list
                  | None => None
                  end
                else Some episodes
            end
      end
  end.

Definition episodeOf (anime : AnimeDataDto) (ep : EpisodeDto) : EpisodeDetails :=
  {| e_id := spliced (slug_serie anime) ++ "/" ++ n_episodio ep;
     e_number := parseFloat (n_episodio ep);
     e_url := "https://cdn-01.gamabunta.xyz/hls/animes/" ++ spliced (slug_serie anime) ++
              "/" ++ n_episodio ep ++ ".mp4/media-1/stream.m3u8";
     e_title := "Epis" ++ String "243" "dio #" ++ n_episodio ep |}.

(** The data of a page taken for those of an anime: under [data_movie]
    nothing of an anime is found. *)
Definition asAnime (pageData : PageData) : AnimeDataDto :=
  match pageData with
  | AnimeData anime => anime
  | MovieInfo _ => MkAnimeDataDto None None None None None
  end.

Definition findEpisodes (fuel : nat) (host : Host) (id : string)
  : option (completion (list EpisodeDetails)) :=
  match fetch host "GET" (baseUrl ++ "/" ++ id) with
  | Throw _ => Some (Normal [])
  | Normal response =>
      if negb (ok response) then Some (Normal [])
      else
        match parseNextData (body response) with
        | Throw _ => Some (Normal [])
        | Normal animeData =>
            if startsWith id "f/" then
              let movieData :=
                match animeData with
                | MovieInfo data_movie => data_movie
                | AnimeData anime => anime
                end in
              if truthy (or_else (od movieData) "")
              then Some (Normal [ {| e_id := spliced (od movieData) ++ "/filme";
                                     e_number := number_of_Z 1;
                                     e_url := oldApiUrl ++ "/od/" ++ spliced (od movieData) ++
                                              "/filme.mp4";
                                     e_title := "Filme" |} ])
              else Some (Normal [])
            else
              let anime := asAnime animeData in
              match fetchAllEpisodes fuel host (spliced (generate_id anime)) 1 with
              | None => None
              | Some episodes =>
                  Some (Normal
                          (sort (fun a b => difference_positive (e_number a) (e_number b))
                                (map (episodeOf anime) episodes)))
              end
        end
  end.

Definition findEpisodeServer (episode : EpisodeDetails) (server : string)
  : completion Q1N.EpisodeServer :=
  if includes (e_id episode) "/filme"
  then Normal {| Q1N.server := "default";
                 Q1N.headers := headers;
                 Q1N.videoSources := [ {| Q1N.vs_url := e_url episode;
                                          Q1N.vs_type := "mp4";
                                          Q1N.quality := "HD";
                                          Q1N.subtitles := [] |} ] |}
  else Normal {| Q1N.server := "default";
                 Q1N.headers := headers;
                 Q1N.videoSources := [ {| Q1N.vs_url := e_url episode;
                                          Q1N.vs_type := "m3u8";
                                          Q1N.quality := "HD";
                                          Q1N.subtitles := [] |} ] |}.

End Readers.

End AnimesROLL.

(* ================================================================== *)
(** * What the specification says, in its own words                    *)
(* ================================================================== *)

(** ** Occurrences of a pattern in a text *)

Module Occurrence.
Import JS.

(** [s] contains [p]: some text before, [p], some text after. *)
Definition contains (s p : string) : Prop :=
  exists before after, s = before ++ p ++ after.

(** The position [i] code units into a text: the code unit before it and
    the text after it; none beyond the end. *)
Fixpoint position (i : nat) (prev : option ascii) (s : string)
  : option (option ascii * string) :=
  match i with
  | O => Some (prev, s)
  | S j =>
      match s with
      | String c s' => position j (Some c) s'
      | EmptyString => None
      end
  end.

(** The match of the pattern that starts at position [i], if there is one. *)
Definition occurrence_from (ic : bool) (r : regex) (prev : option ascii) (s : string)
           (i : nat) : option rmatch_result :=
  match position i prev s with
  | Some (p, suffix) => match_here ic r p suffix
  | None => None
  end.

Definition occurrence (ic : bool) (r : regex) (s : string) (i : nat)
  : option rmatch_result :=
  occurrence_from ic r None s i.

(** The pattern occurs somewhere in the text. *)
Definition occurs (ic : bool) (r : regex) (s : string) : Prop :=
  exists i m, occurrence ic r s i = Some m.

(** [m] is the leftmost occurrence of the pattern. *)
Definition leftmost (ic : bool) (r : regex) (s : string) (m : rmatch_result) : Prop :=
  exists i, occurrence ic r s i = Some m /\
            forall j, (j < i)%nat -> occurrence ic r s j = None.

End Occurrence.

(** ** Episode numbers and batches (DarkMahou) *)

Module EpisodeSpec.
Import JS DarkMahou Occurrence.

(** A number between 1 and 9999. *)
Definition valid (n : Z) : Prop := (1 <= n <= 9999)%Z.

(** A strategy is described by the numbers it may give; it fails when it
    gives none. *)
Definition strategy : Type := Z -> Prop.

Definition fails (s : strategy) : Prop := forall n, ~ s n.

(** The result [o] of a strategy of the code is described by [s]. *)
Definition reflects (o : option Z) (s : strategy) : Prop :=
  forall n, o = Some n <-> s n.

(** The patterns of the five strategies, as the specification names them.
    Each is written out here; none is taken from the provider. *)

(** The Portuguese pattern: the word with its acute accent (U+00F3), white
    space, the digits of the number (group 1). *)
Definition portuguese_pattern : regex :=
  RSeq (RStr "epis")
    (RSeq (RAtom (Lit "243"))
       (RSeq (RStr "dio")
          (RSeq (RRep (Set_ [CSpace]) 1 None)
             (RGroup 1 (RRep (Set_ [CDigit]) 1 None))))).

(** The dash pattern: a white space, a dash, a white space, one to four
    digits (group 1), a white space. *)
Definition dash_pattern : regex :=
  RSeq (RAtom (Set_ [CSpace]))
    (RSeq (RStr "-")
       (RSeq (RAtom (Set_ [CSpace]))
          (RSeq (RGroup 1 (RRep (Set_ [CDigit]) 1 (Some 4)))
             (RAtom (Set_ [CSpace]))))).

(** [S<season>E<episode>]: the digits of the season (group 1) and of the
    episode (group 2). *)
Definition season_episode_pattern : regex :=
  RSeq (RStr "S")
    (RSeq (RGroup 1 (RRep (Set_ [CDigit]) 1 None))
       (RSeq (RStr "E") (RGroup 2 (RRep (Set_ [CDigit]) 1 None)))).

(** The English pattern: [ep] or [episode], any white space, the digits of
    the number (group 1). *)
Definition english_pattern : regex :=
  RSeq (RAlt (RStr "ep") (RStr "episode"))
    (RSeq (RRep (Set_ [CSpace]) 0 None)
       (RGroup 1 (RRep (Set_ [CDigit]) 1 None))).

(** An isolated number: one to four digits between two word boundaries. *)
Definition isolated_pattern : regex :=
  RSeq RWordB (RSeq (RGroup 1 (RRep (Set_ [CDigit]) 1 (Some 4))) RWordB).

(** The pattern matched in the text, its group [g] read as the number [n],
    which must be between 1 and 9999. *)
Definition pattern_number (ic : bool) (pattern : regex) (g : nat) (text : string)
  : strategy :=
  fun n => exists m, leftmost ic pattern text m /\ parseIntGroup g m = Some n /\ valid n.

(** What an isolated number must satisfy to be taken. *)
Definition acceptable (n : Z) : Prop :=
  valid n /\ n <> 480%Z /\ n <> 720%Z /\ n <> 1080%Z /\ (n < 2000)%Z.

(** The first isolated number of one to four digits that is acceptable. *)
Definition isolated_number (name : string) : strategy :=
  fun n => exists before s after,
      match_all false isolated_pattern name = (before ++ s :: after)%list /\
      parseInt s = Some n /\ acceptable n /\
      Forall (fun s' => forall n', parseInt s' = Some n' -> ~ acceptable n') before.

(** The five strategies, in their order of priority.  The Portuguese, the
    season and the English patterns match without regard to case. *)
Definition strategies (name episodeTitle : string) : list strategy :=
  [ pattern_number true portuguese_pattern 1 episodeTitle;
    pattern_number false dash_pattern 1 name;
    pattern_number true season_episode_pattern 2 name;
    pattern_number true english_pattern 1 name;
    isolated_number name ].

(** The value of the first strategy of a list that succeeds. *)
Inductive first_success : list strategy -> Z -> Prop :=
| first_here : forall s more n, s n -> first_success (s :: more) n
| first_later : forall s more n,
    fails s -> first_success more n -> first_success (s :: more) n.

(** The episode number the specification expects. *)
Inductive expected (name episodeTitle : string) : Z -> Prop :=
| expected_batch :
    TorrentParser.isBatchTorrent name episodeTitle = true ->
    expected name episodeTitle (-1)
| expected_first : forall n,
    TorrentParser.isBatchTorrent name episodeTitle = false ->
    first_success (strategies name episodeTitle) n ->
    expected name episodeTitle n
| expected_none :
    TorrentParser.isBatchTorrent name episodeTitle = false ->
    Forall fails (strategies name episodeTitle) ->
    expected name episodeTitle (-1).

(** An episode range whose end is greater than its start, with a start of
    at least 1 and an end of at most 999. *)
Definition proper_range (m : rmatch_result) : Prop :=
  exists first_ last_,
    parseIntGroup 1 m = Some first_ /\ parseIntGroup 2 m = Some last_ /\
    (last_ > first_)%Z /\ (first_ >= 1)%Z /\ (last_ <= 999)%Z.

(** The patterns of the indicators, written out here as those of the
    strategies are. *)

(** An episode range: between two word boundaries, two or three digits
    (group 1), any white space, [-] or [~], any white space, two or three
    digits (group 2). *)
Definition range_pattern : regex :=
  RSeq RWordB
    (RSeq (RGroup 1 (RRep (Set_ [CDigit]) 2 (Some 3)))
       (RSeq (RRep (Set_ [CSpace]) 0 None)
          (RSeq (RAtom (Set_ [CChar "-"; CChar "~"]))
             (RSeq (RRep (Set_ [CSpace]) 0 None)
                (RSeq (RGroup 2 (RRep (Set_ [CDigit]) 2 (Some 3))) RWordB))))).

(** A season token: [s] and digits between two word boundaries. *)
Definition season_token_pattern : regex :=
  RSeq RWordB (RSeq (RStr "s") (RSeq (RRep (Set_ [CDigit]) 1 None) RWordB)).

(** A season and episode token: [s], digits, [e] and digits between two
    word boundaries. *)
Definition season_episode_token_pattern : regex :=
  RSeq RWordB
    (RSeq (RStr "s")
       (RSeq (RRep (Set_ [CDigit]) 1 None)
          (RSeq (RStr "e") (RSeq (RRep (Set_ [CDigit]) 1 None) RWordB)))).

(** The name contains such a range, anywhere. *)
Definition contains_proper_range (name : string) : Prop :=
  exists i m, occurrence false range_pattern name i = Some m /\ proper_range m.

(** The leftmost range of the name is such a range. *)
Definition leftmost_range_is_proper (name : string) : Prop :=
  exists m, leftmost false range_pattern name m /\ proper_range m.

(** A season token [s<digits>] and no token [s<digits>e<digits>]. *)
Definition season_without_episode (name : string) : Prop :=
  occurs false season_token_pattern (toLowerCase name) /\
  ~ occurs false season_episode_token_pattern (toLowerCase name).

(** The indicators of a batch, as the specification lists them. *)
Definition batch_indicators (name episodeTitle : string) : Prop :=
  contains (toLowerCase name) "batch" \/
  contains (toLowerCase name) "complete" \/
  contains (toLowerCase episodeTitle) "~" \/
  contains_proper_range name \/
  season_without_episode name.

(** The same, with the range read at its leftmost occurrence. *)
Definition batch_indicators_leftmost (name episodeTitle : string) : Prop :=
  contains (toLowerCase name) "batch" \/
  contains (toLowerCase name) "complete" \/
  contains (toLowerCase episodeTitle) "~" \/
  leftmost_range_is_proper name \/
  season_without_episode name.

End EpisodeSpec.

(** ** The anime page of a search (DarkMahou) *)

Module PageSpec.
Import JS DarkMahou Occurrence.

(** An anchor to a DarkMahou page, as a pattern on the text of the page,
    the double quote written Q here: a tag [<a] with, after at least one
    character that does not close the tag, [href=Q], the address (group 1:
    [https://darkmahou.org/], one segment that is not empty and has no
    slash, and a slash), [Q], then within the tag [title=Q], the title
    (group 2: any text without a double quote), [Q], and the end of the
    tag.  The pattern is written out here, not taken from the provider. *)
Definition page_anchor : regex :=
  RSeq (RStr "<a")
    (RSeq (RRep (NotSet [CChar ">"]) 1 None)
       (RSeq (RStr "href=")
          (RSeq (RAtom (Lit "034"))
             (RSeq (RGroup 1
                      (RSeq (RStr "https://darkmahou.org/")
                         (RSeq (RRep (NotSet [CChar "/"]) 1 None) (RStr "/"))))
                (RSeq (RAtom (Lit "034"))
                   (RSeq (RRep (NotSet [CChar ">"]) 0 None)
                      (RSeq (RStr "title=")
                         (RSeq (RAtom (Lit "034"))
                            (RSeq (RGroup 2 (RRep (NotSet [CChar "034"]) 0 None))
                               (RSeq (RAtom (Lit "034"))
                                  (RSeq (RRep (NotSet [CChar ">"]) 0 None)
                                     (RStr ">")))))))))))).

(** The anchors of the page that lead to a DarkMahou page, in the order of
    the document and without regard to case: address and title. *)
Definition anchors (html : string) : list (string * string) :=
  map (fun m => (group_text 1 m, group_text 2 m)) (exec_all true page_anchor html).

(** The nine excluded patterns. *)
Definition excluded_patterns : list string :=
  [ "/?s="; "/tag/"; "/blog/"; "/contato"; "/az-lists";
    "/em-breve"; "/animes-populares"; "/categoria"; "/genero" ].

(** An address that contains one of the excluded patterns. *)
Definition excluded (url : string) : Prop :=
  exists pattern, In pattern excluded_patterns /\ contains url pattern.

(** The query with every run of white space replaced by a dash. *)
Fixpoint dashed (in_run : bool) (s : string) : string :=
  match s with
  | EmptyString => EmptyString
  | String c s' =>
      if isSpace c
      then if in_run then dashed true s' else String "-" (dashed true s')
      else String c (dashed false s')
  end.

(** The number of white-space code units at the head of a text. *)
Fixpoint leading_spaces (s : string) : nat :=
  match s with
  | String c s' => if isSpace c then S (leading_spaces s') else O
  | EmptyString => O
  end.

(** The score of a candidate; the texts are compared in lower case. *)
Inductive scored (query title url : string) : Z -> Prop :=
| scored_exact :
    toLowerCase title = toLowerCase query ->
    scored query title url 100
| scored_title :
    toLowerCase title <> toLowerCase query ->
    contains (toLowerCase title) (toLowerCase query) ->
    scored query title url 50
| scored_url :
    toLowerCase title <> toLowerCase query ->
    ~ contains (toLowerCase title) (toLowerCase query) ->
    contains (toLowerCase url) (dashed false (toLowerCase query)) ->
    scored query title url 30
| scored_nothing :
    toLowerCase title <> toLowerCase query ->
    ~ contains (toLowerCase title) (toLowerCase query) ->
    ~ contains (toLowerCase url) (dashed false (toLowerCase query)) ->
    scored query title url 0.

(** The score as the specification words it: the title equal to the query
    without regard to case; else the title, as written, containing the
    query, as written; else the address, as written, containing the query
    with its runs of white space replaced by a dash. *)
Inductive scored_as_stated (query title url : string) : Z -> Prop :=
| stated_exact :
    toLowerCase title = toLowerCase query ->
    scored_as_stated query title url 100
| stated_title :
    toLowerCase title <> toLowerCase query ->
    contains title query ->
    scored_as_stated query title url 50
| stated_url :
    toLowerCase title <> toLowerCase query ->
    ~ contains title query ->
    contains url (dashed false query) ->
    scored_as_stated query title url 30
| stated_nothing :
    toLowerCase title <> toLowerCase query ->
    ~ contains title query ->
    ~ contains url (dashed false query) ->
    scored_as_stated query title url 0.

(** The same score, computed. *)
Definition stated_score (query title url : string) : Z :=
  if String.eqb (toLowerCase title) (toLowerCase query) then 100%Z
  else if includes title query then 50%Z
  else if includes url (dashed false query) then 30%Z
  else 0%Z.

(** The candidates of a list of anchors under a scoring: the anchors whose
    address is not excluded, each with its score, in the order of the
    anchors. *)
Inductive candidates_of (score_of : string -> string -> Z -> Prop)
  : list (string * string) -> list ScoreMatch -> Prop :=
| candidates_nil : candidates_of score_of [] []
| candidates_skip : forall url title more cands,
    excluded url ->
    candidates_of score_of more cands ->
    candidates_of score_of ((url, title) :: more) cands
| candidates_keep : forall url title s more cands,
    ~ excluded url ->
    score_of title url s ->
    candidates_of score_of more cands ->
    candidates_of score_of ((url, title) :: more) (MkScoreMatch url title s :: cands).

(** The candidates as the provider computes them: the anchors whose address
    is not skipped, each with its score, in the order of the document. *)
Definition candidates (html query : string) : list ScoreMatch :=
  map (fun '(url, title) =>
         MkScoreMatch url title (AnimePageExtractor.calculateMatchScore query title url))
      (filter (fun '(url, _) => negb (AnimePageExtractor.shouldSkipURL url))
              (anchors html)).

(** [c] scores above 0, no candidate scores more, and the candidates
    before it score less: the earliest candidate of maximal score. *)
Definition earliest_best (cands : list ScoreMatch) (c : ScoreMatch) : Prop :=
  exists before after,
    cands = (before ++ c :: after)%list /\ (score c > 0)%Z /\
    Forall (fun c' => (score c' < score c)%Z) before /\
    Forall (fun c' => (score c' <= score c)%Z) after.

(** The address [u] is the one to return for the page under a scoring: the
    address of the earliest candidate of maximal score among those above 0,
    or the empty text when no candidate scores above 0. *)
Definition selects (score_of : string -> string -> Z -> Prop) (html u : string) : Prop :=
  exists cands,
    candidates_of score_of (anchors html) cands /\
    ((exists c, earliest_best cands c /\ sm_url c = u) \/
     (Forall (fun c => (score c <= 0)%Z) cands /\ u = "")).

(** The claim with the score as the specification words it, for one page
    and one query. *)
Definition page_as_stated (html query : string) : Prop :=
  forall u, AnimePageExtractor.extractPageURL html query = u <->
            selects (scored_as_stated query) html u.

(** An anchor of a page, written out. *)
Definition anchor (url title : string) : string :=
  "<a href=" ++ String "034" url ++ String "034" " title=" ++ String "034" title
  ++ String "034" ">".

(** A page with four anchors: one to an excluded address whose title is the
    query; one whose title contains the query in another case; one whose
    address contains the query; one more whose title contains the query in
    another case. *)
Definition naruto_page : string :=
  anchor "https://darkmahou.org/tag/" "naruto" ++
  anchor "https://darkmahou.org/x/" "NARUTO Shippuden" ++
  anchor "https://darkmahou.org/naruto/" "zzz" ++
  anchor "https://darkmahou.org/y/" "Naruto Movie".

(** The comparator of [selectBestMatch], as the test the sort makes. *)
Definition by_score_desc (a b : ScoreMatch) : bool := (score b - score a >? 0)%Z.

End PageSpec.

(** ** Info hashes (DarkMahou) *)

Module HashSpec.
Import JS DarkMahou Occurrence.

Definition is_hex (c : ascii) : bool :=
  in_range 48 57 c || in_range 97 102 c || in_range 65 70 c.

Fixpoint all_chars (f : ascii -> bool) (s : string) : bool :=
  match s with
  | EmptyString => true
  | String c s' => f c && all_chars f s'
  end.

(** A text of exactly 40 hexadecimal characters. *)
Definition hex40 (h : string) : Prop :=
  String.length h = 40%nat /\ all_chars is_hex h = true.

(** A field that is absent or empty. *)
Definition absent_or_empty (field : option string) : Prop :=
  field = None \/ field = Some "".

(** [btih:] followed by exactly 40 hexadecimal digits (group 1), the
    pattern written out here. *)
Definition btih_pattern : regex :=
  RSeq (RStr "btih:")
    (RGroup 1
       (RRep (Set_ [CRange "a" "f"; CRange "A" "F"; CRange "0" "9"]) 40 (Some 40))).

(** The link contains [btih:] followed by 40 hexadecimal digits, in either
    case. *)
Definition has_btih_hash (link : string) : Prop := occurs true btih_pattern link.

(** The placeholder hash, written out here. *)
Definition placeholder : string := "1234567890abcdef1234567890abcdef12345678".

(** What the placeholder clause and the empty clause say. *)
Definition placeholder_clause (torrent : AnimeTorrent) : Prop :=
  absent_or_empty (t_infoHash torrent) -> absent_or_empty (t_magnetLink torrent) ->
  Provider.getTorrentInfoHash torrent = placeholder.

Definition empty_clause (torrent : AnimeTorrent) : Prop :=
  forall link, t_magnetLink torrent = Some link -> link <> "" ->
               ~ has_btih_hash link -> absent_or_empty (t_infoHash torrent) ->
               Provider.getTorrentInfoHash torrent = "".

(** The returned value is empty, the placeholder or 40 hexadecimal
    characters. *)
Definition well_formed_result (torrent : AnimeTorrent) : Prop :=
  Provider.getTorrentInfoHash torrent = "" \/
  Provider.getTorrentInfoHash torrent = placeholder \/
  hex40 (Provider.getTorrentInfoHash torrent).

(** A torrent as a caller may give it: only the three fields the
    operation reads matter. *)
Definition torrent_with (name infoHash magnetLink : option string) : AnimeTorrent :=
  {| t_name := name; t_date := ""; t_size := 0; t_formattedSize := "";
     t_seeders := 0; t_leechers := 0; t_downloadCount := 0; t_link := "";
     t_downloadUrl := ""; t_magnetLink := magnetLink; t_infoHash := infoHash;
     t_resolution := ""; t_isBatch := false; t_episodeNumber := (-1);
     t_releaseGroup := ""; t_isBestRelease := false; t_confirmed := false |}.

End HashSpec.

(** ** Smart search (DarkMahou) *)

Module SmartSearchSpec.
Import JS DarkMahou Occurrence.

(** [l1] is a subsequence of [l2]: the same elements in the same order,
    some left out, none added. *)
Inductive subsequence {A : Type} : list A -> list A -> Prop :=
| sub_nil : subsequence [] []
| sub_keep : forall x l1 l2, subsequence l1 l2 -> subsequence (x :: l1) (x :: l2)
| sub_drop : forall x l1 l2, subsequence l1 l2 -> subsequence l1 (x :: l2).

(** The torrent passes every filter the options activate. *)
Definition passes (opts : AnimeSmartSearchOptions) (t : AnimeTorrent) : Prop :=
  (batch opts = true -> t_isBatch t = true) /\
  ((episodeNumber opts > 0)%Z ->
   t_episodeNumber t = episodeNumber opts \/ t_isBatch t = true \/
   t_episodeNumber t = (-1)%Z) /\
  (resolution opts <> "" ->
   t_resolution t = "" \/ contains (t_resolution t) (resolution opts)).

(** A host for examples: the search page holds one anchor, the anime page
    two magnet links; [LoadDoc] gives nothing that can be called, so the
    links are read by the pattern; the clock is given. *)
Definition example_search_page : string :=
  "<a href=" ++ String dquote "https://darkmahou.org/naruto/" ++ String dquote " title="
  ++ String dquote "Naruto" ++ String dquote ">".

Definition example_anime_page : string :=
  "magnet:?xt=urn:btih:0123456789abcdef0123456789abcdef01234567&dn=Naruto.S01E05.1080p "
  ++ "magnet:?xt=urn:btih:89abcdef0123456789abcdef0123456789abcdef&dn=Naruto.S01E06.720p".

Definition example_host (clock : nat -> string) : Host :=
  {| fetch := fun _ url =>
       Normal (MkResponse true 200 "OK"
                 (if String.eqb url "https://darkmahou.org/?s=naruto"
                  then example_search_page else example_anime_page));
     LoadDoc := fun _ => Normal None;
     now := clock;
     decodeURIComponent := fun s => Normal s |}.

Definition example_options : AnimeSmartSearchOptions :=
  {| media := MkMedia None None; query := "naruto"; batch := false;
     episodeNumber := 5; resolution := "1080p" |}.

End SmartSearchSpec.

(** ** Search results and players (Q1N) *)

Module Q1NSpec.
Import JS Q1N Occurrence.

(** The results one container selector yields. *)
Definition parsed (doc : Document) (selector : string) : list SearchResult :=
  flat_map (fun element =>
              match Provider.parseSearchResultElement [element] with
              | Some result => [result]
              | None => []
              end)
           (doc selector).

(** A valid result: a title that is not empty and an address that
    contains [/animes/]. *)
Definition valid_result (r : SearchResult) : Prop :=
  title r <> "" /\ contains (url r) "/animes/".

(** The first selector of the list that yields a result. *)
Inductive first_productive (doc : Document) : list string -> string -> Prop :=
| productive_here : forall selector more,
    parsed doc selector <> [] -> first_productive doc (selector :: more) selector
| productive_later : forall selector more s,
    parsed doc selector = [] -> first_productive doc more s ->
    first_productive doc (selector :: more) s.

(** The selectors that are consulted: those up to the first that yields
    a result, that one included. *)
Fixpoint consulted (doc : Document) (selectors : list string) : list string :=
  match selectors with
  | [] => []
  | selector :: more =>
      match parsed doc selector with
      | [] => selector :: consulted doc more
      | _ => [selector]
      end
  end.

(** The server that is looked up: [chplay] for [default] and for the
    empty name. *)
Definition requested (server : string) : string :=
  if String.eqb server "default" then "chplay"
  else if String.eqb server "" then "chplay"
  else server.

(** The fallback chain over the entries of the player map. *)
Definition chain (players : JsMap) (server : string) : option string :=
  match map_get (requested server) players with
  | Some u => Some u
  | None =>
      match map_get "chplay" players with
      | Some u => Some u
      | None =>
          match map_get "ruplay" players with
          | Some u => Some u
          | None => map_first_value players
          end
      end
  end.

(** Every address of the map is a text that is not empty. *)
Definition all_truthy (players : JsMap) : Prop :=
  Forall (fun entry => truthy (snd entry) = true) players.

(** The selected address is absent or contains [about:blank]. *)
Definition unusable (selected : option string) : Prop :=
  match selected with
  | Some u => contains u "about:blank"
  | None => True
  end.

Definition throws {A : Type} (c : completion A) : Prop :=
  exists error, c = Throw error.

(** The claim on errors, for one call: the call throws exactly when the
    address selected in the player map of the episode page is unusable. *)
Definition throws_exactly_when_unusable (host : Host) (episode : EpisodeDetails)
           (server : string) : Prop :=
  forall html players,
    Provider.fetchHtml host (ep_url episode) = Some html ->
    Provider.extractPlayersFromPage host html episode = Normal players ->
    (throws (Provider.findEpisodeServer host episode server) <->
     unusable (chain players server)).

(** The data of the episode pass the guard of the operation. *)
Definition valid_episode (episode : EpisodeDetails) : Prop :=
  ep_id episode <> "" /\ trim (ep_url episode) <> "".

(** A host for examples: every page loads, and its document has no
    element at all. *)
Definition empty_document_host : Host :=
  {| fetch := fun _ _ => Normal (MkResponse true 200 "OK" "<html></html>");
     LoadDoc := fun _ => Normal (Some (fun _ => []));
     now := fun _ => "";
     decodeURIComponent := fun s => Normal s |}.

(** The document of the page cannot be had: [LoadDoc] throws, or what it
    returns is not a function that can be called. *)
Definition no_document (host : Host) (html : string) : Prop :=
  throws (LoadDoc host html) \/ LoadDoc host html = Normal None.

(** A host for examples: every page loads, and [LoadDoc] throws. *)
Definition broken_document_host : Host :=
  {| fetch := fun _ _ => Normal (MkResponse true 200 "OK" "<html></html>");
     LoadDoc := fun _ => Throw "LoadDoc failed";
     now := fun _ => "";
     decodeURIComponent := fun s => Normal s |}.

(** A document for examples: nothing under the first three container
    selectors, one anime under [article], another under [.post]. *)
Definition leaf (text : string) (attrs : list (string * string)) : Element :=
  MkElement text attrs (fun _ => []) None.

Definition anime_element (name href : string) : Element :=
  MkElement name []
            (fun selector =>
               if String.eqb selector "h3" then [leaf name []]
               else if String.eqb selector "a" then [leaf name [("href", href)]]
               else [])
            None.

Definition example_document : Document :=
  fun selector =>
    if String.eqb selector "article"
    then [anime_element "Naruto Dublado" "https://q1n.net/animes/naruto-dublado/"]
    else if String.eqb selector ".post"
    then [anime_element "Bleach" "https://q1n.net/animes/bleach/"]
    else [].

Definition example_document_host : Host :=
  {| fetch := fun _ _ => Normal (MkResponse true 200 "OK" "<html></html>");
     LoadDoc := fun _ => Normal (Some example_document);
     now := fun _ => "";
     decodeURIComponent := fun s => Normal s |}.

End Q1NSpec.

(** ** Failing requests and repeated calls *)

Module HostSpec.
Import JS.

(** The request of the page fails: it is rejected, or the response is not
    OK. *)
Definition fetch_fails (host : Host) (url : string) : Prop :=
  match fetch host "GET" url with
  | Throw _ => True
  | Normal response => ok response = false
  end.

(** A host whose every request is rejected, and one that answers 404. *)
Definition rejecting_host : Host :=
  {| fetch := fun _ _ => Throw "network error";
     LoadDoc := fun _ => Normal None;
     now := fun _ => "";
     decodeURIComponent := fun s => Normal s |}.

Definition not_found_host : Host :=
  {| fetch := fun _ _ => Normal (MkResponse false 404 "Not Found" "");
     LoadDoc := fun _ => Normal None;
     now := fun _ => "";
     decodeURIComponent := fun s => Normal s |}.

(** Two hosts give identical responses to [fetch] and [LoadDoc] (and
    decode alike). *)
Definition same_responses (h1 h2 : Host) : Prop :=
  (forall method url, fetch h1 method url = fetch h2 method url) /\
  (forall html, LoadDoc h1 html = LoadDoc h2 html) /\
  (forall s, decodeURIComponent h1 s = decodeURIComponent h2 s).

(** They also read the same times on the clock. *)
Definition same_host (h1 h2 : Host) : Prop :=
  same_responses h1 h2 /\ (forall n, now h1 n = now h2 n).

(** Determinism as the specification states it, for the search of
    DarkMahou: identical arguments and identical responses give identical
    results. *)
Definition search_determined_by_responses : Prop :=
  forall h1 h2 opts,
    same_responses h1 h2 ->
    DarkMahou.Provider.search h1 opts = DarkMahou.Provider.search h2 opts.

(** ** The requests of one call *)

(** The [n]-th request of the call, for the page, fails: it is rejected,
    or the response is not OK. *)
Definition request_fails (calls : BundledMangaLivre.Calls) (n : nat) (url : string) : Prop :=
  match BundledMangaLivre.request calls n "GET" url with
  | Throw _ => True
  | Normal response => ok response = false
  end.

(** Two hosts answer every request of a call alike and load the same
    documents. *)
Definition same_calls (c1 c2 : BundledMangaLivre.Calls) : Prop :=
  (forall n method url,
      BundledMangaLivre.request c1 n method url = BundledMangaLivre.request c2 n method url) /\
  (forall html, BundledMangaLivre.load c1 html = BundledMangaLivre.load c2 html).

(** The claim on failing requests as the specification states it, for the
    search that asks a second time: a request of the search page that fails
    gives the empty list. *)
Definition failed_request_gives_nothing : Prop :=
  forall calls opts url,
    BundledMangaLivre.Provider.buildSearchUrl (trim (MangaLivre.query opts)) = Normal url ->
    request_fails calls 0 url ->
    BundledMangaLivre.Provider.search calls opts = Normal [].

(** A host for examples: the first request of a call is rejected, every
    later one is answered; the document of the page lists one manga. *)
Definition manga_item : Element :=
  MkElement "" []
            (fun selector =>
               if String.eqb selector "h2 a"
               then [MkElement "Dandadan" [("href", "https://mangalivre.tv/manga/dandadan/")]
                               (fun _ => []) None]
               else [])
            None.

Definition second_time_calls : BundledMangaLivre.Calls :=
  {| BundledMangaLivre.request := fun n _ _ =>
       match n with
       | O => Throw "network error"
       | S _ => Normal (MkResponse true 200 "OK" "<html></html>")
       end;
     BundledMangaLivre.load := fun _ =>
       Normal (Some (fun selector =>
                       if String.eqb selector ".search-lists .manga__item"
                       then [manga_item] else [])) |}.

(** ** Calls one after the other *)

(** The operations one after the other: a function of the host and of the
    arguments is determined by the responses when hosts that respond alike
    give the same result, and by the host when the clock counts too. *)
Definition determined_by_responses {A B : Type} (operation : Host -> A -> B) : Prop :=
  forall h1 h2 x, same_responses h1 h2 -> operation h1 x = operation h2 x.

Definition determined_by_host {A B : Type} (operation : Host -> A -> B) : Prop :=
  forall h1 h2 x, same_host h1 h2 -> operation h1 x = operation h2 x.

Definition determined_by_calls {A B : Type}
           (operation : BundledMangaLivre.Calls -> A -> B) : Prop :=
  forall c1 c2 x, same_calls c1 c2 -> operation c1 x = operation c2 x.

(** A pattern with the flag [g] that [String.prototype.match] and
    [String.prototype.replace] read: from [lastIndex] 0 they take match
    after match until [exec] finds no more.  The pattern is left at rest
    when that reading, on every text, gives all the matches of the text and
    ends with [lastIndex] at 0. *)
Definition left_at_rest (ic : bool) (r : regex) : Prop :=
  forall s,
    exec_loop (S (String.length s)) ic r s
              (fun m found => ((found ++ [m])%list, None)) 0 [] =
    Some (exec_all ic r s, None, 0%nat).

(** The claim on repeated calls as the specification states it, for the
    players read from the frames of a page: a first call of a provider
    leaves its patterns as they were declared, and the same call made again
    at once, with the same responses, gives the same result. *)
Definition frames_repeatable (extractVideoUrl : Host -> string -> option string) : Prop :=
  forall host episode server first after_first second after_second,
    BundledQ1N.Provider.findEpisodeServer extractVideoUrl host episode server
                                          BundledQ1N.at_rest = Some (first, after_first) ->
    BundledQ1N.Provider.findEpisodeServer extractVideoUrl host episode server
                                          after_first = Some (second, after_second) ->
    after_first = BundledQ1N.at_rest /\ second = first.

(** A host for examples: the page of every episode holds the frame of a
    warning page whose [url] parameter cannot be decoded, and then the
    frame of a player. *)
Definition frames_page : string :=
  "<iframe src=" ++ String "034" "https://q1n.net/aviso/?url=%" ++ String "034" "></iframe>"
  ++ "<iframe src=" ++ String "034" "https://www.youtube.com/embed/abc"
  ++ String "034" "></iframe>".

Definition frames_host : Host :=
  {| fetch := fun _ _ => Normal (MkResponse true 200 "OK" frames_page);
     LoadDoc := fun _ => Normal None;
     now := fun _ => "";
     decodeURIComponent := fun s =>
       if String.eqb s "%" then Throw "URIError: URI malformed" else Normal s |}.

(** A host for examples: the page of every episode holds the frames of two
    players. *)
Definition two_players_page : string :=
  "<iframe src=" ++ String "034" "https://www.youtube.com/embed/abc" ++ String "034"
  "></iframe>"
  ++ "<iframe src=" ++ String "034" "https://www.blogger.com/video.g?token=x"
  ++ String "034" "></iframe>".

Definition two_players_host : Host :=
  {| fetch := fun _ _ => Normal (MkResponse true 200 "OK" two_players_page);
     LoadDoc := fun _ => Normal None;
     now := fun _ => "";
     decodeURIComponent := fun s => Normal s |}.

Definition frames_episode : Q1N.EpisodeDetails :=
  Q1N.MkEpisodeDetails "naruto-episodio-1" 1 "https://q1n.net/episodio/naruto-episodio-1/" "".

End HostSpec.

(** ** Chapters (MangaLivre) *)

Module ChapterSpec.
Import JS MangaLivre.

(** The numeric value of the [chapter] field: the number read, with the
    comma as decimal point. *)
Definition value (c : ChapterDetails) : number := Provider.chapterNumber c.

(** The order of the numbers by their exact values.  A finite number
    [(-1)^s * m * 2^ex] is [units e] times [2^e], for every [e] at most
    [ex]; two finite numbers are compared in the units of the smaller of
    their exponents.  Minus infinity is below and plus infinity above every
    number; [NaN] is in no order with anything. *)
Definition exponent (x : number) : Z :=
  match x with
  | SpecFloat.S754_finite _ _ e => e
  | _ => 0%Z
  end.

Definition units (e : Z) (x : number) : Z :=
  match x with
  | SpecFloat.S754_finite s m ex =>
      ((if s then - Zpos m else Zpos m) * 2 ^ (ex - e))%Z
  | _ => 0%Z
  end.

Definition num_leb (a b : number) : bool :=
  match a, b with
  | SpecFloat.S754_nan, _ | _, SpecFloat.S754_nan => false
  | SpecFloat.S754_infinity true, _ => true
  | _, SpecFloat.S754_infinity false => true
  | SpecFloat.S754_infinity false, _ => false
  | _, SpecFloat.S754_infinity true => false
  | _, _ =>
      let e := Z.min (exponent a) (exponent b) in
      (units e a <=? units e b)%Z
  end.

(** The exponent of a finite number is at least the least one of the
    format; the sign of a number; a number that is not a zero. *)
Definition well_scaled (x : number) : Prop :=
  match x with
  | SpecFloat.S754_finite _ _ e => (SpecFloat.emin prec emax <= e)%Z
  | _ => True
  end.

Definition has_sign (s : bool) (x : number) : Prop :=
  match x with
  | SpecFloat.S754_zero s' | SpecFloat.S754_infinity s'
  | SpecFloat.S754_finite s' _ _ => s' = s
  | SpecFloat.S754_nan => False
  end.

Definition nonzero (x : number) : Prop :=
  match x with
  | SpecFloat.S754_zero _ => False
  | _ => True
  end.

(** In non-decreasing order of value: each chapter is at most the next. *)
Definition non_decreasing (l : list ChapterDetails) : Prop :=
  Sorted (fun a b => num_leb (value a) (value b) = true) l.

(** The [index] of the element at position [i] is [i]. *)
Definition indexed_by_position (l : list ChapterDetails) : Prop :=
  forall i c, nth_error l i = Some c -> index c = i.

Definition is_number (c : ChapterDetails) : Prop := value c <> NaN.

(** The chapter with its position as [index]. *)
Definition reindex (entry : nat * ChapterDetails) : ChapterDetails :=
  let '(i, c) := entry in
  {| c_id := c_id c; c_url := c_url c; c_title := c_title c;
     chapter := chapter c; index := i; language := language c |}.

(** The claim on the lists [findChapters] returns, for one call. *)
Definition chapters_sorted_and_indexed (host : Host) (mangaId : string) : Prop :=
  forall l, Provider.findChapters host mangaId = Normal l -> l <> [] ->
            non_decreasing l /\ indexed_by_position l.

(** A host for examples: every request is answered, and the document of
    every page lists the given chapters, by title and address. *)
Definition chapter_element (title href : string) : Element :=
  MkElement title []
            (fun selector =>
               if String.eqb selector "a"
               then [MkElement title [("href", href)] (fun _ => []) None]
               else [])
            None.

Definition chapters_host (chapters : list (string * string)) : Host :=
  {| fetch := fun _ _ => Normal (MkResponse true 200 "OK" "<html></html>");
     LoadDoc := fun _ =>
       Normal (Some (fun selector =>
                       if String.eqb selector ".wp-manga-chapter"
                       then map (fun '(title, href) => chapter_element title href) chapters
                       else []));
     now := fun _ => "";
     decodeURIComponent := fun s => Normal s |}.

Definition three_chapters : list (string * string) :=
  [ ("Capitulo 10", "https://mangalivre.tv/manga/x/capitulo-10/");
    ("Capitulo 2", "https://mangalivre.tv/manga/x/capitulo-2/");
    ("Capitulo 1,5", "https://mangalivre.tv/manga/x/capitulo-1-5/") ].

(** Two chapter numbers an odd step apart above 2^53: they read as the same
    binary64 number. *)
Definition tied_chapters : list (string * string) :=
  [ ("Capitulo 9007199254740993", "https://mangalivre.tv/manga/x/b/");
    ("Capitulo 9007199254740992", "https://mangalivre.tv/manga/x/a/") ].

(** A title whose chapter text is made of dots only does not read as a
    number. *)
Definition dotted_chapters : list (string * string) :=
  [ ("Capitulo ... Final", "https://mangalivre.tv/manga/x/final/");
    ("Capitulo 1", "https://mangalivre.tv/manga/x/capitulo-1/") ].

End ChapterSpec.

(** ** Further descriptions, for the properties beyond the claims *)

Module TorrentSpec.
Import JS DarkMahou Occurrence HashSpec EpisodeSpec.

(** What holds of a torrent the provider has created: it carries a magnet
    link that is not empty and the info hash read from that link, empty
    or of 40 hexadecimal characters; a batch has the episode number -1;
    an episode number is -1 or between 1 and 9999; and the page it comes
    from is named. *)
Definition well_formed (t : AnimeTorrent) : Prop :=
  exists link,
    t_magnetLink t = Some link /\ link <> "" /\
    t_infoHash t = Some (TorrentParser.extractInfoHash link) /\
    (TorrentParser.extractInfoHash link = "" \/ hex40 (TorrentParser.extractInfoHash link)) /\
    (t_isBatch t = true -> t_episodeNumber t = (-1)%Z) /\
    (t_episodeNumber t = (-1)%Z \/ valid (t_episodeNumber t)) /\
    t_link t <> "".

(** The operations of the provider read back what the torrent stores. *)
Definition read_back (t : AnimeTorrent) : Prop :=
  exists link hash,
    t_magnetLink t = Some link /\ t_infoHash t = Some hash /\
    Provider.getTorrentMagnetLink t = link /\
    Provider.getTorrentInfoHash t = hash.

(** A maker of torrents that [createAnimeTorrent] gives, for a link that
    is not empty. *)
Definition good_maker (pageURL : string) (make : string -> AnimeTorrent) : Prop :=
  exists name link res title,
    link <> "" /\ make = Provider.createAnimeTorrent name link pageURL res title.

(** No filter of the smart search is active. *)
Definition no_filter (opts : AnimeSmartSearchOptions) : Prop :=
  (episodeNumber opts <= 0)%Z /\ resolution opts = "" /\ batch opts = false.

(** The resolutions [parseResolution] can give. *)
Definition resolutions : list string := [""; "480p"; "720p"; "1080p"; "1440p"].

End TorrentSpec.

Module Q1NExtraSpec.
Import JS Q1N Occurrence Q1NSpec.

(** The fallback player of a server for an episode. *)
Definition fallback_url (server episodeId : string) : string :=
  "https://q1n.net" ++ "/player/" ++ server ++ "/" ++ episodeId.

(** The answer that carries one player: the server, the two headers of
    the site, and the address as the one video source, of type mp4 and
    quality 1080p, without subtitles. *)
Definition player_answer (server url : string) : EpisodeServer :=
  {| server := server;
     headers :=
       [ ("Referer", "https://q1n.net");
         ("User-Agent", "Mozilla/5.0 (Windows NT 10.0; Win64; x64) AppleWebKit/537.36") ];
     videoSources :=
       [ {| vs_url := url; vs_type := "mp4"; quality := "1080p"; subtitles := [] |} ] |}.

(** The server whose fallback player answers a request. *)
Definition fallback_server (server : string) : string :=
  if String.eqb (requested server) "ruplay" then "ruplay" else "chplay".

(** Episode numbers that follow one another from [start] on. *)
Definition numbered_from (start : nat) (episodes : list EpisodeDetails) : Prop :=
  map ep_number episodes = map Z.of_nat (seq start (List.length episodes)).

(** In non-decreasing order of episode number. *)
Definition by_number (episodes : list EpisodeDetails) : Prop :=
  Sorted (fun a b => (ep_number a <= ep_number b)%Z) episodes.

(** A host for examples: the page of the anime loads, and its document
    lists the given episodes, by title and address, under the first list
    selector. *)
Definition episode_element (title href : string) : Element :=
  MkElement title []
            (fun selector =>
               if String.eqb selector ".episodiotitle a"
               then [leaf title [("href", href)]]
               else [])
            None.

Definition episodes_host (episodes : list (string * string)) : Host :=
  {| fetch := fun _ _ => Normal (MkResponse true 200 "OK" "<html></html>");
     LoadDoc := fun _ =>
       Normal (Some (fun selector =>
                       if String.eqb selector "ul.episodios2 li"
                       then map (fun '(title, href) => episode_element title href) episodes
                       else []));
     now := fun _ => "";
     decodeURIComponent := fun s => Normal s |}.

(** Three episodes, listed out of order. *)
Definition three_episodes : list (string * string) :=
  [ ("Episodio 3", "https://q1n.net/episodio/naruto-episodio-3/");
    ("Episodio 1", "https://q1n.net/episodio/naruto-episodio-1/");
    ("Episodio 2", "https://q1n.net/episodio/naruto-episodio-2/") ].

(** A host for examples: the page of the anime is not found, and of the
    pages of the episodes the first three answer. *)
Definition scanned_host : Host :=
  {| fetch := fun method url =>
       if String.eqb method "HEAD" &&
          existsb (String.eqb url)
                  [ "https://q1n.net/episodio/naruto-episodio-1/";
                    "https://q1n.net/episodio/naruto-episodio-2/";
                    "https://q1n.net/episodio/naruto-episodio-3/" ]
       then Normal (MkResponse true 200 "OK" "")
       else Normal (MkResponse false 404 "Not Found" "");
     LoadDoc := fun _ => Normal None;
     now := fun _ => "";
     decodeURIComponent := fun s => Normal s |}.

End Q1NExtraSpec.

Module MangaSpec.
Import JS MangaLivre Occurrence HashSpec ChapterSpec.

(** A character of a chapter number: a digit, a dot or a comma. *)
Definition is_chapter_char (c : ascii) : bool :=
  isDigit c || ascii_eqb "." c || ascii_eqb "," c.

(** A letter of the English alphabet or a hyphen. *)
Definition is_slug_char (c : ascii) : bool :=
  in_range 97 122 c || in_range 65 90 c || ascii_eqb "-" c.

Definition not_slash (c : ascii) : bool := negb (ascii_eqb "/" c).

(** What holds of a chapter read from a page: its number text is not
    empty, is made of digits, dots and commas and stands in the title or
    in the address; the address is not empty and is the id as well; the
    title is not empty; the language is Brazilian Portuguese. *)
Definition parsed_chapter (c : ChapterDetails) : Prop :=
  chapter c <> "" /\ all_chars is_chapter_char (chapter c) = true /\
  (contains (c_title c) (chapter c) \/ contains (c_url c) (chapter c)) /\
  c_id c = c_url c /\ c_url c <> "" /\ c_title c <> "" /\
  language c = "pt-BR".

(** A chapter without its index. *)
Definition content (c : ChapterDetails) : string * string * string * string * string :=
  (c_id c, c_url c, c_title c, chapter c, language c).

(** What holds of a search result: the id is not empty and has no slash,
    the title is not empty, and an image is an address that is not empty
    and does not begin with two slashes. *)
Definition parsed_result (r : SearchResult) : Prop :=
  id r <> "" /\ all_chars not_slash (id r) = true /\ title r <> "" /\
  match image r with
  | Some address => address <> "" /\ startsWith address "//" = false
  | None => True
  end.

(** What holds of a page of a chapter: its address is not empty and its
    request names the chapter as referer. *)
Definition page_of (chapterId : string) (p : ChapterPage) : Prop :=
  p_url p <> "" /\ p_headers p <> [] /\
  hd_error (p_headers p) = Some ("Referer", chapterId).

(** The indices of the pages grow strictly. *)
Definition increasing (pages : list ChapterPage) : Prop :=
  Sorted (fun a b => (p_index a < p_index b)%nat) pages.

(** The text begins with a digit. *)
Definition leading_digit (s : string) : Prop :=
  exists d s', s = String d s' /\ isDigit d = true.

(** A host whose document lists the given page images under every
    selector. *)
Definition pages_host (sources : list string) : Host :=
  {| fetch := fun _ _ => Normal (MkResponse true 200 "OK" "<html></html>");
     LoadDoc := fun _ =>
       Normal (Some (fun _ =>
                       map (fun src => MkElement "" [("src", src)] (fun _ => []) None)
                           sources));
     now := fun _ => "";
     decodeURIComponent := fun s => Normal s |}.

End MangaSpec.

Module RefactoredSpec.
Import JS Q1N Q1NSpec Q1NRefactored.

(** The answer of the refactored provider: the server, its two headers,
    and the address as the one video source, of type m3u8 and quality
    1080p, without subtitles. *)
Definition stream_answer (server url : string) : EpisodeServer :=
  {| server := server;
     headers :=
       [ ("Referer", "https://q1n.net");
         ("User-Agent",
          "Mozilla/5.0 (Windows NT 10.0; Win64; x64) AppleWebKit/537.36 (KHTML, like Gecko) Chrome/91.0.4472.124 Safari/537.36") ];
     videoSources :=
       [ {| vs_url := url; vs_type := "m3u8"; quality := "1080p"; subtitles := [] |} ] |}.

(** The entry is filed under one of the two servers. *)
Definition server_key (entry : string * string) : Prop :=
  fst entry = "chplay" \/ fst entry = "ruplay".

(** A host whose every page has the given text. *)
Definition page_host (html : string) : Host :=
  {| fetch := fun _ _ => Normal (MkResponse true 200 "OK" html);
     LoadDoc := fun _ => Normal (Some (fun _ => []));
     now := fun _ => "";
     decodeURIComponent := fun s => Normal s |}.

Definition example_episode : EpisodeDetails :=
  MkEpisodeDetails "naruto-episodio-1" 1 "https://q1n.net/episodio/naruto-episodio-1/" "".

End RefactoredSpec.

Module WordsSpec.
Import JS.

(** The text with every run of white space replaced by [sep]. *)
Fixpoint collapsed (sep : string) (in_run : bool) (s : string) : string :=
  match s with
  | EmptyString => EmptyString
  | String c s' =>
      if isSpace c
      then if in_run then collapsed sep true s' else sep ++ collapsed sep true s'
      else String c (collapsed sep false s')
  end.

(** The text without the white space at its end. *)
Fixpoint without_trailing (s : string) : string :=
  match s with
  | EmptyString => EmptyString
  | String c s' =>
      match without_trailing s' with
      | EmptyString => if isSpace c then EmptyString else String c EmptyString
      | t => String c t
      end
  end.

(** The words of the text, one space between two of them and none before
    the first or after the last: [started] says that a word has been
    written, [pending] that white space was passed since. *)
Fixpoint single_spaced (started pending : bool) (s : string) : string :=
  match s with
  | EmptyString => EmptyString
  | String c s' =>
      if isSpace c then single_spaced started true s'
      else if started && pending
           then String " " (String c (single_spaced true false s'))
           else String c (single_spaced true false s')
  end.

End WordsSpec.

Module IdSpec.
Import JS Q1N Occurrence HashSpec.

(** The text has no slash. *)
Definition no_slash (s : string) : Prop :=
  all_chars (fun c => negb (ascii_eqb "/" c)) s = true.

(** The text has no closing bracket. *)
Definition no_bracket (s : string) : Prop :=
  all_chars (fun c => negb (ascii_eqb "]" c)) s = true.

(** An episode whose id, address and title are not empty. *)
Definition named_episode (e : EpisodeDetails) : Prop :=
  ep_id e <> "" /\ ep_url e <> "" /\ ep_title e <> "".

End IdSpec.

Module SiteSpec.
Import JS DarkMahou Occurrence HashSpec IdSpec.

(** The code units 0..255. *)
Definition all_code_units : list ascii := map ascii_of_nat (seq 0 256).

(** A code unit that matches [p] without regard to case has the lower
    case of [p]. *)
Definition folds_to (p c : ascii) : bool :=
  implb (char_eq true p c) (ascii_eqb (lower_char c) (lower_char p)).

(** A text of ASCII characters. *)
Definition ascii_only (s : string) : Prop :=
  all_chars (fun c => (code c <? 128)%N) s = true.

(** The address of a page of the site, whatever the case of its letters:
    [https://darkmahou.org/], one segment that is not empty, and a slash. *)
Definition on_site (url : string) : Prop :=
  exists segment,
    toLowerCase url = "https://darkmahou.org/" ++ segment ++ "/" /\
    segment <> "" /\ no_slash segment.

End SiteSpec.

(* ================================================================== *)
(** * Properties                                                       *)
(* ================================================================== *)

(** ** Strings and patterns *)

Section StringFacts.
Import JS Occurrence.

Lemma prefix_iff (p s : string) :
  String.prefix p s = true <-> exists after, s = p ++ after.
Proof.
  revert s; induction p as [|c p IH]; intros s.
  - split; [intros _; now exists s | intros _; now destruct s].
  - destruct s as [|d s]; simpl.
    + split; [discriminate | intros [after H]; discriminate].
    + destruct (Ascii.ascii_dec c d) as [->|Hcd].
      * rewrite IH. split; intros [after H]; exists after.
        -- now rewrite H.
        -- now inversion H.
      * split; [discriminate | intros [after H]; inversion H; subst; now elim Hcd].
Qed.

Lemma includes_unfold (s p : string) :
  includes s p =
  (String.prefix p s ||
   match s with EmptyString => false | String _ s' => includes s' p end).
Proof. destruct s; reflexivity. Qed.

Lemma includes_iff (s p : string) : includes s p = true <-> contains s p.
Proof.
  unfold contains. induction s as [|c s IH]; rewrite includes_unfold.
  - rewrite orb_false_r, prefix_iff. split.
    + intros [after H]. exists "", after. exact H.
    + intros [before [after H]]. destruct before; simpl in H.
      * now exists after.
      * discriminate.
  - rewrite orb_true_iff, prefix_iff, IH. split.
    + intros [[after H] | [before [after H]]].
      * exists "", after. exact H.
      * exists (String c before), after. simpl. now rewrite H.
    + intros [before [after H]]. destruct before as [|d before]; simpl in H.
      * left. now exists after.
      * right. inversion H. now exists before, after.
Qed.

Lemma search_from_leftmost ic r s : forall prev m,
  search_from ic r prev s = Some m <->
  exists i, occurrence_from ic r prev s i = Some m /\
            forall j, (j < i)%nat -> occurrence_from ic r prev s j = None.
Proof.
  unfold occurrence_from.
  induction s as [|c s IH]; intros prev m; simpl.
  - destruct (match_here ic r prev "") as [m'|] eqn:Hm.
    + split.
      * intros H. exists 0%nat. simpl. rewrite Hm. split; [exact H | intros j Hj; lia].
      * intros [i [Hi Hlt]]. destruct i; simpl in Hi; [now rewrite Hm in Hi | discriminate].
    + split; [discriminate|].
      intros [i [Hi Hlt]]. destruct i; simpl in Hi; [now rewrite Hm in Hi | discriminate].
  - destruct (match_here ic r prev (String c s)) as [m'|] eqn:Hm.
    + split.
      * intros H. exists 0%nat. simpl. rewrite Hm. split; [exact H | intros j Hj; lia].
      * intros [i [Hi Hlt]]. destruct i; simpl in Hi.
        -- now rewrite Hm in Hi.
        -- specialize (Hlt 0%nat ltac:(lia)). simpl in Hlt. rewrite Hm in Hlt. discriminate.
    + rewrite IH. split.
      * intros [i [Hi Hlt]]. exists (S i). simpl. split; [exact Hi|].
        intros [|j] Hj; simpl; [exact Hm | apply Hlt; lia].
      * intros [i [Hi Hlt]]. destruct i; simpl in Hi.
        -- rewrite Hm in Hi. discriminate.
        -- exists i. split; [exact Hi|]. intros j Hj. apply (Hlt (S j)). lia.
Qed.

(** [s.match(r)] is the leftmost occurrence of [r] in [s]. *)
Lemma js_match_leftmost ic r s m :
  js_match ic r s = Some m <-> leftmost ic r s m.
Proof. apply search_from_leftmost. Qed.

Lemma search_from_none ic r s : forall prev,
  search_from ic r prev s = None <->
  forall i, occurrence_from ic r prev s i = None.
Proof.
  intros prev. split.
  - intros H i. destruct (occurrence_from ic r prev s i) as [m|] eqn:Hi; [|reflexivity].
    exfalso. revert prev H i Hi. unfold occurrence_from.
    induction s as [|c s IH]; intros prev H i Hi; simpl in H.
    + destruct (match_here ic r prev "") eqn:Hm; [discriminate|].
      destruct i; simpl in Hi; [rewrite Hm in Hi|]; discriminate.
    + destruct (match_here ic r prev (String c s)) eqn:Hm; [discriminate|].
      destruct i; simpl in Hi; [rewrite Hm in Hi; discriminate|].
      exact (IH _ H _ Hi).
  - intros H. destruct (search_from ic r prev s) as [m|] eqn:Hs; [|reflexivity].
    apply search_from_leftmost in Hs. destruct Hs as [i [Hi _]].
    rewrite H in Hi. discriminate.
Qed.

(** [r.test(s)] holds when [r] occurs somewhere in [s]. *)
Lemma test_iff ic r s : test ic r s = true <-> occurs ic r s.
Proof.
  unfold test, occurs, occurrence, js_match.
  destruct (search_from ic r None s) as [m|] eqn:Hs.
  - split; [intros _ | reflexivity].
    apply search_from_leftmost in Hs. destruct Hs as [i [Hi _]]. now exists i, m.
  - split; [discriminate|]. intros [i [m Hi]].
    rewrite (proj1 (search_from_none ic r s None) Hs i) in Hi. discriminate.
Qed.

End StringFacts.

(** ** Pattern objects: [exec] and the loops over it *)

Section ExecFacts.
Import JS.

Lemma seek_add (i j : nat) : forall prev s p t,
  seek i prev s = Some (p, t) -> seek (i + j) prev s = seek j p t.
Proof.
  induction i as [|i IH]; intros prev s p t H; simpl in *.
  - now inversion H.
  - destruct s as [|c s]; [discriminate|]. now apply IH.
Qed.

Lemma seek_length (i : nat) : forall prev s p t,
  seek i prev s = Some (p, t) -> (String.length t + i = String.length s)%nat.
Proof.
  induction i as [|i IH]; intros prev s p t H; simpl in *.
  - inversion H. lia.
  - destruct s as [|c s]; [discriminate|]. apply IH in H. simpl. lia.
Qed.

Lemma seek_some (i : nat) : forall prev s,
  (i <= String.length s)%nat -> exists p t, seek i prev s = Some (p, t).
Proof.
  induction i as [|i IH]; intros prev s H; simpl.
  - now exists prev, s.
  - destruct s as [|c s]; simpl in H; [lia|]. apply IH. lia.
Qed.

Lemma string_take_length (n : nat) (s : string) :
  String.length (take n s) = Nat.min n (String.length s).
Proof.
  revert n; induction s as [|c s IH]; intros [|n]; simpl; auto.
Qed.

(** The continuation of a match is called on a text that is not longer. *)
Lemma match_str_continues (R : Type) (ic : bool) (p : string) :
  forall prev s cs (k : cont R) x,
    match_str R ic p prev s cs k = Some x ->
    exists prev' s' cs', k prev' s' cs' = Some x /\
                         (String.length s' + String.length p = String.length s)%nat.
Proof.
  induction p as [|pc p IH]; intros prev s cs k x H; simpl in H.
  - exists prev, s, cs. split; [exact H | simpl; lia].
  - destruct s as [|c s]; [discriminate|].
    destruct (char_eq ic pc c); [|discriminate].
    destruct (IH _ _ _ _ _ H) as [prev' [s' [cs' [Hk Hl]]]].
    exists prev', s', cs'. split; [exact Hk | simpl; lia].
Qed.

Lemma match_rep_continues (R : Type) (ic : bool) (a : atom) (s : string) :
  forall lo hi prev cs (k : cont R) x,
    match_rep R ic a lo hi prev s cs k = Some x ->
    exists prev' s' cs', k prev' s' cs' = Some x /\
                         (String.length s' <= String.length s)%nat.
Proof.
  induction s as [|c s IH]; intros lo hi prev cs k x H; simpl in H.
  - destruct (Nat.eqb lo 0); [|discriminate].
    exists prev, "", cs. split; [exact H | lia].
  - destruct ((match hi with Some 0 => false | _ => true end) && atom_has ic a c).
    + destruct (match_rep R ic a (Nat.pred lo) (option_map Nat.pred hi) (Some c) s cs k)
        as [y|] eqn:Hy.
      * inversion H; subst y.
        destruct (IH _ _ _ _ _ _ Hy) as [prev' [s' [cs' [Hk Hl]]]].
        exists prev', s', cs'. split; [exact Hk | simpl; lia].
      * destruct (Nat.eqb lo 0); [|discriminate].
        exists prev, (String c s), cs. split; [exact H | lia].
    + destruct (Nat.eqb lo 0); [|discriminate].
      exists prev, (String c s), cs. split; [exact H | lia].
Qed.

Lemma rmatch_continues (R : Type) (ic : bool) (r : regex) :
  forall prev s cs (k : cont R) x,
    rmatch R ic r prev s cs k = Some x ->
    exists prev' s' cs', k prev' s' cs' = Some x /\
                         (String.length s' <= String.length s)%nat.
Proof.
  induction r as [a|p|a lo hi|r1 IH1 r2 IH2|r1 IH1 r2 IH2|n r1 IH1| | |];
    intros prev s cs k x H; simpl in H.
  - destruct s as [|c s]; [discriminate|].
    destruct (atom_has ic a c); [|discriminate].
    exists (Some c), s, cs. split; [exact H | simpl; lia].
  - destruct (match_str_continues _ _ _ _ _ _ _ _ H) as [prev' [s' [cs' [Hk Hl]]]].
    exists prev', s', cs'. split; [exact Hk | lia].
  - now apply match_rep_continues in H.
  - destruct (IH1 _ _ _ _ _ H) as [p1 [s1 [cs1 [Hk1 Hl1]]]].
    destruct (IH2 _ _ _ _ _ Hk1) as [p2 [s2 [cs2 [Hk2 Hl2]]]].
    exists p2, s2, cs2. split; [exact Hk2 | lia].
  - destruct (rmatch R ic r1 prev s cs k) as [y|] eqn:Hy.
    + inversion H; subst y. now apply IH1 in Hy.
    + now apply IH2 in H.
  - destruct (IH1 _ _ _ _ _ H) as [p1 [s1 [cs1 [Hk1 Hl1]]]].
    exists p1, s1, ((n, take (String.length s - String.length s1) s) :: cs1).
    split; [exact Hk1 | exact Hl1].
  - destruct (at_boundary prev s); [|discriminate].
    exists prev, s, cs. split; [exact H | lia].
  - destruct prev; [discriminate|].
    exists None, s, cs. split; [exact H | lia].
  - destruct s; [|discriminate].
    exists prev, "", cs. split; [exact H | lia].
Qed.

(** The matched text is not longer than the text it is found in. *)
Lemma matched_length (ic : bool) (r : regex) (prev : option ascii) (s : string)
      (m : rmatch_result) :
  match_here ic r prev s = Some m ->
  (String.length (matched m) <= String.length s)%nat.
Proof.
  unfold match_here. intros H.
  destruct (rmatch_continues _ _ _ _ _ _ _ _ H) as [prev' [s' [cs' [Hk Hl]]]].
  inversion Hk; subst m. cbn [matched]. rewrite string_take_length. lia.
Qed.

(** A pattern that begins with a literal text that is not empty matches no
    empty text. *)
Lemma literal_head_never_empty (ic : bool) (c : ascii) (p : string) (r : regex) :
  never_empty ic (RSeq (RStr (String c p)) r).
Proof.
  intros prev s m H. unfold match_here in H. cbn [rmatch] in H.
  destruct (match_str_continues _ _ _ _ _ _ _ _ H) as [p1 [s1 [cs1 [Hk1 Hl1]]]].
  destruct (rmatch_continues _ _ _ _ _ _ _ _ Hk1) as [p2 [s2 [cs2 [Hk2 Hl2]]]].
  inversion Hk2; subst m. cbn [matched]. intros He.
  apply (f_equal String.length) in He. rewrite string_take_length in He.
  cbn [String.length] in He, Hl1. lia.
Qed.

(** A match takes at least [min_len] code units of the text. *)
Lemma match_rep_consumes (R : Type) (ic : bool) (a : atom) (s : string) :
  forall lo hi prev cs (k : cont R) x,
    match_rep R ic a lo hi prev s cs k = Some x ->
    exists prev' s' cs', k prev' s' cs' = Some x /\
                         (String.length s' + lo <= String.length s)%nat.
Proof.
  induction s as [|c s IH]; intros lo hi prev cs k x H; simpl in H.
  - destruct (Nat.eqb_spec lo 0) as [->|]; [|discriminate].
    exists prev, "", cs. split; [exact H | simpl; lia].
  - destruct ((match hi with Some 0 => false | _ => true end) && atom_has ic a c).
    + destruct (match_rep R ic a (Nat.pred lo) (option_map Nat.pred hi) (Some c) s cs k)
        as [y|] eqn:Hy.
      * inversion H; subst y.
        destruct (IH _ _ _ _ _ _ Hy) as [prev' [s' [cs' [Hk Hl]]]].
        exists prev', s', cs'. split; [exact Hk | simpl; lia].
      * destruct (Nat.eqb_spec lo 0) as [->|]; [|discriminate].
        exists prev, (String c s), cs. split; [exact H | lia].
    + destruct (Nat.eqb_spec lo 0) as [->|]; [|discriminate].
      exists prev, (String c s), cs. split; [exact H | lia].
Qed.

Lemma rmatch_consumes (R : Type) (ic : bool) (r : regex) :
  forall prev s cs (k : cont R) x,
    rmatch R ic r prev s cs k = Some x ->
    exists prev' s' cs', k prev' s' cs' = Some x /\
                         (String.length s' + min_len r <= String.length s)%nat.
Proof.
  induction r as [a|p|a lo hi|r1 IH1 r2 IH2|r1 IH1 r2 IH2|n r1 IH1| | |];
    intros prev s cs k x H; simpl in H; cbn [min_len].
  - destruct s as [|c s]; [discriminate|].
    destruct (atom_has ic a c); [|discriminate].
    exists (Some c), s, cs. split; [exact H | simpl; lia].
  - destruct (match_str_continues _ _ _ _ _ _ _ _ H) as [prev' [s' [cs' [Hk Hl]]]].
    exists prev', s', cs'. split; [exact Hk | lia].
  - now apply match_rep_consumes in H.
  - destruct (IH1 _ _ _ _ _ H) as [p1 [s1 [cs1 [Hk1 Hl1]]]].
    destruct (IH2 _ _ _ _ _ Hk1) as [p2 [s2 [cs2 [Hk2 Hl2]]]].
    exists p2, s2, cs2. split; [exact Hk2 | lia].
  - destruct (rmatch R ic r1 prev s cs k) as [y|] eqn:Hy.
    + inversion H; subst y. apply IH1 in Hy.
      destruct Hy as [p1 [s1 [cs1 [Hk1 Hl1]]]].
      exists p1, s1, cs1. split; [exact Hk1 | lia].
    + apply IH2 in H. destruct H as [p2 [s2 [cs2 [Hk2 Hl2]]]].
      exists p2, s2, cs2. split; [exact Hk2 | lia].
  - destruct (IH1 _ _ _ _ _ H) as [p1 [s1 [cs1 [Hk1 Hl1]]]].
    exists p1, s1, ((n, take (String.length s - String.length s1) s) :: cs1).
    split; [exact Hk1 | exact Hl1].
  - destruct (at_boundary prev s); [|discriminate].
    exists prev, s, cs. split; [exact H | lia].
  - destruct prev; [discriminate|].
    exists None, s, cs. split; [exact H | lia].
  - destruct s; [|discriminate].
    exists prev, "", cs. split; [exact H | simpl; lia].
Qed.

(** A pattern every match of which takes a code unit matches no empty
    text. *)
Lemma min_len_never_empty (ic : bool) (r : regex) :
  (0 < min_len r)%nat -> never_empty ic r.
Proof.
  intros Hpos prev s m H. unfold match_here in H.
  destruct (rmatch_consumes _ _ _ _ _ _ _ _ H) as [prev' [s' [cs' [Hk Hl]]]].
  inversion Hk; subst m. cbn [matched]. intros He.
  apply (f_equal String.length) in He. rewrite string_take_length in He.
  cbn [String.length] in He. lia.
Qed.

(** Passing over [n] code units, the scan goes on from the position [n]
    code units further. *)
Lemma scan_skip (ic : bool) (r : regex) (n : nat) : forall prev s,
  scan ic r prev s n =
  match seek n prev s with
  | Some (p, t) => scan ic r p t 0
  | None => []
  end.
Proof.
  induction n as [|n IH]; intros prev s.
  - reflexivity.
  - destruct s as [|c s]; [reflexivity|]. cbn [scan seek]. apply IH.
Qed.

(** The first match of the scan is the one [exec] finds, and the scan goes
    on where [exec] leaves [lastIndex]. *)
Lemma search_index_scan (ic : bool) (r : regex) (Hne : never_empty ic r) (s : string) :
  forall prev pos,
    match search_index ic r prev s pos with
    | None => scan ic r prev s 0 = []
    | Some (m, e) =>
        exists p t,
          seek (e - pos) prev s = Some (p, t) /\ (pos < e)%nat /\
          scan ic r prev s 0 = m :: scan ic r p t 0
    end.
Proof.
  induction s as [|c s IH]; intros prev pos; cbn [search_index scan].
  - destruct (match_here ic r prev "") as [m|] eqn:Hm; [|reflexivity].
    exfalso. apply (Hne _ _ _ Hm).
    pose proof (matched_length _ _ _ _ _ Hm) as Hl. cbn in Hl.
    destruct (matched m); [reflexivity | cbn in Hl; lia].
  - destruct (match_here ic r prev (String c s)) as [m|] eqn:Hm.
    + pose proof (matched_length _ _ _ _ _ Hm) as Hl.
      pose proof (Hne _ _ _ Hm) as Hn.
      assert (Hpos : (0 < String.length (matched m))%nat)
        by (destruct (matched m); [congruence | cbn; lia]).
      replace (pos + String.length (matched m) - pos)%nat
        with (String.length (matched m)) by lia.
      destruct (seek_some (String.length (matched m)) prev (String c s) Hl) as [p [t Hs]].
      exists p, t. split; [exact Hs|]. split; [lia|].
      f_equal. rewrite scan_skip.
      destruct (String.length (matched m)) as [|n] eqn:Hlen; [lia|].
      cbn [Nat.pred]. cbn [seek] in Hs. now rewrite Hs.
    + specialize (IH (Some c) (S pos)).
      destruct (search_index ic r (Some c) s (S pos)) as [[m e]|]; [|exact IH].
      destruct IH as [p [t [Hs [Hlt Hscan]]]].
      exists p, t. split; [|split; [lia | exact Hscan]].
      replace (e - pos)%nat with (S (e - S pos)) by lia. exact Hs.
Qed.

(** A loop over [exec] whose body does not throw runs over the matches of
    the scan, from the position of [lastIndex] on, and leaves [lastIndex]
    at 0; fuel above the length of the text left is enough. *)
Lemma exec_loop_scan {A : Type} (ic : bool) (r : regex) (Hne : never_empty ic r)
      (s0 : string) (f : A -> rmatch_result -> A) :
  forall fuel i prev s acc,
    seek i None s0 = Some (prev, s) -> (String.length s < fuel)%nat ->
    exec_loop fuel ic r s0 (fun m acc => (f acc m, None)) i acc =
    Some (fold_left f (scan ic r prev s 0) acc, None, 0%nat).
Proof.
  induction fuel as [|fuel IH]; intros i prev s acc Hseek Hfuel; [lia|].
  cbn [exec_loop]. unfold exec. rewrite Hseek.
  pose proof (search_index_scan ic r Hne s prev i) as Hsi.
  destruct (search_index ic r prev s i) as [[m e]|].
  - destruct Hsi as [p [t [Hs [Hlt Hscan]]]].
    rewrite Hscan. cbn [fold_left].
    apply (IH e p t).
    + replace e with (i + (e - i))%nat by lia.
      rewrite (seek_add _ _ _ _ _ _ Hseek). exact Hs.
    + apply seek_length in Hs. lia.
  - now rewrite Hsi.
Qed.

(** From [lastIndex] 0 the loop runs over all the matches of the text. *)
Lemma exec_loop_all {A : Type} (ic : bool) (r : regex) (Hne : never_empty ic r)
      (s : string) (f : A -> rmatch_result -> A) (acc : A) :
  exec_loop (S (String.length s)) ic r s (fun m acc => (f acc m, None)) 0 acc =
  Some (fold_left f (exec_all ic r s) acc, None, 0%nat).
Proof. apply (exec_loop_scan ic r Hne s f); [reflexivity | lia]. Qed.

Lemma fold_left_snoc {A : Type} (l : list A) : forall acc,
  fold_left (fun found m => found ++ [m])%list l acc = (acc ++ l)%list.
Proof.
  induction l as [|m l IH]; intros acc; cbn [fold_left].
  - now rewrite app_nil_r.
  - rewrite IH, <- app_assoc. reflexivity.
Qed.

(** Read from [lastIndex] 0 until [exec] finds no more, as
    [String.prototype.match] and [String.prototype.replace] read a pattern
    with the flag [g], a pattern gives all its matches in the text and is
    left at [lastIndex] 0. *)
Lemma exec_loop_matches (ic : bool) (r : regex) (Hne : never_empty ic r) (s : string) :
  exec_loop (S (String.length s)) ic r s
            (fun m found => ((found ++ [m])%list, None)) 0 [] =
  Some (exec_all ic r s, None, 0%nat).
Proof.
  rewrite (exec_loop_all ic r Hne s (fun found m => (found ++ [m])%list) []).
  now rewrite fold_left_snoc.
Qed.

(** A match of [exec] moves [lastIndex] on, within the text. *)
Lemma exec_some (ic : bool) (r : regex) (Hne : never_empty ic r) (s0 : string)
      (i e : nat) (m : rmatch_result) :
  exec ic r s0 i = (Some m, e) -> (i < e <= String.length s0)%nat.
Proof.
  unfold exec.
  destruct (seek i None s0) as [[prev s]|] eqn:Hseek; [|discriminate].
  pose proof (search_index_scan ic r Hne s prev i) as Hsi.
  destruct (search_index ic r prev s i) as [[m' e']|]; [|discriminate].
  intros H; inversion H; subst m' e'.
  destruct Hsi as [p [t [Hs [Hlt _]]]].
  apply seek_length in Hs. apply seek_length in Hseek. lia.
Qed.

(** A loop over [exec] ends, whatever its body does: fuel above the length
    of the text left is enough. *)
Lemma exec_loop_total {A : Type} (ic : bool) (r : regex) (Hne : never_empty ic r)
      (s0 : string) (body : rmatch_result -> A -> A * option string) :
  forall fuel i acc,
    (String.length s0 - i < fuel)%nat ->
    exists result, exec_loop fuel ic r s0 body i acc = Some result.
Proof.
  induction fuel as [|fuel IH]; intros i acc Hfuel; [lia|].
  cbn [exec_loop].
  destruct (exec ic r s0 i) as [[m|] e] eqn:He; [|eexists; reflexivity].
  destruct (body m acc) as [acc' [error|]]; [eexists; reflexivity|].
  apply IH. apply (exec_some ic r Hne) in He. lia.
Qed.

End ExecFacts.

(** ** DarkMahou: episode numbers *)

Section EpisodeFacts.
Import JS DarkMahou TorrentParser Occurrence EpisodeSpec.

Lemma isValidEpisodeNumber_iff (n : Z) :
  isValidEpisodeNumber (Some n) = true <-> valid n.
Proof.
  unfold isValidEpisodeNumber, valid, MIN_EPISODE_NUMBER, MAX_EPISODE_NUMBER.
  rewrite andb_true_iff, Z.geb_le, Z.leb_le. lia.
Qed.

Lemma isValidEpisodeForIsolation_iff (n : Z) :
  isValidEpisodeForIsolation (Some n) = true <-> acceptable n.
Proof.
  unfold isValidEpisodeForIsolation, acceptable, COMMON_RESOLUTIONS, MAX_YEAR.
  rewrite !andb_true_iff, isValidEpisodeNumber_iff, negb_true_iff, Z.ltb_lt.
  simpl. rewrite !orb_false_iff, !Z.eqb_neq. tauto.
Qed.

Lemma validated_group_reflects ic pattern g text :
  reflects
    (match js_match ic pattern text with
     | Some m => if isValidEpisodeNumber (parseIntGroup g m)
                 then parseIntGroup g m else None
     | None => None
     end)
    (pattern_number ic pattern g text).
Proof.
  intros n. unfold pattern_number.
  destruct (js_match ic pattern text) as [m|] eqn:Hm.
  - destruct (parseIntGroup g m) as [k|] eqn:Hk.
    + destruct (isValidEpisodeNumber (Some k)) eqn:Hv.
      * split.
        -- intros H; inversion H; subst k. exists m.
           split; [now apply js_match_leftmost | split; [exact Hk |]].
           now apply isValidEpisodeNumber_iff.
        -- intros [m' [Hl [Hg _]]]. apply js_match_leftmost in Hl.
           rewrite Hm in Hl; inversion Hl; subst m'. congruence.
      * split; [discriminate|].
        intros [m' [Hl [Hg Hval]]]. apply js_match_leftmost in Hl.
        rewrite Hm in Hl; inversion Hl; subst m'.
        rewrite Hk in Hg; inversion Hg; subst k.
        apply isValidEpisodeNumber_iff in Hval. congruence.
    + simpl. split; [discriminate|].
      intros [m' [Hl [Hg _]]]. apply js_match_leftmost in Hl.
      rewrite Hm in Hl; inversion Hl; subst m'. congruence.
  - split; [discriminate|].
    intros [m' [Hl _]]. apply js_match_leftmost in Hl. congruence.
Qed.

Lemma tryExtractFromPattern_reflects ic text pattern :
  reflects (tryExtractFromPattern ic text pattern) (pattern_number ic pattern 1 text).
Proof. apply validated_group_reflects. Qed.

Lemma tryExtractFromSeasonEpisode_reflects name :
  reflects (tryExtractFromSeasonEpisode name) (pattern_number true SEASON_EPISODE 2 name).
Proof. apply validated_group_reflects. Qed.

Lemma firstIsolated_iff (matches : list string) (n : Z) :
  firstIsolated matches = Some n <->
  exists before s after,
    matches = (before ++ s :: after)%list /\ parseInt s = Some n /\ acceptable n /\
    Forall (fun s' => forall n', parseInt s' = Some n' -> ~ acceptable n') before.
Proof.
  induction matches as [|x l IH]; simpl.
  - split; [discriminate|]. intros [before [s [after [H _]]]].
    destruct before; discriminate.
  - destruct (isValidEpisodeForIsolation (parseInt x)) eqn:Hx.
    + assert (Hsome : exists k, parseInt x = Some k).
      { destruct (parseInt x) as [k|]; [now exists k | discriminate]. }
      destruct Hsome as [k Hk]. rewrite Hk in Hx |- *.
      apply isValidEpisodeForIsolation_iff in Hx. split.
      * intros H; inversion H; subst k. exists [], x, l.
        split; [reflexivity | split; [exact Hk | split; [exact Hx | constructor]]].
      * intros [before [s [after [Heq [Hp [Hacc Hall]]]]]].
        destruct before as [|y before]; simpl in Heq; inversion Heq; subst.
        -- congruence.
        -- inversion Hall; subst. exfalso. eapply H1; eauto.
    + rewrite IH. split.
      * intros [before [s [after [Heq [Hp [Hacc Hall]]]]]].
        exists (x :: before), s, after. subst l.
        split; [reflexivity | split; [exact Hp | split; [exact Hacc |]]].
        constructor; [|exact Hall].
        intros n' Hn' Hacc'. rewrite Hn' in Hx.
        apply isValidEpisodeForIsolation_iff in Hacc'. congruence.
      * intros [before [s [after [Heq [Hp [Hacc Hall]]]]]].
        destruct before as [|y before]; simpl in Heq; inversion Heq; subst.
        -- rewrite Hp in Hx. apply isValidEpisodeForIsolation_iff in Hacc. congruence.
        -- inversion Hall; subst. exists before, s, after.
           split; [reflexivity | split; [exact Hp | split; [exact Hacc | assumption]]].
Qed.

Lemma tryExtractFromIsolatedNumbers_reflects name :
  reflects (tryExtractFromIsolatedNumbers name) (isolated_number name).
Proof. intros n. apply firstIsolated_iff. Qed.

Lemma reflects_none o s : reflects o s -> (o = None <-> fails s).
Proof.
  intros H. split.
  - intros -> n Hn. apply H in Hn. discriminate.
  - intros Hf. destruct o as [k|]; [|reflexivity]. exfalso. apply (Hf k), H. reflexivity.
Qed.

(** Running the closures gives the value of the first strategy that
    succeeds, and -1 when all fail. *)
Lemma runStrategies_first (code : list (unit -> option Z)) (spec : list strategy) :
  Forall2 (fun c s => reflects (c tt) s) code spec ->
  forall r, runStrategies code = r <->
            first_success spec r \/ (Forall fails spec /\ r = (-1)%Z).
Proof.
  induction 1 as [|c s code spec Hcs _ IH]; intros r; simpl.
  - split.
    + intros <-. right. split; [constructor | reflexivity].
    + intros [H | [_ ->]]; [inversion H | reflexivity].
  - destruct (c tt) as [k|] eqn:Hk.
    + assert (Hsk : s k) by (apply Hcs; reflexivity). split.
      * intros <-. left. now constructor.
      * intros [H | [H _]].
        -- inversion H; subst.
           ++ match goal with Hs : s r |- _ => apply Hcs in Hs; congruence end.
           ++ match goal with Hf : fails s |- _ => elim (Hf k Hsk) end.
        -- inversion H; subst. match goal with Hf : fails s |- _ => elim (Hf k Hsk) end.
    + assert (Hf : fails s) by (apply (reflects_none _ _ Hcs); reflexivity).
      rewrite IH. split.
      * intros [H | [H ->]]; [left; now constructor 2 | right; split; [now constructor | reflexivity]].
      * intros [H | [H ->]].
        -- inversion H; subst; [match goal with Hs : s r |- _ => elim (Hf r Hs) end | now left].
        -- inversion H; subst. right. now split.
Qed.

Lemma strategies_reflect name episodeTitle :
  Forall2 (fun c s => reflects (c tt) s)
          (extractionStrategies name episodeTitle) (strategies name episodeTitle).
Proof.
  unfold extractionStrategies, strategies.
  repeat constructor;
    first [ apply tryExtractFromPattern_reflects
          | apply tryExtractFromSeasonEpisode_reflects
          | apply tryExtractFromIsolatedNumbers_reflects ].
Qed.

(** C1.  For every name and episode title, [extractEpisodeNumber] returns
    -1 when [isBatchTorrent] holds; otherwise it returns the value of the
    first strategy that succeeds, in the order: the Portuguese pattern in
    the episode title, the dash pattern in the name, the episode of
    [S..E..] in the name, the English pattern in the name, the first
    acceptable isolated number of the name (the first four only with a
    number between 1 and 9999); and -1 when every strategy fails.  The
    result is the only value the description allows. *)
Theorem extractEpisodeNumber_priority (name episodeTitle : string) (r : Z) :
  extractEpisodeNumber name episodeTitle = r <-> expected name episodeTitle r.
Proof.
  unfold extractEpisodeNumber.
  pose proof (runStrategies_first _ _ (strategies_reflect name episodeTitle) r) as Hrun.
  destruct (isBatchTorrent name episodeTitle) eqn:Hb.
  - split.
    + intros <-. now constructor.
    + intros H. inversion H; subst; congruence.
  - rewrite Hrun. split.
    + intros [H | [H ->]]; [now constructor 2 | now constructor 3].
    + intros H. inversion H; subst; [congruence | now left | now right].
Qed.

(** Each strategy in turn gives the number: the Portuguese pattern of the
    title before the dash pattern of the name; the dash pattern; the
    episode of a season token; the English pattern; the first isolated
    number that is acceptable, past a year and before a resolution.  A name
    with a resolution only, and a batch, give -1. *)
Lemma extractEpisodeNumber_priority_witness :
  expected "[Grp] Show - 05 [1080p]" ("Epis" ++ String "243" "dio 7") 7 /\
  expected "[Grp] Show - 05 [1080p]" "" 5 /\
  expected "Show S02E07 1080p" "" 7 /\
  expected "Show ep 12 1080p" "" 12 /\
  expected "Show 2021 13 720p" "" 13 /\
  expected "Show 720p" "" (-1) /\
  expected "Show batch 05" "" (-1) /\
  ~ expected "Show 2021 13 720p" "" (-1).
Proof.
  repeat split;
    try (apply (proj1 (extractEpisodeNumber_priority _ _ _)); vm_compute; reflexivity).
  intros H. apply (proj2 (extractEpisodeNumber_priority _ _ _)) in H.
  vm_compute in H. discriminate.
Defined.

End EpisodeFacts.

(** ** DarkMahou: batches *)

Section BatchFacts.
Import JS DarkMahou TorrentParser Occurrence EpisodeSpec.

Lemma range_check_iff (name : string) :
  match js_match false EPISODE_RANGE name with
  | Some rangeMatch =>
      match parseIntGroup 1 rangeMatch, parseIntGroup 2 rangeMatch with
      | Some start, Some end_ =>
          (end_ >? start)%Z && (start >=? MIN_EPISODE_NUMBER)%Z &&
          (end_ <=? MAX_BATCH_EPISODES)%Z
      | _, _ => false
      end
  | None => false
  end = true <-> leftmost_range_is_proper name.
Proof.
  unfold leftmost_range_is_proper, proper_range, MIN_EPISODE_NUMBER, MAX_BATCH_EPISODES.
  change range_pattern with EPISODE_RANGE.
  destruct (js_match false EPISODE_RANGE name) as [m|] eqn:Hm.
  - split.
    + intros H. exists m. split; [now apply js_match_leftmost|].
      destruct (parseIntGroup 1 m) as [a|]; [|discriminate].
      destruct (parseIntGroup 2 m) as [b|]; [|discriminate].
      exists a, b. rewrite !andb_true_iff, Z.gtb_lt, Z.geb_le, Z.leb_le in H.
      repeat split; lia.
    + intros [m' [Hl [a [b [Ha [Hb H]]]]]]. apply js_match_leftmost in Hl.
      rewrite Hm in Hl; inversion Hl; subst m'. rewrite Ha, Hb.
      rewrite !andb_true_iff, Z.gtb_lt, Z.geb_le, Z.leb_le. lia.
  - split; [discriminate|].
    intros [m' [Hl _]]. apply js_match_leftmost in Hl. congruence.
Qed.

Lemma season_check_iff (name : string) :
  test false SEASON_TOKEN (toLowerCase name) &&
  negb (test false SEASON_EPISODE_TOKEN (toLowerCase name)) = true
  <-> season_without_episode name.
Proof.
  unfold season_without_episode.
  change season_token_pattern with SEASON_TOKEN.
  change season_episode_token_pattern with SEASON_EPISODE_TOKEN.
  rewrite andb_true_iff, negb_true_iff, <- !test_iff, not_true_iff_false.
  reflexivity.
Qed.

(** C2 (amended).  [isBatchTorrent] returns true exactly when the
    lower-cased name contains "batch" or "complete", or the lower-cased
    episode title contains "~", or the leftmost episode range of the name
    (two or three digits, [-] or [~], two or three digits) has an end
    greater than its start, a start of at least 1 and an end of at most
    999, or the lower-cased name has a token [s<digits>] and no token
    [s<digits>e<digits>]; in every other case, the names of individual
    episodes included, it returns false. *)
Theorem isBatchTorrent_indicators (name episodeTitle : string) :
  isBatchTorrent name episodeTitle = true <->
  batch_indicators_leftmost name episodeTitle.
Proof.
  unfold isBatchTorrent, batch_indicators_leftmost.
  rewrite <- !includes_iff, <- range_check_iff, <- season_check_iff.
  destruct (includes (toLowerCase name) "batch"); [tauto|].
  destruct (includes (toLowerCase name) "complete"); [tauto|].
  destruct (includes (toLowerCase episodeTitle) "~"); [tauto|].
  cbn [orb].
  match goal with
  | |- context [if ?b then true else _] => destruct b; [tauto|]
  end.
  match goal with
  | |- context [if ?b then true else _] => destruct b; [tauto|]
  end.
  destruct (test false INDIVIDUAL_EPISODE name);
    split; try discriminate; intros [H|[H|[H|[H|H]]]]; discriminate.
Qed.

(** C2 as stated fails: the name [10-05 01-12] contains the range 01-12,
    whose end is greater than its start, but its leftmost range is 10-05,
    and [isBatchTorrent] returns false. *)
Lemma isBatchTorrent_any_range_counterexample :
  ~ (isBatchTorrent "10-05 01-12" "" = true <-> batch_indicators "10-05 01-12" "").
Proof.
  intros [_ H].
  assert (Hb : batch_indicators "10-05 01-12" "").
  { right; right; right; left.
    exists 6%nat, (MkMatch "01-12" [(2%nat, "12"); (1%nat, "01")] "").
    split; [vm_compute; reflexivity|].
    exists 1%Z, 12%Z. vm_compute. repeat split; congruence. }
  apply H in Hb. vm_compute in Hb. discriminate.
Qed.

End BatchFacts.

(** ** DarkMahou: the anime page *)

Section SortFacts.
Import JS.
Variable A : Type.
Variable after : A -> A -> bool.

Lemma sort_cons (a : A) (l : list A) :
  sort after (a :: l) = insert_sorted after a (sort after l).
Proof. reflexivity. Qed.

Lemma insert_sorted_perm (x : A) (l : list A) :
  Permutation (x :: l) (insert_sorted after x l).
Proof.
  induction l as [|y l IH]; simpl; [reflexivity|].
  destruct (after x y); [|reflexivity].
  rewrite perm_swap. now constructor.
Qed.

Lemma sort_perm (l : list A) : Permutation l (sort after l).
Proof.
  induction l as [|a l IH]; [constructor|].
  rewrite sort_cons, <- insert_sorted_perm. now constructor.
Qed.

(** The head of the sorted list: the head of the sorted tail when the new
    element goes after it, else the new element. *)
Lemma sort_head (a : A) (l : list A) :
  hd_error (sort after (a :: l)) =
  match hd_error (sort after l) with
  | Some y => if after a y then Some y else Some a
  | None => Some a
  end.
Proof.
  rewrite sort_cons. destruct (sort after l) as [|y ys]; simpl; [reflexivity|].
  now destruct (after a y).
Qed.

End SortFacts.

Section PageFacts.
Import JS DarkMahou AnimePageExtractor Occurrence PageSpec.

Lemma shouldSkipURL_iff (url : string) : shouldSkipURL url = true <-> excluded url.
Proof.
  unfold shouldSkipURL, excluded. rewrite existsb_exists.
  split; intros [p [Hin H]]; exists p; (split; [exact Hin|]); now apply includes_iff.
Qed.

End PageFacts.

(** The replacement of [/\s+/g] by a dash, computed by the matcher, is the
    text with its runs of white space turned into one dash each. *)
Section DashFacts.
Import JS DarkMahou PageSpec.

Lemma atom_has_space (c : ascii) : atom_has false space c = isSpace c.
Proof. unfold atom_has, space, set_has. simpl. now rewrite !orb_false_r. Qed.

Lemma leading_spaces_length (s : string) :
  (String.length (trimStart s) + leading_spaces s = String.length s)%nat.
Proof.
  induction s as [|c s IH]; simpl; [reflexivity|].
  destruct (isSpace c); simpl; lia.
Qed.

Lemma take_length (n : nat) (s : string) :
  (n <= String.length s)%nat -> String.length (take n s) = n.
Proof.
  revert s; induction n as [|n IH]; intros s H; [now destruct s|].
  destruct s as [|c s]; simpl in *; [lia|]. rewrite IH; lia.
Qed.

(** A greedy run of white space takes all the white space at hand when
    what follows cannot fail. *)
Lemma match_rep_spaces (R : Type) (k : cont R) (cs : captures) :
  (forall p t, k p t cs <> None) ->
  forall s prev, exists p,
    match_rep R false space 0 None prev s cs k = k p (trimStart s) cs.
Proof.
  intros Hk. induction s as [|c s IH]; intros prev;
    cbn [match_rep Nat.eqb Nat.pred option_map andb trimStart].
  - now exists prev.
  - rewrite atom_has_space. destruct (isSpace c).
    + destruct (IH (Some c)) as [p Hp]. exists p. rewrite Hp.
      destruct (k p (trimStart s) cs) eqn:E; [reflexivity | now elim (Hk p (trimStart s))].
    + now exists prev.
Qed.

Lemma match_here_spaces (s : string) (prev : option ascii) :
  match_here false (plus space) prev s =
  match s with
  | String c s' =>
      if isSpace c
      then Some (MkMatch (take (leading_spaces s) s) [] (trimStart s))
      else None
  | EmptyString => None
  end.
Proof.
  unfold match_here, plus. destruct s as [|c s]; [reflexivity|].
  cbn [rmatch match_rep Nat.eqb andb Nat.pred option_map].
  rewrite atom_has_space. destruct (isSpace c) eqn:Hc; [|reflexivity].
  match goal with
  | |- context [match_rep _ _ _ _ _ _ _ _ ?k] =>
      assert (Hk : forall p t, k p t [] <> None) by (intros p t; discriminate);
      destruct (match_rep_spaces rmatch_result k [] Hk s (Some c)) as [p Hp]
  end.
  rewrite Hp. cbn [trimStart leading_spaces]. rewrite Hc.
  pose proof (leading_spaces_length s).
  replace (String.length (String c s) - String.length (trimStart s))%nat
    with (S (leading_spaces s))
    by (change (String.length (String c s)) with (S (String.length s)); lia).
  reflexivity.
Qed.

Lemma replace_spaces_dashed (s : string) : forall prev,
  replace_scan false (plus space) (fun _ => "-") prev s (leading_spaces s) = dashed true s /\
  replace_scan false (plus space) (fun _ => "-") prev s 0 = dashed false s.
Proof.
  induction s as [|c s IH]; intros prev.
  - split; reflexivity.
  - assert (H0 : replace_scan false (plus space) (fun _ => "-") prev (String c s) 0
                 = dashed false (String c s)).
    { cbn [replace_scan]. rewrite match_here_spaces.
      cbn [dashed leading_spaces]. destruct (isSpace c) eqn:Hc.
      - cbn [matched]. rewrite take_length by (pose proof (leading_spaces_length s); simpl; lia).
        rewrite (proj1 (IH (Some c))). reflexivity.
      - now rewrite (proj2 (IH (Some c))). }
    split; [|exact H0].
    cbn [leading_spaces dashed]. destruct (isSpace c) eqn:Hc.
    + cbn [replace_scan]. apply IH.
    + rewrite H0. cbn [dashed]. now rewrite Hc.
Qed.

Lemma replace_all_dashed (s : string) :
  replace_all false (plus space) (fun _ => "-") s = dashed false s.
Proof. apply replace_spaces_dashed. Qed.

End DashFacts.

Section PageSelection.
Import JS DarkMahou AnimePageExtractor Occurrence PageSpec.

Lemma calculateMatchScore_scored (query title url : string) (s : Z) :
  calculateMatchScore query title url = s <-> scored query title url s.
Proof.
  unfold calculateMatchScore. rewrite replace_all_dashed.
  destruct (String.eqb_spec (toLowerCase title) (toLowerCase query)) as [He|He].
  { split; [intros <-; now constructor|].
    intros H; inversion H; subst; congruence. }
  destruct (includes (toLowerCase title) (toLowerCase query)) eqn:Ht.
  { apply includes_iff in Ht. split; [intros <-; now constructor 2|].
    intros H; inversion H; subst; congruence || contradiction. }
  assert (Ht' : ~ contains (toLowerCase title) (toLowerCase query)).
  { intros Hc. apply includes_iff in Hc. congruence. }
  destruct (includes (toLowerCase url) (dashed false (toLowerCase query))) eqn:Hu.
  { apply includes_iff in Hu. split; [intros <-; now constructor 3|].
    intros H; inversion H; subst; congruence || contradiction. }
  assert (Hu' : ~ contains (toLowerCase url) (dashed false (toLowerCase query))).
  { intros Hc. apply includes_iff in Hc. congruence. }
  split; [intros <-; now constructor 4|].
  intros H; inversion H; subst; congruence || contradiction.
Qed.

(** The links the loop pushes are the candidates that score above 0. *)
Lemma collectLinks_candidates (html query : string) :
  collectLinks query (exec_all true ANIME_PAGE_LINK html) =
  filter (fun c => (score c >? 0)%Z) (candidates html query).
Proof.
  unfold candidates, anchors. change page_anchor with ANIME_PAGE_LINK.
  induction (exec_all true ANIME_PAGE_LINK html) as [|m ms IH]; simpl; [reflexivity|].
  destruct (shouldSkipURL (group_text 1 m)); simpl; [exact IH|].
  destruct (calculateMatchScore query (group_text 2 m) (group_text 1 m) >? 0)%Z;
    now rewrite IH.
Qed.

Lemma selectBestMatch_head (links : list ScoreMatch) :
  selectBestMatch links =
  match hd_error (sort by_score_desc links) with
  | Some bestMatch => sm_url bestMatch
  | None => ""
  end.
Proof.
  unfold selectBestMatch. destruct links as [|a l]; [reflexivity|].
  fold by_score_desc. now destruct (sort by_score_desc (a :: l)).
Qed.

Lemma earliest_best_skip (a : ScoreMatch) (cands : list ScoreMatch) (c : ScoreMatch) :
  (score a <= 0)%Z ->
  earliest_best (a :: cands) c <-> earliest_best cands c.
Proof.
  intros Ha. unfold earliest_best. split.
  - intros [before [after [Heq [Hpos [Hb Haf]]]]].
    destruct before as [|b before]; simpl in Heq; inversion Heq; subst.
    + lia.
    + inversion Hb; subst. now exists before, after.
  - intros [before [after [Heq [Hpos [Hb Haf]]]]].
    exists (a :: before), after. subst cands.
    split; [reflexivity | split; [exact Hpos | split; [|exact Haf]]].
    constructor; [lia | exact Hb].
Qed.

Lemma earliest_best_bound (cands : list ScoreMatch) (c : ScoreMatch) :
  earliest_best cands c -> Forall (fun c' => (score c' <= score c)%Z) cands.
Proof.
  intros [before [after [Heq [_ [Hb Haf]]]]]. subst cands.
  apply Forall_app. split.
  - eapply Forall_impl; [|exact Hb]. simpl. intros; lia.
  - constructor; [lia | exact Haf].
Qed.

(** The head of the sorted links is the earliest candidate of maximal
    score among those above 0. *)
Lemma sorted_head_earliest_best (cands : list ScoreMatch) :
  (forall c, hd_error (sort by_score_desc (filter (fun c => (score c >? 0)%Z) cands)) = Some c
             <-> earliest_best cands c) /\
  (hd_error (sort by_score_desc (filter (fun c => (score c >? 0)%Z) cands)) = None
   <-> Forall (fun c => (score c <= 0)%Z) cands).
Proof.
  induction cands as [|a cands [IHsome IHnone]].
  - split.
    + intros c. simpl. split; [discriminate|].
      intros [before [after [Heq _]]]. destruct before; discriminate.
    + simpl. split; [constructor | reflexivity].
  - cbn [filter]. destruct (score a >? 0)%Z eqn:Ha.
    + apply Z.gtb_lt in Ha. rewrite sort_head.
      destruct (hd_error (sort by_score_desc (filter (fun c => (score c >? 0)%Z) cands)))
        as [y|] eqn:Hy.
      * pose proof (proj1 (IHsome y) eq_refl) as Hyb.
        pose proof (earliest_best_bound _ _ Hyb) as Hbound.
        unfold by_score_desc. destruct (score y - score a >? 0)%Z eqn:Hya.
        -- apply Z.gtb_lt in Hya. split.
           ++ intros c. split.
              ** intros H; inversion H; subst c.
                 destruct Hyb as [before [after [Heq [Hpos [Hb Haf]]]]].
                 exists (a :: before), after. subst cands.
                 split; [reflexivity | split; [exact Hpos | split; [|exact Haf]]].
                 constructor; [lia | exact Hb].
              ** intros [before [after [Heq [Hpos [Hb Haf]]]]].
                 destruct before as [|b before]; simpl in Heq; inversion Heq; subst.
                 --- rewrite Forall_forall in Haf.
                     destruct Hyb as [b1 [a1 [Heq1 _]]].
                     assert (Hin : In y after) by (rewrite Heq1; apply in_elt).
                     apply Haf in Hin. lia.
                 --- inversion Hb; subst. f_equal. symmetry.
                     assert (Hc : earliest_best (before ++ c :: after) c)
                       by now exists before, after.
                     apply IHsome in Hc. congruence.
           ++ split; [discriminate|]. intros H; inversion H; subst. lia.
        -- assert (Hle : (score y <= score a)%Z).
           { destruct (Z.gtb_spec (score y - score a) 0); [discriminate | lia]. }
           split.
           ++ intros c. split.
              ** intros H; inversion H; subst c. exists [], cands.
                 split; [reflexivity | split; [lia | split; [constructor|]]].
                 eapply Forall_impl; [|exact Hbound]. simpl. intros; lia.
              ** intros [before [after [Heq [Hpos [Hb Haf]]]]].
                 destruct before as [|b before]; simpl in Heq; inversion Heq; subst.
                 --- reflexivity.
                 --- inversion Hb; subst. exfalso.
                     assert (Hc : earliest_best (before ++ c :: after) c)
                       by now exists before, after.
                     apply IHsome in Hc. assert (c = y) by congruence. subst. lia.
           ++ split; [discriminate|]. intros H; inversion H; subst. lia.
      * pose proof (proj1 IHnone eq_refl) as Hall. split.
        -- intros c. split.
           ++ intros H; inversion H; subst c. exists [], cands.
              split; [reflexivity | split; [lia | split; [constructor|]]].
              eapply Forall_impl; [|exact Hall]. simpl. intros; lia.
           ++ intros [before [after [Heq [Hpos [Hb Haf]]]]].
              destruct before as [|b before]; simpl in Heq; inversion Heq; subst.
              ** reflexivity.
              ** exfalso. rewrite Forall_forall in Hall.
                 assert (Hin : In c (before ++ c :: after)) by apply in_elt.
                 apply Hall in Hin. lia.
        -- split; [discriminate|]. intros H; inversion H; subst. lia.
    + assert (Hle : (score a <= 0)%Z).
      { destruct (Z.gtb_spec (score a) 0); [discriminate | lia]. }
      split.
      * intros c. rewrite IHsome. symmetry. now apply earliest_best_skip.
      * rewrite IHnone. split; [intros H; now constructor | intros H; now inversion H].
Qed.

(** The candidates under the score in lower case are the ones the provider
    computes. *)
Lemma candidates_of_scored (query : string) (l : list (string * string))
      (cands : list ScoreMatch) :
  candidates_of (scored query) l cands <->
  cands = map (fun '(url, title) =>
                 MkScoreMatch url title (calculateMatchScore query title url))
              (filter (fun '(url, _) => negb (shouldSkipURL url)) l).
Proof.
  split.
  - induction 1 as [|url title more cands Hex _ IH|url title s more cands Hex Hs _ IH].
    + reflexivity.
    + apply shouldSkipURL_iff in Hex. cbn [filter]. rewrite Hex. exact IH.
    + assert (Hskip : shouldSkipURL url = false).
      { destruct (shouldSkipURL url) eqn:E; [|reflexivity].
        apply shouldSkipURL_iff in E. contradiction. }
      cbn [filter]. rewrite Hskip. cbn [negb map].
      apply calculateMatchScore_scored in Hs. now rewrite Hs, IH.
  - intros ->. induction l as [|[url title] more IH]; [constructor|].
    cbn [filter]. destruct (shouldSkipURL url) eqn:E; cbn [negb map].
    + constructor; [now apply shouldSkipURL_iff | exact IH].
    + constructor; [| now apply calculateMatchScore_scored | exact IH].
      intros Hex. apply shouldSkipURL_iff in Hex. congruence.
Qed.

(** The score as the specification words it is a function of the texts. *)
Lemma scored_as_stated_iff (query title url : string) (s : Z) :
  scored_as_stated query title url s <-> stated_score query title url = s.
Proof.
  unfold stated_score.
  destruct (String.eqb_spec (toLowerCase title) (toLowerCase query)) as [He|He].
  { split; [|intros <-; now constructor].
    intros H; inversion H; subst; congruence. }
  destruct (includes title query) eqn:Ht.
  { apply includes_iff in Ht. split; [|intros <-; now constructor 2].
    intros H; inversion H; subst; congruence || contradiction. }
  assert (Ht' : ~ contains title query).
  { intros Hc. apply includes_iff in Hc. congruence. }
  destruct (includes url (dashed false query)) eqn:Hu.
  { apply includes_iff in Hu. split; [|intros <-; now constructor 3].
    intros H; inversion H; subst; congruence || contradiction. }
  assert (Hu' : ~ contains url (dashed false query)).
  { intros Hc. apply includes_iff in Hc. congruence. }
  split; [|intros <-; now constructor 4].
  intros H; inversion H; subst; congruence || contradiction.
Qed.

Lemma candidates_of_stated (query : string) (l : list (string * string))
      (cands : list ScoreMatch) :
  candidates_of (scored_as_stated query) l cands ->
  cands = map (fun '(url, title) =>
                 MkScoreMatch url title (stated_score query title url))
              (filter (fun '(url, _) => negb (shouldSkipURL url)) l).
Proof.
  induction 1 as [|url title more cands Hex _ IH|url title s more cands Hex Hs _ IH].
  - reflexivity.
  - apply shouldSkipURL_iff in Hex. cbn [filter]. rewrite Hex. exact IH.
  - assert (Hskip : shouldSkipURL url = false).
    { destruct (shouldSkipURL url) eqn:E; [|reflexivity].
      apply shouldSkipURL_iff in E. contradiction. }
    cbn [filter]. rewrite Hskip. cbn [negb map].
    apply scored_as_stated_iff in Hs. now rewrite Hs, IH.
Qed.

(** C3 (amended).  An address is skipped exactly when it contains one of
    the nine excluded patterns.  The score of a candidate is 100 when its
    title equals the query, else 50 when the title contains the query, else
    30 when the address contains the query with its runs of white space
    replaced by a dash, else 0, the three comparisons made on the texts in
    lower case.  [extractPageURL] returns the address of the earliest
    candidate of maximal score among those above 0, and the empty text when
    no candidate scores above 0; the candidates are the anchors of the page
    (a tag with the address of a one-segment page of darkmahou.org in its
    [href], followed by a [title]) whose address is not skipped, in the
    order of the document. *)
Theorem extractPageURL_best (html query : string) :
  (forall url, shouldSkipURL url = true <-> excluded url) /\
  (forall title url s, calculateMatchScore query title url = s <-> scored query title url s) /\
  (forall u, extractPageURL html query = u <-> selects (scored query) html u).
Proof.
  split; [exact shouldSkipURL_iff|].
  split; [intros; apply calculateMatchScore_scored|].
  intros u. unfold extractPageURL, selects.
  rewrite selectBestMatch_head, collectLinks_candidates.
  destruct (sorted_head_earliest_best (candidates html query)) as [Hsome Hnone].
  assert (Hc : candidates_of (scored query) (anchors html) (candidates html query))
    by (apply candidates_of_scored; reflexivity).
  destruct (hd_error _) as [b|] eqn:Hb.
  - pose proof (proj1 (Hsome b) eq_refl) as Hbest. split.
    + intros <-. exists (candidates html query). split; [exact Hc|]. left. now exists b.
    + intros [cands [Hcands H]]. apply candidates_of_scored in Hcands.
      change (cands = candidates html query) in Hcands. subst cands.
      destruct H as [[c [Hcb <-]] | [Hall _]].
      * apply Hsome in Hcb. congruence.
      * apply Hnone in Hall. discriminate.
  - pose proof (proj1 Hnone eq_refl) as Hall. split.
    + intros <-. exists (candidates html query). split; [exact Hc|]. now right.
    + intros [cands [Hcands H]]. apply candidates_of_scored in Hcands.
      change (cands = candidates html query) in Hcands. subst cands.
      destruct H as [[c [Hcb _]] | [_ ->]]; [|reflexivity].
      apply Hsome in Hcb. discriminate.
Qed.

(** On the page of four anchors and the query [naruto]: the anchor to the
    tag page is skipped; the two titles that contain the query in another
    case score 50 and the address that contains it scores 30; the earlier
    of the two titles is returned. *)
Lemma extractPageURL_best_witness :
  excluded "https://darkmahou.org/tag/" /\
  scored "naruto" "NARUTO Shippuden" "https://darkmahou.org/x/" 50 /\
  scored "naruto" "zzz" "https://darkmahou.org/naruto/" 30 /\
  scored "naruto" "Naruto Movie" "https://darkmahou.org/y/" 50 /\
  extractPageURL naruto_page "naruto" = "https://darkmahou.org/x/" /\
  selects (scored "naruto") naruto_page "https://darkmahou.org/x/".
Proof.
  destruct (extractPageURL_best naruto_page "naruto") as [Hskip [Hscore Hbest]].
  split; [apply Hskip; vm_compute; reflexivity|].
  split; [apply Hscore; vm_compute; reflexivity|].
  split; [apply Hscore; vm_compute; reflexivity|].
  split; [apply Hscore; vm_compute; reflexivity|].
  split; [vm_compute; reflexivity|].
  apply Hbest. vm_compute. reflexivity.
Defined.

(** C3 as stated fails.  With the title and the address compared as
    written, the two titles of the page of four anchors do not contain the
    query [naruto], and the address that contains it would be the only
    candidate above 0; the provider compares in lower case and returns the
    address of the first of the two titles. *)
Lemma extractPageURL_case_counterexample : ~ page_as_stated naruto_page "naruto".
Proof.
  intros H.
  assert (Hcode : extractPageURL naruto_page "naruto" = "https://darkmahou.org/x/")
    by (vm_compute; reflexivity).
  apply H in Hcode. destruct Hcode as [cands [Hcands Hsel]].
  apply candidates_of_stated in Hcands.
  assert (Heq : cands =
                [ MkScoreMatch "https://darkmahou.org/x/" "NARUTO Shippuden" 0;
                  MkScoreMatch "https://darkmahou.org/naruto/" "zzz" 30;
                  MkScoreMatch "https://darkmahou.org/y/" "Naruto Movie" 0 ])
    by (rewrite Hcands; vm_compute; reflexivity).
  clear Hcands. subst cands.
  destruct Hsel as [[c [[before [after [Heq [Hpos _]]]] Hurl]] | [_ Hu]]; [|discriminate Hu].
  destruct before as [|b1 before]; cbn in Heq.
  { injection Heq as <- _. cbn in Hpos. lia. }
  injection Heq as _ Heq.
  destruct before as [|b2 before]; cbn in Heq.
  { injection Heq as <- _. cbn in Hurl. discriminate. }
  injection Heq as _ Heq.
  destruct before as [|b3 before]; cbn in Heq.
  { injection Heq as <- _. cbn in Hpos. lia. }
  injection Heq as _ Heq. destruct before; discriminate.
Qed.

End PageSelection.

(** ** DarkMahou: info hashes *)

Section RepetitionFacts.
Import JS Occurrence HashSpec.

(** A bounded repetition that matches has taken a run of characters of the
    set, of a length within the bounds, before what follows matched. *)
Lemma match_rep_sound (R : Type) (ic : bool) (a : atom) (k : cont R) (cs : captures) (r : R) :
  forall s lo hi prev,
    match_rep R ic a lo hi prev s cs k = Some r ->
    exists run after p,
      s = run ++ after /\ all_chars (atom_has ic a) run = true /\
      (lo <= String.length run)%nat /\
      match hi with Some h => (String.length run <= h)%nat | None => True end /\
      k p after cs = Some r.
Proof.
  induction s as [|c s IH]; intros lo hi prev H; cbn [match_rep] in H.
  - destruct (Nat.eqb_spec lo 0); [|discriminate]. subst lo.
    exists "", "", prev. repeat split; auto. destruct hi; [simpl; lia | exact I].
  - assert (Hstop : (if Nat.eqb lo 0 then k prev (String c s) cs else None) = Some r ->
                    exists run after p,
                      String c s = run ++ after /\ all_chars (atom_has ic a) run = true /\
                      (lo <= String.length run)%nat /\
                      match hi with Some h => (String.length run <= h)%nat | None => True end /\
                      k p after cs = Some r).
    { intros Hs. destruct (Nat.eqb_spec lo 0); [|discriminate]. subst lo.
      exists "", (String c s), prev. repeat split; auto.
      destruct hi; [simpl; lia | exact I]. }
    destruct (match hi with Some 0%nat => false | _ => true end && atom_has ic a c) eqn:Hmore;
      [|now apply Hstop].
    apply andb_true_iff in Hmore. destruct Hmore as [Hhi Hc].
    destruct (match_rep R ic a (Nat.pred lo) (option_map Nat.pred hi) (Some c) s cs k)
      as [r'|] eqn:Hrec; [|now apply Hstop].
    inversion H; subst r'. apply IH in Hrec.
    destruct Hrec as [run [after [p [Heq [Hall [Hlo [Hhi' Hk]]]]]]].
    exists (String c run), after, p. subst s. simpl. rewrite Hc, Hall.
    repeat split; auto; [lia|].
    destruct hi as [[|h]|]; simpl in *; [discriminate | lia | exact I].
Qed.

Lemma position_later (i : nat) : forall prev s p suffix,
  position (S i) prev s = Some (p, suffix) -> exists c, p = Some c.
Proof.
  induction i as [|i IH]; intros prev s p suffix H; simpl in H.
  - destruct s; [discriminate|]. inversion H. eauto.
  - destruct s as [|c s]; [discriminate|]. exact (IH (Some c) s p suffix H).
Qed.

End RepetitionFacts.

Section HashFacts.
Import JS DarkMahou TorrentParser Occurrence HashSpec.

Lemma hexdigit_is_hex (c : ascii) : atom_has false hexdigit c = is_hex c.
Proof.
  unfold atom_has, hexdigit, set_has, is_hex, citem_has. simpl.
  rewrite !orb_false_r.
  destruct (in_range 97 102 c), (in_range 65 70 c), (in_range 48 57 c); reflexivity.
Qed.

Lemma all_chars_ext (f g : ascii -> bool) (s : string) :
  (forall c, f c = g c) -> all_chars f s = all_chars g s.
Proof. intros H. induction s; simpl; [reflexivity | now rewrite H, IHs]. Qed.

Lemma append_empty_r (s : string) : s ++ "" = s.
Proof. induction s; simpl; [reflexivity | now f_equal]. Qed.

(** The guard [isValidInfoHash] accepts only 40 hexadecimal characters. *)
Lemma isValidInfoHash_hex40 (hash : string) :
  isValidInfoHash hash = true -> hex40 hash.
Proof.
  unfold isValidInfoHash. rewrite test_iff. intros [i [m H]].
  unfold occurrence, occurrence_from in H.
  destruct (position i None hash) as [[p suffix]|] eqn:Hpos; [|discriminate].
  destruct i as [|i].
  - simpl in Hpos. inversion Hpos; subst p suffix.
    unfold match_here, INFO_HASH_ONLY in H. cbn [rseq rmatch] in H.
    apply match_rep_sound in H.
    destruct H as [run [after [p [Heq [Hall [Hlo [Hhi Hk]]]]]]].
    destruct after; [|discriminate].
    rewrite append_empty_r in Heq. subst run. split; [lia|].
    rewrite <- Hall. apply all_chars_ext. intros c. symmetry. apply hexdigit_is_hex.
  - apply position_later in Hpos as Hp. destruct Hp as [c ->].
    unfold match_here, INFO_HASH_ONLY in H. cbn [rseq rmatch] in H. discriminate.
Qed.

Lemma extractInfoHash_result (magnetLink : string) :
  extractInfoHash magnetLink = "" \/ hex40 (extractInfoHash magnetLink).
Proof.
  unfold extractInfoHash.
  destruct (negb (isValidMagnetLink magnetLink)); [now left|].
  destruct (js_match true INFO_HASH magnetLink) as [m|]; [|now left].
  destruct (group 1 m) as [hash|]; [|now left].
  destruct (truthy hash && isValidInfoHash hash) eqn:H; [|now left].
  apply andb_true_iff in H. right. now apply isValidInfoHash_hex40.
Qed.

Lemma extractInfoHash_no_hash (magnetLink : string) :
  ~ has_btih_hash magnetLink -> extractInfoHash magnetLink = "".
Proof.
  intros Hno. unfold extractInfoHash.
  destruct (negb (isValidMagnetLink magnetLink)); [reflexivity|].
  destruct (js_match true INFO_HASH magnetLink) as [m|] eqn:Hm; [|reflexivity].
  exfalso. apply Hno. unfold has_btih_hash. change btih_pattern with INFO_HASH.
  apply test_iff. unfold test. now rewrite Hm.
Qed.

Lemma absent_or_empty_present (field : option string) :
  absent_or_empty field <-> present field = false.
Proof.
  unfold absent_or_empty, present. split.
  - intros [-> | ->]; reflexivity.
  - destruct field as [[|c s]|]; simpl; intros H; auto; discriminate.
Qed.

(** C9 (amended).  For a torrent whose [infoHash] and [magnetLink] are
    both absent or empty, [getTorrentInfoHash] returns the placeholder; for
    a torrent whose [magnetLink] is present without a 40-digit [btih] hash
    and whose [infoHash] is empty, it returns the empty text; whenever the
    [infoHash] of the torrent is absent or empty the result is empty, the
    placeholder or 40 hexadecimal characters; and an [infoHash] that is not
    empty is returned as it is. *)
Theorem getTorrentInfoHash_cases (torrent : AnimeTorrent) :
  placeholder_clause torrent /\
  empty_clause torrent /\
  (absent_or_empty (t_infoHash torrent) -> well_formed_result torrent) /\
  (forall h, t_infoHash torrent = Some h -> h <> "" ->
             Provider.getTorrentInfoHash torrent = h).
Proof.
  unfold placeholder_clause, empty_clause, well_formed_result, Provider.getTorrentInfoHash.
  repeat split.
  - intros Hi Hm. apply absent_or_empty_present in Hi, Hm. now rewrite Hi, Hm.
  - intros link Hlink Hne Hno Hi. apply absent_or_empty_present in Hi. rewrite Hi, Hlink.
    assert (Hp : present (Some link) = true) by (destruct link; [contradiction | reflexivity]).
    rewrite Hp. cbn [or_else]. replace (truthy link) with true by (now destruct link).
    rewrite (extractInfoHash_no_hash link Hno). reflexivity.
  - intros Hi. apply absent_or_empty_present in Hi. rewrite Hi.
    destruct (present (t_magnetLink torrent)) eqn:Hm.
    + destruct (extractInfoHash_result (or_else (t_magnetLink torrent) "")) as [He | Hh].
      * rewrite He. simpl. now left.
      * destruct (truthy (extractInfoHash (or_else (t_magnetLink torrent) ""))) eqn:Ht.
        -- right; right. exact Hh.
        -- now left.
    + simpl. right; left. reflexivity.
  - intros h Hh Hne. rewrite Hh.
    destruct h as [|c h]; [contradiction | reflexivity].
Qed.

(** A torrent without fields gets the placeholder. *)
Lemma getTorrentInfoHash_cases_witness :
  Provider.getTorrentInfoHash (torrent_with None None None) = placeholder.
Proof.
  apply (proj1 (getTorrentInfoHash_cases (torrent_with None None None)));
    left; reflexivity.
Defined.

(** C9 as stated fails: a torrent that carries the info hash [xyz] gets
    [xyz] back, which is neither empty, nor the placeholder, nor 40
    hexadecimal characters. *)
Lemma getTorrentInfoHash_own_hash_counterexample :
  ~ (placeholder_clause (torrent_with None (Some "xyz") None) /\
     empty_clause (torrent_with None (Some "xyz") None) /\
     well_formed_result (torrent_with None (Some "xyz") None)).
Proof.
  intros [_ [_ [H | [H | [H _]]]]]; vm_compute in H; discriminate.
Qed.

End HashFacts.

(** ** DarkMahou: smart search *)

Section SmartSearchFacts.
Import JS DarkMahou Occurrence SmartSearchSpec.

Lemma subsequence_refl {A : Type} (l : list A) : subsequence l l.
Proof. induction l; now constructor. Qed.

Lemma subsequence_trans {A : Type} (l1 l2 l3 : list A) :
  subsequence l1 l2 -> subsequence l2 l3 -> subsequence l1 l3.
Proof.
  intros H12 H23. revert l1 H12.
  induction H23 as [|x l2 l3 H IH|x l2 l3 H IH]; intros l1 H12.
  - exact H12.
  - inversion H12; subst; constructor; now apply IH.
  - constructor. now apply IH.
Qed.

Lemma filter_subsequence {A : Type} (f : A -> bool) (l : list A) :
  subsequence (filter f l) l.
Proof. induction l as [|x l IH]; simpl; [constructor|]. destruct (f x); now constructor. Qed.

Lemma filter_Forall_keep {A : Type} (f : A -> bool) (P : A -> Prop) (l : list A) :
  Forall P l -> Forall P (filter f l).
Proof.
  induction 1 as [|x l Hx _ IH]; simpl; [constructor|].
  destruct (f x); [now constructor | exact IH].
Qed.

Lemma filter_Forall_true {A : Type} (f : A -> bool) (l : list A) :
  Forall (fun x => f x = true) (filter f l).
Proof.
  induction l as [|x l IH]; simpl; [constructor|].
  destruct (f x) eqn:Hx; [now constructor | exact IH].
Qed.

(** Filtering by the predicates one after the other leaves a subsequence
    whose elements pass every predicate. *)
Lemma filters_fold {A : Type} (fs : list (A -> bool)) : forall l : list A,
  subsequence (fold_left (fun acc f => filter f acc) fs l) l /\
  forall f, In f fs -> Forall (fun x => f x = true) (fold_left (fun acc f => filter f acc) fs l).
Proof.
  induction fs as [|g fs IH]; intros l; simpl.
  - split; [apply subsequence_refl | intros f []].
  - destruct (IH (filter g l)) as [Hsub Hall]. split.
    + eapply subsequence_trans; [exact Hsub | apply filter_subsequence].
    + intros f [<- | Hin]; [|now apply Hall].
      clear Hall Hsub IH. generalize (filter_Forall_true g l).
      generalize (filter g l). induction fs as [|h fs IH]; intros l' Hl'; simpl; [exact Hl'|].
      apply IH. now apply filter_Forall_keep.
Qed.

Lemma applySmartSearchFilters_passes (results : list AnimeTorrent)
      (opts : AnimeSmartSearchOptions) :
  subsequence (Provider.applySmartSearchFilters results opts) results /\
  Forall (passes opts) (Provider.applySmartSearchFilters results opts).
Proof.
  unfold Provider.applySmartSearchFilters.
  destruct (filters_fold (Provider.smartSearchFilters opts) results) as [Hsub Hall].
  split; [exact Hsub|].
  set (out := fold_left _ _ _) in *.
  assert (Hep : (episodeNumber opts > 0)%Z ->
                Forall (fun t => t_episodeNumber t = episodeNumber opts \/
                                 t_isBatch t = true \/ t_episodeNumber t = (-1)%Z) out).
  { intros Hpos.
    eapply Forall_impl;
      [| apply (Hall (fun t => (t_episodeNumber t =? episodeNumber opts)%Z ||
                               t_isBatch t || (t_episodeNumber t =? -1)%Z)) ].
    - intros t Ht. simpl in Ht. rewrite !orb_true_iff, !Z.eqb_eq in Ht. tauto.
    - unfold Provider.smartSearchFilters.
      replace (negb (episodeNumber opts =? 0)%Z && (episodeNumber opts >? 0)%Z) with true.
      + now left.
      + symmetry. apply andb_true_iff. split.
        * apply negb_true_iff, Z.eqb_neq. lia.
        * apply Z.gtb_lt. lia. }
  assert (Hres : resolution opts <> "" ->
                 Forall (fun t => t_resolution t = "" \/
                                  contains (t_resolution t) (resolution opts)) out).
  { intros Hne.
    eapply Forall_impl;
      [| apply (Hall (fun t => negb (truthy (t_resolution t)) ||
                               includes (t_resolution t) (resolution opts))) ].
    - intros t Ht. simpl in Ht. rewrite orb_true_iff, negb_true_iff, includes_iff in Ht.
      destruct Ht as [Ht | Ht]; [left | now right].
      now destruct (t_resolution t).
    - unfold Provider.smartSearchFilters.
      replace (truthy (resolution opts)) with true
        by (destruct (resolution opts); [contradiction | reflexivity]).
      apply in_or_app. right. apply in_or_app. left. now left. }
  assert (Hbatch : batch opts = true -> Forall (fun t => t_isBatch t = true) out).
  { intros Hb. apply (Hall (fun t => t_isBatch t)).
    unfold Provider.smartSearchFilters. rewrite Hb.
    apply in_or_app. right. apply in_or_app. right. now left. }
  apply Forall_forall. intros t Hin. unfold passes.
  split; [|split].
  - intros Hb. specialize (Hbatch Hb). rewrite Forall_forall in Hbatch. now apply Hbatch.
  - intros Hpos. specialize (Hep Hpos). rewrite Forall_forall in Hep. now apply Hep.
  - intros Hne. specialize (Hres Hne). rewrite Forall_forall in Hres. now apply Hres.
Qed.

(** C8.  [smartSearch] returns a list; it is a subsequence of the list
    the underlying [search] returns (and empty when [search] throws), and
    every torrent in it passes the active filters: batch when [batch] is
    set; the episode number, a batch or -1 when [episodeNumber] is above 0;
    an empty resolution or one that contains [resolution] when it is set. *)
Theorem smartSearch_filters (host : Host) (opts : AnimeSmartSearchOptions) :
  exists returned,
    Provider.smartSearch host opts = Normal returned /\
    (forall results,
        Provider.search host (Provider.smartSearchQuery opts) = Normal results ->
        subsequence returned results) /\
    (forall error,
        Provider.search host (Provider.smartSearchQuery opts) = Throw error ->
        returned = []) /\
    Forall (passes opts) returned.
Proof.
  unfold Provider.smartSearch.
  destruct (Provider.search host (Provider.smartSearchQuery opts)) as [results|error] eqn:Hs;
    simpl.
  - destruct results as [|t results].
    + exists []. repeat split; try constructor.
      * intros r H; inversion H; subst. constructor.
    + destruct (applySmartSearchFilters_passes (t :: results) opts) as [Hsub Hall].
      exists (Provider.applySmartSearchFilters (t :: results) opts).
      split; [reflexivity | split; [|split; [discriminate | exact Hall]]].
      intros r H; inversion H; subst. exact Hsub.
  - exists []. repeat split; try constructor; discriminate.
Qed.

(** On the example host the search finds two torrents; the smart search
    for episode 5 in 1080p keeps the first. *)
Lemma smartSearch_filters_witness :
  exists returned results,
    Provider.smartSearch (example_host (fun _ => "")) example_options = Normal returned /\
    Provider.search (example_host (fun _ => "")) (Provider.smartSearchQuery example_options)
    = Normal results /\
    List.length results = 2%nat /\ List.length returned = 1%nat /\
    subsequence returned results /\ Forall (passes example_options) returned.
Proof.
  destruct (smartSearch_filters (example_host (fun _ => "")) example_options)
    as [returned [Hret [Hsub [_ Hall]]]].
  exists returned.
  destruct (Provider.search (example_host (fun _ => ""))
                            (Provider.smartSearchQuery example_options))
    as [results|error] eqn:Hs; [|vm_compute in Hs; discriminate].
  exists results. split; [exact Hret|]. split; [reflexivity|].
  split; [vm_compute in Hs; inversion Hs; reflexivity|].
  split; [vm_compute in Hret; inversion Hret; reflexivity|].
  split; [now apply Hsub | exact Hall].
Defined.

End SmartSearchFacts.

(** ** Q1N: the search results *)

Section Q1NSearchFacts.
Import JS Q1N Occurrence Q1NSpec.

Lemma pushResults_parsed (elements : Selection) : forall results,
  Provider.pushResults elements results =
  (results ++ flat_map (fun element =>
                          match Provider.parseSearchResultElement [element] with
                          | Some result => [result]
                          | None => []
                          end) elements)%list.
Proof.
  induction elements as [|e elements IH]; intros results; simpl.
  - now rewrite app_nil_r.
  - destruct (Provider.parseSearchResultElement [e]) as [r|]; rewrite IH; simpl.
    + now rewrite <- app_assoc.
    + reflexivity.
Qed.

Lemma searchContainers_cons (doc : Document) (selector : string) (more : list string) :
  Provider.searchContainers doc (selector :: more) [] =
  match parsed doc selector with
  | [] => Provider.searchContainers doc more []
  | results => results
  end.
Proof.
  cbn [Provider.searchContainers]. rewrite pushResults_parsed. simpl.
  fold (parsed doc selector). now destruct (parsed doc selector).
Qed.

Lemma searchContainers_first (doc : Document) (selectors : list string) (s : string) :
  first_productive doc selectors s ->
  Provider.searchContainers doc selectors [] = parsed doc s.
Proof.
  induction 1 as [selector more Hne | selector more s Hnil _ IH];
    rewrite searchContainers_cons.
  - now destruct (parsed doc selector).
  - now rewrite Hnil.
Qed.

Lemma searchContainers_none (doc : Document) (selectors : list string) :
  (forall s, In s selectors -> parsed doc s = []) ->
  Provider.searchContainers doc selectors [] = [].
Proof.
  induction selectors as [|selector more IH]; intros H; [reflexivity|].
  rewrite searchContainers_cons, (H selector) by now left.
  apply IH. intros s Hs. apply H. now right.
Qed.

Lemma productive_or_none (doc : Document) (selectors : list string) :
  (exists s, first_productive doc selectors s) \/
  (forall s, In s selectors -> parsed doc s = []).
Proof.
  induction selectors as [|selector more IH].
  - right. intros s [].
  - destruct (parsed doc selector) as [|r rs] eqn:Hp.
    + destruct IH as [[s Hs] | Hnone].
      * left. exists s. now constructor 2.
      * right. intros s [<- | Hin]; [exact Hp | now apply Hnone].
    + left. exists selector. constructor. now rewrite Hp.
Qed.

(** The result depends on the document only through the selectors that
    are consulted. *)
Lemma searchContainers_consulted (doc doc' : Document) (selectors : list string) :
  (forall s, In s (consulted doc selectors) -> doc' s = doc s) ->
  Provider.searchContainers doc' selectors [] = Provider.searchContainers doc selectors [].
Proof.
  induction selectors as [|selector more IH]; intros H; [reflexivity|].
  rewrite !searchContainers_cons.
  assert (Hsame : parsed doc' selector = parsed doc selector).
  { unfold parsed. rewrite H; [reflexivity|].
    simpl. destruct (parsed doc selector); now left. }
  rewrite Hsame. destruct (parsed doc selector) eqn:Hp; [|reflexivity].
  apply IH. intros s Hs. apply H. simpl. rewrite Hp. now right.
Qed.

Lemma animesHref_contains (href : option string) (h : string) :
  Provider.animesHref href = Some h -> contains h "/animes/".
Proof.
  unfold Provider.animesHref. destruct href as [x|]; [|discriminate].
  destruct (truthy x && includes x "/animes/") eqn:E; [|discriminate].
  intros H; inversion H; subst. apply andb_true_iff in E. now apply includes_iff.
Qed.

Lemma extractUrlFromSelectors_animes (element : Selection) (selectors : list string) :
  Provider.extractUrlFromSelectors element selectors = "" \/
  contains (Provider.extractUrlFromSelectors element selectors) "/animes/".
Proof.
  induction selectors as [|selector more IH]; simpl.
  - destruct (Provider.animesHref (attr element "href")) eqn:E; [|now left].
    right. eapply animesHref_contains; eauto.
  - destruct (Provider.animesHref _) eqn:E; [|exact IH].
    right. eapply animesHref_contains; eauto.
Qed.

Lemma parseSearchResultElement_valid (element : Selection) (r : SearchResult) :
  Provider.parseSearchResultElement element = Some r -> valid_result r.
Proof.
  unfold Provider.parseSearchResultElement, valid_result.
  pose proof (extractUrlFromSelectors_animes element SELECTORS.SEARCH_URLS) as Hurl.
  set (t := Provider.extractTextFromSelectors element SELECTORS.SEARCH_TITLES) in *.
  set (u := Provider.extractUrlFromSelectors element SELECTORS.SEARCH_URLS) in *.
  destruct (truthy t) eqn:Ht; destruct (truthy u) eqn:Hu; cbn [negb orb];
    try discriminate.
  intros H; inversion H; subst r; cbn [title url]. split.
  - intros E. rewrite E in Ht. discriminate.
  - destruct Hurl as [E|E]; [rewrite E in Hu; discriminate | exact E].
Qed.

Lemma parsed_valid (doc : Document) (selector : string) :
  Forall valid_result (parsed doc selector).
Proof.
  unfold parsed. induction (doc selector) as [|e es IH]; simpl; [constructor|].
  destruct (Provider.parseSearchResultElement [e]) eqn:E; simpl; [|exact IH].
  constructor; [eapply parseSearchResultElement_valid; eauto | exact IH].
Qed.

Lemma parseContainers_same (doc : Document) (selectors : list string) :
  forall results,
    SearchParser.parseContainers doc selectors results =
    Provider.searchContainers doc selectors results.
Proof.
  induction selectors as [|s more IH]; intros results; simpl; [reflexivity|].
  now rewrite IH.
Qed.

(** C4.  The containers are tried in the order [.items .item],
    [.result .item], [.search-result .item], [article], [.post],
    [.anime-item]; the parser returns the results of the first selector
    that yields a valid result, the empty list when none does; every
    result has a title that is not empty and an address with [/animes/];
    the selectors after the first that yields a result are not consulted:
    the result is the same for every document that agrees on the
    consulted ones.  The parser of the refactored provider is the same. *)
Theorem parseSearchResults_first_selector (host : Host) (html : string) (doc : Document) :
  LoadDoc host html = Normal (Some doc) ->
  SELECTORS.SEARCH_CONTAINERS =
    [".items .item"; ".result .item"; ".search-result .item";
     "article"; ".post"; ".anime-item"] /\
  ((exists s, first_productive doc SELECTORS.SEARCH_CONTAINERS s) \/
   (forall s, In s SELECTORS.SEARCH_CONTAINERS -> parsed doc s = [])) /\
  (forall s, first_productive doc SELECTORS.SEARCH_CONTAINERS s ->
             Provider.parseSearchResults host html = Normal (parsed doc s)) /\
  ((forall s, In s SELECTORS.SEARCH_CONTAINERS -> parsed doc s = []) ->
   Provider.parseSearchResults host html = Normal []) /\
  (forall results, Provider.parseSearchResults host html = Normal results ->
                   Forall valid_result results) /\
  (forall host' doc',
      LoadDoc host' html = Normal (Some doc') ->
      (forall s, In s (consulted doc SELECTORS.SEARCH_CONTAINERS) -> doc' s = doc s) ->
      Provider.parseSearchResults host' html = Provider.parseSearchResults host html) /\
  SearchParser.parseResults host html = Provider.parseSearchResults host html.
Proof.
  intros Hdoc.
  assert (Hparse : Provider.parseSearchResults host html =
                   Normal (Provider.searchContainers doc SELECTORS.SEARCH_CONTAINERS [])).
  { unfold Provider.parseSearchResults, Provider.loadDocument. now rewrite Hdoc. }
  split; [reflexivity|].
  split; [apply productive_or_none|].
  split; [intros s Hs; rewrite Hparse; f_equal; now apply searchContainers_first|].
  split; [intros Hnone; rewrite Hparse; f_equal; now apply searchContainers_none|].
  split.
  { intros results Hr. rewrite Hparse in Hr.
    assert (E : results = Provider.searchContainers doc SELECTORS.SEARCH_CONTAINERS [])
      by congruence.
    rewrite E. clear E Hr.
    destruct (productive_or_none doc SELECTORS.SEARCH_CONTAINERS) as [[s Hs] | Hnone].
    - rewrite (searchContainers_first _ _ _ Hs). apply parsed_valid.
    - rewrite (searchContainers_none _ _ Hnone). constructor. }
  split.
  { intros host' doc' Hdoc' Hagree. rewrite Hparse.
    unfold Provider.parseSearchResults, Provider.loadDocument. rewrite Hdoc'.
    cbn [bind]. f_equal. now apply searchContainers_consulted. }
  unfold SearchParser.parseResults, Provider.parseSearchResults.
  destruct (Provider.loadDocument host html); cbn [bind]; [|reflexivity].
  now rewrite parseContainers_same.
Qed.

(** On the example document the results come from [article], the fourth
    selector; [.post] is not consulted. *)
Lemma parseSearchResults_first_selector_witness :
  Provider.parseSearchResults example_document_host "<html></html>" =
  Normal [ {| id := "naruto-dublado"; title := "Naruto Dublado";
              url := "https://q1n.net/animes/naruto-dublado/"; subOrDub := dub |} ].
Proof.
  destruct (parseSearchResults_first_selector
              example_document_host "<html></html>" example_document eq_refl)
    as [_ [_ [Hfirst _]]].
  rewrite (Hfirst "article"); [reflexivity|].
  do 3 (constructor 2; [reflexivity|]).
  constructor. vm_compute. discriminate.
Defined.

End Q1NSearchFacts.

(** ** Q1N: the player of an episode *)

Section Q1NPlayerFacts.
Import JS Q1N Occurrence Q1NSpec.

Lemma fold_left_invariant {A B : Type} (P : A -> Prop) (f : A -> B -> A) (l : list B) :
  (forall acc x, P acc -> P (f acc x)) -> forall init, P init -> P (fold_left f l init).
Proof.
  intros Hstep. induction l as [|x l IH]; intros init Hinit; simpl; [exact Hinit|].
  apply IH, Hstep, Hinit.
Qed.

Lemma map_set_truthy (key value : string) (m : JsMap) :
  truthy value = true -> all_truthy m -> all_truthy (map_set key value m).
Proof.
  intros Hv. unfold all_truthy. induction 1 as [|[k v] m Hkv Hm IH]; simpl.
  - now repeat constructor.
  - destruct (String.eqb k key); constructor; auto.
Qed.

Lemma map_get_truthy (key : string) (m : JsMap) (u : string) :
  all_truthy m -> map_get key m = Some u -> truthy u = true.
Proof.
  unfold all_truthy. induction 1 as [|[k v] m Hkv _ IH]; simpl; [discriminate|].
  destruct (String.eqb k key); [|exact IH].
  intros H; inversion H; subst. exact Hkv.
Qed.

Lemma map_first_value_truthy (m : JsMap) (u : string) :
  all_truthy m -> map_first_value m = Some u -> truthy u = true.
Proof.
  unfold all_truthy. destruct 1 as [|[k v] m Hkv _]; simpl; [discriminate|].
  intros H; inversion H; subst. exact Hkv.
Qed.

Lemma extractPlayersFromIframes_truthy (doc : Document) (players : JsMap) :
  all_truthy players -> all_truthy (Provider.extractPlayersFromIframes doc players).
Proof.
  unfold Provider.extractPlayersFromIframes. apply fold_left_invariant.
  intros acc iframe Hacc. destruct (attr [iframe] "src") as [src|]; [|exact Hacc].
  destruct (truthy src) eqn:Hs; cbn [andb]; [|exact Hacc].
  destruct (truthy (trim src) && negb (includes src "about:blank")); [|exact Hacc].
  now apply map_set_truthy.
Qed.

Lemma extractPlayersFromElements_truthy (doc : Document) (players : JsMap) :
  all_truthy players -> all_truthy (Provider.extractPlayersFromElements doc players).
Proof.
  unfold Provider.extractPlayersFromElements. apply fold_left_invariant.
  intros acc element Hacc.
  destruct (existsb _ SUPPORTED_SERVERS); [|exact Hacc].
  destruct (or_else_opt _ _) as [h|]; [|exact Hacc].
  destruct (truthy h) eqn:Hh; [|exact Hacc].
  now apply map_set_truthy.
Qed.

Lemma createFallbackPlayers_truthy (players : JsMap) (episodeId : string) :
  all_truthy players -> all_truthy (Provider.createFallbackPlayers players episodeId).
Proof.
  unfold Provider.createFallbackPlayers. apply fold_left_invariant.
  intros acc s Hacc. now apply map_set_truthy.
Qed.

(** Every address of an extracted player map is a text that is not
    empty. *)
Lemma extractPlayersFromPage_truthy (host : Host) (html : string)
      (episode : EpisodeDetails) (players : JsMap) :
  Provider.extractPlayersFromPage host html episode = Normal players ->
  all_truthy players.
Proof.
  unfold Provider.extractPlayersFromPage.
  destruct (Provider.loadDocument host html) as [doc|]; cbn [bind]; [|discriminate].
  intros H; inversion H; subst players; clear H.
  assert (Hex : all_truthy (Provider.extractPlayersFromElements doc
                              (Provider.extractPlayersFromIframes doc []))).
  { apply extractPlayersFromElements_truthy, extractPlayersFromIframes_truthy. constructor. }
  destruct (Provider.extractPlayersFromElements doc _) eqn:E; [|exact Hex].
  apply createFallbackPlayers_truthy. constructor.
Qed.

Lemma selectedServer_requested (server : string) :
  Provider.selectedServer server = requested server.
Proof.
  unfold Provider.selectedServer, requested, DEFAULT_SERVER.
  destruct (String.eqb server "default"); [reflexivity|].
  now destruct server.
Qed.

Lemma or_else_opt_some (u : string) (b : option string) :
  truthy u = true -> or_else_opt (Some u) b = Some u.
Proof. intros H. unfold or_else_opt. now rewrite H. Qed.

(** On a map of addresses that are not empty, the choice of the code is
    the fallback chain. *)
Lemma selectBestPlayer_chain (players : JsMap) (server : string) :
  all_truthy players ->
  Provider.selectBestPlayer players (Provider.selectedServer server) =
  match chain players server with
  | Some u => if includes u "about:blank"
              then Throw "Nenhuma fonte de video encontrada na pagina"
              else Normal u
  | None => Throw "Nenhuma fonte de video encontrada na pagina"
  end.
Proof.
  intros Hall. unfold Provider.selectBestPlayer, chain.
  rewrite selectedServer_requested.
  change DEFAULT_SERVER with "chplay". change (nth 1 SUPPORTED_SERVERS "") with "ruplay".
  assert (Hstep : forall o b, (forall u, o = Some u -> truthy u = true) ->
                              or_else_opt o b = match o with Some u => Some u | None => b end).
  { intros [u|] b H; [|reflexivity]. apply or_else_opt_some. now apply H. }
  rewrite !Hstep by (intros u Hu; eapply map_get_truthy; eauto).
  assert (Hfinal : forall o, (forall u, o = Some u -> truthy u = true) ->
            match o with
            | Some u => if negb (truthy u) || includes u "about:blank"
                        then Throw "Nenhuma fonte de video encontrada na pagina"
                        else @Normal string u
            | None => Throw "Nenhuma fonte de video encontrada na pagina"
            end =
            match o with
            | Some u => if includes u "about:blank"
                        then Throw "Nenhuma fonte de video encontrada na pagina"
                        else Normal u
            | None => Throw "Nenhuma fonte de video encontrada na pagina"
            end).
  { intros [u|] H; [|reflexivity]. now rewrite (H u eq_refl). }
  destruct (map_get (requested server) players) as [u|] eqn:H1.
  { apply (Hfinal (Some u)). intros u' Hu'; inversion Hu'; subst.
    eapply map_get_truthy; eauto. }
  destruct (map_get "chplay" players) as [u|] eqn:H2.
  { apply (Hfinal (Some u)). intros u' Hu'; inversion Hu'; subst.
    eapply map_get_truthy; eauto. }
  destruct (map_get "ruplay" players) as [u|] eqn:H3.
  { apply (Hfinal (Some u)). intros u' Hu'; inversion Hu'; subst.
    eapply map_get_truthy; eauto. }
  apply Hfinal. intros u Hu. eapply map_first_value_truthy; eauto.
Qed.

Lemma selectBest_same (players : JsMap) (preferredServer : string) :
  PlayerSelector.selectBest players preferredServer =
  Provider.selectBestPlayer players preferredServer.
Proof. reflexivity. Qed.

Lemma validateEpisodeData_valid (episode : EpisodeDetails) :
  valid_episode episode -> Provider.validateEpisodeData episode = Normal tt.
Proof.
  unfold valid_episode, Provider.validateEpisodeData. intros [Hid Hurl].
  destruct (ep_id episode); [contradiction|].
  destruct (ep_url episode) as [|c u] eqn:Hu; [now elim Hurl|].
  destruct (trim (String c u)); [contradiction | reflexivity].
Qed.

Lemma validateEpisodeData_invalid (episode : EpisodeDetails) :
  ~ valid_episode episode -> throws (Provider.validateEpisodeData episode).
Proof.
  unfold valid_episode, Provider.validateEpisodeData, throws. intros Hinv.
  destruct (ep_id episode) eqn:Hid; [eexists; reflexivity|].
  destruct (ep_url episode) as [|c u] eqn:Hu; [eexists; reflexivity|].
  destruct (trim (String c u)) eqn:Ht; [eexists; reflexivity|].
  exfalso. apply Hinv. split; discriminate.
Qed.

(** The player map of a page is extracted unless the document of the page
    cannot be had. *)
Lemma extractPlayersFromPage_throws (host : Host) (html : string)
      (episode : EpisodeDetails) :
  throws (Provider.extractPlayersFromPage host html episode) <-> no_document host html.
Proof.
  unfold Provider.extractPlayersFromPage, Provider.loadDocument, no_document, throws.
  destruct (LoadDoc host html) as [[doc|]|e]; cbn [bind].
  - split; [intros [e H]; discriminate|].
    intros [[e H] | H]; discriminate.
  - split; [intros _; now right | intros _; eexists; reflexivity].
  - split; [intros _; left; eexists; reflexivity | intros _; eexists; reflexivity].
Qed.

(** C5 (amended).  An episode whose data do not pass the guard, or whose
    page cannot be loaded, or the document of whose page cannot be had
    ([LoadDoc] throws or returns no function), makes [findEpisodeServer]
    throw; the player map of a page is extracted in every other case.  For
    an episode with valid data whose page loads and whose player map is
    extracted, the player address is chosen by the chain: the entry of the
    requested server ([chplay] for [default] and for the empty name), else
    the entry of [chplay], else the entry of [ruplay], else the first entry
    of the extracted map; the operation throws exactly when that address is
    absent or contains [about:blank], and otherwise returns a server whose
    [videoSources] hold exactly one source, with that address. *)
Theorem findEpisodeServer_selection (host : Host) (episode : EpisodeDetails)
        (server : string) :
  (~ valid_episode episode -> throws (Provider.findEpisodeServer host episode server)) /\
  (Provider.fetchHtml host (ep_url episode) = None \/
   Provider.fetchHtml host (ep_url episode) = Some "" ->
   throws (Provider.findEpisodeServer host episode server)) /\
  (forall html,
      Provider.fetchHtml host (ep_url episode) = Some html ->
      no_document host html ->
      throws (Provider.findEpisodeServer host episode server)) /\
  (forall html,
      ~ no_document host html ->
      exists players, Provider.extractPlayersFromPage host html episode = Normal players) /\
  (forall html players,
      valid_episode episode ->
      Provider.fetchHtml host (ep_url episode) = Some html -> html <> "" ->
      Provider.extractPlayersFromPage host html episode = Normal players ->
      (throws (Provider.findEpisodeServer host episode server) <->
       unusable (chain players server)) /\
      (forall u, chain players server = Some u -> ~ contains u "about:blank" ->
                 exists result,
                   Provider.findEpisodeServer host episode server = Normal result /\
                   Q1N.server result = requested server /\
                   map vs_url (videoSources result) = [u])).
Proof.
  split; [|split; [|split; [|split]]].
  - intros Hinv. destruct (validateEpisodeData_invalid episode Hinv) as [e He].
    exists e. unfold Provider.findEpisodeServer. now rewrite He.
  - intros Hfetch. unfold Provider.findEpisodeServer, throws.
    destruct (Provider.validateEpisodeData episode) as [[]|e]; cbn [bind try_catch];
      [|eexists; reflexivity].
    destruct Hfetch as [-> | ->]; eexists; reflexivity.
  - intros html Hfetch Hdoc.
    apply (extractPlayersFromPage_throws host html episode) in Hdoc.
    destruct Hdoc as [e He].
    unfold Provider.findEpisodeServer, throws.
    destruct (Provider.validateEpisodeData episode) as [[]|e']; cbn [bind try_catch];
      [|eexists; reflexivity].
    rewrite Hfetch. destruct (negb (truthy html)); [eexists; reflexivity|].
    rewrite He. eexists; reflexivity.
  - intros html Hdoc.
    destruct (Provider.extractPlayersFromPage host html episode) as [players|e] eqn:He;
      [now exists players|].
    exfalso. apply Hdoc. apply (extractPlayersFromPage_throws host html episode).
    rewrite He. eexists; reflexivity.
  - intros html players Hvalid Hfetch Hne Hplayers.
    pose proof (extractPlayersFromPage_truthy _ _ _ _ Hplayers) as Hall.
    assert (Hrun : Provider.findEpisodeServer host episode server =
                   match chain players server with
                   | Some u =>
                       if includes u "about:blank"
                       then Throw "Nenhuma fonte de video encontrada na pagina"
                       else Normal (Provider.buildEpisodeServerResponse
                                      (Provider.selectedServer server) u)
                   | None => Throw "Nenhuma fonte de video encontrada na pagina"
                   end).
    { unfold Provider.findEpisodeServer.
      rewrite (validateEpisodeData_valid episode Hvalid), Hfetch. cbn [bind].
      replace (negb (truthy html)) with false by (destruct html; [contradiction | reflexivity]).
      rewrite Hplayers. cbn [bind]. rewrite (selectBestPlayer_chain players server Hall).
      destruct (chain players server) as [u|]; [|reflexivity].
      now destruct (includes u "about:blank"). }
    rewrite Hrun. unfold throws, unusable. split.
    + destruct (chain players server) as [u|];
        [|split; [intros _; exact I | intros _; eexists; reflexivity]].
      destruct (includes u "about:blank") eqn:Hb.
      * apply includes_iff in Hb. split; [intros _; exact Hb | intros _; eexists; reflexivity].
      * split; [intros [e He]; discriminate|].
        intros Hc. apply includes_iff in Hc. congruence.
    + intros u Hu Hclean. rewrite Hu.
      destruct (includes u "about:blank") eqn:Hb; [apply includes_iff in Hb; contradiction|].
      eexists. split; [reflexivity|]. split; [apply selectedServer_requested | reflexivity].
Qed.

(** On the host whose documents are empty a valid episode gets the
    fallback player of [chplay]; on the host whose [LoadDoc] throws the
    same episode makes the operation throw. *)
Lemma findEpisodeServer_selection_witness :
  (exists result,
    Provider.findEpisodeServer empty_document_host
      (MkEpisodeDetails "naruto-episodio-1" 1 "https://q1n.net/episodio/naruto-episodio-1/" "")
      "default" = Normal result /\
    Q1N.server result = "chplay" /\
    map vs_url (videoSources result) = ["https://q1n.net/player/chplay/naruto-episodio-1"]) /\
  throws (Provider.findEpisodeServer broken_document_host
            (MkEpisodeDetails "naruto-episodio-1" 1
               "https://q1n.net/episodio/naruto-episodio-1/" "")
            "default").
Proof.
  set (episode := MkEpisodeDetails "naruto-episodio-1" 1
                    "https://q1n.net/episodio/naruto-episodio-1/" "").
  split.
  - destruct (findEpisodeServer_selection empty_document_host episode "default")
      as [_ [_ [_ [_ H]]]].
    destruct (H "<html></html>"
                (Provider.createFallbackPlayers [] "naruto-episodio-1")) as [_ Hok].
    + split; vm_compute; discriminate.
    + reflexivity.
    + discriminate.
    + reflexivity.
    + apply (Hok "https://q1n.net/player/chplay/naruto-episodio-1").
      * reflexivity.
      * intros Hc. apply includes_iff in Hc. vm_compute in Hc. discriminate.
  - destruct (findEpisodeServer_selection broken_document_host episode "default")
      as [_ [_ [H _]]].
    apply (H "<html></html>"); [reflexivity|].
    left. eexists. reflexivity.
Defined.

(** C5 as stated fails: an episode without an id is refused by the guard
    although the address the chain selects in the player map of its page
    is present and clean. *)
Lemma findEpisodeServer_guard_counterexample :
  ~ throws_exactly_when_unusable empty_document_host
      (MkEpisodeDetails "" 1 "https://q1n.net/episodio/naruto-episodio-1/" "") "chplay".
Proof.
  intros H.
  specialize (H "<html></html>" (Provider.createFallbackPlayers [] "") eq_refl eq_refl).
  destruct H as [H _].
  assert (Hthrow : throws (Provider.findEpisodeServer empty_document_host
                             (MkEpisodeDetails "" 1
                                "https://q1n.net/episodio/naruto-episodio-1/" "")
                             "chplay"))
    by (eexists; vm_compute; reflexivity).
  apply H in Hthrow. apply includes_iff in Hthrow. vm_compute in Hthrow. discriminate.
Qed.

End Q1NPlayerFacts.
(** ** Failing requests *)

Section FetchFacts.
Import JS HostSpec.

Lemma attempts_fail (calls : BundledMangaLivre.Calls) (url : string) :
  request_fails calls 0 url -> request_fails calls 1 url ->
  BundledMangaLivre.Provider.fetchWithRetry calls url 0 = (None, 2%nat).
Proof.
  unfold request_fails, BundledMangaLivre.Provider.fetchWithRetry.
  cbn [BundledMangaLivre.Provider.attempts]. intros H0 H1.
  destruct (BundledMangaLivre.request calls 0 "GET" url) as [r0|e0];
    [rewrite H0; cbn [negb]|];
    (destruct (BundledMangaLivre.request calls 1 "GET" url) as [r1|e1];
     [rewrite H1; reflexivity | reflexivity]).
Qed.

(** C6 (amended).  When the address of the search page can be built and
    every request of that page is rejected or answered with a response that
    is not OK, the search returns the empty list and does not throw: the
    search of DarkMahou, of Q1N and of MangaLivre, each in its two or three
    versions, which ask once, except the search of MangaLivre with a second
    request, which asks twice; and the search of AnimesROLL, whatever the
    reading of JSON. *)
Theorem search_absorbs_fetch_failure :
  (forall host opts url,
      DarkMahou.Provider.searchURL opts = Normal url -> fetch_fails host url ->
      DarkMahou.Provider.search host opts = Normal []) /\
  (forall host opts encoded,
      encodeURIComponent
        (BundledDarkMahou.Provider.convertToPorguguese (DarkMahou.so_query opts)) =
        Normal encoded ->
      fetch_fails host (BundledDarkMahou.api ++ "/?s=" ++ encoded) ->
      BundledDarkMahou.Provider.search host opts = Normal []) /\
  (forall host opts url,
      Q1N.Provider.buildSearchUrl (Q1N.query opts) (Q1N.dub_ opts) = Normal url ->
      fetch_fails host url ->
      Q1N.Provider.search host opts = Normal []) /\
  (forall host opts url,
      Q1NRefactored.UrlBuilder.buildSearchUrl (Q1N.query opts) (Q1N.dub_ opts) = Normal url ->
      fetch_fails host url ->
      Q1NRefactored.Provider.search host opts = Normal [] /\
      BundledQ1N.Provider.search host opts = Normal []) /\
  (forall host opts url,
      MangaLivre.Provider.searchUrl opts = Normal url -> fetch_fails host url ->
      MangaLivre.Provider.search host opts = Normal []) /\
  (forall calls opts url,
      BundledMangaLivre.Provider.buildSearchUrl (trim (MangaLivre.query opts)) = Normal url ->
      request_fails calls 0 url -> request_fails calls 1 url ->
      BundledMangaLivre.Provider.search calls opts = Normal []) /\
  (forall readSearch host opts encoded,
      encodeURIComponent
        (if truthy (AnimesROLL.query opts) then AnimesROLL.query opts
         else AnimesROLL.or_else (AnimesROLL.romajiTitle (AnimesROLL.media opts))
                (AnimesROLL.or_else (AnimesROLL.englishTitle (AnimesROLL.media opts)) "")) =
        Normal encoded ->
      fetch_fails host (AnimesROLL.oldApiUrl ++ "/search?q=" ++ encoded) ->
      AnimesROLL.search readSearch host opts = Normal []).
Proof.
  unfold fetch_fails. repeat split.
  - intros host opts url Hurl H.
    unfold DarkMahou.Provider.search, DarkMahou.HTTPClient.fetchWithUserAgent.
    rewrite Hurl. cbn [bind].
    destruct (fetch host "GET" url) as [response|e];
      cbn [bind try_catch]; [|reflexivity].
    rewrite H. reflexivity.
  - intros host opts encoded Hurl H.
    unfold BundledDarkMahou.Provider.search. rewrite Hurl. cbn [bind].
    destruct (fetch host "GET" _) as [response|e]; cbn [bind try_catch]; [|reflexivity].
    rewrite H. reflexivity.
  - intros host opts url Hurl H.
    unfold Q1N.Provider.search, Q1N.Provider.fetchHtml.
    rewrite Hurl. cbn [bind].
    destruct (fetch host "GET" url) as [response|e]; [|reflexivity].
    rewrite H. reflexivity.
  - unfold Q1NRefactored.Provider.search, Q1NRefactored.HttpClient.fetchHtml.
    rewrite H. cbn [bind].
    destruct (fetch host "GET" url) as [response|e]; [|reflexivity].
    rewrite H0. reflexivity.
  - unfold BundledQ1N.Provider.search, BundledQ1N.HttpClient.fetchHtml.
    rewrite H. cbn [bind].
    destruct (fetch host "GET" url) as [response|e]; [|reflexivity].
    rewrite H0. reflexivity.
  - intros host opts url Hurl H.
    unfold MangaLivre.Provider.search.
    rewrite Hurl. cbn [bind].
    destruct (fetch host "GET" url) as [response|e]; cbn [bind try_catch]; [|reflexivity].
    rewrite H. reflexivity.
  - intros calls opts url Hurl H0 H1.
    unfold BundledMangaLivre.Provider.search.
    destruct (negb (truthy (trim (MangaLivre.query opts)))); [reflexivity|].
    rewrite Hurl. cbn [bind]. rewrite (attempts_fail calls url H0 H1). reflexivity.
  - intros readSearch host opts encoded Hurl H.
    unfold AnimesROLL.search. rewrite Hurl. cbn [bind].
    destruct (fetch host "GET" _) as [response|e]; cbn [bind try_catch]; [|reflexivity].
    rewrite H. reflexivity.
Qed.

(** A rejected request and a response 404 give the empty list, also when
    the page is asked twice, and when the query is taken from the title of
    the media. *)
Lemma search_absorbs_fetch_failure_witness :
  DarkMahou.Provider.search rejecting_host
    (DarkMahou.MkSearchOptions (DarkMahou.MkMedia None None) "naruto") = Normal [] /\
  BundledDarkMahou.Provider.search not_found_host
    (DarkMahou.MkSearchOptions (DarkMahou.MkMedia None None) "naruto") = Normal [] /\
  Q1N.Provider.search not_found_host (Q1N.MkSearchOptions "naruto" true) = Normal [] /\
  Q1NRefactored.Provider.search rejecting_host (Q1N.MkSearchOptions "naruto" false) =
    Normal [] /\
  BundledQ1N.Provider.search rejecting_host (Q1N.MkSearchOptions "naruto" false) =
    Normal [] /\
  MangaLivre.Provider.search rejecting_host (MangaLivre.MkQueryOptions "naruto") = Normal [] /\
  BundledMangaLivre.Provider.search (BundledMangaLivre.steady not_found_host)
    (MangaLivre.MkQueryOptions " naruto ") = Normal [] /\
  AnimesROLL.search (fun _ => Throw "SyntaxError") not_found_host
    (AnimesROLL.MkSearchOptions (AnimesROLL.MkMedia (Some "naruto") None) "" false) =
    Normal [].
Proof.
  destruct search_absorbs_fetch_failure as [H1 [H2 [H3 [H4 [H5 [H6 H7]]]]]].
  assert (H4' := H4 rejecting_host (Q1N.MkSearchOptions "naruto" false)
                    "https://q1n.net/?s=naruto" eq_refl I).
  split; [|split; [|split; [|split; [|split; [|split; [|split]]]]]].
  - eapply H1; [reflexivity | exact I].
  - eapply H2; [reflexivity | reflexivity].
  - eapply H3; [reflexivity | reflexivity].
  - exact (proj1 H4').
  - exact (proj2 H4').
  - eapply H5; [reflexivity | exact I].
  - eapply H6; [reflexivity | reflexivity | reflexivity].
  - eapply H7; [reflexivity | reflexivity].
Defined.

(** C6 as stated fails for the search that asks a second time: the first
    request of the search page is rejected, the second is answered, and the
    search returns the manga of the page. *)
Lemma search_second_request_counterexample : ~ failed_request_gives_nothing.
Proof.
  intros H.
  specialize (H second_time_calls (MangaLivre.MkQueryOptions "dandadan")
                "https://mangalivre.tv/?s=dandadan&post_type=wp-manga" eq_refl I).
  vm_compute in H. discriminate.
Qed.

End FetchFacts.
(** ** Repeated calls *)

Section FrameFacts.
Import JS Q1N.

Lemma IFRAME_AVISO_never_empty : never_empty true Q1NRefactored.IFRAME_AVISO.
Proof.
  unfold Q1NRefactored.IFRAME_AVISO. cbn [rseq]. apply literal_head_never_empty.
Qed.

Lemma IFRAME_DIRECT_never_empty : never_empty true Q1NRefactored.IFRAME_DIRECT.
Proof.
  unfold Q1NRefactored.IFRAME_DIRECT. cbn [rseq]. apply literal_head_never_empty.
Qed.

(** From the patterns at rest the two loops run over all the frames of the
    page and leave the patterns at rest. *)
Lemma shared_extractFromHtml_rest (host : Host) (html : string) (players : JsMap) :
  Q1NRefactored.Shared.PlayerExtractor.extractFromHtml host html players
    Q1NRefactored.Shared.at_rest =
  Some (Q1NRefactored.PlayerExtractor.extractFromHtml host html players, None,
        Q1NRefactored.Shared.at_rest).
Proof.
  unfold Q1NRefactored.Shared.PlayerExtractor.extractFromHtml,
    Q1NRefactored.PlayerExtractor.extractFromHtml, Q1NRefactored.Shared.at_rest.
  cbn [Q1NRefactored.Shared.aviso_lastIndex Q1NRefactored.Shared.direct_lastIndex].
  change (Q1NRefactored.Shared.PlayerExtractor.avisoTurn host)
    with (fun (m : rmatch_result) (players : JsMap) =>
            ((fun players m =>
                let iframeSrc := group_text 1 m in
                match Q1NRefactored.PlayerExtractor.processAvisoPage host iframeSrc with
                | Some realUrl =>
                    if truthy realUrl
                    then Q1NRefactored.PlayerExtractor.mapPlayerByUrl players realUrl
                    else players
                | None => players
                end) players m, @None string)).
  rewrite (exec_loop_all true _ IFRAME_AVISO_never_empty).
  change Q1NRefactored.Shared.PlayerExtractor.directTurn
    with (fun (m : rmatch_result) (players : JsMap) =>
            ((fun players m =>
                Q1NRefactored.PlayerExtractor.mapPlayerByUrl players (group_text 1 m))
               players m, @None string)).
  rewrite (exec_loop_all true _ IFRAME_DIRECT_never_empty).
  reflexivity.
Qed.

(** The operation run on the shared patterns at rest gives what the
    operation gives as a function of the page, and leaves them at rest. *)
Lemma shared_findEpisodeServer_rest (host : Host) (episode : EpisodeDetails)
      (server : string) :
  Q1NRefactored.Shared.Provider.findEpisodeServer host episode server
    Q1NRefactored.Shared.at_rest =
  Some (Q1NRefactored.Provider.findEpisodeServer host episode server,
        Q1NRefactored.Shared.at_rest).
Proof.
  unfold Q1NRefactored.Shared.Provider.findEpisodeServer,
    Q1NRefactored.Provider.findEpisodeServer, Q1NRefactored.Validator.validateEpisodeData.
  destruct (Q1N.Provider.validateEpisodeData episode) as [[]|e]; cbn [bind try_catch];
    [|reflexivity].
  destruct (Q1NRefactored.HttpClient.fetchHtml host (ep_url episode)) as [html|];
    [|reflexivity].
  destruct (negb (truthy html)); [reflexivity|].
  unfold Q1NRefactored.Shared.PlayerExtractor.extractFromPage,
    Q1NRefactored.PlayerExtractor.extractFromPage.
  rewrite shared_extractFromHtml_rest.
  destruct (PlayerSelector.selectBest _ _); reflexivity.
Qed.

(** The operation on the frames ends, whatever the state of the patterns. *)
Lemma bundled_findEpisodeServer_total
      (extractVideoUrl : Host -> string -> option string) (host : Host)
      (episode : EpisodeDetails) (server : string) (patterns : BundledQ1N.Patterns) :
  exists result,
    BundledQ1N.Provider.findEpisodeServer extractVideoUrl host episode server patterns =
    Some result.
Proof.
  unfold BundledQ1N.Provider.findEpisodeServer.
  destruct (Q1NRefactored.Validator.validateEpisodeData episode) as [[]|e];
    [|eexists; reflexivity].
  destruct (BundledQ1N.HttpClient.fetchHtml host (ep_url episode)) as [html|];
    [|eexists; reflexivity].
  destruct (negb (truthy html)); [eexists; reflexivity|].
  unfold BundledQ1N.PlayerExtractor.extractFromPage,
    BundledQ1N.PlayerExtractor.extractFromHtml.
  destruct (exec_loop_total true BundledQ1N.IFRAME_AVISO IFRAME_AVISO_never_empty html
              (BundledQ1N.PlayerExtractor.avisoTurn extractVideoUrl host)
              (S (String.length html)) (BundledQ1N.aviso_lastIndex patterns) [])
    as [[[players [error|]] i] ->]; [lia | eexists; reflexivity |].
  destruct (exec_loop_total true BundledQ1N.IFRAME_DIRECT IFRAME_DIRECT_never_empty html
              BundledQ1N.PlayerExtractor.directTurn
              (S (String.length html)) (BundledQ1N.direct_lastIndex patterns) players)
    as [[[players' [error|]] j] ->]; [lia | eexists; reflexivity | eexists; reflexivity].
Qed.

(** The patterns of DarkMahou that are declared once with the flag [g]
    are read by [match] and [replace] only, which leave them at rest. *)
Lemma darkmahou_patterns_rest :
  HostSpec.left_at_rest true DarkMahou.Provider.MAGNET_LINK /\
  HostSpec.left_at_rest false DarkMahou.EPISODE_NUMBER /\
  HostSpec.left_at_rest true DarkMahou.PortugueseTranslator.SEASON_ORDINAL /\
  HostSpec.left_at_rest true DarkMahou.PortugueseTranslator.SEASON_NUMBER.
Proof.
  repeat split; intros s; apply exec_loop_matches; apply min_len_never_empty;
    cbv; lia.
Qed.

End FrameFacts.

Section DeterminismFacts.
Import JS HostSpec.

Variables h1 h2 : Host.
Hypothesis Hsame : same_responses h1 h2.

Let Hfetch : forall method url, fetch h1 method url = fetch h2 method url := proj1 Hsame.
Let Hdoc : forall html, LoadDoc h1 html = LoadDoc h2 html := proj1 (proj2 Hsame).
Let Hdecode : forall s, decodeURIComponent h1 s = decodeURIComponent h2 s :=
  proj2 (proj2 Hsame).

Lemma fetchWithUserAgent_same (url : string) :
  DarkMahou.HTTPClient.fetchWithUserAgent h1 url =
  DarkMahou.HTTPClient.fetchWithUserAgent h2 url.
Proof. unfold DarkMahou.HTTPClient.fetchWithUserAgent. now rewrite Hfetch. Qed.

Lemma extractTorrentNameFromMagnet_same (magnetLink : string) (n : nat) :
  DarkMahou.Provider.extractTorrentNameFromMagnet h1 magnetLink n =
  DarkMahou.Provider.extractTorrentNameFromMagnet h2 magnetLink n.
Proof.
  unfold DarkMahou.Provider.extractTorrentNameFromMagnet.
  destruct (js_match false DarkMahou.Provider.DISPLAY_NAME magnetLink); [|reflexivity].
  now rewrite Hdecode.
Qed.

Lemma extractTorrentName_same (magnetLink : string) (n : nat) :
  BundledDarkMahou.Provider.extractTorrentName h1 magnetLink n =
  BundledDarkMahou.Provider.extractTorrentName h2 magnetLink n.
Proof.
  unfold BundledDarkMahou.Provider.extractTorrentName.
  destruct (js_match false DarkMahou.Provider.DISPLAY_NAME magnetLink); [|reflexivity].
  now rewrite Hdecode.
Qed.

Section Clock.

Hypothesis Hnow : forall n, now h1 n = now h2 n.

Lemma created_same (makers : list (string -> DarkMahou.AnimeTorrent)) : forall n,
  DarkMahou.Provider.created (now h1) n makers = DarkMahou.Provider.created (now h2) n makers.
Proof.
  induction makers as [|make more IH]; intros n; simpl; [reflexivity|].
  now rewrite Hnow, IH.
Qed.

Lemma parseWithLoadDoc_same (html pageURL : string) :
  DarkMahou.Provider.parseWithLoadDoc h1 html pageURL =
  DarkMahou.Provider.parseWithLoadDoc h2 html pageURL.
Proof.
  unfold DarkMahou.Provider.parseWithLoadDoc. rewrite Hdoc.
  destruct (LoadDoc h2 html) as [[doc|]|]; try reflexivity.
  apply created_same.
Qed.

Lemma parseWithRegexFallback_same (html pageURL : string) :
  DarkMahou.Provider.parseWithRegexFallback h1 html pageURL =
  DarkMahou.Provider.parseWithRegexFallback h2 html pageURL.
Proof.
  unfold DarkMahou.Provider.parseWithRegexFallback. rewrite created_same. f_equal.
  apply map_ext. intros [index magnetLink].
  now rewrite extractTorrentNameFromMagnet_same.
Qed.

Lemma parseTorrentsFromHTML_same (html pageURL : string) :
  DarkMahou.Provider.parseTorrentsFromHTML h1 html pageURL =
  DarkMahou.Provider.parseTorrentsFromHTML h2 html pageURL.
Proof.
  unfold DarkMahou.Provider.parseTorrentsFromHTML.
  now rewrite parseWithLoadDoc_same, parseWithRegexFallback_same.
Qed.

Lemma darkmahou_search_same (opts : DarkMahou.AnimeSearchOptions) :
  DarkMahou.Provider.search h1 opts = DarkMahou.Provider.search h2 opts.
Proof.
  unfold DarkMahou.Provider.search, DarkMahou.Provider.fetchTorrentsFromAnimePage.
  destruct (DarkMahou.Provider.searchURL opts) as [url|]; cbn [bind]; [|reflexivity].
  rewrite fetchWithUserAgent_same.
  destruct (DarkMahou.HTTPClient.fetchWithUserAgent h2 _) as [[data|]|]; cbn [bind];
    try reflexivity.
  destruct (negb _); [reflexivity|].
  rewrite fetchWithUserAgent_same.
  destruct (DarkMahou.HTTPClient.fetchWithUserAgent h2 _) as [[page|]|]; cbn [bind];
    try reflexivity.
  now rewrite parseTorrentsFromHTML_same.
Qed.

Lemma darkmahou_smartSearch_same (opts : DarkMahou.AnimeSmartSearchOptions) :
  DarkMahou.Provider.smartSearch h1 opts = DarkMahou.Provider.smartSearch h2 opts.
Proof. unfold DarkMahou.Provider.smartSearch. now rewrite darkmahou_search_same. Qed.

Lemma bundled_created_same (makers : list (string -> BundledDarkMahou.AnimeTorrent)) :
  forall n,
    BundledDarkMahou.Provider.created (now h1) n makers =
    BundledDarkMahou.Provider.created (now h2) n makers.
Proof.
  induction makers as [|make more IH]; intros n; simpl; [reflexivity|].
  now rewrite Hnow, IH.
Qed.

Lemma bundled_parseWithRegexFallback_same (html pageURL : string) :
  BundledDarkMahou.Provider.parseWithRegexFallback h1 html pageURL =
  BundledDarkMahou.Provider.parseWithRegexFallback h2 html pageURL.
Proof.
  unfold BundledDarkMahou.Provider.parseWithRegexFallback.
  rewrite bundled_created_same. f_equal.
  apply map_ext. intros [index magnetLink].
  now rewrite extractTorrentName_same.
Qed.

Lemma bundled_parseTorrentsFromHTML_same (html pageURL : string) :
  BundledDarkMahou.Provider.parseTorrentsFromHTML h1 html pageURL =
  BundledDarkMahou.Provider.parseTorrentsFromHTML h2 html pageURL.
Proof.
  unfold BundledDarkMahou.Provider.parseTorrentsFromHTML. rewrite Hdoc.
  destruct (LoadDoc h2 html) as [[doc|]|];
    try apply bundled_parseWithRegexFallback_same.
  rewrite bundled_created_same, bundled_parseWithRegexFallback_same. reflexivity.
Qed.

Lemma bundled_darkmahou_search_same (opts : DarkMahou.AnimeSearchOptions) :
  BundledDarkMahou.Provider.search h1 opts = BundledDarkMahou.Provider.search h2 opts.
Proof.
  unfold BundledDarkMahou.Provider.search, BundledDarkMahou.Provider.fetchTorrentsFromAnimePage.
  destruct (encodeURIComponent _) as [encoded|]; cbn [bind]; [|reflexivity].
  rewrite Hfetch.
  destruct (fetch h2 "GET" _) as [response|]; cbn [bind]; [|reflexivity].
  destruct (negb (ok response)); [reflexivity|].
  destruct (negb (truthy _)); [reflexivity|].
  rewrite Hfetch.
  destruct (fetch h2 "GET" _) as [page|]; [|reflexivity].
  destruct (negb (ok page)); [reflexivity|].
  now rewrite bundled_parseTorrentsFromHTML_same.
Qed.

Lemma bundled_darkmahou_smartSearch_same (opts : BundledDarkMahou.AnimeSmartSearchOptions) :
  BundledDarkMahou.Provider.smartSearch h1 opts =
  BundledDarkMahou.Provider.smartSearch h2 opts.
Proof.
  unfold BundledDarkMahou.Provider.smartSearch.
  now rewrite bundled_darkmahou_search_same.
Qed.

End Clock.

Lemma q1n_fetchHtml_same (url : string) :
  Q1N.Provider.fetchHtml h1 url = Q1N.Provider.fetchHtml h2 url.
Proof. unfold Q1N.Provider.fetchHtml. now rewrite Hfetch. Qed.

Lemma refactored_fetchHtml_same (url : string) :
  Q1NRefactored.HttpClient.fetchHtml h1 url = Q1NRefactored.HttpClient.fetchHtml h2 url.
Proof. unfold Q1NRefactored.HttpClient.fetchHtml. now rewrite Hfetch. Qed.

Lemma bundled_fetchHtml_same (url : string) :
  BundledQ1N.HttpClient.fetchHtml h1 url = BundledQ1N.HttpClient.fetchHtml h2 url.
Proof. unfold BundledQ1N.HttpClient.fetchHtml. now rewrite Hfetch. Qed.

Lemma q1n_loadDocument_same (html : string) :
  Q1N.Provider.loadDocument h1 html = Q1N.Provider.loadDocument h2 html.
Proof. unfold Q1N.Provider.loadDocument. now rewrite Hdoc. Qed.

Lemma mangalivre_loadDocument_same (html : string) :
  MangaLivre.loadDocument h1 html = MangaLivre.loadDocument h2 html.
Proof. unfold MangaLivre.loadDocument. now rewrite Hdoc. Qed.

Lemma scanEpisodePages_same (animeSlug : string) (remaining : nat) : forall i,
  Q1N.Provider.scanEpisodePages h1 animeSlug i remaining =
  Q1N.Provider.scanEpisodePages h2 animeSlug i remaining.
Proof.
  induction remaining as [|remaining IH]; intros i; simpl; [reflexivity|].
  now rewrite Hfetch, !IH.
Qed.

(** Replace what the first host gives by what the second gives, then
    split on the next thing the code inspects. *)
Ltac same_step :=
  first
    [ reflexivity
    | rewrite Hfetch
    | rewrite q1n_loadDocument_same
    | rewrite mangalivre_loadDocument_same
    | rewrite scanEpisodePages_same
    | match goal with
      | |- context [match ?x with _ => _ end] =>
          lazymatch x with
          | context [h1] => fail
          | _ => destruct x; cbn [bind try_catch]
          end
      end ].

Lemma q1n_search_same (opts : Q1N.SearchOptions) :
  Q1N.Provider.search h1 opts = Q1N.Provider.search h2 opts.
Proof.
  unfold Q1N.Provider.search, Q1N.Provider.parseSearchResults, Q1N.Provider.fetchHtml.
  destruct (Q1N.Provider.buildSearchUrl _ _) as [url|]; cbn [bind]; [|reflexivity].
  repeat same_step.
Qed.

Lemma q1n_findEpisodes_same (id : string) :
  Q1N.Provider.findEpisodes h1 id = Q1N.Provider.findEpisodes h2 id.
Proof.
  unfold Q1N.Provider.findEpisodes, Q1N.Provider.findEpisodesFromEpisodePages,
    Q1N.Provider.parseEpisodesFromAnimePage, Q1N.Provider.fetchHtml.
  repeat same_step.
Qed.

Lemma q1n_findEpisodeServer_same (episode : Q1N.EpisodeDetails) (server : string) :
  Q1N.Provider.findEpisodeServer h1 episode server =
  Q1N.Provider.findEpisodeServer h2 episode server.
Proof.
  unfold Q1N.Provider.findEpisodeServer, Q1N.Provider.extractPlayersFromPage,
    Q1N.Provider.fetchHtml.
  repeat same_step.
Qed.

Lemma refactored_search_same (opts : Q1N.SearchOptions) :
  Q1NRefactored.Provider.search h1 opts = Q1NRefactored.Provider.search h2 opts.
Proof.
  unfold Q1NRefactored.Provider.search, Q1N.SearchParser.parseResults,
    Q1NRefactored.HttpClient.fetchHtml.
  destruct (Q1NRefactored.UrlBuilder.buildSearchUrl _ _) as [url|]; cbn [bind];
    [|reflexivity].
  repeat same_step.
Qed.

Lemma refactored_findEpisodes_same (id : string) :
  Q1NRefactored.Provider.findEpisodes h1 id = Q1NRefactored.Provider.findEpisodes h2 id.
Proof.
  unfold Q1NRefactored.Provider.findEpisodes,
    Q1NRefactored.EpisodeFinder.findFromEpisodePages,
    Q1NRefactored.EpisodeParser.parseFromAnimePage,
    Q1N.Provider.findEpisodesFromEpisodePages, Q1N.Provider.parseEpisodesFromAnimePage,
    Q1NRefactored.HttpClient.fetchHtml.
  repeat same_step.
Qed.

Lemma processAvisoPage_same (avisoUrl : string) :
  Q1NRefactored.PlayerExtractor.processAvisoPage h1 avisoUrl =
  Q1NRefactored.PlayerExtractor.processAvisoPage h2 avisoUrl.
Proof.
  unfold Q1NRefactored.PlayerExtractor.processAvisoPage.
  rewrite refactored_fetchHtml_same.
  destruct (Q1NRefactored.HttpClient.fetchHtml h2 avisoUrl) as [avisoHtml|]; [|reflexivity].
  destruct (negb (truthy avisoHtml)); [reflexivity|].
  destruct (js_match false Q1NRefactored.URL_PARAM avisoUrl); [|reflexivity].
  now rewrite Hdecode.
Qed.

Lemma fold_left_same {A B : Type} (f g : A -> B -> A) (l : list B) :
  (forall a b, f a b = g a b) -> forall init, fold_left f l init = fold_left g l init.
Proof.
  intros Hfg. induction l as [|x l IH]; intros init; simpl; [reflexivity|].
  now rewrite Hfg, IH.
Qed.

Lemma refactored_findEpisodeServer_same (episode : Q1N.EpisodeDetails) (server : string) :
  Q1NRefactored.Provider.findEpisodeServer h1 episode server =
  Q1NRefactored.Provider.findEpisodeServer h2 episode server.
Proof.
  unfold Q1NRefactored.Provider.findEpisodeServer.
  rewrite refactored_fetchHtml_same.
  destruct (Q1N.Provider.validateEpisodeData episode); cbn [bind try_catch]; [|reflexivity].
  destruct (Q1NRefactored.HttpClient.fetchHtml h2 _) as [html|]; [|reflexivity].
  destruct (negb (truthy html)); [reflexivity|].
  unfold Q1NRefactored.PlayerExtractor.extractFromPage,
    Q1NRefactored.PlayerExtractor.extractFromHtml.
  rewrite (fold_left_same
             (fun players m =>
                let iframeSrc := group_text 1 m in
                match Q1NRefactored.PlayerExtractor.processAvisoPage h1 iframeSrc with
                | Some realUrl =>
                    if truthy realUrl
                    then Q1NRefactored.PlayerExtractor.mapPlayerByUrl players realUrl
                    else players
                | None => players
                end)
             (fun players m =>
                let iframeSrc := group_text 1 m in
                match Q1NRefactored.PlayerExtractor.processAvisoPage h2 iframeSrc with
                | Some realUrl =>
                    if truthy realUrl
                    then Q1NRefactored.PlayerExtractor.mapPlayerByUrl players realUrl
                    else players
                | None => players
                end)).
  - reflexivity.
  - intros players m. cbn zeta. now rewrite processAvisoPage_same.
Qed.

Lemma bundled_q1n_search_same (opts : Q1N.SearchOptions) :
  BundledQ1N.Provider.search h1 opts = BundledQ1N.Provider.search h2 opts.
Proof.
  unfold BundledQ1N.Provider.search, Q1N.SearchParser.parseResults,
    BundledQ1N.HttpClient.fetchHtml.
  destruct (Q1NRefactored.UrlBuilder.buildSearchUrl _ _) as [url|]; cbn [bind];
    [|reflexivity].
  repeat same_step.
Qed.

Lemma bundled_q1n_findEpisodes_same (id : string) :
  BundledQ1N.Provider.findEpisodes h1 id = BundledQ1N.Provider.findEpisodes h2 id.
Proof.
  unfold BundledQ1N.Provider.findEpisodes,
    Q1NRefactored.EpisodeFinder.findFromEpisodePages,
    Q1NRefactored.EpisodeParser.parseFromAnimePage,
    Q1N.Provider.findEpisodesFromEpisodePages, Q1N.Provider.parseEpisodesFromAnimePage,
    BundledQ1N.HttpClient.fetchHtml.
  repeat same_step.
Qed.

Lemma exec_loop_same {A : Type} (ic : bool) (r : regex) (s : string)
      (body1 body2 : rmatch_result -> A -> A * option string) :
  (forall m acc, body1 m acc = body2 m acc) ->
  forall fuel i acc,
    exec_loop fuel ic r s body1 i acc = exec_loop fuel ic r s body2 i acc.
Proof.
  intros Hbody. induction fuel as [|fuel IH]; intros i acc; [reflexivity|].
  cbn [exec_loop]. destruct (exec ic r s i) as [[m|] e]; [|reflexivity].
  rewrite Hbody. destruct (body2 m acc) as [acc' [error|]]; [reflexivity | apply IH].
Qed.

(** With the same responses, the same addresses of videos and the same
    state of the patterns, the operation on the frames gives the same
    result and leaves the same state. *)
Lemma bundled_q1n_findEpisodeServer_same
      (extractVideoUrl : Host -> string -> option string)
      (episode : Q1N.EpisodeDetails) (server : string) (patterns : BundledQ1N.Patterns) :
  (forall url, extractVideoUrl h1 url = extractVideoUrl h2 url) ->
  BundledQ1N.Provider.findEpisodeServer extractVideoUrl h1 episode server patterns =
  BundledQ1N.Provider.findEpisodeServer extractVideoUrl h2 episode server patterns.
Proof.
  intros Hextract. unfold BundledQ1N.Provider.findEpisodeServer.
  rewrite bundled_fetchHtml_same.
  destruct (Q1NRefactored.Validator.validateEpisodeData episode); [|reflexivity].
  destruct (BundledQ1N.HttpClient.fetchHtml h2 _) as [html|]; [|reflexivity].
  destruct (negb (truthy html)); [reflexivity|].
  unfold BundledQ1N.PlayerExtractor.extractFromPage,
    BundledQ1N.PlayerExtractor.extractFromHtml.
  rewrite (exec_loop_same true BundledQ1N.IFRAME_AVISO html
             (BundledQ1N.PlayerExtractor.avisoTurn extractVideoUrl h1)
             (BundledQ1N.PlayerExtractor.avisoTurn extractVideoUrl h2)).
  - reflexivity.
  - intros m acc. unfold BundledQ1N.PlayerExtractor.avisoTurn. cbn zeta.
    destruct (js_match false BundledQ1N.URL_PARAM (group_text 1 m)); [|reflexivity].
    rewrite Hdecode.
    destruct (decodeURIComponent h2 _) as [playerUrl|]; [|reflexivity].
    now rewrite Hextract.
Qed.

Lemma mangalivre_search_same (opts : MangaLivre.QueryOptions) :
  MangaLivre.Provider.search h1 opts = MangaLivre.Provider.search h2 opts.
Proof.
  unfold MangaLivre.Provider.search.
  destruct (MangaLivre.Provider.searchUrl opts) as [url|]; cbn [bind]; [|reflexivity].
  unfold bind, try_catch. repeat same_step.
Qed.

Lemma mangalivre_findChapters_same (mangaId : string) :
  MangaLivre.Provider.findChapters h1 mangaId = MangaLivre.Provider.findChapters h2 mangaId.
Proof. unfold MangaLivre.Provider.findChapters, bind, try_catch. repeat same_step. Qed.

Lemma mangalivre_findChapterPages_same (chapterId : string) :
  MangaLivre.Provider.findChapterPages h1 chapterId =
  MangaLivre.Provider.findChapterPages h2 chapterId.
Proof.
  unfold MangaLivre.Provider.findChapterPages, bind, try_catch. repeat same_step.
Qed.

Lemma animesroll_search_same (readSearch : string -> completion AnimesROLL.SearchResultsDto)
      (opts : AnimesROLL.SearchOptions) :
  AnimesROLL.search readSearch h1 opts = AnimesROLL.search readSearch h2 opts.
Proof.
  unfold AnimesROLL.search.
  destruct (encodeURIComponent _) as [encoded|]; cbn [bind]; [|reflexivity].
  now rewrite Hfetch.
Qed.

Lemma fetchAllEpisodes_same (readEpisodes : string -> completion AnimesROLL.EpisodeListDto)
      (animeId : string) (fuel : nat) : forall page,
  AnimesROLL.fetchAllEpisodes readEpisodes fuel h1 animeId page =
  AnimesROLL.fetchAllEpisodes readEpisodes fuel h2 animeId page.
Proof.
  induction fuel as [|fuel IH]; intros page; [reflexivity|].
  cbn [AnimesROLL.fetchAllEpisodes]. now rewrite Hfetch, IH.
Qed.

Lemma animesroll_findEpisodes_same
      (parseNextData : string -> completion AnimesROLL.PageData)
      (readEpisodes : string -> completion AnimesROLL.EpisodeListDto)
      (fuel : nat) (id : string) :
  AnimesROLL.findEpisodes parseNextData readEpisodes fuel h1 id =
  AnimesROLL.findEpisodes parseNextData readEpisodes fuel h2 id.
Proof.
  unfold AnimesROLL.findEpisodes. rewrite Hfetch.
  destruct (fetch h2 "GET" _) as [response|]; [|reflexivity].
  destruct (negb (ok response)); [reflexivity|].
  destruct (parseNextData (body response)) as [animeData|]; [|reflexivity].
  destruct (startsWith id "f/"); [reflexivity|].
  now rewrite fetchAllEpisodes_same.
Qed.

End DeterminismFacts.

Section CallsFacts.
Import JS HostSpec.

Variables c1 c2 : BundledMangaLivre.Calls.
Hypothesis Hsame : same_calls c1 c2.

Let Hrequest : forall n method url,
    BundledMangaLivre.request c1 n method url = BundledMangaLivre.request c2 n method url :=
  proj1 Hsame.
Let Hload : forall html, BundledMangaLivre.load c1 html = BundledMangaLivre.load c2 html :=
  proj2 Hsame.

Lemma attempts_same (url : string) (left : nat) : forall n,
  BundledMangaLivre.Provider.attempts c1 url left n =
  BundledMangaLivre.Provider.attempts c2 url left n.
Proof.
  induction left as [|left IH]; intros n; [reflexivity|].
  cbn [BundledMangaLivre.Provider.attempts]. now rewrite Hrequest, IH.
Qed.

Lemma bundled_loadDocument_same (html : string) :
  BundledMangaLivre.loadDocument c1 html = BundledMangaLivre.loadDocument c2 html.
Proof. unfold BundledMangaLivre.loadDocument. now rewrite Hload. Qed.

Lemma bundled_mangalivre_search_same (opts : MangaLivre.QueryOptions) :
  BundledMangaLivre.Provider.search c1 opts = BundledMangaLivre.Provider.search c2 opts.
Proof.
  unfold BundledMangaLivre.Provider.search, BundledMangaLivre.Provider.fetchWithRetry.
  destruct (negb _); [reflexivity|].
  destruct (BundledMangaLivre.Provider.buildSearchUrl _) as [url|]; cbn [bind];
    [|reflexivity].
  rewrite attempts_same.
  destruct (BundledMangaLivre.Provider.attempts c2 url 2 0) as [[response|] n];
    [|reflexivity].
  now rewrite bundled_loadDocument_same.
Qed.

Lemma fetchChaptersViaAjax_same (mangaId : string) (n : nat) :
  BundledMangaLivre.Provider.fetchChaptersViaAjax c1 mangaId n =
  BundledMangaLivre.Provider.fetchChaptersViaAjax c2 mangaId n.
Proof.
  unfold BundledMangaLivre.Provider.fetchChaptersViaAjax. rewrite Hrequest.
  destruct (BundledMangaLivre.request c2 n "POST" _) as [response|]; [|reflexivity].
  destruct (ok response); [|reflexivity].
  now rewrite bundled_loadDocument_same.
Qed.

Lemma bundled_mangalivre_findChapters_same (mangaId : string) :
  BundledMangaLivre.Provider.findChapters c1 mangaId =
  BundledMangaLivre.Provider.findChapters c2 mangaId.
Proof.
  unfold BundledMangaLivre.Provider.findChapters, BundledMangaLivre.Provider.fetchWithRetry.
  destruct (negb _); [reflexivity|].
  rewrite attempts_same.
  destruct (BundledMangaLivre.Provider.attempts c2 _ 2 0) as [[response|] n];
    [|reflexivity].
  rewrite fetchChaptersViaAjax_same.
  destruct (BundledMangaLivre.Provider.fetchChaptersViaAjax c2 mangaId n); [|reflexivity].
  now rewrite bundled_loadDocument_same.
Qed.

Lemma bundled_mangalivre_findChapterPages_same (chapterId : string) :
  BundledMangaLivre.Provider.findChapterPages c1 chapterId =
  BundledMangaLivre.Provider.findChapterPages c2 chapterId.
Proof.
  unfold BundledMangaLivre.Provider.findChapterPages,
    BundledMangaLivre.Provider.fetchWithRetry.
  destruct (negb _); [reflexivity|].
  rewrite attempts_same.
  destruct (BundledMangaLivre.Provider.attempts c2 _ 2 0) as [[response|] n];
    [|reflexivity].
  now rewrite bundled_loadDocument_same.
Qed.

End CallsFacts.

Section Determinism.
Import JS HostSpec.

(** The two calls on the page of two frames, whatever [extractVideoUrl]
    gives.  The first call meets the frame of the warning page, whose
    parameter cannot be decoded: the error leaves the loop, the players are
    the fallback ones, and [lastIndex] of the pattern stays at the end of
    that frame.  The second call starts its search behind that frame: it
    finds the frame of the player only, returns its address, and leaves the
    patterns at rest. *)
Lemma frames_two_calls (extractVideoUrl : Host -> string -> option string) :
  exists first after second,
    BundledQ1N.Provider.findEpisodeServer extractVideoUrl frames_host frames_episode
      "default" BundledQ1N.at_rest = Some (Normal first, after) /\
    BundledQ1N.Provider.findEpisodeServer extractVideoUrl frames_host frames_episode
      "default" after = Some (Normal second, BundledQ1N.at_rest) /\
    after = BundledQ1N.MkPatterns 43 0 /\
    map Q1N.vs_url (Q1N.videoSources first) =
      ["https://q1n.net/player/chplay/naruto-episodio-1"] /\
    map Q1N.vs_url (Q1N.videoSources second) = ["https://www.youtube.com/embed/abc"].
Proof.
  eexists. eexists. eexists.
  split; [vm_compute; reflexivity|].
  split; [vm_compute; reflexivity|].
  split; [reflexivity|]. split; reflexivity.
Qed.

(** [createAnimeTorrent] stamps every torrent with the time of the clock,
    so two searches with the same arguments and the same responses, made at
    different times, return different lists. *)
Lemma search_reads_clock : ~ search_determined_by_responses.
Proof.
  intros H.
  specialize (H (SmartSearchSpec.example_host (fun _ => "2024-01-01T00:00:00.000Z"))
                (SmartSearchSpec.example_host (fun _ => "2025-06-30T12:00:00.000Z"))
                (DarkMahou.MkSearchOptions (DarkMahou.MkMedia None None) "naruto")).
  assert (Hresp : same_responses
                    (SmartSearchSpec.example_host (fun _ => "2024-01-01T00:00:00.000Z"))
                    (SmartSearchSpec.example_host (fun _ => "2025-06-30T12:00:00.000Z")))
    by (repeat split; intros; reflexivity).
  specialize (H Hresp). vm_compute in H. discriminate.
Qed.




End Determinism.

(** ** MangaLivre: the order of the chapters *)

Section InsertionSort.
Import JS.
Variable A : Type.
Variable after : A -> A -> bool.
Variable le : A -> A -> Prop.
Variable ordered : A -> Prop.

(** On the elements in question the test of the sort agrees with the
    order: an element that does not go after another is at most it, and
    one that goes after it is at least it. *)
Hypothesis not_after_le : forall x y, ordered x -> ordered y -> after x y = false -> le x y.
Hypothesis after_ge : forall x y, ordered x -> ordered y -> after x y = true -> le y x.

Lemma insert_sorted_hd (x y : A) (l : list A) :
  ordered x -> ordered y -> Forall ordered l ->
  le y x -> HdRel le y l -> HdRel le y (insert_sorted after x l).
Proof.
  intros Hx Hy Hl Hyx Hhd. destruct l as [|z l]; simpl; [now constructor|].
  destruct (after x z); constructor; [now inversion Hhd | exact Hyx].
Qed.

Lemma insert_sorted_Sorted (x : A) (l : list A) :
  ordered x -> Forall ordered l -> Sorted le l -> Sorted le (insert_sorted after x l).
Proof.
  intros Hx Hall Hs. induction l as [|y l IH]; simpl.
  - repeat constructor.
  - inversion Hall; subst. inversion Hs; subst.
    destruct (after x y) eqn:Hxy.
    + constructor; [now apply IH|].
      apply insert_sorted_hd; auto.
    + constructor; [exact Hs|]. constructor. now apply not_after_le.
Qed.

Lemma insert_sorted_Forall (P : A -> Prop) (x : A) (l : list A) :
  P x -> Forall P l -> Forall P (insert_sorted after x l).
Proof.
  intros Hx Hl. induction Hl as [|y l Hy Hl IH]; simpl; [now repeat constructor|].
  destruct (after x y); constructor; auto.
Qed.

Lemma sort_Forall (P : A -> Prop) (l : list A) :
  Forall P l -> Forall P (sort after l).
Proof.
  induction 1 as [|x l Hx Hl IH]; [constructor|].
  change (sort after (x :: l)) with (insert_sorted after x (sort after l)).
  now apply insert_sorted_Forall.
Qed.

Lemma sort_Sorted (l : list A) : Forall ordered l -> Sorted le (sort after l).
Proof.
  induction 1 as [|x l Hx Hl IH]; [constructor|].
  change (sort after (x :: l)) with (insert_sorted after x (sort after l)).
  apply insert_sorted_Sorted; auto. now apply sort_Forall.
Qed.

End InsertionSort.

(** ** MangaLivre: the numbers [parseFloat] reads and their difference *)

Section Binary64.
Import JS MangaLivre ChapterSpec SpecFloat.
Open Scope Z_scope.

Lemma shr_1_m (mrs : shr_record) :
  0 <= shr_m mrs -> shr_m (shr_1 mrs) = shr_m mrs / 2.
Proof.
  destruct mrs as [m r s]. cbn [shr_m]. intros Hm.
  destruct m as [|[p|p|]|p]; cbn [shr_1 shr_m]; try reflexivity; try lia.
  - rewrite Pos2Z.inj_xI. apply (Z.div_unique _ _ _ 1); lia.
  - rewrite Pos2Z.inj_xO. apply (Z.div_unique _ _ _ 0); lia.
Qed.

Lemma shr_iter_m (p : positive) : forall mrs,
  0 <= shr_m mrs -> shr_m (iter_pos shr_1 p mrs) = shr_m mrs / 2 ^ Zpos p.
Proof.
  induction p as [p IH|p IH|]; intros mrs Hm; cbn [iter_pos].
  - assert (H1 : 0 <= shr_m (shr_1 mrs)) by (rewrite shr_1_m by lia; apply Z.div_pos; lia).
    assert (H2 : 0 <= shr_m (iter_pos shr_1 p (shr_1 mrs)))
      by (rewrite IH by lia; apply Z.div_pos; lia).
    rewrite IH, IH, shr_1_m by lia.
    replace (Z.pos p~1) with (1 + Z.pos p + Z.pos p) by lia.
    rewrite !Z.pow_add_r by lia. change (2 ^ 1) with 2.
    rewrite !Z.div_div by lia. f_equal; ring.
  - assert (H2 : 0 <= shr_m (iter_pos shr_1 p mrs))
      by (rewrite IH by lia; apply Z.div_pos; lia).
    rewrite IH, IH by lia.
    replace (Z.pos p~0) with (Z.pos p + Z.pos p) by lia.
    rewrite !Z.pow_add_r by lia.
    rewrite !Z.div_div by lia. f_equal; ring.
  - rewrite shr_1_m by lia. reflexivity.
Qed.

Lemma digits2_pos_bound (m : positive) :
  2 ^ (Z.pos (digits2_pos m) - 1) <= Z.pos m.
Proof.
  induction m as [m IH|m IH|]; cbn [digits2_pos].
  - rewrite Pos2Z.inj_succ. replace (Z.succ (Z.pos (digits2_pos m)) - 1)
      with (1 + (Z.pos (digits2_pos m) - 1)) by lia.
    rewrite Z.pow_add_r by lia. change (2 ^ 1) with 2. lia.
  - rewrite Pos2Z.inj_succ. replace (Z.succ (Z.pos (digits2_pos m)) - 1)
      with (1 + (Z.pos (digits2_pos m) - 1)) by lia.
    rewrite Z.pow_add_r by lia. change (2 ^ 1) with 2. lia.
  - cbn. lia.
Qed.

Lemma emin_le_fexp (e : Z) : emin prec emax <= fexp prec emax e.
Proof. unfold fexp. apply Z.le_max_r. Qed.

(** One shift of the rounding keeps a mantissa that is not negative, never
    lowers the exponent, and keeps a positive mantissa positive. *)
Lemma shr_fexp_stage (m e : Z) (l : location) :
  0 <= m -> emin prec emax <= e ->
  0 <= shr_m (fst (shr_fexp prec emax m e l)) /\
  e <= snd (shr_fexp prec emax m e l) /\
  (0 < m -> 0 < shr_m (fst (shr_fexp prec emax m e l))).
Proof.
  intros Hm He. unfold shr_fexp, shr.
  assert (Hrec : shr_m (shr_record_of_loc m l) = m) by (destruct l as [|[]]; reflexivity).
  destruct (fexp prec emax (Zdigits2 m + e) - e) as [|p|p] eqn:Hn; cbn [fst snd];
    rewrite ?Hrec; try (repeat split; lia).
  rewrite shr_iter_m by lia. rewrite Hrec.
  split; [apply Z.div_pos; lia|]. split; [lia|].
  intros Hpos. destruct m as [|q|q]; try lia.
  cbn [Zdigits2] in Hn. unfold fexp in Hn.
  apply Z.div_str_pos. split; [lia|].
  pose proof (digits2_pos_bound q) as Hb.
  assert (Hp : Z.pos p = Z.pos (digits2_pos q) - prec) by lia.
  rewrite Hp. eapply Z.le_trans; [|exact Hb].
  apply Z.pow_le_mono_r; unfold prec; lia.
Qed.

Lemma round_nearest_even_ge (m : Z) (l : location) : m <= round_nearest_even m l.
Proof.
  unfold round_nearest_even.
  destruct l as [|[]]; try lia. destruct (Z.even m); lia.
Qed.

(** Rounding a mantissa that is not negative gives a number of the sign
    asked for, never [NaN], whose exponent is not below the least one; a
    positive mantissa does not give zero. *)
Lemma binary_round_aux_cases (s : bool) (m e : Z) (l : location) :
  0 <= m -> emin prec emax <= e ->
  has_sign s (binary_round_aux prec emax s m e l) /\
  well_scaled (binary_round_aux prec emax s m e l) /\
  (0 < m -> nonzero (binary_round_aux prec emax s m e l)).
Proof.
  intros Hm He. unfold binary_round_aux.
  pose proof (shr_fexp_stage m e l Hm He) as (H1 & H2 & H3).
  destruct (shr_fexp prec emax m e l) as [mrs' e'] eqn:Hs1. cbn [fst snd] in H1, H2, H3.
  pose proof (round_nearest_even_ge (shr_m mrs') (loc_of_shr_record mrs')) as Hr.
  set (m2 := round_nearest_even (shr_m mrs') (loc_of_shr_record mrs')) in *.
  assert (Hm2 : 0 <= m2) by lia. assert (He' : emin prec emax <= e') by lia.
  pose proof (shr_fexp_stage m2 e' loc_Exact Hm2 He') as (H4 & H5 & H6).
  destruct (shr_fexp prec emax m2 e' loc_Exact) as [mrs'' e''] eqn:Hs2. cbn [fst snd] in H4, H5, H6.
  destruct (shr_m mrs'') as [|q|q] eqn:Hq; cbn [has_sign well_scaled nonzero].
  - repeat split. intros Hpos. lia.
  - destruct (e'' <=? emax - prec); cbn [has_sign well_scaled nonzero]; repeat split; lia.
  - lia.
Qed.

Lemma iter_xO (d m : positive) : Z.pos (Pos.iter xO m d) = Z.pos m * 2 ^ Z.pos d.
Proof.
  induction d as [|d IH] using Pos.peano_ind.
  - cbn. lia.
  - rewrite Pos.iter_succ, Pos2Z.inj_xO, IH, Pos2Z.inj_succ, Z.pow_succ_r by lia. ring.
Qed.

(** The mantissa aligned to a smaller exponent. *)
Lemma shl_align_fst (m : positive) (ex e : Z) :
  e <= ex -> Z.pos (fst (shl_align m ex e)) = Z.pos m * 2 ^ (ex - e).
Proof.
  intros He. unfold shl_align. destruct (e - ex) as [|d|d] eqn:Hd; cbn [fst].
  - replace (ex - e) with 0 by lia. lia.
  - lia.
  - rewrite iter_xO. f_equal. f_equal. lia.
Qed.

Lemma shl_align_snd (m : positive) (ex e : Z) :
  emin prec emax <= ex -> emin prec emax <= e ->
  emin prec emax <= snd (shl_align m ex e).
Proof.
  intros Hx He. unfold shl_align. destruct (e - ex); cbn [snd]; assumption.
Qed.

Lemma binary_round_cases (s : bool) (m : positive) (e : Z) :
  emin prec emax <= e ->
  has_sign s (binary_round prec emax s m e) /\
  well_scaled (binary_round prec emax s m e) /\
  nonzero (binary_round prec emax s m e).
Proof.
  intros He. unfold binary_round.
  pose proof (shl_align_snd m e (fexp prec emax (Z.pos (digits2_pos m) + e)) He
                            (emin_le_fexp _)) as Hs.
  destruct (shl_align m e (fexp prec emax (Z.pos (digits2_pos m) + e))) as [mz ez].
  cbn [snd] in Hs.
  destruct (binary_round_aux_cases s (Z.pos mz) ez loc_Exact) as (H1 & H2 & H3); [lia|exact Hs|].
  repeat split; auto. apply H3. lia.
Qed.

(** With a positive zero on the left, [<] holds of the positive numbers. *)
Lemma zero_ltb (x : number) :
  SFltb (S754_zero false) x = true <-> (has_sign false x /\ nonzero x).
Proof.
  destruct x as [[]|[]| |[] m e]; cbn; split; try tauto; try discriminate;
    try (intros [H _]; discriminate); intros [_ []].
Qed.

(** The test of the sort is the negation of the order by exact value. *)
Lemma difference_positive_leb (a b : number) :
  a <> NaN -> b <> NaN -> well_scaled a -> well_scaled b ->
  difference_positive a b = negb (num_leb a b).
Proof.
  intros Ha Hb Wa Wb. unfold difference_positive, difference.
  destruct a as [sa|sa| |sa ma ea], b as [sb|sb| |sb mb eb];
    try (now elim Ha); try (now elim Hb);
    try (destruct sa, sb; reflexivity); try (destruct sa; reflexivity);
    try (destruct sb; reflexivity).
  - (* 0 - b *)
    cbn [SFsub num_leb exponent units]. destruct sb; unfold SFltb; cbn [negb SFcompare].
    + symmetry. apply negb_true_iff. apply Z.leb_gt.
      assert (0 < 2 ^ (eb - Z.min 0 eb)) by (apply Z.pow_pos_nonneg; lia). nia.
    + symmetry. apply negb_false_iff. apply Z.leb_le.
      assert (0 < 2 ^ (eb - Z.min 0 eb)) by (apply Z.pow_pos_nonneg; lia). nia.
  - (* a - 0 *)
    cbn [SFsub num_leb exponent units]. destruct sa; unfold SFltb; cbn [negb SFcompare].
    + symmetry. apply negb_false_iff. apply Z.leb_le.
      assert (0 < 2 ^ (ea - Z.min ea 0)) by (apply Z.pow_pos_nonneg; lia). nia.
    + symmetry. apply negb_true_iff. apply Z.leb_gt.
      assert (0 < 2 ^ (ea - Z.min ea 0)) by (apply Z.pow_pos_nonneg; lia). nia.
  - (* a - b, both finite *)
    cbn [SFsub num_leb exponent units well_scaled] in *.
    set (e := Z.min ea eb).
    assert (He : emin prec emax <= e) by (unfold e; lia).
    assert (Ua : cond_Zopp sa (Z.pos (fst (shl_align ma ea e))) =
                 (if sa then - Z.pos ma else Z.pos ma) * 2 ^ (ea - e))
      by (rewrite shl_align_fst by (unfold e; lia); destruct sa; cbn [cond_Zopp]; ring).
    assert (Ub : cond_Zopp sb (Z.pos (fst (shl_align mb eb e))) =
                 (if sb then - Z.pos mb else Z.pos mb) * 2 ^ (eb - e))
      by (rewrite shl_align_fst by (unfold e; lia); destruct sb; cbn [cond_Zopp]; ring).
    rewrite Ua, Ub.
    set (ua := (if sa then - Z.pos ma else Z.pos ma) * 2 ^ (ea - e)).
    set (ub := (if sb then - Z.pos mb else Z.pos mb) * 2 ^ (eb - e)).
    destruct (ua - ub) as [|d|d] eqn:Hd; cbn [binary_normalize].
    + cbn. symmetry. apply negb_false_iff. apply Z.leb_le. lia.
    + destruct (binary_round_cases false d e He) as (H1 & _ & H3).
      transitivity true; [apply zero_ltb; now split|].
      symmetry. apply negb_true_iff. apply Z.leb_gt. lia.
    + destruct (binary_round_cases true d e He) as (H1 & _ & H3).
      transitivity false.
      * destruct (SFltb (S754_zero false) (binary_round prec emax true d e)) eqn:Hlt;
          [|reflexivity].
        apply zero_ltb in Hlt. destruct Hlt as [Hs _].
        destruct (binary_round prec emax true d e); cbn in H1, Hs; try contradiction; congruence.
      * symmetry. apply negb_false_iff. apply Z.leb_le. lia.
Qed.

(** Two numbers are in order one way or the other. *)
Lemma num_leb_total (a b : number) :
  a <> NaN -> b <> NaN -> num_leb a b = false -> num_leb b a = true.
Proof.
  intros Ha Hb.
  destruct a as [sa|sa| |sa ma ea], b as [sb|sb| |sb mb eb];
    try (now elim Ha); try (now elim Hb);
    try (destruct sa, sb; cbn; congruence); try (destruct sa; cbn; congruence);
    try (destruct sb; cbn; congruence);
    cbn [num_leb exponent]; intros H; apply Z.leb_gt in H; apply Z.leb_le.
  - rewrite (Z.min_comm eb 0). lia.
  - rewrite (Z.min_comm 0 ea). lia.
  - rewrite (Z.min_comm eb ea). lia.
Qed.

(** The quotient of two positive integers, rounded, is a number. *)
Lemma binary64_cases (m e : Z) :
  binary64 m e <> NaN /\ well_scaled (binary64 m e).
Proof.
  unfold binary64. destruct m as [|p|p]; try (split; [discriminate | exact I]).
  set (n := Z.to_pos (Z.pos p * 10 ^ Z.max e 0)).
  set (d := Z.to_pos (10 ^ Z.max (- e) 0)).
  cbn [SFdiv]. unfold SFdiv_core_binary.
  set (e' := Z.min (fexp prec emax (Zdigits2 (Z.pos n) + 0 - (Zdigits2 (Z.pos d) + 0))) (0 - 0)).
  set (m' := match 0 - 0 - e' with
             | 0 => Z.pos n
             | Z.pos _ => Z.shiftl (Z.pos n) (0 - 0 - e')
             | Z.neg _ => 0
             end).
  assert (Hm' : 0 <= m').
  { unfold m'. destruct (0 - 0 - e') eqn:Hs; try lia.
    apply Z.shiftl_nonneg. lia. }
  assert (He' : emin prec emax <= e').
  { unfold e'. apply Z.min_glb; [apply emin_le_fexp | unfold emin, prec, emax; lia]. }
  pose proof (Z.div_pos m' (Z.pos d) Hm' ltac:(lia)) as Hq.
  unfold Z.div in Hq.
  destruct (Z.div_eucl m' (Z.pos d)) as [q r]. cbn [fst] in Hq.
  destruct (binary_round_aux_cases (xorb false false) q e' (new_location (Z.pos d) r) Hq He')
    as (H1 & H2 & _).
  split; [|exact H2].
  intros Hn. unfold NaN in Hn. rewrite Hn in H1. exact H1.
Qed.

Lemma opp_cases (x : number) :
  x <> NaN -> well_scaled x -> SFopp x <> NaN /\ well_scaled (SFopp x).
Proof. destruct x; cbn; intros H W; (split; [try discriminate; exact H | exact W]). Qed.

Lemma read_unsigned_well_scaled (s : string) : well_scaled (read_unsigned s).
Proof.
  unfold read_unsigned.
  destruct (String.prefix "Infinity" s); [exact I|].
  destruct (read_digits 0 0 s) as [[v n] r].
  destruct r as [|c r].
  - destruct (n =? 0); [exact I | apply binary64_cases].
  - destruct c as [[] [] [] [] [] [] [] []];
      try (destruct (n =? 0); [exact I | apply binary64_cases]).
    destruct (read_digits v 0 r) as [[all frac] after].
    destruct ((n =? 0) && (frac =? 0))%bool; [exact I | apply binary64_cases].
Qed.

Lemma well_scaled_opp (x : number) : well_scaled x -> well_scaled (SFopp x).
Proof. destruct x; cbn; auto. Qed.

(** Every number [parseFloat] reads has its exponent in range. *)
Lemma parseFloat_well_scaled (s : string) : well_scaled (parseFloat s).
Proof.
  unfold parseFloat, negate.
  destruct (trimStart s) as [|c s']; [apply read_unsigned_well_scaled|].
  destruct c as [[] [] [] [] [] [] [] []];
    first [apply read_unsigned_well_scaled
          | apply well_scaled_opp, read_unsigned_well_scaled].
Qed.

End Binary64.

Section ChapterFacts.
Import JS MangaLivre ChapterSpec.

Lemma value_well_scaled (c : ChapterDetails) : well_scaled (value c).
Proof. apply parseFloat_well_scaled. Qed.

Lemma not_positive_leb (x y : ChapterDetails) :
  is_number x -> is_number y ->
  difference_positive (value x) (value y) = false -> num_leb (value x) (value y) = true.
Proof.
  intros Hx Hy H.
  rewrite difference_positive_leb in H by (auto using value_well_scaled).
  now apply negb_false_iff in H.
Qed.

Lemma positive_geb (x y : ChapterDetails) :
  is_number x -> is_number y ->
  difference_positive (value x) (value y) = true -> num_leb (value y) (value x) = true.
Proof.
  intros Hx Hy H.
  rewrite difference_positive_leb in H by (auto using value_well_scaled).
  apply negb_true_iff in H. now apply num_leb_total.
Qed.

Lemma indexed_from_nth {A : Type} (l : list A) : forall k i j (x : A),
  nth_error (indexed_from k l) i = Some (j, x) -> j = (k + i)%nat.
Proof.
  induction l as [|y l IH]; intros k i j x H.
  - destruct i; discriminate.
  - destruct i as [|i]; simpl in H.
    + inversion H. lia.
    + apply IH in H. lia.
Qed.

Lemma indexed_from_snd {A : Type} (l : list A) : forall k,
  map snd (indexed_from k l) = l.
Proof. induction l as [|y l IH]; intros k; simpl; [reflexivity | now rewrite IH]. Qed.

Lemma sortAndIndexChapters_unfold (chapters : list ChapterDetails) :
  Provider.sortAndIndexChapters chapters =
  map reindex
      (indexed (sort (fun a b => difference_positive (value a) (value b)) chapters)).
Proof.
  unfold Provider.sortAndIndexChapters, value. apply map_ext. now intros [i c].
Qed.

Lemma sortAndIndexChapters_indexed (chapters : list ChapterDetails) :
  indexed_by_position (Provider.sortAndIndexChapters chapters).
Proof.
  rewrite sortAndIndexChapters_unfold. intros i c H.
  rewrite nth_error_map in H. unfold indexed in H.
  destruct (nth_error (indexed_from 0 _) i) as [[j x]|] eqn:Hn; [|discriminate].
  apply indexed_from_nth in Hn. simpl in H. inversion H; subst. reflexivity.
Qed.

Lemma value_reindex (entry : nat * ChapterDetails) :
  value (reindex entry) = value (snd entry).
Proof. now destruct entry. Qed.

Lemma Sorted_map_value (l : list (nat * ChapterDetails)) :
  Sorted (fun a b => num_leb (value a) (value b) = true) (map snd l) ->
  non_decreasing (map reindex l).
Proof.
  unfold non_decreasing. induction l as [|a l IH]; simpl; intros H; [constructor|].
  inversion H; subst. constructor; [now apply IH|].
  destruct l as [|b l]; simpl in *; constructor.
  rewrite !value_reindex. now inversion H3.
Qed.

Lemma Forall_map_value (l : list (nat * ChapterDetails)) :
  Forall is_number (map reindex l) -> Forall is_number (map snd l).
Proof.
  induction l as [|a l IH]; simpl; intros H; [constructor|].
  inversion H; subst. constructor; [|now apply IH].
  unfold is_number in *. now rewrite <- value_reindex.
Qed.

Lemma sortAndIndexChapters_sorted (chapters : list ChapterDetails) :
  Forall is_number (Provider.sortAndIndexChapters chapters) ->
  non_decreasing (Provider.sortAndIndexChapters chapters).
Proof.
  rewrite sortAndIndexChapters_unfold. intros Hnum.
  apply Forall_map_value in Hnum. apply Sorted_map_value.
  unfold indexed in *. rewrite indexed_from_snd in *.
  set (after := fun a b => difference_positive (value a) (value b)) in *.
  assert (Hin : Forall is_number chapters).
  { apply Forall_forall. intros c Hc. rewrite Forall_forall in Hnum. apply Hnum.
    eapply Permutation_in; [apply sort_perm | exact Hc]. }
  apply (sort_Sorted _ after _ is_number); [| | exact Hin].
  - intros x y Hx Hy H. now apply not_positive_leb.
  - intros x y Hx Hy H. now apply positive_geb.
Qed.

(** What [findChapters] returns is empty or comes out of
    [sortAndIndexChapters]; it never throws. *)
Lemma findChapters_shape (host : Host) (mangaId : string) :
  exists l, Provider.findChapters host mangaId = Normal l /\
            (l = [] \/ exists chapters, l = Provider.sortAndIndexChapters chapters).
Proof.
  unfold Provider.findChapters, bind, try_catch.
  repeat match goal with
         | |- context [match ?x with _ => _ end] =>
             lazymatch x with
             | context [match _ with _ => _ end] => fail
             | _ => destruct x
             end
         end;
    eexists; (split; [reflexivity|]);
    first [left; reflexivity | right; eexists; reflexivity].
Qed.



(** Two chapter texts that read as the same binary64 number compare equal:
    the sort keeps them in the order of the page, and the list is in
    non-decreasing order of the numbers read. *)
Lemma findChapters_tie_kept :
  exists l,
    Provider.findChapters (chapters_host tied_chapters) "x" = Normal l /\
    map chapter l = ["9007199254740993"; "9007199254740992"] /\
    non_decreasing l.
Proof.
  eexists. split; [vm_compute; reflexivity|]. split; [reflexivity|].
  repeat constructor.
Qed.


End ChapterFacts.

(* ================================================================== *)
(** * Further properties of the code                                   *)
(* ================================================================== *)

(** ** What a match has read *)

Section MatchFacts.
Import JS Occurrence HashSpec.

Lemma append_length (s t : string) :
  String.length (s ++ t) = (String.length s + String.length t)%nat.
Proof. induction s as [|c s IH]; simpl; [reflexivity | now rewrite IH]. Qed.

Lemma append_assoc (s t u : string) : (s ++ t) ++ u = s ++ (t ++ u).
Proof. induction s as [|c s IH]; simpl; [reflexivity | now rewrite IH]. Qed.

Lemma take_append (s t : string) : take (String.length s) (s ++ t) = s.
Proof. induction s as [|c s IH]; simpl; [now destruct t | now rewrite IH]. Qed.

(** The text a group has read, from what is left when it ends. *)
Lemma take_read (run after : string) :
  take (String.length (run ++ after) - String.length after) (run ++ after) = run.
Proof.
  rewrite append_length.
  replace (String.length run + String.length after - String.length after)%nat
    with (String.length run) by lia.
  apply take_append.
Qed.

(** A literal text that matches has read as many code units as it has. *)
Lemma match_str_sound (R : Type) (ic : bool) (k : cont R) (cs : captures) (r : R) :
  forall p s prev,
    match_str R ic p prev s cs k = Some r ->
    exists read after prev',
      s = read ++ after /\ String.length read = String.length p /\
      k prev' after cs = Some r.
Proof.
  induction p as [|pc p IH]; intros s prev H; simpl in H.
  - exists "", s, prev. auto.
  - destruct s as [|c s]; [discriminate|].
    destruct (char_eq ic pc c); [|discriminate].
    apply IH in H. destruct H as [read [after [prev' [Heq [Hlen Hk]]]]].
    exists (String c read), after, prev'. subst s. simpl. auto.
Qed.

(** A literal text matched without the flag [i] is read as it is. *)
Lemma match_str_exact (R : Type) (k : cont R) (cs : captures) (r : R) :
  forall p s prev,
    match_str R false p prev s cs k = Some r ->
    exists after prev', s = p ++ after /\ k prev' after cs = Some r.
Proof.
  induction p as [|pc p IH]; intros s prev H; simpl in H.
  - exists s, prev. auto.
  - destruct s as [|c s]; [discriminate|].
    unfold char_eq, ascii_eqb in H.
    destruct (N.eqb_spec (code pc) (code c)) as [E|E]; [|discriminate].
    apply IH in H. destruct H as [after [prev' [Heq Hk]]].
    exists after, prev'. subst s. simpl. split; [|exact Hk].
    f_equal. unfold code in E.
    rewrite <- (ascii_N_embedding pc), <- (ascii_N_embedding c). now rewrite E.
Qed.

(** The text after a position is the end of the text. *)
Lemma position_suffix (i : nat) : forall prev s p suffix,
  position i prev s = Some (p, suffix) ->
  exists before, s = before ++ suffix /\ String.length before = i.
Proof.
  induction i as [|i IH]; intros prev s p suffix H; simpl in H.
  - inversion H; subst. now exists "".
  - destruct s as [|c s]; [discriminate|].
    apply IH in H. destruct H as [before [Heq Hlen]].
    exists (String c before). subst s. simpl. auto.
Qed.

(** [s.match(r)] found its match at some position of [s]. *)
Lemma js_match_position ic r s m :
  js_match ic r s = Some m ->
  exists before p suffix,
    s = before ++ suffix /\ match_here ic r p suffix = Some m /\
    (before = "" -> p = None).
Proof.
  intros H. apply js_match_leftmost in H. destruct H as [i [Hi _]].
  unfold occurrence, occurrence_from in Hi.
  destruct (position i None s) as [[p suffix]|] eqn:Hpos; [|discriminate].
  destruct (position_suffix _ _ _ _ _ Hpos) as [before [Heq Hlen]].
  exists before, p, suffix. split; [exact Heq|]. split; [exact Hi|].
  intros ->. simpl in Hlen. subst i. simpl in Hpos. now inversion Hpos.
Qed.

Lemma contains_middle (a b c : string) : contains (a ++ b ++ c) b.
Proof. now exists a, c. Qed.

Lemma all_chars_length_pos (f : ascii -> bool) (s : string) :
  (1 <= String.length s)%nat -> s <> "".
Proof. destruct s; simpl; [lia | discriminate]. Qed.

End MatchFacts.

(** ** DarkMahou: what the parser returns *)

Section TorrentParserFacts.
Import JS DarkMahou TorrentParser Occurrence HashSpec EpisodeSpec TorrentSpec.

Lemma strategies_valid (name episodeTitle : string) :
  Forall (fun s : strategy => forall n, s n -> valid n) (strategies name episodeTitle).
Proof.
  unfold strategies.
  do 4 (apply Forall_cons; [intros n [m [_ [_ Hv]]]; exact Hv|]).
  apply Forall_cons; [|apply Forall_nil].
  intros n [before [s [after [_ [_ [[Hv _] _]]]]]]. exact Hv.
Qed.

Lemma first_success_valid (spec : list strategy) (r : Z) :
  Forall (fun s : strategy => forall n, s n -> valid n) spec ->
  first_success spec r -> valid r.
Proof.
  intros Hall H. induction H as [s more k Hs | s more k _ _ IH].
  - inversion Hall; subst. auto.
  - inversion Hall; subst. auto.
Qed.

(** X1.  The episode number is -1 or a number between 1 and 9999: never
    0, never a year-like number above 9999; and it is -1 for a batch. *)
Theorem extractEpisodeNumber_range (name episodeTitle : string) :
  (extractEpisodeNumber name episodeTitle = (-1)%Z \/
   valid (extractEpisodeNumber name episodeTitle)) /\
  (isBatchTorrent name episodeTitle = true ->
   extractEpisodeNumber name episodeTitle = (-1)%Z).
Proof.
  unfold extractEpisodeNumber.
  destruct (isBatchTorrent name episodeTitle); [split; auto|].
  split; [|discriminate].
  destruct (proj1 (runStrategies_first _ _ (strategies_reflect name episodeTitle) _) eq_refl)
    as [H | [_ H]]; [right | left; exact H].
  eapply first_success_valid; [apply strategies_valid | exact H].
Qed.

Lemma extractEpisodeNumber_range_witness :
  extractEpisodeNumber "Naruto Complete 001-220" "" = (-1)%Z.
Proof.
  apply (proj2 (extractEpisodeNumber_range "Naruto Complete 001-220" "")).
  reflexivity.
Defined.

(** The resolution group of a match has four or five code units: three or
    four digits and the letter p. *)
Lemma resolution_group_length (name : string) (m : rmatch_result) (g : string) :
  js_match true RESOLUTION name = Some m -> group 1 m = Some g ->
  (4 <= String.length g)%nat.
Proof.
  intros Hm Hg. apply js_match_position in Hm.
  destruct Hm as [before [p [suffix [_ [Hm _]]]]].
  unfold match_here, RESOLUTION in Hm. cbn [rseq rmatch] in Hm.
  destruct (at_boundary p suffix); [|discriminate].
  apply match_rep_sound in Hm.
  destruct Hm as [run [after [p1 [Heq [_ [Hlo [_ Hk]]]]]]].
  apply match_str_sound in Hk.
  destruct Hk as [read [after2 [p2 [Heq2 [Hlen Hk]]]]].
  destruct (at_boundary p2 after2); [|discriminate].
  inversion Hk; subst m; clear Hk. unfold group in Hg. simpl in Hg.
  inversion Hg; subst g; clear Hg.
  subst after suffix. rewrite <- append_assoc, take_read, append_length.
  simpl in Hlen. lia.
Qed.

(** X2.  [parseResolution] gives the empty text, 480p, 720p, 1080p or
    1440p; the entry 4K of its list can never come out, because the
    pattern reads digits followed by p. *)
Theorem parseResolution_values (name : string) :
  In (parseResolution name) resolutions /\ parseResolution name <> "4K".
Proof.
  unfold parseResolution, resolutions.
  destruct (js_match true RESOLUTION name) as [m|] eqn:Hm; [|split; [now left | discriminate]].
  destruct (group 1 m) as [g|] eqn:Hg; [|split; [now left | discriminate]].
  pose proof (resolution_group_length name m g Hm Hg) as Hlen.
  destruct (existsb (String.eqb g) validResolutions) eqn:He;
    [|split; [now left | discriminate]].
  apply existsb_exists in He. destruct He as [x [Hin Hx]].
  apply String.eqb_eq in Hx. subst x.
  split.
  - simpl in Hin. simpl.
    destruct Hin as [<- | [<- | [<- | [<- | [<- | []]]]]]; try tauto.
    simpl in Hlen. lia.
  - intros ->. simpl in Hlen. lia.
Qed.

(** The hash group of a match is read from the link. *)
Lemma info_hash_group_contained (link : string) (m : rmatch_result) (h : string) :
  js_match true INFO_HASH link = Some m -> group 1 m = Some h -> contains link h.
Proof.
  intros Hm Hg. apply js_match_position in Hm.
  destruct Hm as [before [p [suffix [Hlink [Hm _]]]]].
  unfold match_here, INFO_HASH in Hm. cbn [rmatch] in Hm.
  apply match_str_sound in Hm.
  destruct Hm as [read [after [p1 [Heq [_ Hk]]]]].
  apply match_rep_sound in Hk.
  destruct Hk as [run [after2 [p2 [Heq2 [_ [_ [_ Hk]]]]]]].
  inversion Hk; subst m; clear Hk. unfold group in Hg. simpl in Hg.
  inversion Hg; subst h; clear Hg.
  subst after. rewrite take_read. subst suffix link.
  exists (before ++ read), after2. now rewrite !append_assoc.
Qed.

(** X3.  An info hash that [extractInfoHash] returns is made of 40
    hexadecimal characters read from the link, and the link starts with
    [magnet:?] and has more than 20 code units. *)
Theorem extractInfoHash_sound (magnetLink : string) :
  extractInfoHash magnetLink <> "" ->
  hex40 (extractInfoHash magnetLink) /\
  contains magnetLink (extractInfoHash magnetLink) /\
  startsWith magnetLink "magnet:?" = true /\
  (20 < String.length magnetLink)%nat.
Proof.
  unfold extractInfoHash, isValidMagnetLink.
  destruct (startsWith magnetLink "magnet:?") eqn:Hs; [|intros H; now elim H].
  destruct (20 <? String.length magnetLink)%nat eqn:Hl; [|intros H; now elim H].
  cbn [andb negb].
  destruct (js_match true INFO_HASH magnetLink) as [m|] eqn:Hm; [|intros H; now elim H].
  destruct (group 1 m) as [hash|] eqn:Hg; [|intros H; now elim H].
  destruct (truthy hash && isValidInfoHash hash) eqn:Hv; [|intros H; now elim H].
  intros _. apply andb_true_iff in Hv. destruct Hv as [_ Hv].
  split; [now apply isValidInfoHash_hex40|].
  split; [eapply info_hash_group_contained; eauto|].
  split; [reflexivity | now apply Nat.ltb_lt].
Qed.

Lemma extractInfoHash_sound_witness :
  hex40 (extractInfoHash
           "magnet:?xt=urn:btih:0123456789abcdef0123456789ABCDEF01234567&dn=x").
Proof.
  apply (extractInfoHash_sound
           "magnet:?xt=urn:btih:0123456789abcdef0123456789ABCDEF01234567&dn=x").
  vm_compute. discriminate.
Defined.

End TorrentParserFacts.

(** ** DarkMahou: the torrents of a search *)

Section SearchResultFacts.
Import JS DarkMahou Occurrence HashSpec EpisodeSpec TorrentSpec SmartSearchSpec.

(** Every match of a scan is a match at some position. *)
Lemma scan_In ic r (m : rmatch_result) (s : string) : forall prev skip,
  In m (scan ic r prev s skip) ->
  exists p suffix, match_here ic r p suffix = Some m.
Proof.
  induction s as [|c s IH]; intros prev skip H.
  - destruct skip; simpl in H; [|contradiction].
    destruct (match_here ic r prev "") as [m'|] eqn:Hm; [|contradiction].
    destruct H as [<- | []]. eauto.
  - destruct skip as [|n]; cbn [scan] in H; [|eauto].
    destruct (match_here ic r prev (String c s)) as [m'|] eqn:Hm; [|eauto].
    destruct H as [<- | H]; eauto.
Qed.

Lemma magnet_match_not_empty (p : option ascii) (suffix : string) (m : rmatch_result) :
  match_here true Provider.MAGNET_LINK p suffix = Some m -> matched m <> "".
Proof.
  unfold match_here, Provider.MAGNET_LINK. cbn [rseq rmatch]. intros Hm.
  apply match_str_sound in Hm.
  destruct Hm as [read [after [p1 [Heq [Hlen Hk]]]]].
  apply match_rep_sound in Hk.
  destruct Hk as [run [after2 [p2 [Heq2 [_ [_ [_ Hk]]]]]]].
  inversion Hk; subst m; clear Hk. cbn [matched].
  subst after suffix. rewrite <- append_assoc, take_read.
  destruct read; [discriminate | discriminate].
Qed.

Lemma truthy_not_empty (s : string) : truthy s = true <-> s <> "".
Proof. destruct s; simpl; split; congruence. Qed.

Lemma createAnimeTorrent_well_formed (name link pageURL res title date : string) :
  link <> "" -> pageURL <> "" ->
  well_formed (Provider.createAnimeTorrent name link pageURL res title date).
Proof.
  intros Hlink Hpage. exists link. unfold Provider.createAnimeTorrent. cbn.
  split; [reflexivity|]. split; [exact Hlink|]. split; [reflexivity|].
  split; [apply extractInfoHash_result|].
  unfold TorrentParser.extractEpisodeNumber.
  destruct (TorrentParser.isBatchTorrent name title).
  - split; [reflexivity|]. split; [now left | exact Hpage].
  - split; [discriminate|]. split; [|exact Hpage].
    destruct (proj1 (runStrategies_first _ _ (strategies_reflect name title) _) eq_refl)
      as [H | [_ H]]; [right | left; exact H].
    eapply first_success_valid; [apply strategies_valid | exact H].
Qed.

Lemma well_formed_read_back (t : AnimeTorrent) : well_formed t -> read_back t.
Proof.
  intros [link [Hm [Hne [Hi _]]]].
  exists link, (TorrentParser.extractInfoHash link).
  split; [exact Hm|]. split; [exact Hi|].
  apply truthy_not_empty in Hne.
  unfold Provider.getTorrentMagnetLink, Provider.getTorrentInfoHash, present.
  rewrite Hm, Hi, Hne. cbn [or_else]. rewrite Hne. split; [reflexivity|].
  destruct (truthy (TorrentParser.extractInfoHash link)) eqn:Hh; [reflexivity|].
  cbn [negb andb].
  destruct (TorrentParser.extractInfoHash link); [reflexivity | discriminate].
Qed.

Lemma created_well_formed (pageURL : string) (clock : nat -> string)
      (makers : list (string -> AnimeTorrent)) :
  pageURL <> "" -> Forall (good_maker pageURL) makers ->
  forall n, Forall well_formed (Provider.created clock n makers).
Proof.
  intros Hpage. induction 1 as [|make more Hmake _ IH]; intros n; simpl; [constructor|].
  constructor; [|apply IH].
  destruct Hmake as [name [link [res [title [Hlink ->]]]]].
  now apply createAnimeTorrent_well_formed.
Qed.

Lemma Forall_flat_map_all {A B : Type} (P : B -> Prop) (f : A -> list B) (l : list A) :
  (forall x, Forall P (f x)) -> Forall P (flat_map f l).
Proof.
  intros H. induction l as [|x l IH]; simpl; [constructor|].
  apply Forall_app. auto.
Qed.

Lemma rowTorrents_good (pageURL episodeTitle : string) (rows : Selection) :
  Forall (good_maker pageURL) (Provider.rowTorrents pageURL episodeTitle rows).
Proof.
  unfold Provider.rowTorrents. apply Forall_flat_map_all. intros row.
  destruct (attr (find_all [row] "td div.slink a") "href") as [link|]; [|constructor].
  destruct (truthy link && startsWith link "magnet:?") eqn:H; [|constructor].
  apply andb_true_iff in H. destruct H as [H _]. apply truthy_not_empty in H.
  constructor; [|constructor]. do 4 eexists. split; [exact H | reflexivity].
Qed.

Lemma parseTorrentsFromHTML_well_formed (host : Host) (html pageURL : string) :
  pageURL <> "" -> Forall well_formed (Provider.parseTorrentsFromHTML host html pageURL).
Proof.
  intros Hpage.
  assert (Hdoc : Forall well_formed (Provider.parseWithLoadDoc host html pageURL)).
  { unfold Provider.parseWithLoadDoc.
    destruct (LoadDoc host html) as [[doc|]|]; try constructor.
    apply (created_well_formed pageURL); [exact Hpage|].
    apply Forall_flat_map_all. intros element. cbv beta. apply rowTorrents_good. }
  assert (Hregex : Forall well_formed (Provider.parseWithRegexFallback host html pageURL)).
  { unfold Provider.parseWithRegexFallback.
    apply (created_well_formed pageURL); [exact Hpage|].
    apply Forall_forall. intros make Hin. apply in_map_iff in Hin.
    destruct Hin as [[index link] [<- Hin]].
    do 4 eexists. split; [|reflexivity].
    assert (Hl : In link (match_all true Provider.MAGNET_LINK html)).
    { unfold indexed in Hin. clear -Hin.
      revert Hin. generalize 0%nat.
      induction (match_all true Provider.MAGNET_LINK html) as [|x l IH]; intros n Hin;
        simpl in Hin; [contradiction|].
      destruct Hin as [Hin | Hin]; [inversion Hin; now left | right; eauto]. }
    unfold match_all in Hl. apply in_map_iff in Hl. destruct Hl as [m [<- Hm]].
    apply scan_In in Hm. destruct Hm as [p [suffix Hm]].
    eapply magnet_match_not_empty; eauto. }
  unfold Provider.parseTorrentsFromHTML.
  destruct (Provider.parseWithLoadDoc host html pageURL); [exact Hregex | exact Hdoc].
Qed.

Lemma search_well_formed (host : Host) (opts : AnimeSearchOptions)
      (results : list AnimeTorrent) :
  Provider.search host opts = Normal results -> Forall well_formed results.
Proof.
  unfold Provider.search, Provider.fetchTorrentsFromAnimePage.
  destruct (Provider.searchURL opts) as [url|]; cbn [bind]; [|discriminate].
  destruct (HTTPClient.fetchWithUserAgent host url) as [[data|]|];
    cbn [bind]; try (intros H; inversion H; constructor).
  destruct (truthy (AnimePageExtractor.extractPageURL data _)) eqn:Hurl; cbn [negb];
    [|intros H; inversion H; constructor].
  apply truthy_not_empty in Hurl.
  destruct (HTTPClient.fetchWithUserAgent host _) as [[page|]|];
    cbn [bind]; try (intros H; inversion H; constructor).
  intros H. inversion H. now apply parseTorrentsFromHTML_well_formed.
Qed.

Lemma subsequence_Forall {A : Type} (P : A -> Prop) (l1 l2 : list A) :
  subsequence l1 l2 -> Forall P l2 -> Forall P l1.
Proof.
  induction 1 as [|x l1 l2 _ IH|x l1 l2 _ IH]; intros HF; [constructor | |];
    inversion HF; subst; auto.
Qed.

Lemma smartSearch_well_formed (host : Host) (opts : AnimeSmartSearchOptions)
      (results : list AnimeTorrent) :
  Provider.smartSearch host opts = Normal results -> Forall well_formed results.
Proof.
  unfold Provider.smartSearch.
  destruct (Provider.search host (Provider.smartSearchQuery opts)) as [found|] eqn:Hs;
    cbn [bind try_catch]; [|intros H; inversion H; constructor].
  apply search_well_formed in Hs.
  destruct found as [|t found]; intros H; inversion H; [constructor|].
  eapply subsequence_Forall; [|exact Hs].
  apply applySmartSearchFilters_passes.
Qed.

(** X4.  Every torrent that [search] or [smartSearch] returns carries a
    magnet link that is not empty, an info hash that is empty or made of
    40 hexadecimal characters read from that link, the episode number -1
    when it is a batch, an episode number that is -1 or between 1 and
    9999, and the address of its page. *)
Theorem search_results_well_formed (host : Host) :
  (forall opts results,
      Provider.search host opts = Normal results -> Forall well_formed results) /\
  (forall opts results,
      Provider.smartSearch host opts = Normal results -> Forall well_formed results).
Proof.
  split; intros opts results H.
  - eapply search_well_formed; eauto.
  - eapply smartSearch_well_formed; eauto.
Qed.

Lemma search_results_well_formed_witness :
  exists results,
    Provider.search (example_host (fun _ => ""))
                    (MkSearchOptions (MkMedia None None) "naruto") = Normal results /\
    List.length results = 2%nat /\ Forall well_formed results.
Proof.
  destruct (Provider.search (example_host (fun _ => ""))
                            (MkSearchOptions (MkMedia None None) "naruto"))
    as [results|] eqn:Hs; [|vm_compute in Hs; discriminate].
  exists results. split; [reflexivity|].
  split; [vm_compute in Hs; inversion Hs; reflexivity|].
  exact (proj1 (search_results_well_formed _) _ _ Hs).
Defined.

(** X5.  For every torrent that [search] returns, [getTorrentMagnetLink]
    gives back its magnet link and [getTorrentInfoHash] its info hash:
    the placeholders of these operations are not met on the provider's
    own torrents. *)
Theorem search_results_read_back (host : Host) (opts : AnimeSearchOptions)
        (results : list AnimeTorrent) :
  Provider.search host opts = Normal results -> Forall read_back results.
Proof.
  intros H. apply search_well_formed in H.
  eapply Forall_impl; [|exact H].
  intros t Ht. now apply well_formed_read_back.
Qed.

Lemma search_results_read_back_witness :
  exists results,
    Provider.search (example_host (fun _ => ""))
                    (MkSearchOptions (MkMedia None None) "naruto") = Normal results /\
    map Provider.getTorrentInfoHash results =
      ["0123456789abcdef0123456789abcdef01234567";
       "89abcdef0123456789abcdef0123456789abcdef"] /\
    Forall read_back results.
Proof.
  destruct (Provider.search (example_host (fun _ => ""))
                            (MkSearchOptions (MkMedia None None) "naruto"))
    as [results|] eqn:Hs; [|vm_compute in Hs; discriminate].
  exists results. split; [reflexivity|].
  split; [vm_compute in Hs; inversion Hs; reflexivity|].
  exact (search_results_read_back _ _ _ Hs).
Defined.

End SearchResultFacts.

(** ** DarkMahou: filters and the chosen page *)

Section FilterFacts.
Import JS DarkMahou Occurrence TorrentSpec SmartSearchSpec PageSpec.

Lemma filter_all_true {A : Type} (f : A -> bool) (l : list A) :
  Forall (fun x => f x = true) l -> filter f l = l.
Proof.
  induction 1 as [|x l Hx _ IH]; simpl; [reflexivity|]. now rewrite Hx, IH.
Qed.

Lemma filters_fixed {A : Type} (fs : list (A -> bool)) (l : list A) :
  (forall f, In f fs -> Forall (fun x => f x = true) l) ->
  fold_left (fun acc f => filter f acc) fs l = l.
Proof.
  induction fs as [|g fs IH]; intros H; simpl; [reflexivity|].
  rewrite (filter_all_true g l) by (apply H; now left).
  apply IH. intros f Hf. apply H. now right.
Qed.

(** X6.  Filtering twice with the same options changes nothing more, and
    with no active filter (no episode number above 0, no resolution, no
    batch flag) the results are returned as they are. *)
Theorem applySmartSearchFilters_idempotent (results : list AnimeTorrent)
        (opts : AnimeSmartSearchOptions) :
  Provider.applySmartSearchFilters (Provider.applySmartSearchFilters results opts) opts =
  Provider.applySmartSearchFilters results opts /\
  (no_filter opts -> Provider.applySmartSearchFilters results opts = results).
Proof.
  unfold Provider.applySmartSearchFilters. split.
  - apply filters_fixed. intros f Hf.
    now apply (proj2 (filters_fold (Provider.smartSearchFilters opts) results)).
  - intros [Hep [Hres Hbatch]]. unfold Provider.smartSearchFilters.
    rewrite Hres, Hbatch.
    replace (episodeNumber opts >? 0)%Z with false
      by (symmetry; destruct (Z.gtb_spec (episodeNumber opts) 0); [lia | reflexivity]).
    rewrite andb_false_r. reflexivity.
Qed.

Lemma applySmartSearchFilters_idempotent_witness :
  Provider.applySmartSearchFilters
    [HashSpec.torrent_with (Some "Naruto - 05 [1080p]") None None]
    (MkSmartSearchOptions (MkMedia None None) "naruto" false 0 "") =
  [HashSpec.torrent_with (Some "Naruto - 05 [1080p]") None None].
Proof.
  apply (proj2 (applySmartSearchFilters_idempotent
                  [HashSpec.torrent_with (Some "Naruto - 05 [1080p]") None None]
                  (MkSmartSearchOptions (MkMedia None None) "naruto" false 0 ""))).
  split; [simpl; lia | split; reflexivity].
Defined.

Lemma hd_error_In {A : Type} (l : list A) (x : A) : hd_error l = Some x -> In x l.
Proof. destruct l; simpl; [discriminate|]. intros H; inversion H. now left. Qed.

(** X7.  The address [extractPageURL] returns is empty or the address of
    an anchor of the page that contains no excluded pattern and scores
    above 0 for the query: a search, tag or category page is never
    chosen. *)
Theorem extractPageURL_never_excluded (html query : string) :
  AnimePageExtractor.extractPageURL html query = "" \/
  exists title,
    In (AnimePageExtractor.extractPageURL html query, title) (anchors html) /\
    ~ excluded (AnimePageExtractor.extractPageURL html query) /\
    (AnimePageExtractor.calculateMatchScore
       query title (AnimePageExtractor.extractPageURL html query) > 0)%Z.
Proof.
  unfold AnimePageExtractor.extractPageURL.
  rewrite selectBestMatch_head, collectLinks_candidates.
  destruct (hd_error _) as [b|] eqn:Hb; [right | now left].
  apply hd_error_In in Hb.
  apply (Permutation_in _ (Permutation_sym (sort_perm _ by_score_desc _))) in Hb.
  apply filter_In in Hb. destruct Hb as [Hin Hpos].
  unfold candidates in Hin. apply in_map_iff in Hin.
  destruct Hin as [[url title] [<- Hin]]. apply filter_In in Hin.
  destruct Hin as [Hin Hskip]. cbn [sm_url score] in *.
  exists title. split; [exact Hin|]. split.
  - intros Hex. apply shouldSkipURL_iff in Hex.
    rewrite Hex in Hskip. discriminate.
  - now apply Z.gtb_lt in Hpos; lia.
Qed.

End FilterFacts.

(** ** Operations that absorb every error *)

Section NeverThrows.
Import JS.

(** Split on what the code inspects, innermost first. *)
Ltac inspect_all :=
  repeat match goal with
         | |- context [match ?x with _ => _ end] =>
             lazymatch x with
             | context [match _ with _ => _ end] => fail
             | _ => destruct x
             end
         end.



End NeverThrows.

(** ** Q1N: players and episodes *)

Section Q1NExtraFacts.
Import JS Q1N Occurrence Q1NSpec Q1NExtraSpec HashSpec.

Lemma map_set_not_empty (key value : string) (m : JsMap) : map_set key value m <> [].
Proof. destruct m as [|[k v] m]; simpl; [discriminate|]. destruct (String.eqb k key); discriminate. Qed.

Lemma createFallbackPlayers_not_empty (players : JsMap) (episodeId : string) :
  Provider.createFallbackPlayers players episodeId <> [].
Proof. unfold Provider.createFallbackPlayers. simpl. apply map_set_not_empty. Qed.

Lemma extractPlayersFromPage_not_empty (host : Host) (html : string)
      (episode : EpisodeDetails) (players : JsMap) :
  Provider.extractPlayersFromPage host html episode = Normal players -> players <> [].
Proof.
  unfold Provider.extractPlayersFromPage.
  destruct (Provider.loadDocument host html) as [doc|]; cbn [bind]; [|discriminate].
  intros H; inversion H; clear H.
  destruct (Provider.extractPlayersFromElements doc _) eqn:E; [|discriminate].
  apply createFallbackPlayers_not_empty.
Qed.

Lemma chain_some (players : JsMap) (server : string) :
  players <> [] -> exists u, chain players server = Some u.
Proof.
  intros Hne. unfold chain.
  destruct (map_get (requested server) players); [eauto|].
  destruct (map_get "chplay" players); [eauto|].
  destruct (map_get "ruplay" players); [eauto|].
  destruct players as [|[k v] players]; [contradiction | simpl; eauto].
Qed.

Lemma chain_truthy (players : JsMap) (server u : string) :
  all_truthy players -> chain players server = Some u -> u <> "".
Proof.
  intros Hall. unfold chain.
  assert (Hget : forall key v, map_get key players = Some v -> v <> "").
  { intros key v Hv E. subst v. apply (map_get_truthy _ _ _ Hall) in Hv. discriminate. }
  destruct (map_get (requested server) players) eqn:H1;
    [intros H; inversion H; subst; eauto|].
  destruct (map_get "chplay" players) eqn:H2; [intros H; inversion H; subst; eauto|].
  destruct (map_get "ruplay" players) eqn:H3; [intros H; inversion H; subst; eauto|].
  intros H E. subst u. apply (map_first_value_truthy _ _ Hall) in H. discriminate.
Qed.

(** X9.  The player map of a page is never empty (the fallback players
    fill it), so for every requested server the chain selects an address,
    which is not the empty text; the selection can fail on one ground
    only: an address that contains [about:blank]. *)
Theorem extractPlayersFromPage_selects (host : Host) (html : string)
        (episode : EpisodeDetails) (players : JsMap) (server : string) :
  Provider.extractPlayersFromPage host html episode = Normal players ->
  players <> [] /\
  exists u, chain players server = Some u /\ u <> "" /\
            (contains u "about:blank" \/
             Provider.selectBestPlayer players (Provider.selectedServer server) = Normal u).
Proof.
  intros H.
  pose proof (extractPlayersFromPage_not_empty _ _ _ _ H) as Hne.
  pose proof (extractPlayersFromPage_truthy _ _ _ _ H) as Hall.
  split; [exact Hne|].
  destruct (chain_some players server Hne) as [u Hu].
  exists u. split; [exact Hu|]. split; [eapply chain_truthy; eauto|].
  rewrite (selectBestPlayer_chain players server Hall), Hu.
  destruct (includes u "about:blank") eqn:Hb; [left; now apply includes_iff | now right].
Qed.

Lemma extractPlayersFromPage_selects_witness :
  exists u,
    chain (Provider.createFallbackPlayers [] "naruto-episodio-1") "ruplay" = Some u /\
    u = "https://q1n.net/player/ruplay/naruto-episodio-1".
Proof.
  destruct (extractPlayersFromPage_selects empty_document_host "<html></html>"
              (MkEpisodeDetails "naruto-episodio-1" 1
                 "https://q1n.net/episodio/naruto-episodio-1/" "")
              (Provider.createFallbackPlayers [] "naruto-episodio-1") "ruplay" eq_refl)
    as [_ [u [Hu _]]].
  exists u. split; [exact Hu|]. vm_compute in Hu. now inversion Hu.
Defined.

Lemma includes_fallback (server episodeId : string) :
  server = "chplay" \/ server = "ruplay" ->
  ~ contains episodeId "about:blank" ->
  includes (fallback_url server episodeId) "about:blank" = false.
Proof.
  intros Hs Hid.
  assert (Hinc : includes episodeId "about:blank" = false).
  { destruct (includes episodeId "about:blank") eqn:E; [|reflexivity].
    apply includes_iff in E. contradiction. }
  unfold fallback_url.
  destruct Hs as [-> | ->]; simpl; rewrite !includes_unfold in *;
    destruct episodeId as [|c s]; simpl in *; try reflexivity;
    destruct (Ascii.ascii_dec "a" c); try exact Hinc; apply orb_false_iff in Hinc;
    destruct Hinc as [H1 H2]; now rewrite ?H1, ?H2.
Qed.

End Q1NExtraFacts.

Section Q1NFallbackFacts.
Import JS Q1N Occurrence Q1NSpec Q1NExtraSpec HashSpec.

Lemma selectBestPlayer_two (uc ur preferred : string) :
  truthy uc = true -> truthy ur = true ->
  includes uc "about:blank" = false -> includes ur "about:blank" = false ->
  Provider.selectBestPlayer [("chplay", uc); ("ruplay", ur)] preferred =
  Normal (if String.eqb preferred "ruplay" then ur else uc).
Proof.
  intros Htc Htr Hc Hr. unfold Provider.selectBestPlayer.
  change DEFAULT_SERVER with "chplay". change (nth 1 SUPPORTED_SERVERS "") with "ruplay".
  cbn [map_get map_first_value].
  change (String.eqb "chplay" "chplay") with true.
  change (String.eqb "chplay" "ruplay") with false.
  change (String.eqb "ruplay" "ruplay") with true.
  rewrite (String.eqb_sym preferred "ruplay").
  destruct (String.eqb_spec "chplay" preferred) as [E|E].
  - subst preferred. change (String.eqb "ruplay" "chplay") with false.
    unfold or_else_opt. now rewrite !Htc, Hc.
  - destruct (String.eqb "ruplay" preferred).
    + unfold or_else_opt. now rewrite !Htr, Hr.
    + unfold or_else_opt. now rewrite !Htc, Hc.
Qed.

(** X10.  When the page of a valid episode shows no frame and no player
    element, the answer is the fallback player: the one of [ruplay] when
    [ruplay] is requested, the one of [chplay] for every other request,
    unknown servers included; the id of the episode must not contain
    [about:blank], which would make the operation throw. *)
Theorem findEpisodeServer_fallback (host : Host) (episode : EpisodeDetails)
        (server html : string) (doc : Document) :
  valid_episode episode ->
  Provider.fetchHtml host (ep_url episode) = Some html -> html <> "" ->
  LoadDoc host html = Normal (Some doc) ->
  doc SELECTORS.IFRAMES = [] -> doc SELECTORS.PLAYER_ELEMENTS = [] ->
  ~ contains (ep_id episode) "about:blank" ->
  Provider.findEpisodeServer host episode server =
  Normal (player_answer
            (requested server)
            (fallback_url (fallback_server server) (ep_id episode))).
Proof.
  intros Hvalid Hfetch Hne Hdoc Hif Hel Hid.
  unfold Provider.findEpisodeServer.
  rewrite (validateEpisodeData_valid episode Hvalid), Hfetch. cbn [bind].
  replace (negb (truthy html)) with false by (destruct html; [contradiction | reflexivity]).
  unfold Provider.extractPlayersFromPage, Provider.loadDocument.
  rewrite Hdoc. cbn [bind].
  unfold Provider.extractPlayersFromElements, Provider.extractPlayersFromIframes.
  rewrite Hif, Hel. cbn [fold_left].
  rewrite selectedServer_requested.
  change (Provider.createFallbackPlayers [] (ep_id episode))
    with [("chplay", fallback_url "chplay" (ep_id episode));
          ("ruplay", fallback_url "ruplay" (ep_id episode))].
  rewrite selectBestPlayer_two;
    [ | reflexivity | reflexivity
      | apply includes_fallback; [now left | exact Hid]
      | apply includes_fallback; [now right | exact Hid] ].
  cbn [bind try_catch]. unfold fallback_server.
  now destruct (String.eqb (requested server) "ruplay").
Qed.

Lemma findEpisodeServer_fallback_witness :
  Provider.findEpisodeServer empty_document_host
    (MkEpisodeDetails "naruto-episodio-1" 1 "https://q1n.net/episodio/naruto-episodio-1/" "")
    "vidstream" =
  Normal (player_answer
            (requested "vidstream")
            (fallback_url (fallback_server "vidstream")
               (ep_id (MkEpisodeDetails "naruto-episodio-1" 1
                         "https://q1n.net/episodio/naruto-episodio-1/" "")))).
Proof.
  refine (findEpisodeServer_fallback empty_document_host
            (MkEpisodeDetails "naruto-episodio-1" 1
               "https://q1n.net/episodio/naruto-episodio-1/" "")
            "vidstream" "<html></html>" (fun _ => []) _ _ _ _ _ _ _).
  - split; vm_compute; discriminate.
  - reflexivity.
  - discriminate.
  - reflexivity.
  - reflexivity.
  - reflexivity.
  - intros H. apply includes_iff in H. vm_compute in H. discriminate.
Defined.

Lemma scanEpisodePages_step (host : Host) (animeSlug : string) (i remaining : nat) :
  Provider.scanEpisodePages host animeSlug i (S remaining) =
  match fetch host "HEAD" (Provider.buildEpisodeUrl animeSlug i) with
  | Normal response =>
      if ok response then
        {| ep_id := animeSlug ++ "-episodio-" ++ string_of_nat i;
           ep_number := Z.of_nat i;
           ep_url := Provider.buildEpisodeUrl animeSlug i;
           ep_title := "Epis" ++ String "243" "dio " ++ string_of_nat i |}
        :: Provider.scanEpisodePages host animeSlug (S i) remaining
      else if (1 <? i)%nat then []
      else Provider.scanEpisodePages host animeSlug (S i) remaining
  | Throw _ => []
  end.
Proof. reflexivity. Qed.

(** The scan from a page after the first gives the numbers from that page
    on. *)
Lemma scanEpisodePages_numbered (host : Host) (animeSlug : string) (remaining : nat) :
  forall i, (2 <= i)%nat ->
    numbered_from i (Provider.scanEpisodePages host animeSlug i remaining) /\
    (List.length (Provider.scanEpisodePages host animeSlug i remaining) <= remaining)%nat.
Proof.
  unfold numbered_from.
  induction remaining as [|remaining IH]; intros i Hi;
    [split; [reflexivity | simpl; lia]|].
  rewrite scanEpisodePages_step.
  destruct (fetch host "HEAD" _) as [response|]; [|split; [reflexivity | simpl; lia]].
  destruct (ok response).
  - destruct (IH (S i) ltac:(lia)) as [Hn Hl].
    cbn [map List.length seq ep_number]. rewrite Hn. split; [reflexivity | lia].
  - replace (1 <? i)%nat with true by (symmetry; apply Nat.ltb_lt; lia).
    split; [reflexivity | cbn [List.length]; lia].
Qed.

Lemma scanEpisodePages_from_one (host : Host) (animeSlug : string) (remaining : nat) :
  (List.length (Provider.scanEpisodePages host animeSlug 1 remaining) <= remaining)%nat /\
  (numbered_from 1 (Provider.scanEpisodePages host animeSlug 1 remaining) \/
   numbered_from 2 (Provider.scanEpisodePages host animeSlug 1 remaining)).
Proof.
  destruct remaining as [|remaining]; [split; [simpl; lia | now left]|].
  rewrite scanEpisodePages_step.
  destruct (scanEpisodePages_numbered host animeSlug remaining 2 ltac:(lia)) as [Hn Hl].
  destruct (fetch host "HEAD" _) as [response|]; [|split; [simpl; lia | now left]].
  destruct (ok response).
  - split; [cbn [List.length]; lia|]. left. unfold numbered_from in *.
    cbn [map List.length seq ep_number]. now rewrite Hn.
  - change (1 <? 1)%nat with false. cbv iota. split; [lia | now right].
Qed.

Lemma findEpisodesFromEpisodePages_scan (host : Host) (animeSlug : string) :
  (List.length (Provider.findEpisodesFromEpisodePages host animeSlug) <= MAX_EPISODES_SCAN)%nat /\
  (numbered_from 1 (Provider.findEpisodesFromEpisodePages host animeSlug) \/
   numbered_from 2 (Provider.findEpisodesFromEpisodePages host animeSlug)).
Proof. apply scanEpisodePages_from_one. Qed.


Lemma all_digits_match_rep (R : Type) (k : cont R) (cs : captures) (r : R) :
  (forall p, k p "" cs = Some r) ->
  forall s lo prev,
    all_chars isDigit s = true -> (lo <= String.length s)%nat ->
    match_rep R false digit lo None prev s cs k = Some r.
Proof.
  intros Hk. induction s as [|c s IH]; intros lo prev Hall Hlo; cbn [match_rep].
  - simpl in Hlo. replace lo with 0%nat by lia. apply Hk.
  - simpl in Hall. apply andb_true_iff in Hall. destruct Hall as [Hc Hs].
    assert (Ha : atom_has false digit c = true).
    { unfold atom_has, digit, set_has. simpl. now rewrite Hc. }
    rewrite Ha. cbn [andb option_map].
    rewrite (IH (Nat.pred lo) (Some c) Hs) by (simpl in Hlo; lia). reflexivity.
Qed.

Lemma only_digits_test (id : string) :
  all_chars isDigit id = true -> id <> "" -> test false Provider.ONLY_DIGITS id = true.
Proof.
  intros Hall Hne. unfold test, js_match.
  assert (H : match_here false Provider.ONLY_DIGITS None id <> None).
  { unfold match_here, Provider.ONLY_DIGITS. cbn [rseq rmatch plus].
    erewrite all_digits_match_rep; [discriminate | | exact Hall |].
    - intros p. reflexivity.
    - destruct id; [contradiction | simpl; lia]. }
  destruct id as [|c s]; [contradiction|]. cbn [search_from].
  destruct (match_here false Provider.ONLY_DIGITS None (String c s)); [reflexivity | contradiction].
Qed.

(** X12.  An id made of digits only is no anime id: [findEpisodes]
    returns the empty list for it, whatever the host would answer. *)
Theorem findEpisodes_numeric_id (host : Host) (id : string) :
  all_chars isDigit id = true -> id <> "" ->
  Provider.findEpisodes host id = Normal [].
Proof.
  intros Hall Hne. unfold Provider.findEpisodes, Provider.isValidAnimeId.
  rewrite (only_digits_test id Hall Hne). reflexivity.
Qed.

Lemma findEpisodes_numeric_id_witness :
  Provider.findEpisodes example_document_host "12345" = Normal [].
Proof.
  apply findEpisodes_numeric_id; [reflexivity | discriminate].
Defined.

End Q1NFallbackFacts.

Section Q1NEpisodeOrder.
Import JS Q1N Occurrence Q1NSpec Q1NExtraSpec.

Lemma numbered_from_sorted (episodes : list EpisodeDetails) : forall start,
  numbered_from start episodes -> by_number episodes.
Proof.
  unfold numbered_from, by_number.
  induction episodes as [|a l IH]; intros start H; [constructor|].
  cbn [map List.length seq] in H. injection H as Ha Hl.
  constructor; [now apply (IH (S start))|].
  destruct l as [|b l]; constructor.
  cbn [map List.length seq] in Hl. injection Hl as Hb _.
  change (ep_number b = Z.of_nat (S start)) in Hb.
  rewrite Ha, Hb. apply inj_le. apply Nat.le_succ_diag_r.
Qed.

Lemma sortEpisodes_by_number (episodes : list EpisodeDetails) :
  by_number (Provider.sortEpisodes episodes).
Proof.
  unfold by_number, Provider.sortEpisodes.
  apply (sort_Sorted _ _ _ (fun _ => True)).
  - intros x y _ _ H. destruct (Z.gtb_spec (ep_number x - ep_number y) 0); [discriminate | lia].
  - intros x y _ _ H. apply Z.gtb_lt in H. lia.
  - apply Forall_forall. auto.
Qed.

(** X13.  Every list of episodes [findEpisodes] returns is in
    non-decreasing order of episode number, whether it was read from the
    anime page and sorted or found by the scan of the episode pages; and
    the sort loses and adds no episode.  (Episode numbers are integers,
    as [parseInt] reads them; the numbers of the code are exact up to
    2^53.) *)
Theorem findEpisodes_by_number (host : Host) (id : string) (episodes : list EpisodeDetails) :
  Provider.findEpisodes host id = Normal episodes ->
  by_number episodes /\
  (forall parsed, Permutation parsed (Provider.sortEpisodes parsed)).
Proof.
  intros H. split; [|intros parsed; apply sort_perm].
  assert (Hscan : by_number (Provider.findEpisodesFromEpisodePages host id)).
  { destruct (findEpisodesFromEpisodePages_scan host id) as [_ [Hn | Hn]];
      eapply numbered_from_sorted; eauto. }
  revert H Hscan. unfold Provider.findEpisodes.
  generalize (Provider.findEpisodesFromEpisodePages host id). intros scanned H Hscan.
  revert H.
  destruct (negb (Provider.isValidAnimeId id));
    [intros H; injection H as <-; constructor|].
  destruct (Provider.fetchHtml host (Provider.buildAnimeUrl id)) as [html|];
    [|intros H; injection H as <-; exact Hscan].
  destruct (negb (truthy html)); [intros H; injection H as <-; exact Hscan|].
  destruct (Provider.parseEpisodesFromAnimePage host html) as [parsed|]; cbn [bind try_catch];
    [|intros H; injection H as <-; constructor].
  destruct parsed as [|e parsed]; intros H; injection H as <-; [exact Hscan|].
  exact (sortEpisodes_by_number (e :: parsed)).
Qed.

(** Three episodes listed as 3, 1, 2 on the page of the anime come back as
    1, 2, 3; and when the page of the anime is not found, the three pages
    of episodes that answer are found by the scan, in order. *)
Lemma findEpisodes_by_number_witness :
  (exists episodes,
     Provider.findEpisodes (episodes_host three_episodes) "naruto" = Normal episodes /\
     map ep_number episodes = [1; 2; 3]%Z /\ by_number episodes) /\
  (exists episodes,
     Provider.findEpisodes scanned_host "naruto" = Normal episodes /\
     map ep_number episodes = [1; 2; 3]%Z /\ by_number episodes).
Proof.
  split.
  - destruct (Provider.findEpisodes (episodes_host three_episodes) "naruto")
      as [episodes|e] eqn:H; [|vm_compute in H; discriminate].
    exists episodes. split; [reflexivity|].
    pose proof (proj1 (findEpisodes_by_number _ _ episodes H)) as Hsorted.
    split; [|exact Hsorted].
    vm_compute in H. injection H as <-. reflexivity.
  - destruct (Provider.findEpisodes scanned_host "naruto")
      as [episodes|e] eqn:H; [|vm_compute in H; discriminate].
    exists episodes. split; [reflexivity|].
    pose proof (proj1 (findEpisodes_by_number _ _ episodes H)) as Hsorted.
    split; [|exact Hsorted].
    vm_compute in H. injection H as <-. reflexivity.
Defined.

(** X14.  A title is taken as dubbed exactly when its lower-cased text
    contains [dub]: the test for [dublado] adds nothing, and a title such
    as "Dubai" counts as dubbed too. *)
Theorem detectSubOrDub_dub (title : string) :
  Provider.detectSubOrDub title = dub <-> contains (toLowerCase title) "dub".
Proof.
  unfold Provider.detectSubOrDub. rewrite <- includes_iff.
  destruct (includes (toLowerCase title) "dub") eqn:Hd.
  - rewrite orb_true_r. tauto.
  - destruct (includes (toLowerCase title) "dublado") eqn:Hl.
    + apply includes_iff in Hl. destruct Hl as [before [after Hl]].
      assert (Hc : contains (toLowerCase title) "dub")
        by (exists before, ("lado" ++ after); rewrite Hl; reflexivity).
      apply includes_iff in Hc. congruence.
    + simpl. split; discriminate.
Qed.

End Q1NEpisodeOrder.

(** ** MangaLivre: what is read from the pages *)

Section MangaFacts.
Import JS MangaLivre Occurrence HashSpec ChapterSpec MangaSpec.

Lemma chapter_set_char (ic : bool) (c : ascii) :
  atom_has ic (Set_ [CDigit; CChar "."; CChar ","]) c = is_chapter_char c.
Proof.
  destruct ic;
    destruct c as [[] [] [] [] [] [] [] []]; reflexivity.
Qed.

Lemma slug_set_char (c : ascii) :
  atom_has false (Set_ [CRange "a" "z"; CRange "A" "Z"; CChar "-"]) c = is_slug_char c.
Proof. destruct c as [[] [] [] [] [] [] [] []]; reflexivity. Qed.

Lemma not_slash_char (c : ascii) :
  atom_has false (NotSet [CChar "/"]) c = not_slash c.
Proof. destruct c as [[] [] [] [] [] [] [] []]; reflexivity. Qed.

Lemma contains_head (g after : string) : contains (g ++ after) g.
Proof. now exists "", after. Qed.

Lemma contains_append (a t g : string) : contains t g -> contains (a ++ t) g.
Proof.
  intros [before [after ->]]. exists (a ++ before), after. now rewrite append_assoc.
Qed.

Lemma contains_cons (c : ascii) (t g : string) : contains t g -> contains (String c t) g.
Proof. intros [before [after ->]]. now exists (String c before), after. Qed.

(** The number text the pattern of the titles has read. *)
Lemma CHAPTER_TITLE_capture (prev : option ascii) (s : string) (m : rmatch_result) :
  match_here true CHAPTER_TITLE prev s = Some m ->
  exists g, group 1 m = Some g /\ g <> "" /\
            all_chars is_chapter_char g = true /\ contains s g.
Proof.
  unfold match_here, CHAPTER_TITLE. cbn [rseq rmatch plus star]. intros H.
  apply match_str_sound in H. destruct H as [r1 [a1 [p1 [-> [_ H]]]]]. cbn beta in H.
  destruct a1 as [|c a1]; [discriminate|].
  destruct (atom_has true _ c); [|discriminate].
  apply match_str_sound in H. destruct H as [r2 [a2 [p2 [-> [_ H]]]]]. cbn beta in H.
  apply match_rep_sound in H. destruct H as [r3 [a3 [p3 [-> [_ [_ [_ H]]]]]]]. cbn beta in H.
  apply match_rep_sound in H. destruct H as [g [a4 [p4 [-> [Hall [Hlen [_ H]]]]]]].
  cbn beta in H. inversion H; subst m; clear H.
  rewrite take_read. exists g. split; [reflexivity|].
  split; [apply (all_chars_length_pos is_chapter_char); exact Hlen|].
  split; [rewrite <- Hall; apply all_chars_ext; intros x; symmetry; apply chapter_set_char|].
  apply contains_append, contains_cons, contains_append, contains_append, contains_head.
Qed.

(** The number text the pattern of the addresses has read. *)
Lemma CHAPTER_HREF_capture (prev : option ascii) (s : string) (m : rmatch_result) :
  match_here true CHAPTER_HREF prev s = Some m ->
  exists g, group 1 m = Some g /\ g <> "" /\
            all_chars is_chapter_char g = true /\ contains s g.
Proof.
  unfold match_here, CHAPTER_HREF. cbn [rseq rmatch plus star]. intros H.
  apply match_str_sound in H. destruct H as [r1 [a1 [p1 [-> [_ H]]]]]. cbn beta in H.
  apply match_rep_sound in H. destruct H as [g [a4 [p4 [-> [Hall [Hlen [_ H]]]]]]].
  cbn beta in H. inversion H; subst m; clear H.
  rewrite take_read. exists g. split; [reflexivity|].
  split; [apply (all_chars_length_pos is_chapter_char); exact Hlen|].
  split; [rewrite <- Hall; apply all_chars_ext; intros x; symmetry; apply chapter_set_char|].
  apply contains_append, contains_head.
Qed.

(** The slug the pattern of the manga addresses has read. *)
Lemma MANGA_ID_capture (prev : option ascii) (s : string) (m : rmatch_result) :
  match_here false MANGA_ID prev s = Some m ->
  exists g, group 1 m = Some g /\ g <> "" /\ all_chars not_slash g = true.
Proof.
  unfold match_here, MANGA_ID. cbn [rseq rmatch plus star]. intros H.
  apply match_str_sound in H. destruct H as [r1 [a1 [p1 [-> [_ H]]]]]. cbn beta in H.
  apply match_rep_sound in H. destruct H as [g [a4 [p4 [-> [Hall [Hlen [_ H]]]]]]].
  cbn beta in H.
  apply match_str_sound in H. destruct H as [r2 [a2 [p2 [-> [_ H]]]]]. cbn beta in H.
  inversion H; subst m; clear H.
  rewrite take_read. exists g. split; [reflexivity|].
  split; [apply (all_chars_length_pos not_slash); exact Hlen|].
  rewrite <- Hall. apply all_chars_ext. intros x. symmetry. apply not_slash_char.
Qed.

Lemma group_text_of (n : nat) (m : rmatch_result) (g : string) :
  group n m = Some g -> group_text n m = g.
Proof. unfold group_text. now intros ->. Qed.

Lemma parseChapter_parsed (element : Element) :
  Forall (fun c => parsed_chapter c /\ index c = 0%nat) (Provider.parseChapter element).
Proof.
  unfold Provider.parseChapter.
  destruct (find_all [element] "a") as [|first more]; [constructor|].
  cbv beta iota zeta.
  set (title := trim (text (first :: more))).
  set (href := text_or_empty (attr (first :: more) "href")).
  destruct (truthy title && truthy href) eqn:Ht; [|constructor].
  apply andb_true_iff in Ht. destruct Ht as [Ht Hh].
  apply truthy_not_empty in Ht. apply truthy_not_empty in Hh.
  assert (Hm : forall m g,
             group 1 m = Some g -> g <> "" -> all_chars is_chapter_char g = true ->
             contains title g \/ contains href g ->
             Forall (fun c => parsed_chapter c /\ index c = 0%nat)
                    (if truthy (group_text 1 m)
                     then [ {| c_id := href; c_url := href; c_title := title;
                               chapter := group_text 1 m; index := 0;
                               language := "pt-BR" |} ]
                     else [])).
  { intros m g Hg Hne Hall Hin. rewrite (group_text_of _ _ _ Hg).
    destruct (truthy g); constructor; [|constructor].
    split; [|reflexivity]. unfold parsed_chapter. cbn.
    repeat (split; [assumption || reflexivity|]). reflexivity. }
  destruct (js_match true CHAPTER_TITLE title) as [m|] eqn:Hm1.
  - apply js_match_position in Hm1.
    destruct Hm1 as [before [p [suffix [Heq [Hhere _]]]]].
    apply CHAPTER_TITLE_capture in Hhere. destruct Hhere as [g [Hg [Hne [Hall Hin]]]].
    apply (Hm m g Hg Hne Hall). left. rewrite Heq. now apply contains_append.
  - destruct (js_match true CHAPTER_HREF href) as [m|] eqn:Hm2; [|constructor].
    apply js_match_position in Hm2.
    destruct Hm2 as [before [p [suffix [Heq [Hhere _]]]]].
    apply CHAPTER_HREF_capture in Hhere. destruct Hhere as [g [Hg [Hne [Hall Hin]]]].
    apply (Hm m g Hg Hne Hall). right. rewrite Heq. now apply contains_append.
Qed.

Lemma parseChapters_parsed (elements : Selection) :
  Forall (fun c => parsed_chapter c /\ index c = 0%nat) (Provider.parseChapters elements).
Proof. apply Forall_flat_map_all, parseChapter_parsed. Qed.

Lemma content_reindex (entry : nat * ChapterDetails) :
  content (reindex entry) = content (snd entry).
Proof. now destruct entry. Qed.

Lemma sortAndIndexChapters_content (chapters : list ChapterDetails) :
  Permutation (map content chapters) (map content (Provider.sortAndIndexChapters chapters)).
Proof.
  rewrite sortAndIndexChapters_unfold, map_map.
  rewrite (map_ext _ (fun entry => content (snd entry)) content_reindex).
  rewrite <- (map_map snd content). unfold indexed. rewrite indexed_from_snd.
  apply Permutation_map, sort_perm.
Qed.

Lemma parsed_chapter_content (a b : ChapterDetails) :
  content a = content b -> parsed_chapter a -> parsed_chapter b.
Proof.
  destruct a, b. unfold content, parsed_chapter. cbn.
  intros H. inversion H; subst. tauto.
Qed.

Lemma sortAndIndexChapters_parsed (chapters : list ChapterDetails) :
  Forall parsed_chapter chapters ->
  Forall parsed_chapter (Provider.sortAndIndexChapters chapters).
Proof.
  intros H. apply Forall_forall. intros c Hc.
  apply (in_map content) in Hc.
  apply (Permutation_in _ (Permutation_sym (sortAndIndexChapters_content chapters))) in Hc.
  apply in_map_iff in Hc. destruct Hc as [c0 [Heq Hin]].
  rewrite Forall_forall in H. exact (parsed_chapter_content _ _ Heq (H _ Hin)).
Qed.

(** What [findChapters] returns is empty or the chapters parsed from a
    page, sorted and indexed; it never throws. *)
Lemma findChapters_from_page (host : Host) (mangaId : string) :
  exists l, Provider.findChapters host mangaId = Normal l /\
            (l = [] \/
             exists elements,
               l = Provider.sortAndIndexChapters (Provider.parseChapters elements)).
Proof.
  unfold Provider.findChapters, bind, try_catch.
  repeat match goal with
         | |- context [match ?x with _ => _ end] =>
             lazymatch x with
             | context [match _ with _ => _ end] => fail
             | _ => destruct x
             end
         end;
    eexists; (split; [reflexivity|]);
    first [left; reflexivity | right; eexists; reflexivity].
Qed.

(** X15.  [findChapters] always returns a list, and every chapter in it
    was read from a link of the page: its number text is not empty, is
    made of digits, dots and commas only and stands in the title or in
    the address of the link; its id is its address, and neither the
    address nor the title is empty; its language is pt-BR. *)
Theorem findChapters_parsed (host : Host) (mangaId : string) :
  exists l, Provider.findChapters host mangaId = Normal l /\ Forall parsed_chapter l.
Proof.
  destruct (findChapters_from_page host mangaId) as [l [Hl [-> | [elements ->]]]];
    eexists; (split; [exact Hl|]); [constructor|].
  apply sortAndIndexChapters_parsed.
  eapply Forall_impl; [|apply parseChapters_parsed]. now intros c [H _].
Qed.

(** X16.  [sortAndIndexChapters] loses, adds and changes no chapter: apart
    from the index, the chapters it returns are the chapters it was given,
    each as often as it was given; and before the sort every chapter
    parsed from a page has the index 0. *)
Theorem sortAndIndexChapters_keeps (chapters : list ChapterDetails) :
  Permutation (map content chapters) (map content (Provider.sortAndIndexChapters chapters)) /\
  List.length (Provider.sortAndIndexChapters chapters) = List.length chapters /\
  (forall elements, Forall (fun c => index c = 0%nat) (Provider.parseChapters elements)).
Proof.
  split; [apply sortAndIndexChapters_content|]. split.
  - rewrite <- (length_map content (Provider.sortAndIndexChapters chapters)).
    rewrite <- (length_map content chapters).
    symmetry. apply Permutation_length, sortAndIndexChapters_content.
  - intros elements. eapply Forall_impl; [|apply parseChapters_parsed]. now intros c [_ H].
Qed.

Lemma search_from_no_char (a : atom) (s : string) : forall prev,
  all_chars (fun c => negb (atom_has false a c)) s = true ->
  search_from false (RAtom a) prev s = None.
Proof.
  induction s as [|c s IH]; intros prev H; [reflexivity|].
  simpl in H. apply andb_true_iff in H. destruct H as [Hc Hs].
  apply negb_true_iff in Hc.
  cbn [search_from]. unfold match_here at 1. cbn [rmatch]. rewrite Hc.
  now apply IH.
Qed.

Lemma search_from_char_none (a : atom) (s : string) : forall prev,
  search_from false (RAtom a) prev s = None ->
  all_chars (fun c => negb (atom_has false a c)) s = true.
Proof.
  induction s as [|c s IH]; intros prev H; [reflexivity|].
  cbn [search_from] in H. unfold match_here at 1 in H. cbn [rmatch] in H.
  simpl. destruct (atom_has false a c); [discriminate|].
  simpl. now apply (IH (Some c)).
Qed.

(** X17.  The id of a manga is refused exactly when it has no letter of
    the English alphabet and no hyphen; for such an id [findChapters]
    returns the empty list whatever the host answers. *)
Theorem findChapters_needs_slug (host : Host) (mangaId : string) :
  (test false SLUG_CHAR mangaId = false <->
   all_chars (fun c => negb (is_slug_char c)) mangaId = true) /\
  (all_chars (fun c => negb (is_slug_char c)) mangaId = true ->
   Provider.findChapters host mangaId = Normal []).
Proof.
  assert (Hiff : test false SLUG_CHAR mangaId = false <->
                 all_chars (fun c => negb (is_slug_char c)) mangaId = true).
  { rewrite (all_chars_ext _ (fun c => negb (atom_has false
               (Set_ [CRange "a" "z"; CRange "A" "Z"; CChar "-"]) c)))
      by (intros c; now rewrite slug_set_char).
    unfold test, js_match, SLUG_CHAR. split.
    - destruct (search_from false _ None mangaId) eqn:H; [discriminate|].
      intros _. now apply search_from_char_none in H.
    - intros H. now rewrite (search_from_no_char _ _ None H). }
  split; [exact Hiff|].
  intros H. apply Hiff in H. unfold Provider.findChapters. now rewrite H.
Qed.

Lemma findChapters_needs_slug_witness :
  Provider.findChapters (chapters_host three_chapters) "12345" = Normal [].
Proof.
  apply (proj2 (findChapters_needs_slug (chapters_host three_chapters) "12345")).
  reflexivity.
Defined.

Lemma numbered_pages (chapterId : string) (f : nat * Element -> list ChapterPage) :
  (forall i e, f (i, e) = [] \/
               exists p, f (i, e) = [p] /\ p_index p = i /\ page_of chapterId p) ->
  forall elements k,
    Forall (page_of chapterId) (flat_map f (indexed_from k elements)) /\
    increasing (flat_map f (indexed_from k elements)) /\
    Forall (fun p => (k <= p_index p)%nat) (flat_map f (indexed_from k elements)).
Proof.
  intros Hf. unfold increasing.
  induction elements as [|e elements IH]; intros k; cbn [indexed_from flat_map].
  - repeat split; constructor.
  - destruct (IH (S k)) as [Hall [Hsorted Hfrom]].
    destruct (Hf k e) as [-> | [p [-> [Hi Hp]]]]; cbn [app].
    + split; [exact Hall|]. split; [exact Hsorted|].
      eapply Forall_impl; [|exact Hfrom]. intros q Hq. cbn beta in Hq. lia.
    + split; [now constructor|]. split.
      * constructor; [exact Hsorted|].
        destruct (flat_map f (indexed_from (S k) elements)) as [|q rest]; constructor.
        inversion Hfrom; subst. lia.
      * constructor; [lia|].
        eapply Forall_impl; [|exact Hfrom]. intros q Hq. cbn beta in Hq. lia.
Qed.

(** X18.  [findChapterPages] always returns a list; every page in it has
    an address that is not empty and names the chapter as the referer of
    its request; the indices of the pages grow strictly, being the
    positions of the images in the page; and for an id that does not
    begin with [http] the list is empty whatever the host answers. *)
Theorem findChapterPages_pages (host : Host) (chapterId : string) :
  exists pages,
    Provider.findChapterPages host chapterId = Normal pages /\
    Forall (page_of chapterId) pages /\
    increasing pages /\
    (startsWith chapterId "http" = false -> pages = []).
Proof.
  assert (Hnil : Forall (page_of chapterId) [] /\ increasing []) by (split; constructor).
  unfold Provider.findChapterPages, bind, try_catch, loadDocument, bind.
  destruct (startsWith chapterId "http") eqn:Hhttp; cbn [negb].
  2: { exists []. destruct Hnil. auto. }
  destruct (fetch host "GET" chapterId) as [response|];
    [|exists []; destruct Hnil; repeat split; auto; discriminate].
  destruct (negb (ok response));
    [exists []; destruct Hnil; repeat split; auto; discriminate|].
  destruct (LoadDoc host (body response)) as [[doc|]|];
    try (exists []; destruct Hnil; repeat split; auto; discriminate).
  eexists. split; [reflexivity|].
  match goal with
  | |- Forall _ (flat_map ?f (indexed ?images)) /\ _ =>
      assert (Hf : forall i e, f (i, e) = [] \/
                     exists p, f (i, e) = [p] /\ p_index p = i /\ page_of chapterId p);
      [|destruct (numbered_pages chapterId f Hf images 0%nat) as [Hall [Hsorted _]]]
  end.
  - intros i e. cbv beta iota zeta.
    destruct (truthy _) eqn:Ht; [right | now left].
    eexists. split; [reflexivity|]. split; [reflexivity|].
    unfold page_of. cbn. apply truthy_not_empty in Ht.
    split; [exact Ht|]. split; [discriminate | reflexivity].
  - split; [exact Hall|]. split; [exact Hsorted | discriminate].
Qed.

Lemma findChapterPages_pages_witness :
  exists pages,
    Provider.findChapterPages (pages_host ["//a/1.jpg"; ""; "b/2.jpg"]) "https://x/1" =
      Normal pages /\
    map p_index pages = [0; 2]%nat /\
    Forall (page_of "https://x/1") pages /\ increasing pages.
Proof.
  destruct (findChapterPages_pages (pages_host ["//a/1.jpg"; ""; "b/2.jpg"]) "https://x/1")
    as [pages [Hp [Hall [Hinc _]]]].
  exists pages. split; [exact Hp|].
  vm_compute in Hp. inversion Hp; subst pages; clear Hp.
  split; [reflexivity|]. split; [exact Hall | exact Hinc].
Defined.

Lemma parseSearchItem_parsed (element : Element) :
  Forall parsed_result (Provider.parseSearchItem element).
Proof.
  unfold Provider.parseSearchItem.
  destruct (find_all [element] "h2 a") as [|first more]; [constructor|].
  cbv beta iota zeta.
  set (title_ := trim (text (first :: more))).
  set (href := text_or_empty (attr (first :: more) "href")).
  destruct (truthy title_) eqn:Ht; [|constructor].
  destruct (truthy href) eqn:Hh; [|constructor]. cbn [negb orb].
  destruct (js_match false MANGA_ID href) as [m|] eqn:Hm; [|constructor].
  apply js_match_position in Hm.
  destruct Hm as [before [p [suffix [Heq [Hhere _]]]]].
  apply MANGA_ID_capture in Hhere. destruct Hhere as [g [Hg [Hne Hall]]].
  rewrite (group_text_of _ _ _ Hg).
  destruct (truthy g); cbn [negb]; constructor; [|constructor].
  unfold parsed_result. cbn [id title image].
  split; [exact Hne|]. split; [exact Hall|]. split; [now apply truthy_not_empty|].
  destruct (find_all [element] ".manga__thumb img") as [|img imgs]; [exact I|].
  set (src := text_or_empty _).
  destruct (truthy src) eqn:Hs; [|exact I].
  destruct (startsWith src "//") eqn:Hp.
  - split; [discriminate | reflexivity].
  - split; [now apply truthy_not_empty | exact Hp].
Qed.

(** X19.  [search] of MangaLivre always returns a list; every result in
    it has an id that is not empty and has no slash, a title that is not
    empty, and for image either nothing or an address that is not empty
    and does not begin with two slashes. *)
Theorem search_results_parsed (host : Host) (opts : QueryOptions) :
  exists results,
    Provider.search host opts = Normal results /\ Forall parsed_result results.
Proof.
  unfold Provider.search, bind, try_catch, loadDocument, bind.
  destruct (Provider.searchUrl opts) as [url|];
    [|exists []; split; [reflexivity | constructor]].
  destruct (fetch host "GET" url) as [response|];
    [|exists []; split; [reflexivity | constructor]].
  destruct (negb (ok response)); [exists []; split; [reflexivity | constructor]|].
  destruct (LoadDoc host (body response)) as [[doc|]|];
    try (exists []; split; [reflexivity | constructor]).
  eexists. split; [reflexivity|].
  apply Forall_flat_map_all, parseSearchItem_parsed.
Qed.

Lemma read_digits_count (s : string) : forall acc n,
  (n <= snd (fst (read_digits acc n s)))%Z.
Proof.
  induction s as [|c s IH]; intros acc n; simpl; [lia|].
  destruct (isDigit c); [|simpl; lia].
  specialize (IH (acc * 10 + digit_val c)%Z (n + 1)%Z). lia.
Qed.

Lemma read_unsigned_number (s : string) :
  (1 <= snd (fst (read_digits 0 0 s)))%Z -> read_unsigned s <> NaN.
Proof.
  unfold read_unsigned. destruct (String.prefix "Infinity" s); [discriminate|].
  destruct (read_digits 0 0 s) as [[v n] r]. cbn [fst snd]. intros Hn.
  assert (Hz : (n =? 0)%Z = false) by (apply Z.eqb_neq; lia).
  destruct r as [|c r].
  - rewrite Hz. apply binary64_cases.
  - destruct c as [[] [] [] [] [] [] [] []];
      try (rewrite Hz; apply binary64_cases).
    destruct (read_digits v 0 r) as [[all frac] after]. rewrite Hz. apply binary64_cases.
Qed.

Lemma digit_head (d : ascii) (s : string) :
  isDigit d = true ->
  replace_first "," "." (String d s) = String d (replace_first "," "." s) /\
  parseFloat (String d (replace_first "," "." s)) =
    read_unsigned (String d (replace_first "," "." s)) /\
  read_digits 0 0 (String d (replace_first "," "." s)) =
    read_digits (digit_val d) 1 (replace_first "," "." s).
Proof.
  intros Hd. unfold parseFloat. cbn [read_digits trimStart]. rewrite Hd.
  destruct d as [[] [] [] [] [] [] [] []]; try discriminate Hd;
    (split; [reflexivity|]; split; reflexivity).
Qed.

Lemma leading_digit_number (c : ChapterDetails) :
  leading_digit (chapter c) -> is_number c.
Proof.
  intros [d [s [Hc Hd]]]. unfold is_number, value, Provider.chapterNumber. rewrite Hc.
  destruct (digit_head d s Hd) as [-> [-> Hread]].
  apply read_unsigned_number. rewrite Hread.
  pose proof (read_digits_count (replace_first "," "." s) (digit_val d) 1). lia.
Qed.



End MangaFacts.

(** ** Q1N, refactored: the players read from the page text *)

Section RefactoredFacts.
Import JS Q1N Occurrence Q1NSpec Q1NRefactored RefactoredSpec.

Lemma map_get_set (key k v : string) (m : JsMap) :
  map_get key (map_set k v m) = if String.eqb k key then Some v else map_get key m.
Proof.
  induction m as [|[k0 v0] m IH]; simpl; [reflexivity|].
  destruct (String.eqb k0 k) eqn:E; simpl.
  - apply String.eqb_eq in E. subst k0. now destruct (String.eqb k key).
  - destruct (String.eqb k0 key) eqn:E2; [|exact IH].
    apply String.eqb_eq in E2. subst k0.
    destruct (String.eqb k key) eqn:E3; [|reflexivity].
    apply String.eqb_eq in E3. subst k. rewrite String.eqb_refl in E. discriminate.
Qed.

Lemma map_set_keys (k v : string) (m : JsMap) :
  map fst (map_set k v m) = if map_has k m then map fst m else (map fst m ++ [k])%list.
Proof.
  unfold map_has. induction m as [|[k0 v0] m IH]; simpl; [reflexivity|].
  destruct (String.eqb k0 k); simpl; [reflexivity|].
  rewrite IH. now destruct (map_get k m).
Qed.

Lemma map_get_none_keys (k : string) (m : JsMap) :
  map_get k m = None -> ~ In k (map fst m).
Proof.
  induction m as [|[k0 v0] m IH]; simpl; [tauto|].
  destruct (String.eqb k0 k) eqn:E; [discriminate|].
  intros H [Hk | Hin]; [|now apply IH].
  subst k0. rewrite String.eqb_refl in E. discriminate.
Qed.

(** What [mapPlayerByUrl] does: nothing, or it files the address under a
    server that had no entry. *)
Lemma mapPlayerByUrl_cases (players : JsMap) (url : string) :
  PlayerExtractor.mapPlayerByUrl players url = players \/
  exists key, (key = "chplay" \/ key = "ruplay") /\ map_get key players = None /\
              PlayerExtractor.mapPlayerByUrl players url = map_set key url players.
Proof.
  unfold PlayerExtractor.mapPlayerByUrl, map_has.
  destruct (map_get "chplay" players) eqn:Hc, (map_get "ruplay" players) eqn:Hr;
    cbn [negb andb]; rewrite ?andb_false_r, ?andb_true_r.
  - now left.
  - right. exists "ruplay". destruct (includes url "csst.online"); auto.
  - right. exists "chplay". destruct (includes url "disneycdn.net"); auto.
  - right. destruct (includes url "disneycdn.net"); [exists "chplay"; auto|].
    destruct (includes url "csst.online"); [exists "ruplay" | exists "chplay"]; auto.
Qed.

(** X21.  [mapPlayerByUrl] never replaces a player: an entry of the map
    stays as it is; an entry that is new holds the address given and is
    filed under [chplay] or [ruplay]; and once both servers have a player
    every further address is dropped. *)
Theorem mapPlayerByUrl_keeps (players : JsMap) (url : string) :
  (forall key v, map_get key players = Some v ->
                 map_get key (PlayerExtractor.mapPlayerByUrl players url) = Some v) /\
  (forall key v, map_get key (PlayerExtractor.mapPlayerByUrl players url) = Some v ->
                 map_get key players = Some v \/
                 (v = url /\ (key = "chplay" \/ key = "ruplay"))) /\
  (map_has "chplay" players = true -> map_has "ruplay" players = true ->
   PlayerExtractor.mapPlayerByUrl players url = players).
Proof.
  split; [|split].
  - intros key v H.
    destruct (mapPlayerByUrl_cases players url) as [-> | [k [_ [Hnone ->]]]]; [exact H|].
    rewrite map_get_set. destruct (String.eqb k key) eqn:E; [|exact H].
    apply String.eqb_eq in E. subst k. congruence.
  - intros key v H.
    destruct (mapPlayerByUrl_cases players url) as [Heq | [k [Hk [Hnone Heq]]]];
      rewrite Heq in H; [now left|].
    rewrite map_get_set in H. destruct (String.eqb k key) eqn:E; [|now left].
    apply String.eqb_eq in E. subst k. inversion H. right. auto.
  - unfold map_has. intros Hc Hr.
    destruct (mapPlayerByUrl_cases players url) as [Heq | [k [[-> | ->] [Hnone _]]]];
      [exact Heq | |]; rewrite Hnone in *; discriminate.
Qed.

Lemma mapPlayerByUrl_keeps_witness :
  PlayerExtractor.mapPlayerByUrl [("chplay", "a"); ("ruplay", "b")] "https://csst.online/c" =
  [("chplay", "a"); ("ruplay", "b")].
Proof.
  apply (proj2 (proj2 (mapPlayerByUrl_keeps [("chplay", "a"); ("ruplay", "b")]
                                            "https://csst.online/c")));
    reflexivity.
Defined.

(** The invariant of the player map: the addresses are not empty, the
    keys are the two servers, and no key comes twice. *)
Lemma mapPlayerByUrl_invariant (players : JsMap) (url : string) :
  truthy url = true ->
  all_truthy players /\ Forall server_key players /\ NoDup (map fst players) ->
  all_truthy (PlayerExtractor.mapPlayerByUrl players url) /\
  Forall server_key (PlayerExtractor.mapPlayerByUrl players url) /\
  NoDup (map fst (PlayerExtractor.mapPlayerByUrl players url)).
Proof.
  intros Hurl [Hall [Hkeys Hnodup]].
  destruct (mapPlayerByUrl_cases players url) as [-> | [k [Hk [Hnone ->]]]]; [auto|].
  split; [now apply map_set_truthy|]. split.
  - clear Hall Hnodup Hnone. induction Hkeys as [|[k0 v0] m Hkv Hm IH]; simpl.
    + constructor; [exact Hk | constructor].
    + destruct (String.eqb k0 k); constructor; auto.
  - rewrite map_set_keys. unfold map_has. rewrite Hnone.
    apply NoDup_app; [exact Hnodup | repeat constructor; intros [] |].
    intros x Hx [<- | []]. exact (map_get_none_keys _ _ Hnone Hx).
Qed.

Lemma fold_left_invariant_in {A B : Type} (P : A -> Prop) (f : A -> B -> A) (l : list B) :
  (forall acc x, In x l -> P acc -> P (f acc x)) ->
  forall init, P init -> P (fold_left f l init).
Proof.
  induction l as [|x l IH]; intros Hstep init Hinit; simpl; [exact Hinit|].
  apply IH; [intros acc y Hy; apply Hstep; now right|].
  apply Hstep; [now left | exact Hinit].
Qed.

Lemma first_of_three {A : Type} (a b c : option A) (x : A) :
  match a with
  | Some y => Some y
  | None => match b with Some y => Some y | None => c end
  end = Some x ->
  a = Some x \/ b = Some x \/ c = Some x.
Proof. destruct a; [auto|]. destruct b; auto. Qed.

(** The address the pattern of the direct players has read is not empty. *)
Lemma IFRAME_DIRECT_capture (prev : option ascii) (s : string) (m : rmatch_result) :
  match_here true IFRAME_DIRECT prev s = Some m -> truthy (group_text 1 m) = true.
Proof.
  unfold match_here, IFRAME_DIRECT. cbn [rseq rmatch star]. intros H.
  apply match_str_sound in H. destruct H as [r1 [a1 [p1 [-> [_ H]]]]]. cbn beta in H.
  apply match_rep_sound in H. destruct H as [r2 [a2 [p2 [-> [_ [_ [_ H]]]]]]]. cbn beta in H.
  apply match_str_sound in H. destruct H as [r3 [a3 [p3 [-> [_ H]]]]]. cbn beta in H.
  destruct a3 as [|q sg]; [discriminate|].
  destruct (atom_has true quote q); [|discriminate].
  apply match_rep_sound in H. destruct H as [run [a4 [p4 [-> [_ [_ [_ H]]]]]]]. cbn beta in H.
  assert (Hread : exists read a5 p5,
             a4 = read ++ a5 /\ (8 <= String.length read)%nat /\
             match_rep rmatch_result true not_quote 0 None p5 a5 []
               (fun prev' s' cs' =>
                  match s' with
                  | String c s'' =>
                      if atom_has true quote c
                      then match_rep rmatch_result true (NotSet [CChar ">"]) 0 None (Some c) s''
                             ((1, take (String.length (run ++ a4) - String.length s') (run ++ a4))
                                :: cs')
                             (fun prev2 s2 cs2 =>
                                match_str rmatch_result true ">" prev2 s2 cs2
                                  (fun _ s3 cs3 =>
                                     Some (MkMatch
                                             (take (String.length
                                                      (r1 ++ r2 ++ r3 ++ String q (run ++ a4)) -
                                                    String.length s3)
                                                   (r1 ++ r2 ++ r3 ++ String q (run ++ a4)))
                                             cs3 s3)))
                      else None
                  | EmptyString => None
                  end) = Some m).
  { apply first_of_three in H. destruct H as [H | [H | H]];
      apply match_str_sound in H; destruct H as [read [a5 [p5 [Heq [Hlen Hk]]]]];
      exists read, a5, p5; (split; [exact Heq|]); (split; [simpl in Hlen; lia | exact Hk]). }
  clear H. destruct Hread as [read [a5 [p5 [-> [Hlen H]]]]].
  apply match_rep_sound in H. destruct H as [run2 [a6 [p6 [-> [_ [_ [_ H]]]]]]]. cbn beta in H.
  destruct a6 as [|c a6]; [discriminate|].
  destruct (atom_has true quote c); [|discriminate].
  apply match_rep_sound in H. destruct H as [r7 [a7 [p7 [-> [_ [_ [_ H]]]]]]]. cbn beta in H.
  apply match_str_sound in H. destruct H as [r8 [a8 [p8 [-> [_ H]]]]]. cbn beta in H.
  inversion H; subst m; clear H.
  unfold group_text, group. cbn [groups capture Nat.eqb].
  rewrite <- (append_assoc read run2), <- (append_assoc run (read ++ run2)), take_read.
  destruct run; [destruct read; [simpl in Hlen; lia | reflexivity] | reflexivity].
Qed.

Lemma extractFromHtml_invariant (host : Host) (html : string) (players : JsMap) :
  all_truthy players /\ Forall server_key players /\ NoDup (map fst players) ->
  all_truthy (PlayerExtractor.extractFromHtml host html players) /\
  Forall server_key (PlayerExtractor.extractFromHtml host html players) /\
  NoDup (map fst (PlayerExtractor.extractFromHtml host html players)).
Proof.
  intros H. unfold PlayerExtractor.extractFromHtml. cbv zeta.
  apply fold_left_invariant_in.
  - intros acc m Hm Hacc. apply mapPlayerByUrl_invariant; [|exact Hacc].
    unfold exec_all in Hm. apply scan_In in Hm. destruct Hm as [p [suffix Hm]].
    exact (IFRAME_DIRECT_capture _ _ _ Hm).
  - apply fold_left_invariant; [|exact H].
    intros acc m Hacc.
    destruct (PlayerExtractor.processAvisoPage host (group_text 1 m)) as [realUrl|];
      [|exact Hacc].
    destruct (truthy realUrl) eqn:Ht; [|exact Hacc].
    now apply mapPlayerByUrl_invariant.
Qed.

Lemma extractFromPage_invariant (host : Host) (html : string) (episode : EpisodeDetails) :
  PlayerExtractor.extractFromPage host html episode <> [] /\
  all_truthy (PlayerExtractor.extractFromPage host html episode) /\
  Forall server_key (PlayerExtractor.extractFromPage host html episode) /\
  NoDup (map fst (PlayerExtractor.extractFromPage host html episode)).
Proof.
  unfold PlayerExtractor.extractFromPage. cbv zeta.
  pose proof (extractFromHtml_invariant host html []) as H.
  destruct (PlayerExtractor.extractFromHtml host html []) as [|entry players].
  - assert (Hfb : PlayerExtractor.createFallbackPlayers [] (ep_id episode) =
                  [ ("chplay", CONFIG.API_BASE ++ "/player/" ++ "chplay" ++ "/" ++ ep_id episode);
                    ("ruplay", CONFIG.API_BASE ++ "/player/" ++ "ruplay" ++ "/" ++ ep_id episode) ])
      by reflexivity.
    rewrite Hfb. unfold all_truthy, server_key.
    split; [discriminate|].
    split; [constructor; [reflexivity | constructor; [reflexivity | constructor]]|].
    split; [constructor; [now left | constructor; [now right | constructor]]|].
    cbn [map fst].
    constructor; [intros [H1 | []]; discriminate|].
    constructor; [intros [] | constructor].
  - split; [discriminate|]. apply H. repeat split; constructor.
Qed.

(** X22.  The player map the refactored extraction returns is never
    empty; it has at most two entries, filed under [chplay] and [ruplay],
    no server twice; and no address in it is the empty text. *)
Theorem extractFromPage_two_servers (host : Host) (html : string) (episode : EpisodeDetails) :
  PlayerExtractor.extractFromPage host html episode <> [] /\
  (List.length (PlayerExtractor.extractFromPage host html episode) <= 2)%nat /\
  Forall server_key (PlayerExtractor.extractFromPage host html episode) /\
  NoDup (map fst (PlayerExtractor.extractFromPage host html episode)) /\
  all_truthy (PlayerExtractor.extractFromPage host html episode).
Proof.
  destruct (extractFromPage_invariant host html episode) as [Hne [Hall [Hkeys Hnodup]]].
  split; [exact Hne|]. split; [|auto].
  rewrite <- (length_map fst).
  change 2%nat with (List.length ["chplay"; "ruplay"]).
  apply NoDup_incl_length; [exact Hnodup|].
  intros k Hk. apply in_map_iff in Hk. destruct Hk as [entry [<- Hin]].
  rewrite Forall_forall in Hkeys. destruct (Hkeys _ Hin) as [-> | ->]; cbn; auto.
Qed.

(** X23.  For an episode whose data pass the guard and whose page loads
    with a text that is not empty, the refactored [findEpisodeServer]
    selects an address in the player map of the page by the fallback
    chain; the address is not empty; the call throws when the address
    contains [about:blank], and otherwise returns it as the one video
    source, of type m3u8, under the server looked up. *)
Theorem refactored_findEpisodeServer (host : Host) (episode : EpisodeDetails)
        (server html : string) :
  valid_episode episode ->
  HttpClient.fetchHtml host (ep_url episode) = Some html -> html <> "" ->
  exists u,
    chain (PlayerExtractor.extractFromPage host html episode) server = Some u /\
    u <> "" /\
    (contains u "about:blank" ->
     throws (Q1NRefactored.Provider.findEpisodeServer host episode server)) /\
    (~ contains u "about:blank" ->
     Q1NRefactored.Provider.findEpisodeServer host episode server =
     Normal (stream_answer (requested server) u)).
Proof.
  intros Hvalid Hfetch Hhtml.
  destruct (extractFromPage_invariant host html episode) as [Hne [Hall _]].
  destruct (chain_some _ server Hne) as [u Hu].
  exists u. split; [exact Hu|]. split; [eapply chain_truthy; eauto|].
  unfold Q1NRefactored.Provider.findEpisodeServer.
  rewrite (validateEpisodeData_valid episode Hvalid), Hfetch. cbn [bind].
  replace (negb (truthy html)) with false by (destruct html; [contradiction | reflexivity]).
  cbv zeta.
  change (if String.eqb server "default" || negb (truthy server)
          then CONFIG.DEFAULT_SERVER else server)
    with (Q1N.Provider.selectedServer server).
  rewrite selectBest_same, (selectBestPlayer_chain _ server Hall), Hu.
  rewrite selectedServer_requested.
  destruct (includes u "about:blank") eqn:Hb.
  - apply includes_iff in Hb. split; [intros _; eexists; reflexivity | contradiction].
  - split; [|reflexivity].
    intros Hc. apply includes_iff in Hc. congruence.
Qed.

Lemma refactored_findEpisodeServer_witness :
  exists u,
    chain (PlayerExtractor.extractFromPage
             (page_host "<iframe src='https://www.blogger.com/video.g?token=1'></iframe>")
             "<iframe src='https://www.blogger.com/video.g?token=1'></iframe>"
             example_episode) "ruplay" = Some u /\
    u = "https://www.blogger.com/video.g?token=1" /\
    Q1NRefactored.Provider.findEpisodeServer
      (page_host "<iframe src='https://www.blogger.com/video.g?token=1'></iframe>")
      example_episode "ruplay" =
    Normal (stream_answer "ruplay" u).
Proof.
  destruct (refactored_findEpisodeServer
              (page_host "<iframe src='https://www.blogger.com/video.g?token=1'></iframe>")
              example_episode "ruplay"
              "<iframe src='https://www.blogger.com/video.g?token=1'></iframe>")
    as [u [Hu [_ [_ Hok]]]].
  - split; vm_compute; discriminate.
  - reflexivity.
  - discriminate.
  - exists u. split; [exact Hu|].
    vm_compute in Hu. inversion Hu as [Heq]. subst u.
    split; [reflexivity|].
    apply Hok.
    intros Hc. apply includes_iff in Hc. vm_compute in Hc. discriminate.
Defined.

End RefactoredFacts.

(** ** DarkMahou: the normal form of a translated query *)

Section WordFacts.
Import JS DarkMahou PageSpec WordsSpec.

Lemma replace_spaces_collapsed (sep : string) (s : string) : forall prev,
  replace_scan false (plus space) (fun _ => sep) prev s (leading_spaces s) =
    collapsed sep true s /\
  replace_scan false (plus space) (fun _ => sep) prev s 0 = collapsed sep false s.
Proof.
  induction s as [|c s IH]; intros prev.
  - split; reflexivity.
  - assert (H0 : replace_scan false (plus space) (fun _ => sep) prev (String c s) 0
                 = collapsed sep false (String c s)).
    { cbn [replace_scan]. rewrite match_here_spaces.
      cbn [collapsed leading_spaces]. destruct (isSpace c) eqn:Hc.
      - cbn [matched]. rewrite take_length by (pose proof (leading_spaces_length s); simpl; lia).
        rewrite (proj1 (IH (Some c))). reflexivity.
      - now rewrite (proj2 (IH (Some c))). }
    split; [|exact H0].
    cbn [leading_spaces collapsed]. destruct (isSpace c) eqn:Hc.
    + cbn [replace_scan]. apply IH.
    + rewrite H0. cbn [collapsed]. now rewrite Hc.
Qed.

Lemma rev_string_acc (s : string) : forall acc,
  rev_string s acc = rev_string s "" ++ acc.
Proof.
  induction s as [|c s IH]; intros acc; simpl; [reflexivity|].
  rewrite IH, (IH (String c "")), append_assoc. reflexivity.
Qed.

Lemma rev_string_append (a b : string) :
  rev_string (a ++ b) "" = rev_string b "" ++ rev_string a "".
Proof.
  induction a as [|c a IH]; simpl; [now rewrite append_empty_r|].
  rewrite rev_string_acc, IH, (rev_string_acc a (String c "")), append_assoc. reflexivity.
Qed.

Lemma trimStart_append (a b : string) :
  trimStart (a ++ b) = match trimStart a with
                       | EmptyString => trimStart b
                       | t => t ++ b
                       end.
Proof.
  induction a as [|c a IH]; simpl; [now destruct (trimStart b)|].
  destruct (isSpace c); [exact IH | reflexivity].
Qed.

(** Trimming the reversed text and reversing again trims the end. *)
Lemma trim_end (s : string) :
  rev_string (trimStart (rev_string s "")) "" = without_trailing s.
Proof.
  induction s as [|c s IH]; [reflexivity|].
  cbn [rev_string without_trailing].
  rewrite (rev_string_acc s (String c "")), trimStart_append.
  rewrite <- IH.
  destruct (trimStart (rev_string s "")) as [|d t] eqn:Ht.
  - cbn [rev_string trimStart]. now destruct (isSpace c).
  - rewrite rev_string_append. cbn [rev_string append].
    destruct (rev_string t (String d "")) eqn:Hr; [|reflexivity].
    rewrite rev_string_acc in Hr. destruct (rev_string t ""); discriminate.
Qed.

Lemma trim_without_trailing (s : string) : trim s = without_trailing (trimStart s).
Proof. unfold trim. apply trim_end. Qed.

Lemma trimStart_collapsed (s : string) (in_run : bool) :
  trimStart (collapsed " " in_run s) = collapsed " " true s.
Proof.
  revert in_run. induction s as [|c s IH]; intros in_run; [reflexivity|].
  cbn [collapsed]. destruct (isSpace c) eqn:Hc.
  - destruct in_run; [apply IH|]. cbn [append trimStart].
    change (isSpace " ") with true. cbv iota. apply IH.
  - cbn [trimStart]. now rewrite Hc.
Qed.

Lemma without_trailing_word (c : ascii) (s : string) :
  isSpace c = false -> without_trailing (String c s) = String c (without_trailing s).
Proof. intros Hc. cbn [without_trailing]. rewrite Hc. now destruct (without_trailing s). Qed.

Lemma single_spaced_collapsed (s : string) :
  (forall pending,
     single_spaced false pending s = without_trailing (collapsed " " true s)) /\
  single_spaced true false s = without_trailing (collapsed " " false s) /\
  single_spaced true true s =
    match without_trailing (collapsed " " true s) with
    | EmptyString => EmptyString
    | t => String " " t
    end.
Proof.
  induction s as [|c s [IH1 [IH2 IH3]]]; [repeat split|].
  cbn [single_spaced collapsed]. destruct (isSpace c) eqn:Hc.
  - split; [intros pending; apply IH1|]. split; [|exact IH3].
    rewrite IH3. cbn [append without_trailing]. change (isSpace " ") with true.
    now destruct (without_trailing (collapsed " " true s)).
  - cbn [andb]. rewrite !(without_trailing_word c _ Hc), IH2.
    split; [reflexivity|]. split; reflexivity.
Qed.

(** The code's [normalize] gives the words of the query with single
    spaces between them. *)
Lemma normalize_single_spaced (query : string) :
  PortugueseTranslator.normalize query = single_spaced false false query.
Proof.
  unfold PortugueseTranslator.normalize, replace_all.
  rewrite (proj2 (replace_spaces_collapsed " " query None)).
  rewrite trim_without_trailing, trimStart_collapsed.
  symmetry. apply single_spaced_collapsed.
Qed.

Lemma single_spaced_again (s : string) :
  (forall p p', single_spaced false p' (single_spaced false p s) = single_spaced false p s) /\
  single_spaced true false (single_spaced true false s) = single_spaced true false s /\
  single_spaced true false (single_spaced true true s) = single_spaced true true s.
Proof.
  induction s as [|c s [IH1 [IH2 IH3]]]; [repeat split|].
  cbn [single_spaced]. destruct (isSpace c) eqn:Hc.
  - split; [intros p p'; apply IH1|]. split; exact IH3.
  - cbn [andb single_spaced]. rewrite Hc. cbn [andb]. rewrite IH2.
    split; [reflexivity|]. split; [reflexivity|].
    change (isSpace " ") with true. reflexivity.
Qed.

(** X24.  [normalize] gives the words of the query with one space
    between two of them and no white space before the first or after the
    last; it changes nothing in a text it has returned; and what
    [convertQuery] returns is left as it is by [normalize]: a translated
    query is always in this form. *)
Theorem convertQuery_normalized (query : string) :
  PortugueseTranslator.normalize query = single_spaced false false query /\
  PortugueseTranslator.normalize (PortugueseTranslator.normalize query) =
    PortugueseTranslator.normalize query /\
  PortugueseTranslator.normalize (PortugueseTranslator.convertQuery query) =
    PortugueseTranslator.convertQuery query.
Proof.
  assert (Hagain : forall s, PortugueseTranslator.normalize (PortugueseTranslator.normalize s) =
                             PortugueseTranslator.normalize s).
  { intros s. rewrite !normalize_single_spaced. apply single_spaced_again. }
  split; [apply normalize_single_spaced|]. split; [apply Hagain|].
  unfold PortugueseTranslator.convertQuery, PortugueseTranslator.TRANSLATION_RULES.
  cbn [fold_left]. apply Hagain.
Qed.

End WordFacts.

(** ** Ids and release groups read from texts *)

Section RunFacts.
Import JS Occurrence HashSpec.

(** A greedy repetition takes the whole run of characters of the set at
    hand when what follows the run matches. *)
Lemma match_rep_run (R : Type) (ic : bool) (a : atom) (k : cont R) (cs : captures)
      (r : R) (after : string) :
  match after with
  | String c _ => atom_has ic a c = false
  | EmptyString => True
  end ->
  (forall p, k p after cs = Some r) ->
  forall run lo prev,
    all_chars (atom_has ic a) run = true -> (lo <= String.length run)%nat ->
    match_rep R ic a lo None prev (run ++ after) cs k = Some r.
Proof.
  intros Hafter Hk. induction run as [|c run IH]; intros lo prev Hall Hlo.
  - simpl in Hlo. replace lo with 0%nat by lia. cbn [append].
    destruct after as [|c after]; cbn [match_rep Nat.eqb andb]; [apply Hk|].
    rewrite Hafter. apply Hk.
  - simpl in Hall. apply andb_true_iff in Hall. destruct Hall as [Hc Hs].
    cbn [append match_rep andb option_map]. rewrite Hc.
    rewrite (IH (Nat.pred lo) (Some c) Hs) by (simpl in Hlo; lia). reflexivity.
Qed.

Lemma search_from_here (ic : bool) (r : regex) (prev : option ascii) (s : string)
      (m : rmatch_result) :
  match_here ic r prev s = Some m -> search_from ic r prev s = Some m.
Proof. intros H. destruct s; cbn [search_from]; now rewrite H. Qed.

Lemma search_from_next (ic : bool) (r : regex) (prev : option ascii) (c : ascii) (s : string) :
  match_here ic r prev (String c s) = None ->
  search_from ic r prev (String c s) = search_from ic r (Some c) s.
Proof. intros H. cbn [search_from]. now rewrite H. Qed.

End RunFacts.

Section IdFacts.
Import JS Q1N Occurrence HashSpec Q1NSpec Q1NExtraSpec IdSpec.

Lemma not_slash_atom (c : ascii) :
  atom_has false (NotSet [CChar "/"]) c = negb (ascii_eqb "/" c).
Proof. unfold atom_has, set_has. simpl. now rewrite !orb_false_r. Qed.

Lemma ANIME_ID_capture (prev : option ascii) (s : string) (m : rmatch_result) :
  match_here false Provider.ANIME_ID prev s = Some m -> group_text 1 m <> "".
Proof.
  unfold match_here, Provider.ANIME_ID. cbn [rseq rmatch plus]. intros H.
  apply match_str_sound in H. destruct H as [r1 [a1 [p1 [-> [_ H]]]]]. cbn beta in H.
  apply match_rep_sound in H. destruct H as [g [a2 [p2 [-> [_ [Hlen [_ H]]]]]]].
  cbn beta in H. inversion H; subst m; clear H.
  unfold group_text, group. cbn [groups capture Nat.eqb]. rewrite take_read.
  destruct g; [simpl in Hlen; lia | discriminate].
Qed.

Lemma EPISODE_ID_capture (prev : option ascii) (s : string) (m : rmatch_result) :
  match_here false Provider.EPISODE_ID prev s = Some m -> group_text 1 m <> "".
Proof.
  unfold match_here, Provider.EPISODE_ID. cbn [rseq rmatch plus]. intros H.
  apply match_str_sound in H. destruct H as [r1 [a1 [p1 [-> [_ H]]]]]. cbn beta in H.
  apply match_rep_sound in H. destruct H as [g [a2 [p2 [-> [_ [Hlen [_ H]]]]]]].
  cbn beta in H. inversion H; subst m; clear H.
  unfold group_text, group. cbn [groups capture Nat.eqb]. rewrite take_read.
  destruct g; [simpl in Hlen; lia | discriminate].
Qed.

Lemma LAST_SEGMENT_capture (prev : option ascii) (s : string) (m : rmatch_result) :
  match_here false Provider.LAST_SEGMENT prev s = Some m -> group_text 1 m <> "".
Proof.
  unfold match_here, Provider.LAST_SEGMENT. cbn [rseq rmatch plus opt]. intros H.
  apply match_str_sound in H. destruct H as [r1 [a1 [p1 [-> [_ H]]]]]. cbn beta in H.
  apply match_rep_sound in H. destruct H as [g [a2 [p2 [-> [_ [Hlen [_ H]]]]]]].
  cbn beta in H.
  apply match_rep_sound in H. destruct H as [r3 [a3 [p3 [-> [_ [_ [_ H]]]]]]].
  cbn beta in H. destruct a3; [|discriminate].
  inversion H; subst m; clear H.
  unfold group_text, group. cbn [groups capture Nat.eqb]. rewrite take_read.
  destruct g; [simpl in Hlen; lia | discriminate].
Qed.

Lemma js_match_capture (r : regex) (s : string) (m : rmatch_result) :
  (forall prev suffix m', match_here false r prev suffix = Some m' -> group_text 1 m' <> "") ->
  js_match false r s = Some m -> group_text 1 m <> "".
Proof.
  intros Hr H. apply js_match_position in H.
  destruct H as [before [p [suffix [_ [Hhere _]]]]]. exact (Hr _ _ _ Hhere).
Qed.

Lemma extractIdFromUrl_not_empty (url : string) :
  url <> "" -> Provider.extractIdFromUrl url <> "".
Proof.
  intros Hurl. unfold Provider.extractIdFromUrl.
  destruct (js_match false Provider.ANIME_ID url) as [m|] eqn:H1;
    [exact (js_match_capture _ _ _ ANIME_ID_capture H1)|].
  destruct (js_match false Provider.LAST_SEGMENT url) as [m|] eqn:H2;
    [exact (js_match_capture _ _ _ LAST_SEGMENT_capture H2) | exact Hurl].
Qed.

Lemma extractEpisodeIdFromUrl_not_empty (url : string) :
  url <> "" -> Provider.extractEpisodeIdFromUrl url <> "".
Proof.
  intros Hurl. unfold Provider.extractEpisodeIdFromUrl.
  destruct (js_match false Provider.EPISODE_ID url) as [m|] eqn:H1;
    [exact (js_match_capture _ _ _ EPISODE_ID_capture H1)|].
  destruct (js_match false Provider.LAST_SEGMENT url) as [m|] eqn:H2;
    [exact (js_match_capture _ _ _ LAST_SEGMENT_capture H2) | exact Hurl].
Qed.

(** The id read from the address built for a slug. *)
Lemma extractIdFromUrl_buildAnimeUrl (slug : string) :
  slug <> "" -> no_slash slug ->
  Provider.extractIdFromUrl (Provider.buildAnimeUrl slug) = slug.
Proof.
  intros Hne Hslash. unfold Provider.extractIdFromUrl, Provider.buildAnimeUrl, API_BASE.
  assert (Hm : js_match false Provider.ANIME_ID ("https://q1n.net" ++ "/animes/" ++ slug ++ "/") =
               Some (MkMatch ("animes/" ++ slug) [(1%nat, slug)] "/")).
  { unfold js_match. cbn [append].
    do 16 (rewrite search_from_next by reflexivity).
    apply search_from_here.
    unfold match_here, Provider.ANIME_ID. cbn [rseq rmatch plus match_str].
    change (char_eq false "a" "a") with true. change (char_eq false "n" "n") with true.
    change (char_eq false "i" "i") with true. change (char_eq false "m" "m") with true.
    change (char_eq false "e" "e") with true. change (char_eq false "s" "s") with true.
    change (char_eq false "/" "/") with true. cbv iota.
    apply match_rep_run.
    - reflexivity.
    - intros p. f_equal. f_equal.
      + change (String "a" (String "n" (String "i" (String "m" (String "e" (String "s"
                 (String "/" (slug ++ "/"))))))))
          with (("animes/" ++ slug) ++ "/").
        apply take_read.
      + f_equal. f_equal. apply take_read.
    - rewrite (all_chars_ext _ _ slug not_slash_atom). exact Hslash.
    - destruct slug; [contradiction | simpl; lia]. }
  rewrite Hm. reflexivity.
Qed.

(** X25.  The id of an anime is never empty when its address is not; and
    the id read from the address that [buildAnimeUrl] builds for a slug
    that is not empty and has no slash is the slug again, so the id of a
    search result leads [findEpisodes] to the page it was read from. *)
Theorem extractIdFromUrl_round_trip (slug : string) :
  slug <> "" -> no_slash slug ->
  Provider.extractIdFromUrl (Provider.buildAnimeUrl slug) = slug /\
  (forall url, url <> "" -> Provider.extractIdFromUrl url <> "").
Proof.
  intros Hne Hslash. split; [now apply extractIdFromUrl_buildAnimeUrl|].
  apply extractIdFromUrl_not_empty.
Qed.

Lemma extractIdFromUrl_round_trip_witness :
  Provider.extractIdFromUrl (Provider.buildAnimeUrl "one-piece") = "one-piece".
Proof.
  apply (extractIdFromUrl_round_trip "one-piece"); [discriminate | reflexivity].
Defined.

Lemma parseEpisodeElement_named (element : Selection) (episode : EpisodeDetails) :
  Provider.parseEpisodeElement element = Some episode -> named_episode episode.
Proof.
  unfold Provider.parseEpisodeElement. cbv zeta.
  destruct (attr _ "href") as [epUrl|]; [|discriminate].
  destruct (truthy epUrl) eqn:Hu; cbn [negb]; [|discriminate].
  apply truthy_not_empty in Hu.
  intros H. inversion H; subst episode; clear H. unfold named_episode. cbn [ep_id ep_url ep_title].
  split; [now apply extractEpisodeIdFromUrl_not_empty|]. split; [exact Hu|].
  destruct (truthy (trim (text _))) eqn:Ht; [now apply truthy_not_empty | discriminate].
Qed.

Lemma episodesOfLists_named (doc : Document) (selectors : list string) :
  Forall named_episode (Provider.episodesOfLists doc selectors).
Proof.
  induction selectors as [|selector more IH]; cbn [Provider.episodesOfLists]; [constructor|].
  cbv zeta. destruct (0 <? List.length (doc selector))%nat; [|exact IH].
  apply Forall_flat_map_all. intros element.
  destruct (Provider.parseEpisodeElement [element]) as [episode|] eqn:He; [|constructor].
  constructor; [|constructor]. exact (parseEpisodeElement_named _ _ He).
Qed.

Lemma scanEpisodePages_named (host : Host) (animeSlug : string) (remaining : nat) :
  forall i, Forall named_episode (Provider.scanEpisodePages host animeSlug i remaining).
Proof.
  induction remaining as [|remaining IH]; intros i; [constructor|].
  rewrite scanEpisodePages_step.
  destruct (fetch host "HEAD" (Provider.buildEpisodeUrl animeSlug i)) as [response|];
    [|constructor].
  destruct (ok response).
  - constructor; [|apply IH]. unfold named_episode. cbn [ep_id ep_url ep_title].
    split; [destruct animeSlug; discriminate|]. split; discriminate.
  - destruct (1 <? i)%nat; [constructor | apply IH].
Qed.

(** X26.  [findEpisodes] always returns a list, and every episode in it
    has an id, an address and a title that are not empty, whether it was
    read from the anime page or found by the scan of the episode pages. *)
Theorem findEpisodes_named (host : Host) (id : string) :
  exists episodes,
    Provider.findEpisodes host id = Normal episodes /\ Forall named_episode episodes.
Proof.
  assert (Hscan : Forall named_episode (Provider.findEpisodesFromEpisodePages host id))
    by apply scanEpisodePages_named.
  revert Hscan. unfold Provider.findEpisodes.
  generalize (Provider.findEpisodesFromEpisodePages host id). intros scanned Hscan.
  destruct (negb (Provider.isValidAnimeId id));
    [exists []; split; [reflexivity | constructor]|].
  destruct (Provider.fetchHtml host (Provider.buildAnimeUrl id)) as [html|];
    [|exists scanned; split; [reflexivity | exact Hscan]].
  destruct (negb (truthy html)); [exists scanned; split; [reflexivity | exact Hscan]|].
  unfold Provider.parseEpisodesFromAnimePage, Provider.loadDocument, bind, try_catch.
  destruct (LoadDoc host html) as [[doc|]|];
    try (exists []; split; [reflexivity | constructor]).
  pose proof (episodesOfLists_named doc SELECTORS.EPISODES_LISTS) as Hparsed.
  destruct (Provider.episodesOfLists doc SELECTORS.EPISODES_LISTS) as [|e parsed];
    [exists scanned; split; [reflexivity | exact Hscan]|].
  eexists. split; [reflexivity|].
  unfold Provider.sortEpisodes. now apply sort_Forall.
Qed.

End IdFacts.

Section ReleaseGroupFacts.
Import JS DarkMahou Occurrence HashSpec IdSpec.

Lemma not_bracket_atom (c : ascii) :
  atom_has false (NotSet [CChar "]"]) c = negb (ascii_eqb "]" c).
Proof. unfold atom_has, set_has. simpl. now rewrite !orb_false_r. Qed.

(** X27.  [extractReleaseGroup] gives a text [g] that is not empty
    exactly when the name begins with [g] between square brackets and [g]
    has no closing bracket; in every other case it gives the empty text. *)
Theorem extractReleaseGroup_brackets (name g : string) :
  g <> "" ->
  (TorrentParser.extractReleaseGroup name = g <->
   exists rest, name = "[" ++ g ++ "]" ++ rest /\ no_bracket g).
Proof.
  intros Hg. unfold TorrentParser.extractReleaseGroup. split.
  - destruct (js_match false RELEASE_GROUP name) as [m|] eqn:Hm;
      [|intros H; now elim Hg].
    apply js_match_leftmost in Hm. destruct Hm as [i [Hi _]].
    unfold occurrence, occurrence_from in Hi.
    destruct (position i None name) as [[p suffix]|] eqn:Hpos; [|discriminate].
    destruct i as [|i].
    + simpl in Hpos. inversion Hpos; subst p suffix; clear Hpos.
      unfold match_here, RELEASE_GROUP in Hi. cbn [rseq rmatch plus] in Hi.
      apply match_str_exact in Hi. destruct Hi as [a1 [p1 [-> H]]]. cbn beta in H.
      apply match_rep_sound in H. destruct H as [run [a2 [p2 [-> [Hall [_ [_ H]]]]]]].
      cbn beta in H.
      apply match_str_exact in H. destruct H as [rest [p3 [-> H]]].
      inversion H; subst m; clear H.
      unfold group. cbn [groups capture Nat.eqb]. rewrite take_read.
      intros ->. exists rest. split; [reflexivity|].
      unfold no_bracket. rewrite <- (all_chars_ext _ _ g not_bracket_atom). exact Hall.
    + apply position_later in Hpos as Hp. destruct Hp as [c ->].
      unfold match_here, RELEASE_GROUP in Hi. cbn [rseq rmatch] in Hi. discriminate.
  - intros [rest [-> Hall]].
    assert (Hm : js_match false RELEASE_GROUP ("[" ++ g ++ "]" ++ rest) =
                 Some (MkMatch ("[" ++ g ++ "]") [(1%nat, g)] rest)).
    { unfold js_match. apply search_from_here.
      unfold match_here, RELEASE_GROUP. cbn [rseq rmatch plus append match_str].
      change (char_eq false "[" "[") with true. cbv iota.
      apply match_rep_run.
      - reflexivity.
      - intros p. cbn [append match_str]. change (char_eq false "]" "]") with true.
        cbv iota. f_equal. f_equal.
        + replace (String "[" (g ++ String "]" rest)) with (String "[" (g ++ "]") ++ rest)
            by (cbn [append]; now rewrite append_assoc).
          apply take_read.
        + f_equal. f_equal. apply (take_read g (String "]" rest)).
      - rewrite (all_chars_ext _ _ g not_bracket_atom). exact Hall.
      - destruct g; [contradiction | simpl; lia]. }
    rewrite Hm. reflexivity.
Qed.

Lemma extractReleaseGroup_brackets_witness :
  TorrentParser.extractReleaseGroup "[SubsPlease] Frieren - 01 (1080p).mkv" = "SubsPlease".
Proof.
  apply (extractReleaseGroup_brackets "[SubsPlease] Frieren - 01 (1080p).mkv" "SubsPlease");
    [discriminate|].
  exists " Frieren - 01 (1080p).mkv". split; reflexivity.
Defined.

End ReleaseGroupFacts.

(** ** DarkMahou: the pages a search follows *)

Section CaseFacts.
Import JS DarkMahou Occurrence HashSpec IdSpec SiteSpec.

Lemma all_code_units_complete (c : ascii) : In c all_code_units.
Proof.
  unfold all_code_units. rewrite <- (ascii_nat_embedding c).
  apply in_map, in_seq. pose proof (nat_ascii_bounded c). lia.
Qed.

Lemma folds_checked :
  forallb (fun p => forallb (folds_to p) all_code_units)
          (filter (fun c => (code c <? 128)%N) all_code_units) = true.
Proof. vm_compute. reflexivity. Qed.

Lemma ascii_eqb_eq (a b : ascii) : ascii_eqb a b = true -> a = b.
Proof.
  unfold ascii_eqb, code. intros H. apply N.eqb_eq in H.
  rewrite <- (ascii_N_embedding a), <- (ascii_N_embedding b). now rewrite H.
Qed.

(** Matching an ASCII character without regard to case fixes the lower
    case of what is read. *)
Lemma char_eq_lower (p c : ascii) :
  (code p <? 128)%N = true -> char_eq true p c = true -> lower_char c = lower_char p.
Proof.
  intros Hp Hc. pose proof folds_checked as H.
  rewrite forallb_forall in H.
  specialize (H p (proj2 (filter_In _ _ _) (conj (all_code_units_complete p) Hp))).
  rewrite forallb_forall in H. specialize (H c (all_code_units_complete c)).
  unfold folds_to in H. rewrite Hc in H. now apply ascii_eqb_eq.
Qed.

Lemma match_str_icase (R : Type) (k : cont R) (cs : captures) (r : R) :
  forall p s prev,
    ascii_only p ->
    match_str R true p prev s cs k = Some r ->
    exists read after prev',
      s = read ++ after /\ toLowerCase read = toLowerCase p /\
      k prev' after cs = Some r.
Proof.
  unfold ascii_only.
  induction p as [|pc p IH]; intros s prev Hp H; cbn [match_str] in H.
  - exists "", s, prev. auto.
  - destruct s as [|c s]; [discriminate|].
    simpl in Hp. apply andb_true_iff in Hp. destruct Hp as [Hpc Hp].
    destruct (char_eq true pc c) eqn:Hc; [|discriminate].
    apply (IH _ _ Hp) in H. destruct H as [read [after [prev' [Heq [Hlow Hk]]]]].
    exists (String c read), after, prev'. subst s. simpl.
    rewrite Hlow, (char_eq_lower pc c Hpc Hc). auto.
Qed.

Lemma toLowerCase_append (a b : string) :
  toLowerCase (a ++ b) = toLowerCase a ++ toLowerCase b.
Proof. induction a as [|c a IH]; simpl; [reflexivity | now rewrite IH]. Qed.

Lemma not_slash_lower (run : string) :
  all_chars (atom_has true (NotSet [CChar "/"])) run = true -> no_slash (toLowerCase run).
Proof.
  unfold no_slash. induction run as [|c run IH]; simpl; [reflexivity|].
  intros H. apply andb_true_iff in H. destruct H as [Hc Hrun].
  rewrite (IH Hrun), andb_true_r.
  unfold atom_has, set_has in Hc. simpl in Hc.
  rewrite orb_false_r in Hc. apply negb_true_iff in Hc.
  apply orb_false_iff in Hc. destruct Hc as [_ Hc].
  apply orb_false_iff in Hc. destruct Hc as [_ Hc]. now rewrite Hc.
Qed.

(** The address an anchor of the pattern carries is a page of the site. *)
Lemma ANIME_PAGE_LINK_capture (prev : option ascii) (s : string) (m : rmatch_result) :
  match_here true ANIME_PAGE_LINK prev s = Some m -> on_site (group_text 1 m).
Proof.
  unfold match_here, ANIME_PAGE_LINK. cbn [rseq rmatch plus star]. intros H.
  apply match_str_sound in H. destruct H as [r1 [a1 [p1 [-> [_ H]]]]]. cbn beta in H.
  apply match_rep_sound in H. destruct H as [r2 [a2 [p2 [-> [_ [_ [_ H]]]]]]]. cbn beta in H.
  apply match_str_sound in H. destruct H as [r3 [a3 [p3 [-> [_ H]]]]]. cbn beta in H.
  destruct a3 as [|q sg]; [discriminate|].
  destruct (atom_has true (Lit dquote) q); [|discriminate].
  apply match_str_icase in H; [|reflexivity].
  destruct H as [site [a4 [p4 [-> [Hsite H]]]]]. cbn beta in H.
  apply match_rep_sound in H. destruct H as [run [a5 [p5 [-> [Hrun [Hlen [_ H]]]]]]].
  cbn beta in H.
  apply match_str_icase in H; [|reflexivity].
  destruct H as [slash [a6 [p6 [-> [Hslash H]]]]]. cbn beta in H.
  destruct a6 as [|q2 a6]; [discriminate|].
  destruct (atom_has true (Lit dquote) q2); [|discriminate].
  apply match_rep_sound in H. destruct H as [r7 [a7 [p7 [-> [_ [_ [_ H]]]]]]]. cbn beta in H.
  apply match_str_sound in H. destruct H as [r8 [a8 [p8 [-> [_ H]]]]]. cbn beta in H.
  destruct a8 as [|q3 a8]; [discriminate|].
  destruct (atom_has true (Lit dquote) q3); [|discriminate].
  apply match_rep_sound in H. destruct H as [r9 [a9 [p9 [-> [_ [_ [_ H]]]]]]]. cbn beta in H.
  destruct a9 as [|q4 a9]; [discriminate|].
  destruct (atom_has true (Lit dquote) q4); [|discriminate].
  apply match_rep_sound in H. destruct H as [r10 [a10 [p10 [-> [_ [_ [_ H]]]]]]].
  cbn beta in H.
  apply match_str_sound in H. destruct H as [r11 [a11 [p11 [-> [_ H]]]]]. cbn beta in H.
  inversion H; subst m; clear H.
  unfold group_text, group. cbn [groups capture Nat.eqb].
  match goal with
  | |- on_site (take (String.length (site ++ run ++ slash ++ ?rest) - ?n) _) =>
      change n with (String.length rest);
      rewrite <- (append_assoc run slash rest), <- (append_assoc site (run ++ slash) rest),
        take_read
  end.
  exists (toLowerCase run). rewrite !toLowerCase_append, Hsite, Hslash.
  split; [reflexivity|]. split; [|now apply not_slash_lower].
  destruct run; [simpl in Hlen; lia | discriminate].
Qed.

Lemma extractPageURL_on_site (html query : string) :
  AnimePageExtractor.extractPageURL html query = "" \/
  on_site (AnimePageExtractor.extractPageURL html query).
Proof.
  unfold AnimePageExtractor.extractPageURL.
  rewrite selectBestMatch_head, collectLinks_candidates.
  destruct (hd_error _) as [b|] eqn:Hb; [right | now left].
  apply hd_error_In in Hb.
  apply (Permutation_in _ (Permutation_sym (sort_perm _ PageSpec.by_score_desc _))) in Hb.
  apply filter_In in Hb. destruct Hb as [Hin _].
  unfold PageSpec.candidates in Hin. apply in_map_iff in Hin.
  destruct Hin as [[url title] [<- Hin]]. apply filter_In in Hin.
  destruct Hin as [Hin _]. cbn [sm_url].
  unfold PageSpec.anchors in Hin. apply in_map_iff in Hin.
  destruct Hin as [m [Heq Hm]]. inversion Heq; subst.
  unfold exec_all in Hm. apply scan_In in Hm. destruct Hm as [p [suffix Hm]].
  exact (ANIME_PAGE_LINK_capture _ _ _ Hm).
Qed.

Lemma created_link (pageURL : string) (clock : nat -> string)
      (makers : list (string -> AnimeTorrent)) :
  Forall (TorrentSpec.good_maker pageURL) makers ->
  forall n, Forall (fun t => t_link t = pageURL) (Provider.created clock n makers).
Proof.
  induction 1 as [|make more Hmake _ IH]; intros n; simpl; [constructor|].
  constructor; [|apply IH].
  destruct Hmake as [name [link [res [title [_ ->]]]]]. reflexivity.
Qed.

Lemma created_all (P : AnimeTorrent -> Prop) (clock : nat -> string)
      (makers : list (string -> AnimeTorrent)) :
  Forall (fun make => forall date, P (make date)) makers ->
  forall n, Forall P (Provider.created clock n makers).
Proof.
  induction 1 as [|make more Hmake _ IH]; intros n; simpl; [constructor|].
  constructor; [apply Hmake | apply IH].
Qed.

Lemma parseTorrentsFromHTML_link (host : Host) (html pageURL : string) :
  Forall (fun t => t_link t = pageURL) (Provider.parseTorrentsFromHTML host html pageURL).
Proof.
  assert (Hdoc : Forall (fun t => t_link t = pageURL)
                        (Provider.parseWithLoadDoc host html pageURL)).
  { unfold Provider.parseWithLoadDoc.
    destruct (LoadDoc host html) as [[doc|]|]; try constructor.
    apply created_link.
    apply Forall_flat_map_all. intros element. cbv beta. apply rowTorrents_good. }
  assert (Hregex : Forall (fun t => t_link t = pageURL)
                          (Provider.parseWithRegexFallback host html pageURL)).
  { unfold Provider.parseWithRegexFallback. cbv zeta.
    apply created_all. apply Forall_forall. intros make Hin.
    apply in_map_iff in Hin. destruct Hin as [[index link] [<- _]].
    intros date. reflexivity. }
  unfold Provider.parseTorrentsFromHTML.
  destruct (Provider.parseWithLoadDoc host html pageURL); [exact Hregex | exact Hdoc].
Qed.

(** X28.  The page [extractPageURL] chooses is a page of the site: its
    address, in lower case, is [https://darkmahou.org/], one segment that
    is not empty and has no slash, and a slash; so the page a search
    fetches its torrents from, which every torrent it returns names as
    its link, is never a page of another site. *)
Theorem search_stays_on_site (host : Host) :
  (forall html query,
      AnimePageExtractor.extractPageURL html query = "" \/
      on_site (AnimePageExtractor.extractPageURL html query)) /\
  (forall opts results,
      Provider.search host opts = Normal results ->
      Forall (fun t => on_site (t_link t)) results).
Proof.
  split; [apply extractPageURL_on_site|].
  intros opts results.
  unfold Provider.search, Provider.fetchTorrentsFromAnimePage.
  destruct (Provider.searchURL opts) as [url|]; cbn [bind]; [|discriminate].
  destruct (HTTPClient.fetchWithUserAgent host url) as [[data|]|];
    cbn [bind]; try (intros H; inversion H; constructor).
  destruct (extractPageURL_on_site data (PortugueseTranslator.parse (so_query opts)))
    as [Hempty | Hsite].
  - rewrite Hempty. cbn. intros H; inversion H; constructor.
  - destruct (truthy (AnimePageExtractor.extractPageURL data _)); cbn [negb];
      [|intros H; inversion H; constructor].
    destruct (HTTPClient.fetchWithUserAgent host _) as [[page|]|];
      cbn [bind]; try (intros H; inversion H; constructor).
    intros H. inversion H.
    eapply Forall_impl; [|apply parseTorrentsFromHTML_link].
    intros t Ht. cbn beta in Ht. rewrite Ht. exact Hsite.
Qed.

Lemma search_stays_on_site_witness :
  exists results,
    Provider.search (SmartSearchSpec.example_host (fun _ => ""))
                    (MkSearchOptions (MkMedia None None) "naruto") = Normal results /\
    map t_link results = ["https://darkmahou.org/naruto/"; "https://darkmahou.org/naruto/"] /\
    Forall (fun t => on_site (t_link t)) results.
Proof.
  destruct (Provider.search (SmartSearchSpec.example_host (fun _ => ""))
                            (MkSearchOptions (MkMedia None None) "naruto"))
    as [results|] eqn:Hs; [|vm_compute in Hs; discriminate].
  exists results. split; [reflexivity|].
  split; [vm_compute in Hs; inversion Hs; reflexivity|].
  exact (proj2 (search_stays_on_site _) _ _ Hs).
Defined.

End CaseFacts.
